(** * Log-analysis programs: hash index, aggregate queries, merge sort and range search

    Shallow embedding of the four programs of the repository

    - [Act52]: per-network summary (open-addressed table, linear probing),
    - [Act43]: network / host hierarchy with the two max-count queries,
    - [Act34]: top-5 addresses by number of accesses,
    - [Act23]: merge sort of a doubly linked list and range search,

    followed by the properties proved about them.

    Conventions.  C++ [int] / [long long] values are integers of [Z]; signed
    overflow is undefined behaviour in the source, so no wrap-around is
    written for them and the theorems never rely on values outside the
    machine range.  Unsigned arithmetic is written with its wrap-around.
    [std::string] is [string]; a fixed-size global array is a [list] of its
    length, read with [nth] and written with [upd]. *)

From Stdlib Require Import ZArith List String Ascii Bool Lia Permutation Sorted.
From Stdlib Require Import DecimalString DecimalPos.
Import ListNotations.

Open Scope Z_scope.

(** ** Shared helpers *)

Module Util.

(** In-place write [a[i] = x] of an array held as a list. *)
Fixpoint upd {A : Type} (l : list A) (i : nat) (x : A) : list A :=
  match l, i with
  | [], _ => []
  | _ :: t, O => x :: t
  | h :: t, S j => h :: upd t j x
  end.

(** The line terminator written by [endl] and ["\n"]. *)
Definition endl : string := String (ascii_of_nat 10) EmptyString.

(** [operator<<] on an [int]. *)
Definition show_int (z : Z) : string := NilZero.string_of_int (Z.to_int z).

(** Value of a [char] as the [unsigned char] it is cast to. *)
Definition uchar (c : ascii) : Z := Z.of_nat (nat_of_ascii c).

(** Value of a plain [char] in integer arithmetic (signed, as on the
    usual targets; digits and punctuation are below 128 either way). *)
Definition schar (c : ascii) : Z :=
  let n := uchar c in if n <? 128 then n else n - 256.

(** [std::isspace] in the "C" locale. *)
Definition isspace (c : ascii) : bool :=
  let n := nat_of_ascii c in
  (Nat.eqb n 32 || (Nat.leb 9 n && Nat.leb n 13))%bool.

(** Skip leading white space, as formatted extraction does first. *)
Fixpoint skip_ws (s : string) : string :=
  match s with
  | EmptyString => EmptyString
  | String c r => if isspace c then skip_ws r else s
  end.

(** Characters up to the next white space, and what follows them. *)
Fixpoint take_word (s : string) : string * string :=
  match s with
  | EmptyString => (EmptyString, EmptyString)
  | String c r =>
      if isspace c then (EmptyString, s)
      else let '(w, rest) := take_word r in (String c w, rest)
  end.

(** [stream >> word]: [None] when the extraction fails (nothing left). *)
Definition extract_word (s : string) : option (string * string) :=
  let '(w, rest) := take_word (skip_ws s) in
  match w with
  | EmptyString => None
  | _ => Some (w, rest)
  end.

(** [s.find(c, pos)] for a single character. *)
Definition find_char (c : ascii) (pos : nat) (s : string) : option nat :=
  index pos (String c EmptyString) s.

(** Unsigned 64-bit wrap-around. *)
Definition wrap64 (x : Z) : Z := x mod 2 ^ 64.

(** Unsigned 32-bit wrap-around. *)
Definition wrap32 (x : Z) : Z := x mod 2 ^ 32.

End Util.

Import Util.

(** ** Per-network summary (A01739942_Act5.2/main.cpp) *)

Module Act52.

(** [struct NetworkInfo]; the linked list [uniqueIPs] is the list of its
    nodes' addresses from the head on. *)
Record NetworkInfo : Type := mkNetworkInfo {
  network : string;
  accessCount : Z;
  uniqueIPs : list string;
  connectionCount : Z;
  occupied : bool
}.

(** The two globals [hashTable] and [itemCount]. *)
Record state : Type := mkState {
  hashTable : list NetworkInfo;
  itemCount : Z
}.

(** A slot as [main] initialises it. *)
Definition emptyInfo : NetworkInfo := mkNetworkInfo EmptyString 0 [] 0 false.

(** [TABLE_SIZE] is 65521 in the source; the functions below take the
    capacity as a parameter so that they can also be run on small
    tables. *)
Definition TABLE_SIZE : Z := 65521.

Section Capacity.

Variable C : Z.

(** [hashTable[index]]. *)
Definition slot (st : state) (index : Z) : NetworkInfo :=
  nth (Z.to_nat index) (hashTable st) emptyInfo.

Definition set_slot (st : state) (index : Z) (s : NetworkInfo) : state :=
  mkState (upd (hashTable st) (Z.to_nat index) s) (itemCount st).

(** State after the initialisation loop of [main]. *)
Definition init : state := mkState (repeat emptyInfo (Z.to_nat C)) 0.

(** One round of the loop of [hashFunction]. *)
Definition hash_step (hash : Z) (c : ascii) : Z :=
  let hash := wrap64 (hash * 31 + uchar c) mod C in
  wrap64 (hash + 37) mod C.

Fixpoint hash_chars (hash : Z) (key : string) : Z :=
  match key with
  | EmptyString => hash
  | String c r => hash_chars (hash_step hash c) r
  end.

Definition hashFunction (key : string) : Z := hash_chars 0 key mod C.

Definition extractNetwork (ip : string) : string :=
  match find_char "."%char 0 ip with
  | None => EmptyString
  | Some firstDot =>
      match find_char "."%char (firstDot + 1) ip with
      | None => EmptyString
      | Some secondDot => substring 0 secondDot ip
      end
  end.

Fixpoint ipExists (head : list string) (ip : string) : bool :=
  match head with
  | [] => false
  | current :: next => if String.eqb current ip then true else ipExists next ip
  end.

Definition addIP (head : list string) (ip : string) : list string := ip :: head.

(** [getline(ss, part, '.')] until it fails: the pieces between dots; a
    string that is empty or ends in a dot has no last empty piece.  [cur]
    is the piece being read. *)
Fixpoint dot_parts (cur : string) (s : string) : list string :=
  match s with
  | EmptyString =>
      match cur with EmptyString => [] | _ => [cur] end
  | String c r =>
      if Ascii.eqb c "."%char then cur :: dot_parts EmptyString r
      else dot_parts (cur ++ String c EmptyString)%string r
  end.

(** The inner loop of [parseIPOctets]: decimal value of one piece. *)
Fixpoint octet_value (acc : Z) (part : string) : Z :=
  match part with
  | EmptyString => acc
  | String c r => octet_value (acc * 10 + (schar c - schar "0"%char)) r
  end.

(** [parseIPOctets]: the octets written to [octets[]]; [count] is their
    number (at most 4). *)
Definition parseIPOctets (ip : string) : list Z :=
  map (octet_value 0) (firstn 4 (dot_parts EmptyString ip)).

(** The loop of [compareIPs] over the octets both addresses have. *)
Fixpoint compare_octets (o1 o2 : list Z) : option bool :=
  match o1, o2 with
  | x :: r1, y :: r2 => if x =? y then compare_octets r1 r2 else Some (x <? y)
  | _, _ => None
  end.

Definition compareIPs (ip1 ip2 : string) : bool :=
  let octets1 := parseIPOctets ip1 in
  let octets2 := parseIPOctets ip2 in
  match compare_octets octets1 octets2 with
  | Some b => b
  | None => (Z.of_nat (List.length octets1) <? Z.of_nat (List.length octets2))
  end.

(** The inner [while] of [sortIPList]: walk [search] while the next node
    is smaller than [current], then link [current] after it.  The argument
    is the list that starts at [search->next]. *)
Fixpoint insert_after (current : string) (after : list string) : list string :=
  match after with
  | [] => [current]
  | nxt :: rest =>
      if compareIPs nxt current then nxt :: insert_after current rest
      else current :: after
  end.

(** One round of the outer loop of [sortIPList]. *)
Definition insert_sorted (sorted : list string) (current : string) : list string :=
  match sorted with
  | [] => [current]
  | first :: rest =>
      if compareIPs current first then current :: sorted
      else first :: insert_after current rest
  end.

Definition sortIPList (head : list string) : list string :=
  match head with
  | [] | [_] => head
  | _ => fold_left insert_sorted head []
  end.

(** The empty-cell branch of [insertOrUpdate]. *)
Definition create_slot (st : state) (index : Z) (network ip : string) : state :=
  mkState
    (upd (hashTable st) (Z.to_nat index)
         (mkNetworkInfo network 1 (addIP [] ip) 1 true))
    (itemCount st + 1).

(** The same-network branch of [insertOrUpdate]. *)
Definition update_slot (st : state) (index : Z) (ip : string) : state :=
  let s := slot st index in
  let s' :=
    if negb (ipExists (uniqueIPs s) ip)
    then mkNetworkInfo (network s) (accessCount s + 1)
                       (addIP (uniqueIPs s) ip) (connectionCount s + 1) (occupied s)
    else mkNetworkInfo (network s) (accessCount s + 1)
                       (uniqueIPs s) (connectionCount s) (occupied s) in
  set_slot st index s'.

(** The probing loop of [insertOrUpdate].  [remaining] is
    [TABLE_SIZE - probeCount], so the guard [probeCount < TABLE_SIZE] is
    [remaining > 0]; leaving the loop by the guard or by [break] both
    reach the final [return false]. *)
Fixpoint insert_loop (remaining : nat) (st : state) (network ip : string)
         (originalIndex index : Z) : bool * state :=
  match remaining with
  | O => (false, st)
  | S remaining' =>
      if negb (occupied (slot st index)) then
        (true, create_slot st index network ip)
      else if String.eqb (Act52.network (slot st index)) network then
        (true, update_slot st index ip)
      else
        let index' := (index + 1) mod C in
        if index' =? originalIndex then (false, st)
        else insert_loop remaining' st network ip originalIndex index'
  end.

Definition insertOrUpdate (st : state) (network ip : string) : bool * state :=
  if itemCount st >=? C then (false, st)
  else
    let index := hashFunction network in
    insert_loop (Z.to_nat C) st network ip index index.

(** The probing loop of [searchNetwork], with [remaining] as above. *)
Fixpoint search_loop (remaining : nat) (st : state) (network : string)
         (originalIndex index : Z) : Z :=
  match remaining with
  | O => -1
  | S remaining' =>
      if negb (occupied (slot st index)) then -1
      else if String.eqb (Act52.network (slot st index)) network then index
      else
        let index' := (index + 1) mod C in
        if index' =? originalIndex then -1
        else search_loop remaining' st network originalIndex index'
  end.

Definition searchNetwork (st : state) (network : string) : Z :=
  let index := hashFunction network in
  search_loop (Z.to_nat C) st network index index.

(** *** [main] *)

(** What a run leaves behind: exit status, standard output, diagnostics. *)
Record run : Type := mkRun {
  exit_status : Z;
  out : string;
  err : string
}.

(** [ss >> month >> day >> time >> ipPort]; the result is [ipPort]. *)
Definition read_fields (line : string) : option string :=
  match extract_word line with
  | None => None
  | Some (_, r1) =>
      match extract_word r1 with
      | None => None
      | Some (_, r2) =>
          match extract_word r2 with
          | None => None
          | Some (_, r3) =>
              match extract_word r3 with
              | None => None
              | Some (ipPort, _) => Some ipPort
              end
          end
      end
  end.

(** The address part of ["IP:PUERTO"]. *)
Definition ip_of (ipPort : string) : string :=
  match find_char ":"%char 0 ipPort with
  | Some colonPos => substring 0 colonPos ipPort
  | None => ipPort
  end.

(** Body of the reading loop for one line; [false] is the failed
    [insertOrUpdate] that makes [main] return 1. *)
Definition ingest_line (st : state) (line : string) : bool * state :=
  match line with
  | EmptyString => (true, st)
  | _ =>
      match read_fields line with
      | None => (true, st)
      | Some ipPort =>
          let ip := ip_of ipPort in
          let network := extractNetwork ip in
          match network with
          | EmptyString => (true, st)
          | _ => insertOrUpdate st network ip
          end
      end
  end.

Fixpoint ingest_lines (st : state) (lines : list string) : bool * state :=
  match lines with
  | [] => (true, st)
  | line :: rest =>
      let '(ok, st') := ingest_line st line in
      if ok then ingest_lines st' rest else (false, st')
  end.

(** Lines written for a network that was found. *)
Definition show_found (s : NetworkInfo) : string :=
  (network s ++ endl ++ show_int (accessCount s) ++ endl
   ++ show_int (connectionCount s) ++ endl
   ++ String.concat EmptyString (map (fun ip => ip ++ endl) (uniqueIPs s)))%string.

Definition not_found_message : string := "Red no encontrada".

(** Body of the query loop for one query: its output and the table after
    it (a found network has its address list sorted in place). *)
Definition answer_query (st : state) (queryNetwork : string) : string * state :=
  let index := searchNetwork st queryNetwork in
  if index =? -1 then
    ((queryNetwork ++ endl ++ not_found_message ++ endl)%string, st)
  else
    let s := slot st index in
    let s' := mkNetworkInfo (network s) (accessCount s) (sortIPList (uniqueIPs s))
                            (connectionCount s) (occupied s) in
    (show_found s', set_slot st index s').

(** The query loop; [count] is [n - i].  A failed [cin >> queryNetwork]
    leaves the empty string. *)
Fixpoint query_loop (count : nat) (i n : Z) (st : state) (input : list string)
  : string :=
  match count with
  | O => EmptyString
  | S count' =>
      let queryNetwork := hd EmptyString input in
      let '(text, st') := answer_query st queryNetwork in
      let sep := if i <? n - 1 then endl else EmptyString in
      (text ++ sep ++ query_loop count' (i + 1) n st' (tl input))%string
  end.

(** [main]: [file] is [None] when bitacora.txt cannot be opened, else its
    lines; [n] and [input] are what standard input holds. *)
Definition main (file : option (list string)) (n : Z) (input : list string) : run :=
  match file with
  | None =>
      mkRun 1 EmptyString ("Error: No se pudo abrir el archivo bitacora.txt" ++ endl)
  | Some lines =>
      match ingest_lines init lines with
      | (false, _) =>
          mkRun 1 EmptyString ("Error: Tabla llena, imposible meter más datos" ++ endl)
      | (true, st) =>
          mkRun 0 (query_loop (Z.to_nat n) 0 n st input) EmptyString
      end
  end.

End Capacity.

End Act52.

(** ** Network / host hierarchy (A01739942_Act4.3/main.cpp) *)

Module Act43.

(** [struct Entry]. *)
Record Entry : Type := mkEntry {
  date : string;
  time : string;
  port : string;
  message : string
}.

(** [struct Host]; [entries] holds the first [entryCount] cells of the
    dynamic array, [entryCap] its allocated size. *)
Record Host : Type := mkHost {
  ip : string;
  entries : list Entry;
  entryCount : Z;
  entryCap : Z;
  hused : bool
}.

(** [struct Network]. *)
Record Network : Type := mkNetwork {
  prefix : string;
  uniqueHostCount : Z;
  used : bool
}.

(** The two global tables. *)
Record state : Type := mkState {
  hostTable : list Host;
  networkTable : list Network
}.

Definition emptyHost : Host := mkHost EmptyString [] 0 0 false.
Definition emptyNetwork : Network := mkNetwork EmptyString 0 false.

(** [TABLE_SIZE] of the source; the functions take the capacity as a
    parameter, as in [Act52]. *)
Definition TABLE_SIZE : Z := 1000003.

(** A call that may end the process through [exit]. *)
Inductive result (A : Type) : Type :=
| Ok (a : A)
| Exit (status : Z) (diagnostic : string).
Arguments Ok {A} a.
Arguments Exit {A} status diagnostic.

Section Capacity.

Variable C : Z.

Definition init : state :=
  mkState (repeat emptyHost (Z.to_nat C)) (repeat emptyNetwork (Z.to_nat C)).

Definition host (t : list Host) (h : Z) : Host := nth (Z.to_nat h) t emptyHost.
Definition net (t : list Network) (h : Z) : Network := nth (Z.to_nat h) t emptyNetwork.

(** [hashString], on [unsigned int]. *)
Fixpoint hash_chars (h : Z) (s : string) : Z :=
  match s with
  | EmptyString => h
  | String c r => hash_chars (wrap32 (h * 131 + uchar c)) r
  end.

Definition hashString (s : string) : Z := hash_chars 0 s.

Definition prefixFromIP (ip : string) : string :=
  match find_char "."%char 0 ip with
  | None => ip
  | Some p1 =>
      match find_char "."%char (p1 + 1) ip with
      | None => ip
      | Some p2 => substring 0 p2 ip
      end
  end.

(** [h++; if (h == TABLE_SIZE) h = 0;] *)
Definition next_index (h : Z) : Z :=
  let h := wrap32 (h + 1) in if h =? C then 0 else h.

(** The loop of [getNetworkIndex]; [remaining] is [TABLE_SIZE - pasos].
    [None] is the loop left by its guard. *)
Fixpoint network_loop (remaining : nat) (t : list Network) (prefix : string) (h : Z)
  : option (Z * list Network) :=
  match remaining with
  | O => None
  | S remaining' =>
      if negb (used (net t h)) then
        Some (h, upd t (Z.to_nat h) (mkNetwork prefix 0 true))
      else if String.eqb (Act43.prefix (net t h)) prefix then Some (h, t)
      else network_loop remaining' t prefix (next_index h)
  end.

Definition networks_full : string :=
  ("Error: tabla de redes llena, aumenta TABLE_SIZE" ++ endl)%string.

Definition getNetworkIndex (t : list Network) (prefix : string)
  : result (Z * list Network) :=
  match network_loop (Z.to_nat C) t prefix (hashString prefix mod C) with
  | Some r => Ok r
  | None => Exit 1 networks_full
  end.

(** The loop of [getHostIndex]; the result carries [isNew]. *)
Fixpoint host_loop (remaining : nat) (t : list Host) (ip : string) (h : Z)
  : option (Z * bool * list Host) :=
  match remaining with
  | O => None
  | S remaining' =>
      if negb (hused (host t h)) then
        Some (h, true, upd t (Z.to_nat h) (mkHost ip [] 0 10 true))
      else if String.eqb (Act43.ip (host t h)) ip then Some (h, false, t)
      else host_loop remaining' t ip (next_index h)
  end.

Definition hosts_full : string :=
  ("Error: tabla de hosts llena, aumenta TABLE_SIZE" ++ endl)%string.

Definition getHostIndex (t : list Host) (ip : string)
  : result (Z * bool * list Host) :=
  match host_loop (Z.to_nat C) t ip (hashString ip mod C) with
  | Some r => Ok r
  | None => Exit 1 hosts_full
  end.

(** *** [main] *)

Record run : Type := mkRun {
  exit_status : Z;
  out : string;
  err : string
}.

(** The fields of a line: month, day, time, ["IP:PORT"] and the rest. *)
Definition read_fields (line : string)
  : option (string * string * string * string * string) :=
  match extract_word line with
  | None => None
  | Some (month, r1) =>
      match extract_word r1 with
      | None => None
      | Some (day, r2) =>
          match extract_word r2 with
          | None => None
          | Some (timeStr, r3) =>
              match extract_word r3 with
              | None => None
              | Some (ipPort, r4) => Some (month, day, timeStr, ipPort, r4)
              end
          end
      end
  end.

(** Step 4.3.5: append the entry, doubling the array when it is full. *)
Definition push_entry (h : Host) (e : Entry) : Host :=
  let cap :=
    if entryCount h =? entryCap h
    then (if entryCap h =? 0 then 10 else entryCap h * 2)
    else entryCap h in
  mkHost (ip h) (entries h ++ [e]) (entryCount h + 1) cap (hused h).

(** ["IP:PORT"] split at the colon (4.3.1). *)
Definition split_port (ipPort : string) : string * string :=
  match find_char ":"%char 0 ipPort with
  | Some colonPos =>
      (substring 0 colonPos ipPort,
       substring (colonPos + 1) (String.length ipPort) ipPort)
  | None => (ipPort, EmptyString)
  end.

(** Steps 4.3.3 to 4.3.5 for one record. *)
Definition ingest_record (st : state) (ip : string) (e : Entry) : result state :=
  let prefix := prefixFromIP ip in
  match getHostIndex (hostTable st) ip with
  | Exit status d => Exit status d
  | Ok (hostIndex, isNewHost, hosts) =>
      let after_network :=
        if isNewHost then
          match getNetworkIndex (networkTable st) prefix with
          | Exit status d => Exit status d
          | Ok (netIndex, nets) =>
              let n := net nets netIndex in
              Ok (upd nets (Z.to_nat netIndex)
                      (mkNetwork (Act43.prefix n) (uniqueHostCount n + 1) (used n)))
          end
        else Ok (networkTable st) in
      match after_network with
      | Exit status d => Exit status d
      | Ok nets =>
          Ok (mkState (upd hosts (Z.to_nat hostIndex)
                           (push_entry (host hosts hostIndex) e))
                      nets)
      end
  end.

(** The address and the entry of a line; [None] for a line the loop
    skips. *)
Definition parse_line (line : string) : option (string * Entry) :=
  match line with
  | EmptyString => None
  | _ =>
      match read_fields line with
      | None => None
      | Some (month, day, timeStr, ipPort, rest) =>
          let message :=
            match rest with
            | String c r => if Ascii.eqb c " "%char then r else rest
            | EmptyString => rest
            end in
          let '(ip, port) := split_port ipPort in
          Some (ip, mkEntry (month ++ " " ++ day) timeStr port message)
      end
  end.

Definition ingest_line (st : state) (line : string) : result state :=
  match parse_line line with
  | None => Ok st
  | Some (ip, e) => ingest_record st ip e
  end.

Fixpoint ingest_lines (st : state) (lines : list string) : result state :=
  match lines with
  | [] => Ok st
  | line :: rest =>
      match ingest_line st line with
      | Exit status d => Exit status d
      | Ok st' => ingest_lines st' rest
      end
  end.

(** First scan of 4.4 and 4.5: the running maximum, started at 0. *)
Definition max_scan {S : Type} (is_used : S -> bool) (selector : S -> Z)
           (t : list S) : Z :=
  fold_left
    (fun m s => if (is_used s && (selector s >? m))%bool then selector s else m)
    t 0.

(** Second scan: every used slot whose selector is [target], in table
    order. *)
Definition scan_equal {S : Type} (is_used : S -> bool) (selector : S -> Z)
           (target : Z) (t : list S) : list S :=
  filter (fun s => (is_used s && (selector s =? target))%bool) t.

Definition maxHosts (t : list Network) : Z := max_scan used uniqueHostCount t.

Definition top_networks (t : list Network) : list string :=
  map prefix (scan_equal used uniqueHostCount (maxHosts t) t).

Definition maxEntries (t : list Host) : Z := max_scan hused entryCount t.

Definition top_hosts (t : list Host) : list string :=
  map ip (scan_equal hused entryCount (maxEntries t) t).

Definition print_lines (l : list string) : string :=
  String.concat EmptyString (map (fun x => x ++ endl)%string l).

(** Sections 4.4 and 4.5 of [main]. *)
Definition report (st : state) : string :=
  (print_lines (top_networks (networkTable st)) ++ endl
   ++ print_lines (top_hosts (hostTable st)))%string.

Definition main (file : option (list string)) : run :=
  match file with
  | None => mkRun 1 EmptyString ("No se pudo abrir bitacora.txt" ++ endl)
  | Some lines =>
      match ingest_lines init lines with
      | Exit status d => mkRun status EmptyString d
      | Ok st => mkRun 0 (report st) EmptyString
      end
  end.

End Capacity.

End Act43.

(** ** Top five addresses (A01739942_Act3_4/main.cpp) *)

Module Act34.

(** [struct entry], as the reading loop fills it. *)
Record entry : Type := mkEntry {
  month : Z; day : Z; hour : Z; min : Z; sec : Z;
  totalTime : Z;
  ip1 : Z; ip2 : Z; ip3 : Z; ip4 : Z;
  port : Z;
  reason : string;
  originLine : string
}.

(** [struct IPKey] and its [operator<]. *)
Module IPKey.

Record t : Type := mk { ip1 : Z; ip2 : Z; ip3 : Z; ip4 : Z }.

Definition lt (a other : t) : bool :=
  if negb (ip1 a =? ip1 other) then ip1 a <? ip1 other
  else if negb (ip2 a =? ip2 other) then ip2 a <? ip2 other
  else if negb (ip3 a =? ip3 other) then ip3 a <? ip3 other
  else ip4 a <? ip4 other.

End IPKey.

(** [struct IPData]. *)
Record IPData : Type := mkIPData {
  key : IPKey.t;
  entries : list entry;
  count : Z
}.

Definition total_time (month day hour minute second : Z) : Z :=
  ((((month * 31 + day) * 24 + hour) * 60 + minute) * 60 + second).

Definition lessEntry (a b : entry) : bool :=
  if negb (totalTime a =? totalTime b) then totalTime a <? totalTime b
  else String.ltb (reason a) (reason b).

(** [ipMap[key].push_back(E)] on a [std::map] held as the list of its
    pairs in iteration order, that is, ascending by [operator<]; two keys
    are the same key when neither is below the other. *)
Fixpoint map_push (ipMap : list (IPKey.t * list entry)) (k : IPKey.t) (E : entry)
  : list (IPKey.t * list entry) :=
  match ipMap with
  | [] => [(k, [E])]
  | (k', v) :: rest =>
      if IPKey.lt k k' then (k, [E]) :: ipMap
      else if IPKey.lt k' k then (k', v) :: map_push rest k E
      else (k', v ++ [E]) :: rest
  end.

Definition key_of (E : entry) : IPKey.t :=
  IPKey.mk (ip1 E) (ip2 E) (ip3 E) (ip4 E).

(** 5.1: the map after the reading loop. *)
Definition group (log : list entry) : list (IPKey.t * list entry) :=
  fold_left (fun m E => map_push m (key_of E) E) log [].

(** [std::sort(first, last, comp)].  The library promises a permutation
    of the range in which no element is followed by one that [comp] puts
    before it, and nothing about elements [comp] does not separate; this
    is insertion from the right, one algorithm that meets the promise. *)
Fixpoint sort_insert {A : Type} (comp : A -> A -> bool) (x : A) (l : list A)
  : list A :=
  match l with
  | [] => [x]
  | y :: r => if comp y x then y :: sort_insert comp x r else x :: l
  end.

Definition std_sort {A : Type} (comp : A -> A -> bool) (l : list A) : list A :=
  fold_right (sort_insert comp) [] l.

(** 5.2: one [IPData] per pair of the map. *)
Definition make_data (pair : IPKey.t * list entry) : IPData :=
  mkIPData (fst pair) (std_sort lessEntry (snd pair))
           (Z.of_nat (List.length (snd pair))).

(** The comparator of 5.3. *)
Definition by_count_then_ip (a b : IPData) : bool :=
  if negb (count a =? count b) then count a >? count b
  else if negb (IPKey.ip1 (key a) =? IPKey.ip1 (key b))
       then IPKey.ip1 (key a) >? IPKey.ip1 (key b)
  else if negb (IPKey.ip2 (key a) =? IPKey.ip2 (key b))
       then IPKey.ip2 (key a) >? IPKey.ip2 (key b)
  else if negb (IPKey.ip3 (key a) =? IPKey.ip3 (key b))
       then IPKey.ip3 (key a) >? IPKey.ip3 (key b)
  else IPKey.ip4 (key a) >? IPKey.ip4 (key b).

(** 5.2 and 5.3: [ipDataList] after the second sort. *)
Definition ipDataList (log : list entry) : list IPData :=
  std_sort by_count_then_ip (map make_data (group log)).

(** 5.4: the groups that are printed. *)
Definition top (log : list entry) : list IPData :=
  let l := ipDataList log in
  let limit := Z.min 5 (Z.of_nat (List.length l)) in
  firstn (Z.to_nat limit) l.

Definition print_group (d : IPData) : string :=
  String.concat EmptyString (map (fun e => originLine e ++ endl)%string (entries d)).

Record run : Type := mkRun {
  exit_status : Z;
  out : string;
  err : string
}.

(** [main] on the records of the file ([None]: it cannot be opened). *)
Definition main (file : option (list entry)) : run :=
  match file with
  | None =>
      mkRun 1 EmptyString ("Error: no se pudo abrir el archivo bitacora.txt" ++ endl)
  | Some log =>
      mkRun 0 (String.concat EmptyString (map print_group (top log))) EmptyString
  end.

End Act34.

(** ** Merge sort and range search (A01739942_Act2.3/main.cpp) *)

Module Act23.

(** [struct entry]. *)
Record entry : Type := mkEntry {
  month : Z; day : Z; hour : Z; min : Z; sec : Z;
  totalTime : Z;
  ip1 : Z; ip2 : Z; ip3 : Z; ip4 : Z;
  port : Z;
  reason : string;
  originLine : string
}.

Definition total_time (month day hour minute second : Z) : Z :=
  ((((month * 31 + day) * 24 + hour) * 60 + minute) * 60 + second).

Definition lessEntry (a b : entry) : bool :=
  if negb (ip1 a =? ip1 b) then ip1 a <? ip1 b
  else if negb (ip2 a =? ip2 b) then ip2 a <? ip2 b
  else if negb (ip3 a =? ip3 b) then ip3 a <? ip3 b
  else if negb (ip4 a =? ip4 b) then ip4 a <? ip4 b
  else if negb (totalTime a =? totalTime b) then totalTime a <? totalTime b
  else String.ltb (reason a) (reason b).

(** A linked list is the list of its nodes' records from its head on.
    [mergeSortedLists] relinks the nodes in the order in which the loop
    takes them and then hangs the list that is left after them. *)
Fixpoint mergeSortedLists (first second : list entry) {struct first} : list entry :=
  let fix take (second : list entry) {struct second} : list entry :=
    match first, second with
    | [], _ => second
    | _, [] => first
    | a :: first', b :: second' =>
        if lessEntry a b then a :: mergeSortedLists first' second
        else b :: take second'
    end in
  take second.

(** The loop that finds the middle: how often [slow] moves.  The argument
    is the list that starts at [fast]. *)
Fixpoint slow_moves (fast : list entry) : nat :=
  match fast with
  | _ :: _ :: fast' =>
      match fast' with
      | [] => O
      | _ => S (slow_moves fast')
      end
  | _ => O
  end.

(** [mergeSortList]; the recursion is on lists that get shorter, [fuel]
    bounds its depth and the length of the list is enough. *)
Fixpoint sort_depth (fuel : nat) (start : list entry) : list entry :=
  match fuel with
  | O => start
  | S fuel' =>
      match start with
      | [] | [_] => start
      | _ =>
          let slow := slow_moves start in
          let secondHalf := skipn (S slow) start in
          let leftSorted := sort_depth fuel' (firstn (S slow) start) in
          let rightSorted := sort_depth fuel' secondHalf in
          mergeSortedLists leftSorted rightSorted
      end
  end.

Definition mergeSortList (start : list entry) : list entry :=
  sort_depth (List.length start) start.

(** The 32-bit value of an address, computed on [unsigned long long]. *)
Definition ip_value (a b c d : Z) : Z :=
  Z.lor (Z.lor (Z.lor (wrap64 (Z.shiftl (wrap64 a) 24))
                      (wrap64 (Z.shiftl (wrap64 b) 16)))
               (wrap64 (Z.shiftl (wrap64 c) 8)))
        (wrap64 d).

Definition ipVal (e : entry) : Z := ip_value (ip1 e) (ip2 e) (ip3 e) (ip4 e).

(** A [Node*] into the sorted list: [None] is [nullptr], [Some i] the
    node at position [i].  After [mergeSortList] every node's [prev] is
    the node before it and the head's is [nullptr], since the merge sets
    [prev] of each node it links and of the new head. *)
Definition node : Type := option nat.

Definition prev (p : nat) : node :=
  match p with
  | O => None
  | S q => Some q
  end.

(** The loop of [lowerBoundIP]; [rest] starts at [ptr], which is at
    position [pos]. *)
Fixpoint lower_scan (rest : list entry) (pos : nat) (key : Z) : node :=
  match rest with
  | [] => None
  | e :: rest' => if ipVal e >=? key then Some pos else lower_scan rest' (S pos) key
  end.

Definition lowerBoundIP (l : list entry) (start : node) (key : Z) : node :=
  match start with
  | None => None
  | Some p => lower_scan (skipn p l) p key
  end.

Fixpoint upper_scan (rest : list entry) (pos : nat) (key : Z) : node :=
  match rest with
  | [] => None
  | e :: rest' => if ipVal e >? key then Some pos else upper_scan rest' (S pos) key
  end.

Definition upperBoundIP (l : list entry) (start : node) (key : Z) : node :=
  match start with
  | None => None
  | Some p => upper_scan (skipn p l) p key
  end.

Definition dummy : entry := mkEntry 0 0 0 0 0 0 0 0 0 0 0 EmptyString EmptyString.

(** The printing loop of 3.6 from [cur] back to [startNode]: the records
    printed, in the order printed. *)
Fixpoint walk_back (l : list entry) (cur : nat) (startNode : nat) : list entry :=
  nth cur l dummy ::
  (if Nat.eqb cur startNode then []
   else match cur with
        | O => []
        | S cur' => walk_back l cur' startNode
        end).

(** Steps 3.4 to 3.6 on the sorted list [l] and the two keys read: the
    records printed. *)
Definition range_records (l : list entry) (key1 key2 : Z) : list entry :=
  let '(startKey, endKey) := if key1 >? key2 then (key2, key1) else (key1, key2) in
  let head : node := match l with [] => None | _ => Some O end in
  let tail : node := match l with [] => None | _ => Some (List.length l - 1)%nat end in
  let startNode := lowerBoundIP l head startKey in
  let endBound :=
    upperBoundIP l (match startNode with Some _ => startNode | None => head end) endKey in
  let endNode := match endBound with None => tail | Some b => prev b end in
  match startNode, endNode with
  | Some s, Some e => walk_back l e s
  | _, _ => []
  end.

Definition print_records (l : list entry) : string :=
  String.concat EmptyString (map (fun e => originLine e ++ endl)%string l).

Record run : Type := mkRun {
  exit_status : Z;
  out : string;
  err : string;
  sortedData : option string
}.

(** [main] on the records of the file ([None]: it cannot be opened) and
    the two addresses of standard input ([None]: fewer than two). *)
Definition main (file : option (list entry))
           (range : option ((Z * Z * Z * Z) * (Z * Z * Z * Z))) : run :=
  match file with
  | None =>
      mkRun 1 EmptyString ("Error: no se pudo abrir el archivo bitacora.txt" ++ endl) None
  | Some log =>
      let l := mergeSortList log in
      let saved := Some (String.concat endl (map originLine l)) in
      match range with
      | None => mkRun 0 EmptyString EmptyString saved
      | Some ((a1, b1, c1, d1), (a2, b2, c2, d2)) =>
          mkRun 0
                (print_records
                   (range_records l (ip_value a1 b1 c1 d1) (ip_value a2 b2 c2 d2)))
                EmptyString saved
      end
  end.

End Act23.

(** ** Reading a line into a record (A01739942_Act3_4/main.cpp and
    A01739942_Act2.3/main.cpp)

    [months_int], [tokenizer], [splitIp], [total_time] and the body of
    the reading loop are the same text in the two files.  A call that
    throws ([std::stoi], [substr]) returns [None]; nothing catches the
    exception, so it ends the program. *)

Module LogLine.

(** Sequencing of calls that may throw. *)
Notation "'do!' x <- e ; k" :=
  (match e with Some x => k | None => None end)
    (at level 10, x pattern, e at level 99, k at level 200, only parsing).

Definition is_digit (c : ascii) : bool :=
  let n := nat_of_ascii c in (Nat.leb 48 n && Nat.leb n 57)%bool.

(** The digits that [strtol] converts: up to the first other character. *)
Fixpoint digits (acc : Z) (s : string) : Z :=
  match s with
  | String c r => if is_digit c then digits (acc * 10 + (uchar c - 48)) r else acc
  | EmptyString => acc
  end.

(** [std::stoi(str)]: white space, an optional sign, decimal digits; it
    throws [invalid_argument] when no digit follows and [out_of_range]
    when the number is no [int]. *)
Definition stoi (str : string) : option Z :=
  let s := skip_ws str in
  let '(negative, s) :=
    match s with
    | String c r =>
        if Ascii.eqb c "-"%char then (true, r)
        else if Ascii.eqb c "+"%char then (false, r)
        else (false, s)
    | EmptyString => (false, s)
    end in
  match s with
  | String c _ =>
      if is_digit c then
        let v := digits 0 s in
        let v := if negative then - v else v in
        if ((- 2 ^ 31 <=? v) && (v <=? 2 ^ 31 - 1))%bool then Some v else None
      else None
  | EmptyString => None
  end.

(** [s.substr(pos, n)]; it throws [out_of_range] when [pos] is past the
    end. *)
Definition substr (s : string) (pos n : nat) : option string :=
  if (pos <=? String.length s)%nat then Some (substring pos n s) else None.

Definition months : list string :=
  ["Jan"; "Feb"; "Mar"; "Apr"; "May"; "Jun";
   "Jul"; "Aug"; "Sep"; "Oct"; "Nov"; "Dec"]%string.

(** The loop of [months_int] from index [i] on. *)
Fixpoint months_scan (i : Z) (rest : list string) (month : string) : Z :=
  match rest with
  | [] => -1
  | m :: rest' => if String.eqb m month then i + 1 else months_scan (i + 1) rest' month
  end.

Definition months_int (month : string) : Z := months_scan 0 months month.

(** [tokenizer(s, pos)]: the token and the new [pos]. *)
Definition tokenizer (s : string) (pos : nat) : string * nat :=
  if (String.length s <=? pos)%nat then (EmptyString, pos)
  else
    match find_char " "%char pos s with
    | None => (substring pos (String.length s) s, String.length s)
    | Some found => (substring pos (found - pos) s, S found)
    end.

(** One octet of [splitIp]: the text from [pos] to the next dot (to the
    end when there is none) through [stoi], and the next [pos]. *)
Definition octet_at (ipStr : string) (pos : nat) : option Z * nat :=
  match find_char "."%char pos ipStr with
  | Some next => (stoi (substring pos (next - pos) ipStr), S next)
  | None => (stoi (substring pos (String.length ipStr) ipStr), String.length ipStr)
  end.

(** [splitIp]: the four octets and the port. *)
Definition splitIp (ipPort : string) : option (Z * Z * Z * Z * Z) :=
  let colon := find_char ":"%char 0 ipPort in
  let ipStr :=
    match colon with
    | None => ipPort
    | Some c => substring 0 c ipPort
    end in
  do! p <- match colon with
          | None => Some 0
          | Some c =>
              match substring (c + 1) (String.length ipPort) ipPort with
              | EmptyString => Some 0
              | portStr => stoi portStr
              end
          end;
  let '(a, pos) := octet_at ipStr 0 in
  do! a <- a;
  let '(b, pos) := octet_at ipStr pos in
  do! b <- b;
  let '(c, pos) := octet_at ipStr pos in
  do! c <- c;
  do! d <- stoi (substring pos (String.length ipStr) ipStr);
  Some (a, b, c, d, p).

Definition total_time (month day hour minute second : Z) : Z :=
  ((((month * 31 + day) * 24 + hour) * 60 + minute) * 60 + second).

(** The body of the reading loop up to the filled record; [mk] is the
    record of the program. *)
Definition read_entry {E : Type}
           (mk : Z -> Z -> Z -> Z -> Z -> Z -> Z -> Z -> Z -> Z -> Z ->
                 string -> string -> E)
           (line : string) : option E :=
  let pos := O in
  let '(month_str, pos) := tokenizer line pos in
  let '(day_str, pos) := tokenizer line pos in
  let '(time_str, pos) := tokenizer line pos in
  let '(ipPort, pos) := tokenizer line pos in
  do! reason <- substr line pos (String.length line);
  let month := months_int month_str in
  do! day <- stoi day_str;
  do! hour <- (do! s <- substr time_str 0 2; stoi s);
  do! min <- (do! s <- substr time_str 3 2; stoi s);
  do! sec <- (do! s <- substr time_str 6 2; stoi s);
  let totalTime := total_time month day hour min sec in
  do! (ip1, ip2, ip3, ip4, port) <- splitIp ipPort;
  Some (mk month day hour min sec totalTime ip1 ip2 ip3 ip4 port reason line).

(** The reading loop: the records of all lines, or the exception of the
    first line that throws. *)
Fixpoint read_log {E : Type} (read : string -> option E) (lines : list string)
  : option (list E) :=
  match lines with
  | [] => Some []
  | line :: rest =>
      do! e <- read line;
      do! es <- read_log read rest;
      Some (e :: es)
  end.

End LogLine.

(** ** The top-five program on the text of the file *)

Module Act34Text.

Import LogLine.

Definition read_line : string -> option Act34.entry := read_entry Act34.mkEntry.

(** [main] on the lines of the file ([None]: it cannot be opened).  The
    result [None] is the program ended by an exception of the reading
    loop, before anything is written. *)
Definition main (file : option (list string)) : option Act34.run :=
  match file with
  | None => Some (Act34.main None)
  | Some lines =>
      do! log <- read_log read_line lines;
      Some (Act34.main (Some log))
  end.

End Act34Text.

(** ** The range-search program on the text of the file and of the input *)

Module Act23Text.

Import LogLine.

Definition read_line : string -> option Act23.entry := read_entry Act23.mkEntry.

(** How a run ends: [main] returns, or an exception ends the program
    ([saved] is SortedData.txt if it was written before). *)
Inductive outcome : Type :=
| Returned (r : Act23.run)
| Terminated (saved : option string).

(** [main] on the lines of the file and the words of standard input. *)
Definition main (file : option (list string)) (input : list string) : outcome :=
  match file with
  | None => Returned (Act23.main None None)
  | Some lines =>
      match read_log read_line lines with
      | None => Terminated None
      | Some log =>
          match input with
          | startIP :: endIP :: _ =>
              match splitIp startIP, splitIp endIP with
              | Some (a1, b1, c1, d1, _), Some (a2, b2, c2, d2, _) =>
                  Returned (Act23.main (Some log)
                                       (Some ((a1, b1, c1, d1), (a2, b2, c2, d2))))
              | _, _ =>
                  Terminated (Act23.sortedData (Act23.main (Some log) None))
              end
          | _ => Returned (Act23.main (Some log) None)
          end
      end
  end.

End Act23Text.

(** * Properties *)

(** ** Arrays and modular indices *)

Module UtilFacts.

Lemma length_upd {A : Type} (l : list A) (i : nat) (x : A) :
  List.length (upd l i x) = List.length l.
Proof.
  revert i; induction l as [|h t IH]; intros [|j]; simpl; auto.
Qed.

Lemma nth_upd_eq {A : Type} (l : list A) (i : nat) (x d : A) :
  (i < List.length l)%nat -> nth i (upd l i x) d = x.
Proof.
  revert i; induction l as [|h t IH]; intros [|j] H; simpl in *; try lia; auto.
  apply IH; lia.
Qed.

Lemma nth_upd_neq {A : Type} (l : list A) (i j : nat) (x d : A) :
  i <> j -> nth j (upd l i x) d = nth j l d.
Proof.
  revert i j; induction l as [|h t IH]; intros [|i] [|j] H; simpl; auto; try lia.
Qed.

(** Writing a cell changes the number of cells that satisfy [f] by what
    the old and the new content contribute. *)
Lemma count_upd {A : Type} (f : A -> bool) (l : list A) (i : nat) (x d : A) :
  (i < List.length l)%nat ->
  (List.length (filter f (upd l i x)) + (if f (nth i l d) then 1 else 0)
   = List.length (filter f l) + (if f x then 1 else 0))%nat.
Proof.
  revert i; induction l as [|h t IH]; intros [|j] H; simpl in *; try lia.
  - destruct (f h), (f x); simpl; lia.
  - specialize (IH j ltac:(lia)).
    destruct (f h); simpl; lia.
Qed.

Lemma filter_all {A : Type} (f : A -> bool) (l : list A) (d : A) :
  (forall i, (i < List.length l)%nat -> f (nth i l d) = true) ->
  List.length (filter f l) = List.length l.
Proof.
  induction l as [|h t IH]; intros H; simpl; auto.
  pose proof (H O ltac:(simpl; lia)) as H0. simpl in H0. rewrite H0. simpl.
  f_equal. apply IH. intros i Hi. apply (H (S i)). simpl; lia.
Qed.

Lemma filter_none {A : Type} (f : A -> bool) (l : list A) :
  (forall z, In z l -> f z = false) -> filter f l = [].
Proof.
  induction l as [|x l IH]; intros H; simpl; auto.
  rewrite (H x) by (left; auto). apply IH. intros z Hz. apply H. right. exact Hz.
Qed.

Lemma nth_repeat_default {A : Type} (x : A) (n i : nat) :
  nth i (repeat x n) x = x.
Proof.
  revert i; induction n as [|n IH]; intros [|i]; simpl; auto.
Qed.

(** Going [k] cells on from [h] round a table of [C] cells comes back to
    [h] only after a whole turn. *)
Lemma wrap_distinct (C h k : Z) :
  0 <= h < C -> 0 < k < C -> (h + k) mod C <> h.
Proof.
  intros Hh Hk E.
  destruct (Z_lt_ge_dec (h + k) C) as [L|G].
  - rewrite Z.mod_small in E by lia. lia.
  - assert (E' : (h + k) mod C = h + k - C).
    { symmetry. apply Z.mod_unique_pos with (q := 1); lia. }
    lia.
Qed.

Lemma wrap_succ (C h k : Z) :
  0 < C -> ((h + k) mod C + 1) mod C = (h + (k + 1)) mod C.
Proof.
  intros HC. rewrite Z.add_mod_idemp_l by lia. f_equal. lia.
Qed.

(** The cell [i] lies [(i - h) mod C] cells after [h]. *)
Lemma wrap_reach (C h i : Z) :
  0 < C -> 0 <= i < C -> (h + (i - h) mod C) mod C = i.
Proof.
  intros HC Hi. rewrite Z.add_mod_idemp_r by lia.
  replace (h + (i - h)) with i by lia. apply Z.mod_small; lia.
Qed.

Lemma wrap_inj (C h j d : Z) :
  0 < C -> 0 <= j < C -> 0 <= d < C ->
  (h + j) mod C = (h + d) mod C -> j = d.
Proof.
  intros HC Hj Hd E.
  assert (Ej : ((h + j) mod C - h) mod C = j).
  { rewrite Zminus_mod_idemp_l. replace (h + j - h) with j by lia.
    apply Z.mod_small; lia. }
  assert (Ed : ((h + d) mod C - h) mod C = d).
  { rewrite Zminus_mod_idemp_l. replace (h + d - h) with d by lia.
    apply Z.mod_small; lia. }
  rewrite E in Ej. congruence.
Qed.

Lemma nodup_snoc_length (l : list string) (k : string) :
  List.length (nodup string_dec (l ++ [k]))
  = (List.length (nodup string_dec l) + (if in_dec string_dec k l then 0 else 1))%nat.
Proof.
  induction l as [|a l IH]; simpl.
  - reflexivity.
  - destruct (in_dec string_dec a (l ++ [k])) as [Hin|Hn];
    destruct (in_dec string_dec a l) as [Hin'|Hn'];
    destruct (string_dec a k) as [->|Hak];
    destruct (in_dec string_dec k l) as [Hk|Hk]; simpl; try lia;
    try (exfalso; apply Hn; apply in_or_app; auto; right; left; reflexivity);
    try (exfalso; apply in_app_or in Hin; destruct Hin as [?|[?|[]]]; congruence);
    try (exfalso; apply Hn; apply in_or_app; simpl; auto);
    try contradiction.
Qed.

(** *** Text made of lines *)

Lemma text_nil_r (a : string) : (a ++ EmptyString)%string = a.
Proof. induction a as [|c a IH]; simpl; [|rewrite IH]; reflexivity. Qed.

Lemma text_assoc (a b c : string) : ((a ++ b) ++ c)%string = (a ++ b ++ c)%string.
Proof. induction a as [|x a IH]; simpl; [|rewrite IH]; reflexivity. Qed.

Lemma text_concat_cons (x : string) (l : list string) :
  String.concat EmptyString (x :: l) = (x ++ String.concat EmptyString l)%string.
Proof. destruct l; simpl; [rewrite text_nil_r|]; reflexivity. Qed.

Lemma text_concat_app (l1 l2 : list string) :
  String.concat EmptyString (l1 ++ l2)
  = (String.concat EmptyString l1 ++ String.concat EmptyString l2)%string.
Proof.
  induction l1 as [|x l1 IH]; [reflexivity|].
  cbn [app]. rewrite !text_concat_cons, IH, text_assoc. reflexivity.
Qed.

(** The lines of the parts, one part after the other. *)
Lemma text_concat_flat_map {A B : Type} (line : B -> string) (part : A -> list B)
      (l : list A) :
  String.concat EmptyString (map line (flat_map part l))
  = String.concat EmptyString
      (map (fun d => String.concat EmptyString (map line (part d))) l).
Proof.
  induction l as [|d l IH]; [reflexivity|].
  cbn [flat_map map]. rewrite map_app, text_concat_app, text_concat_cons, IH.
  reflexivity.
Qed.

(** Three lines of a text, in their order. *)
Lemma three_lines_in_text (l0 l1 l2 l3 : list string) (a b c rest : string) :
  exists s0 s1 s2 s3,
    (String.concat EmptyString
       (map (fun x => x ++ endl) (l0 ++ a :: l1 ++ b :: l2 ++ c :: l3)) ++ rest)%string
    = (s0 ++ (a ++ endl) ++ s1 ++ (b ++ endl) ++ s2 ++ (c ++ endl) ++ s3)%string.
Proof.
  set (text := fun l => String.concat EmptyString (map (fun x => x ++ endl)%string l)).
  exists (text l0), (text l1), (text l2), (text l3 ++ rest)%string.
  fold (text (l0 ++ a :: l1 ++ b :: l2 ++ c :: l3)).
  assert (App : forall x y, text (x ++ y) = (text x ++ text y)%string).
  { intros x y. unfold text. rewrite map_app. apply text_concat_app. }
  assert (Cons : forall x y, text (x :: y) = ((x ++ endl) ++ text y)%string).
  { intros x y. unfold text. cbn [map]. apply text_concat_cons. }
  rewrite App, Cons, App, Cons, App, Cons.
  rewrite !text_assoc. reflexivity.
Qed.

(** A line of a text. *)
Lemma line_in_text (l : list string) (a before rest : string) :
  In a l ->
  exists s0 s1,
    (before ++ String.concat EmptyString (map (fun x => x ++ endl) l) ++ rest)%string
    = (s0 ++ (a ++ endl) ++ s1)%string.
Proof.
  intros H. destruct (in_split a l H) as (l0 & l1 & ->).
  set (text := fun l => String.concat EmptyString (map (fun x => x ++ endl)%string l)).
  exists (before ++ text l0)%string, (text l1 ++ rest)%string.
  fold (text (l0 ++ a :: l1)).
  assert (E : text (l0 ++ a :: l1) = (text l0 ++ (a ++ endl) ++ text l1)%string).
  { unfold text. rewrite map_app. cbn [map].
    rewrite text_concat_app, text_concat_cons. reflexivity. }
  rewrite E, !text_assoc. reflexivity.
Qed.

(** A selection from a list in which the selected elements have
    different labels lists no label twice. *)
Lemma selection_NoDup {A K : Type} (label : A -> K) (f : A -> bool) (l : list A)
      (d : A) :
  (forall i j, (i < List.length l)%nat -> (j < List.length l)%nat ->
               f (nth i l d) = true -> f (nth j l d) = true ->
               label (nth i l d) = label (nth j l d) -> i = j) ->
  NoDup (map label (filter f l)).
Proof.
  induction l as [|a l IH]; intros H; [constructor|].
  assert (Hl : NoDup (map label (filter f l))).
  { apply IH. intros i j Hi Hj Fi Fj E.
    assert (S i = S j) by (apply H; simpl; auto; lia). lia. }
  cbn [filter]. destruct (f a) eqn:Fa; [|exact Hl].
  cbn [map]. constructor; [|exact Hl].
  intros Hin. apply in_map_iff in Hin. destruct Hin as (b & E & Hb).
  apply filter_In in Hb. destruct Hb as [Hb Fb].
  destruct (In_nth l b d Hb) as (j & Hj & Ej).
  assert (X : O = S j).
  { apply H; simpl; auto; try lia.
    - rewrite Ej. exact Fb.
    - rewrite Ej. symmetry. exact E. }
  discriminate.
Qed.

End UtilFacts.

Import UtilFacts.

(** ** Linear probing, apart from what a table stores

    [free i] says that cell [i] is unused and [hit i] that it holds the
    key that is sought.  [probe n i] is the walk of at most [n] cells from
    [i] that the four loops of [Act52] and [Act43] perform. *)

Module Probe.

Inductive stop : Type :=
| Free (i : Z)
| Hit (i : Z)
| Full.

Section Walk.

Variable C : Z.
Variables free hit : Z -> bool.

Fixpoint probe (n : nat) (i : Z) : stop :=
  match n with
  | O => Full
  | S m =>
      if free i then Free i
      else if hit i then Hit i
      else probe m ((i + 1) mod C)
  end.

(** The cell reached after [d] steps from [h]. *)
Definition at_step (h : Z) (d : Z) : Z := (h + d) mod C.

(** The first [d] cells of the walk from [h] are used by other keys. *)
Definition passes (h : Z) (d : Z) : Prop :=
  forall j, 0 <= j < d -> free (at_step h j) = false /\ hit (at_step h j) = false.

Hypothesis Cpos : 0 < C.

Lemma probe_skip (d n : nat) (h : Z) :
  passes h (Z.of_nat d) ->
  probe (d + n) (at_step h 0) = probe n (at_step h (Z.of_nat d)).
Proof.
  intros Hp.
  assert (G : forall (k : nat) (m : nat), (k + m = d)%nat ->
              probe (m + n) (at_step h (Z.of_nat k)) = probe n (at_step h (Z.of_nat d))).
  { intros k m; revert k; induction m as [|m IH]; intros k E.
    - simpl. replace k with d by lia. reflexivity.
    - simpl. destruct (Hp (Z.of_nat k) ltac:(lia)) as [F H].
      rewrite F, H. unfold at_step at 1. rewrite wrap_succ by lia.
      replace (Z.of_nat k + 1) with (Z.of_nat (S k)) by lia.
      apply IH. lia. }
  apply (G O d). lia.
Qed.

Lemma probe_free (n : nat) (h d : Z) :
  0 <= d < Z.of_nat n -> passes h d -> free (at_step h d) = true ->
  probe n (at_step h 0) = Free (at_step h d).
Proof.
  intros Hd Hp Hf.
  replace n with (Z.to_nat d + S (n - Z.to_nat d - 1))%nat by lia.
  rewrite probe_skip by (rewrite Z2Nat.id by lia; exact Hp).
  rewrite Z2Nat.id by lia. simpl. rewrite Hf. reflexivity.
Qed.

Lemma probe_hit (n : nat) (h d : Z) :
  0 <= d < Z.of_nat n -> passes h d ->
  free (at_step h d) = false -> hit (at_step h d) = true ->
  probe n (at_step h 0) = Hit (at_step h d).
Proof.
  intros Hd Hp Hf Hh.
  replace n with (Z.to_nat d + S (n - Z.to_nat d - 1))%nat by lia.
  rewrite probe_skip by (rewrite Z2Nat.id by lia; exact Hp).
  rewrite Z2Nat.id by lia. simpl. rewrite Hf, Hh. reflexivity.
Qed.

Lemma probe_full (n : nat) (h : Z) :
  passes h (Z.of_nat n) -> probe n (at_step h 0) = Full.
Proof.
  intros Hp. replace n with (n + 0)%nat at 1 by lia.
  rewrite probe_skip by exact Hp. reflexivity.
Qed.

(** What each way of stopping says about the cells walked. *)
Lemma probe_inv (n : nat) (h : Z) :
  match probe n (at_step h 0) with
  | Free i => exists d, 0 <= d < Z.of_nat n /\ i = at_step h d /\ passes h d
                        /\ free i = true
  | Hit i => exists d, 0 <= d < Z.of_nat n /\ i = at_step h d /\ passes h d
                       /\ free i = false /\ hit i = true
  | Full => passes h (Z.of_nat n)
  end.
Proof.
  assert (G : forall (m k : nat), passes h (Z.of_nat k) ->
    match probe m (at_step h (Z.of_nat k)) with
    | Free i => exists d, 0 <= d < Z.of_nat (k + m) /\ i = at_step h d /\ passes h d
                          /\ free i = true
    | Hit i => exists d, 0 <= d < Z.of_nat (k + m) /\ i = at_step h d /\ passes h d
                         /\ free i = false /\ hit i = true
    | Full => passes h (Z.of_nat (k + m))
    end).
  { induction m as [|m IH]; intros k Hp; simpl.
    - replace (k + 0)%nat with k by lia. exact Hp.
    - destruct (free (at_step h (Z.of_nat k))) eqn:F.
      + exists (Z.of_nat k). split; [lia|]. auto.
      + destruct (hit (at_step h (Z.of_nat k))) eqn:H.
        * exists (Z.of_nat k). split; [lia|]. auto.
        * unfold at_step at 1. rewrite wrap_succ by lia.
          replace (Z.of_nat k + 1) with (Z.of_nat (S k)) by lia.
          replace (k + S m)%nat with (S k + m)%nat by lia.
          apply IH. intros j Hj.
          destruct (Z.eq_dec j (Z.of_nat k)) as [->|Hne]; auto.
          apply Hp. lia. }
  apply (G n O). intros j Hj. lia.
Qed.

Lemma at_step_0 (h : Z) : 0 <= h < C -> at_step h 0 = h.
Proof. intros H. unfold at_step. rewrite Z.add_0_r. apply Z.mod_small; lia. Qed.

Lemma at_step_range (h d : Z) : 0 <= at_step h d < C.
Proof. unfold at_step. apply Z.mod_pos_bound. lia. Qed.

End Walk.

End Probe.

(** ** Open-addressed tables in general

    The tables of [Act43] differ only in what a cell holds.  A table is
    the list of its cells; [used] and [key] read a cell, [home] is the
    cell at which the walk for a key starts. *)

Module OpenTable.

Import Probe.

Section Generic.

Context {Cell : Type}.
Variable used : Cell -> bool.
Variable key : Cell -> string.
Variable blank : Cell.
Variable C : Z.
Variable home : string -> Z.
Hypothesis Cpos : 0 < C.
Hypothesis home_range : forall k, 0 <= home k < C.
Hypothesis blank_unused : used blank = false.

Definition cell (t : list Cell) (i : Z) : Cell := nth (Z.to_nat i) t blank.

Definition walk (t : list Cell) (k : string) : stop :=
  probe C (fun i => negb (used (cell t i)))
        (fun i => String.eqb (key (cell t i)) k) (Z.to_nat C) (home k).

(** Every used cell is reached from its key's home through used cells,
    and no key is stored twice. *)
Record well_formed (t : list Cell) : Prop := mkWellFormed {
  wf_length : List.length t = Z.to_nat C;
  wf_path : forall i d,
      0 <= i < C -> used (cell t i) = true ->
      0 <= d < (i - home (key (cell t i))) mod C ->
      used (cell t (at_step C (home (key (cell t i))) d)) = true;
  wf_unique : forall i j,
      0 <= i < C -> 0 <= j < C ->
      used (cell t i) = true -> used (cell t j) = true ->
      key (cell t i) = key (cell t j) -> i = j
}.

Lemma cell_upd_eq (t : list Cell) (i : Z) (c : Cell) :
  List.length t = Z.to_nat C -> 0 <= i < C -> cell (upd t (Z.to_nat i) c) i = c.
Proof. intros L Hi. unfold cell. apply nth_upd_eq. lia. Qed.

Lemma cell_upd_neq (t : list Cell) (i j : Z) (c : Cell) :
  0 <= i -> 0 <= j -> i <> j -> cell (upd t (Z.to_nat i) c) j = cell t j.
Proof. intros Hi Hj Hne. unfold cell. apply nth_upd_neq. lia. Qed.

Lemma upd_upd (t : list Cell) (n : nat) (c c' : Cell) :
  upd (upd t n c) n c' = upd t n c'.
Proof.
  revert n. induction t as [|x t IH]; intros [|n]; simpl; auto.
  f_equal. apply IH.
Qed.

Lemma table_walk_inv (t : list Cell) (k : string) :
  match walk t k with
  | Free i => exists d, 0 <= d < C /\ i = at_step C (home k) d
                        /\ 0 <= i < C /\ used (cell t i) = false
  | Hit i => 0 <= i < C /\ used (cell t i) = true /\ key (cell t i) = k
  | Full => forall i, 0 <= i < C -> used (cell t i) = true /\ key (cell t i) <> k
  end.
Proof.
  unfold walk.
  pose proof (probe_inv C (fun i => negb (used (cell t i)))
                        (fun i => String.eqb (key (cell t i)) k)
                        Cpos (Z.to_nat C) (home k)) as H.
  rewrite at_step_0 in H by apply home_range.
  rewrite Z2Nat.id in H by lia.
  destruct (probe C _ _ (Z.to_nat C) (home k)) as [i|i|].
  - destruct H as (d & Hd & E & _ & F). exists d.
    split; [lia|]. split; [exact E|]. split.
    + rewrite E. apply at_step_range. lia.
    + apply negb_true_iff in F. exact F.
  - destruct H as (d & Hd & E & _ & F & H). split.
    + rewrite E. apply at_step_range. lia.
    + apply negb_false_iff in F. apply String.eqb_eq in H. auto.
  - intros i Hi. destruct (H ((i - home k) mod C)) as [F N].
    { apply Z.mod_pos_bound. lia. }
    unfold at_step in F, N. rewrite wrap_reach in F, N by lia.
    apply negb_false_iff in F. apply String.eqb_neq in N. auto.
Qed.

(** A stored key is found, at the cell that stores it. *)
Lemma table_walk_stored (t : list Cell) (k : string) (i : Z) :
  well_formed t -> 0 <= i < C ->
  used (cell t i) = true -> key (cell t i) = k ->
  walk t k = Hit i.
Proof.
  intros OK Hi Ho Hk. unfold walk.
  pose proof (home_range k) as Hr.
  set (h := home k) in *.
  set (d := (i - h) mod C).
  assert (Hd : 0 <= d < C) by (apply Z.mod_pos_bound; lia).
  assert (Ei : at_step C h d = i) by (apply wrap_reach; lia).
  rewrite <- (at_step_0 C h Hr) at 1.
  rewrite <- Ei.
  apply probe_hit; auto; try lia.
  - intros j Hj.
    assert (Oj : used (cell t (at_step C h j)) = true).
    { pose proof (wf_path t OK i j Hi Ho) as P. rewrite Hk in P.
      apply P. fold h. fold d. lia. }
    split.
    + rewrite Oj. reflexivity.
    + apply String.eqb_neq. intros E.
      assert (at_step C h j = i).
      { apply (wf_unique t OK); auto.
        - apply at_step_range; lia.
        - congruence. }
      assert (j = d)
        by (apply (wrap_inj C h); auto; try lia; unfold at_step in *; congruence).
      lia.
  - rewrite Ei, Ho. reflexivity.
  - rewrite Ei. apply String.eqb_eq. exact Hk.
Qed.

Lemma well_formed_blank : well_formed (repeat blank (Z.to_nat C)).
Proof.
  assert (E : forall i, cell (repeat blank (Z.to_nat C)) i = blank).
  { intros i. unfold cell. apply nth_repeat_default. }
  constructor.
  - apply repeat_length.
  - intros i d _ H. rewrite E, blank_unused in H. discriminate.
  - intros i j _ _ H. rewrite E, blank_unused in H. discriminate.
Qed.

(** Rewriting a used cell without touching its key. *)
Lemma well_formed_rewrite (t : list Cell) (i : Z) (c : Cell) :
  well_formed t -> 0 <= i < C -> used (cell t i) = true ->
  key c = key (cell t i) -> used c = true ->
  well_formed (upd t (Z.to_nat i) c).
Proof.
  intros OK Hi Ho Hn Hs.
  pose proof (wf_length t OK) as L.
  assert (Same : forall j, 0 <= j < C ->
            used (cell (upd t (Z.to_nat i) c) j) = used (cell t j)
            /\ key (cell (upd t (Z.to_nat i) c) j) = key (cell t j)).
  { intros j Hj. destruct (Z.eq_dec i j) as [<-|Hne].
    - rewrite cell_upd_eq by auto. split; congruence.
    - rewrite cell_upd_neq by lia. auto. }
  constructor.
  - rewrite length_upd. exact L.
  - intros j d Hj Hoj Hd.
    destruct (Same j Hj) as [So Sn]. rewrite So in Hoj. rewrite Sn in *.
    pose proof (wf_path t OK j d Hj Hoj Hd) as P.
    destruct (Same (at_step C (home (key (cell t j))) d)) as [So' _].
    { apply at_step_range; lia. }
    rewrite So'. exact P.
  - intros a b Ha Hb Hoa Hob E.
    destruct (Same a Ha) as [Soa Sna]. destruct (Same b Hb) as [Sob Snb].
    rewrite Soa in Hoa. rewrite Sob in Hob. rewrite Sna, Snb in E.
    apply (wf_unique t OK); auto.
Qed.

(** Filling the unused cell at which the walk for [k] stops. *)
Lemma well_formed_create (t : list Cell) (k : string) (i : Z) (c : Cell) :
  well_formed t -> walk t k = Free i -> used c = true -> key c = k ->
  well_formed (upd t (Z.to_nat i) c).
Proof.
  intros OK W Hu Hk.
  pose proof (table_walk_inv t k) as Wi. rewrite W in Wi.
  destruct Wi as (d & Hd & Ei & Hi & Hfree).
  assert (P : passes C (fun i => negb (used (cell t i)))
                     (fun i => String.eqb (key (cell t i)) k) (home k) d).
  { unfold walk in W.
    pose proof (probe_inv C (fun i => negb (used (cell t i)))
                          (fun i => String.eqb (key (cell t i)) k)
                          Cpos (Z.to_nat C) (home k)) as H.
    rewrite at_step_0 in H by apply home_range. rewrite W in H.
    destruct H as (d' & Hd' & E' & P' & _).
    assert (d' = d).
    { apply (wrap_inj C (home k)); auto; try lia.
      unfold at_step in *. congruence. }
    subst d'. exact P'. }
  pose proof (wf_length t OK) as L.
  pose proof (home_range k) as Hr.
  assert (Mono : forall j, 0 <= j < C -> used (cell t j) = true ->
                           used (cell (upd t (Z.to_nat i) c) j) = true).
  { intros j Hj Hoj. destruct (Z.eq_dec i j) as [<-|Hne].
    - rewrite cell_upd_eq by auto. exact Hu.
    - rewrite cell_upd_neq by lia. exact Hoj. }
  assert (Dist : (i - home k) mod C = d).
  { rewrite Ei. unfold at_step. rewrite Zminus_mod_idemp_l.
    replace (home k + d - home k) with d by lia.
    apply Z.mod_small; lia. }
  assert (Fresh : forall j, 0 <= j < C -> used (cell t j) = true ->
                            key (cell t j) <> k).
  { intros j Hj Hoj E. rewrite (table_walk_stored t k j OK Hj Hoj E) in W. discriminate. }
  constructor.
  - rewrite length_upd. exact L.
  - intros j e Hj Hoj He.
    destruct (Z.eq_dec i j) as [<-|Hne].
    + rewrite cell_upd_eq in * by auto. rewrite Hk in *.
      rewrite Dist in He. apply Mono.
      * apply at_step_range; lia.
      * destruct (P e ltac:(lia)) as [F _].
        apply negb_false_iff in F. exact F.
    + rewrite cell_upd_neq in Hoj by lia.
      rewrite (cell_upd_neq t i j) in * by lia.
      apply Mono.
      * apply at_step_range; lia.
      * apply (wf_path t OK j e); auto.
  - intros a b Ha Hb Hoa Hob E.
    destruct (Z.eq_dec i a) as [<-|Hna]; destruct (Z.eq_dec i b) as [<-|Hnb]; auto.
    + rewrite cell_upd_eq in E by auto.
      rewrite cell_upd_neq in Hob, E by lia.
      exfalso. apply (Fresh b); auto. congruence.
    + rewrite (cell_upd_eq t i) in E by auto.
      rewrite cell_upd_neq in Hoa, E by lia.
      exfalso. apply (Fresh a); auto. congruence.
    + rewrite cell_upd_neq in Hoa, Hob, E by lia.
      rewrite (cell_upd_neq t i b) in E by lia.
      apply (wf_unique t OK); auto.
Qed.

End Generic.

End OpenTable.

(** ** The per-network table of [Act52] *)

Module Act52Facts.

Import Act52 Probe.

Section Table.

Variable C : Z.
Hypothesis Cpos : 0 < C.

Definition free_of (st : state) (i : Z) : bool := negb (occupied (slot st i)).
Definition hit_of (st : state) (k : string) (i : Z) : bool :=
  String.eqb (network (slot st i)) k.

(** The walk both loops perform for the key [k]. *)
Definition walk (st : state) (k : string) : stop :=
  probe C (free_of st) (hit_of st k) (Z.to_nat C) (hashFunction C k).

Lemma hash_range (k : string) : 0 <= hashFunction C k < C.
Proof. unfold hashFunction. apply Z.mod_pos_bound. lia. Qed.

(** The [break] of the loops fires exactly when the guard would. *)
Lemma insert_loop_probe (n : nat) (st : state) (k ip : string) (orig : Z) :
  0 <= orig < C -> Z.of_nat n <= C ->
  insert_loop C n st k ip orig (at_step C orig (C - Z.of_nat n))
  = match probe C (free_of st) (hit_of st k) n (at_step C orig (C - Z.of_nat n)) with
    | Free i => (true, create_slot st i k ip)
    | Hit i => (true, update_slot st i ip)
    | Full => (false, st)
    end.
Proof.
  intros Ho. induction n as [|r IH]; intros Hn; [reflexivity|].
  assert (Enext : (at_step C orig (C - Z.of_nat (S r)) + 1) mod C
                  = at_step C orig (C - Z.of_nat r)).
  { unfold at_step. rewrite wrap_succ by lia. f_equal. lia. }
  remember (at_step C orig (C - Z.of_nat (S r))) as idx eqn:Eidx.
  cbn [insert_loop probe]. unfold free_of, hit_of.
  destruct (occupied (slot st idx)); cbn [negb]; auto.
  destruct (String.eqb (network (slot st idx)) k); auto.
  rewrite Enext.
  destruct r as [|r].
  - cbn [insert_loop probe]. replace (at_step C orig (C - Z.of_nat 0)) with orig.
    + rewrite Z.eqb_refl. reflexivity.
    + unfold at_step. replace (orig + (C - Z.of_nat 0)) with (orig + 1 * C) by lia.
      rewrite Z.mod_add by lia. symmetry. apply Z.mod_small; lia.
  - destruct (Z.eqb_spec (at_step C orig (C - Z.of_nat (S r))) orig) as [E|_].
    + exfalso. revert E. apply wrap_distinct; lia.
    + apply IH. lia.
Qed.

Lemma search_loop_probe (n : nat) (st : state) (k : string) (orig : Z) :
  0 <= orig < C -> Z.of_nat n <= C ->
  search_loop C n st k orig (at_step C orig (C - Z.of_nat n))
  = match probe C (free_of st) (hit_of st k) n (at_step C orig (C - Z.of_nat n)) with
    | Hit i => i
    | _ => -1
    end.
Proof.
  intros Ho. induction n as [|r IH]; intros Hn; [reflexivity|].
  assert (Enext : (at_step C orig (C - Z.of_nat (S r)) + 1) mod C
                  = at_step C orig (C - Z.of_nat r)).
  { unfold at_step. rewrite wrap_succ by lia. f_equal. lia. }
  remember (at_step C orig (C - Z.of_nat (S r))) as idx eqn:Eidx.
  cbn [search_loop probe]. unfold free_of, hit_of.
  destruct (occupied (slot st idx)); cbn [negb]; auto.
  destruct (String.eqb (network (slot st idx)) k); auto.
  rewrite Enext.
  destruct r as [|r].
  - cbn [search_loop probe]. replace (at_step C orig (C - Z.of_nat 0)) with orig.
    + rewrite Z.eqb_refl. reflexivity.
    + unfold at_step. replace (orig + (C - Z.of_nat 0)) with (orig + 1 * C) by lia.
      rewrite Z.mod_add by lia. symmetry. apply Z.mod_small; lia.
  - destruct (Z.eqb_spec (at_step C orig (C - Z.of_nat (S r))) orig) as [E|_].
    + exfalso. revert E. apply wrap_distinct; lia.
    + apply IH. lia.
Qed.

Lemma insertOrUpdate_walk (st : state) (k ip : string) :
  insertOrUpdate C st k ip
  = if itemCount st >=? C then (false, st)
    else match walk st k with
         | Free i => (true, create_slot st i k ip)
         | Hit i => (true, update_slot st i ip)
         | Full => (false, st)
         end.
Proof.
  unfold insertOrUpdate, walk. destruct (itemCount st >=? C); auto.
  pose proof (hash_range k) as Hr.
  pose proof (insert_loop_probe (Z.to_nat C) st k ip (hashFunction C k) Hr ltac:(lia)) as H.
  rewrite Z2Nat.id, Z.sub_diag, at_step_0 in H by lia. exact H.
Qed.

Lemma searchNetwork_walk (st : state) (k : string) :
  searchNetwork C st k
  = match walk st k with
    | Hit i => i
    | _ => -1
    end.
Proof.
  unfold searchNetwork, walk.
  pose proof (hash_range k) as Hr.
  pose proof (search_loop_probe (Z.to_nat C) st k (hashFunction C k) Hr ltac:(lia)) as H.
  rewrite Z2Nat.id, Z.sub_diag, at_step_0 in H by lia. exact H.
Qed.

(** *** The table after a sequence of accepted records *)

(** A record as [insertOrUpdate] receives it: network and address. *)
Definition record : Type := (string * string)%type.

(** Consecutive calls of [insertOrUpdate], stopped by the first refusal
    (the calls of the reading loop of [main]). *)
Fixpoint ingest (st : state) (recs : list record) : bool * state :=
  match recs with
  | [] => (true, st)
  | (k, ip) :: rest =>
      let '(ok, st') := insertOrUpdate C st k ip in
      if ok then ingest st' rest else (false, st')
  end.

(** The networks of a log, and the records of one network. *)
Definition keys (recs : list record) : list string := map fst recs.

Definition of_key (k : string) (recs : list record) : list record :=
  filter (fun r => String.eqb (fst r) k) recs.

(** Number of records of network [k]. *)
Definition accesses (recs : list record) (k : string) : Z :=
  Z.of_nat (List.length (of_key k recs)).

(** Addresses of network [k], each once, latest first seen first. *)
Definition children (recs : list record) (k : string) : list string :=
  fold_left
    (fun acc r =>
       if String.eqb (fst r) k
       then (if ipExists acc (snd r) then acc else snd r :: acc)
       else acc)
    recs [].

(** Number of different addresses of network [k]. *)
Definition distinct_ips (recs : list record) (k : string) : Z :=
  Z.of_nat (List.length (nodup string_dec (map snd (of_key k recs)))).

(** Number of different networks. *)
Definition distinct_keys (recs : list record) : Z :=
  Z.of_nat (List.length (nodup string_dec (keys recs))).

(** The aggregate that the records [recs] give network [k]. *)
Definition aggregate (recs : list record) (k : string) : NetworkInfo :=
  mkNetworkInfo k (accesses recs k) (children recs k)
                (Z.of_nat (List.length (children recs k))) true.

(** Shape of a table that probing keeps: every used cell is reached
    from its key's home cell through used cells, and no key is stored
    twice. *)
Record probing_ok (st : state) : Prop := mkProbingOk {
  ok_length : List.length (hashTable st) = Z.to_nat C;
  ok_path : forall i d,
      0 <= i < C -> occupied (slot st i) = true ->
      0 <= d < (i - hashFunction C (network (slot st i))) mod C ->
      occupied (slot st (at_step C (hashFunction C (network (slot st i))) d)) = true;
  ok_unique : forall i j,
      0 <= i < C -> 0 <= j < C ->
      occupied (slot st i) = true -> occupied (slot st j) = true ->
      network (slot st i) = network (slot st j) -> i = j;
  ok_count : itemCount st = Z.of_nat (List.length (filter occupied (hashTable st)))
}.

(** The table holds the aggregates of [recs], one per network. *)
Record holds (st : state) (recs : list record) : Prop := mkHolds {
  holds_slot : forall i,
      0 <= i < C -> occupied (slot st i) = true ->
      In (network (slot st i)) (keys recs)
      /\ slot st i = aggregate recs (network (slot st i));
  holds_key : forall k,
      In k (keys recs) ->
      exists i, 0 <= i < C /\ occupied (slot st i) = true /\ network (slot st i) = k;
  holds_count : itemCount st = distinct_keys recs
}.

(** *** Cells after a write *)

Lemma slot_set_eq (st : state) (i : Z) (s : NetworkInfo) :
  List.length (hashTable st) = Z.to_nat C -> 0 <= i < C ->
  slot (set_slot st i s) i = s.
Proof.
  intros L Hi. unfold slot, set_slot; simpl. apply nth_upd_eq. lia.
Qed.

Lemma slot_set_neq (st : state) (i j : Z) (s : NetworkInfo) :
  0 <= i -> 0 <= j -> i <> j -> slot (set_slot st i s) j = slot st j.
Proof.
  intros Hi Hj Hne. unfold slot, set_slot; simpl. apply nth_upd_neq. lia.
Qed.

Lemma slot_create_eq (st : state) (i : Z) (k ip : string) :
  List.length (hashTable st) = Z.to_nat C -> 0 <= i < C ->
  slot (create_slot st i k ip) i = mkNetworkInfo k 1 [ip] 1 true.
Proof.
  intros L Hi. unfold slot, create_slot; simpl. apply nth_upd_eq. lia.
Qed.

Lemma slot_create_neq (st : state) (i j : Z) (k ip : string) :
  0 <= i -> 0 <= j -> i <> j -> slot (create_slot st i k ip) j = slot st j.
Proof.
  intros Hi Hj Hne. unfold slot, create_slot; simpl. apply nth_upd_neq. lia.
Qed.

(** The cell that [update_slot] writes. *)
Definition updated (s : NetworkInfo) (ip : string) : NetworkInfo :=
  if ipExists (uniqueIPs s) ip
  then mkNetworkInfo (network s) (accessCount s + 1) (uniqueIPs s)
                     (connectionCount s) (occupied s)
  else mkNetworkInfo (network s) (accessCount s + 1) (ip :: uniqueIPs s)
                     (connectionCount s + 1) (occupied s).

Lemma update_slot_set (st : state) (i : Z) (ip : string) :
  update_slot st i ip = set_slot st i (updated (slot st i) ip).
Proof.
  unfold update_slot, updated, addIP.
  destruct (ipExists (uniqueIPs (slot st i)) ip); reflexivity.
Qed.

Lemma updated_network (s : NetworkInfo) (ip : string) :
  network (updated s ip) = network s.
Proof. unfold updated. destruct (ipExists _ _); reflexivity. Qed.

Lemma updated_occupied (s : NetworkInfo) (ip : string) :
  occupied (updated s ip) = occupied s.
Proof. unfold updated. destruct (ipExists _ _); reflexivity. Qed.

(** *** What the walk finds in a well-formed table *)

Lemma walk_inv (st : state) (k : string) :
  match walk st k with
  | Free i => exists d, 0 <= d < C /\ i = at_step C (hashFunction C k) d
                        /\ passes C (free_of st) (hit_of st k) (hashFunction C k) d
                        /\ occupied (slot st i) = false
  | Hit i => exists d, 0 <= d < C /\ i = at_step C (hashFunction C k) d
                       /\ passes C (free_of st) (hit_of st k) (hashFunction C k) d
                       /\ occupied (slot st i) = true /\ network (slot st i) = k
  | Full => passes C (free_of st) (hit_of st k) (hashFunction C k) C
  end.
Proof.
  unfold walk.
  pose proof (probe_inv C (free_of st) (hit_of st k) Cpos (Z.to_nat C) (hashFunction C k)) as H.
  rewrite at_step_0 in H by (auto using hash_range).
  rewrite Z2Nat.id in H by lia.
  destruct (probe C (free_of st) (hit_of st k) (Z.to_nat C) (hashFunction C k)).
  - destruct H as (d & Hd & E & P & F). exists d.
    split; [lia|]. split; [exact E|]. split; [exact P|].
    unfold free_of in F. apply negb_true_iff in F. exact F.
  - destruct H as (d & Hd & E & P & F & H). exists d.
    split; [lia|]. split; [exact E|]. split; [exact P|]. split.
    + unfold free_of in F. apply negb_false_iff in F. exact F.
    + unfold hit_of in H. apply String.eqb_eq in H. exact H.
  - exact H.
Qed.

Lemma walk_index_range (st : state) (k : string) (i : Z) :
  walk st k = Free i \/ walk st k = Hit i -> 0 <= i < C.
Proof.
  intros H. pose proof (walk_inv st k) as W.
  destruct H as [H|H]; rewrite H in W; destruct W as (d & _ & -> & _);
    apply at_step_range; lia.
Qed.

(** A stored key is found, at the cell that stores it. *)
Lemma walk_stored (st : state) (k : string) (i : Z) :
  probing_ok st -> 0 <= i < C ->
  occupied (slot st i) = true -> network (slot st i) = k ->
  walk st k = Hit i.
Proof.
  intros OK Hi Ho Hk. unfold walk.
  pose proof (hash_range k) as Hr.
  set (h := hashFunction C k) in *.
  set (d := (i - h) mod C).
  assert (Hd : 0 <= d < C) by (apply Z.mod_pos_bound; lia).
  assert (Ei : at_step C h d = i) by (apply wrap_reach; lia).
  rewrite <- (at_step_0 C h Hr) at 1.
  rewrite <- Ei.
  apply probe_hit; auto; try lia.
  - intros j Hj.
    assert (Oj : occupied (slot st (at_step C h j)) = true).
    { pose proof (ok_path st OK i j Hi Ho) as P. rewrite Hk in P.
      apply P. fold h. fold d. lia. }
    split.
    + unfold free_of. rewrite Oj. reflexivity.
    + unfold hit_of. apply String.eqb_neq. intros E.
      assert (at_step C h j = i).
      { apply (ok_unique st OK); auto.
        - apply at_step_range; lia.
        - congruence. }
      assert (j = d) by (apply (wrap_inj C h); auto; try lia; unfold at_step in *; congruence).
      lia.
  - unfold free_of. rewrite Ei, Ho. reflexivity.
  - unfold hit_of. rewrite Ei. apply String.eqb_eq. exact Hk.
Qed.

(** While [itemCount] is below the capacity some cell is unused, so the
    walk cannot go round the whole table. *)
Lemma walk_not_full (st : state) (k : string) :
  probing_ok st -> itemCount st < C -> walk st k <> Full.
Proof.
  intros OK Hlt Hfull.
  pose proof (walk_inv st k) as W. rewrite Hfull in W.
  pose proof (hash_range k) as Hr.
  assert (All : forall n, (n < List.length (hashTable st))%nat ->
                          occupied (nth n (hashTable st) emptyInfo) = true).
  { intros n Hn. rewrite (ok_length st OK) in Hn.
    set (i := Z.of_nat n).
    assert (Hi : 0 <= i < C) by (unfold i; lia).
    destruct (W ((i - hashFunction C k) mod C)) as [F _].
    { apply Z.mod_pos_bound; lia. }
    unfold at_step in F. rewrite wrap_reach in F by lia.
    unfold free_of, slot in F. unfold i in F. rewrite Nat2Z.id in F.
    destruct (occupied (nth n (hashTable st) emptyInfo)); simpl in F; congruence. }
  pose proof (filter_all occupied (hashTable st) emptyInfo All) as E.
  pose proof (ok_count st OK) as Ec. rewrite E, (ok_length st OK) in Ec. lia.
Qed.

(** *** Writes keep the table well formed *)

Lemma probing_ok_init : probing_ok (init C).
Proof.
  assert (E : forall i, slot (init C) i = emptyInfo).
  { intros i. unfold slot, init; simpl. apply nth_repeat_default. }
  constructor.
  - unfold init; simpl. apply repeat_length.
  - intros i d _ H. rewrite E in H. discriminate.
  - intros i j _ _ H. rewrite E in H. discriminate.
  - unfold init; simpl.
    induction (Z.to_nat C) as [|n IH]; simpl; auto.
Qed.

(** Rewriting a used cell without touching its key. *)
Lemma probing_ok_rewrite (st : state) (i : Z) (s : NetworkInfo) :
  probing_ok st -> 0 <= i < C -> occupied (slot st i) = true ->
  network s = network (slot st i) -> occupied s = true ->
  probing_ok (set_slot st i s).
Proof.
  intros OK Hi Ho Hn Hs.
  pose proof (ok_length st OK) as L.
  assert (Same : forall j, 0 <= j < C ->
            occupied (slot (set_slot st i s) j) = occupied (slot st j)
            /\ network (slot (set_slot st i s) j) = network (slot st j)).
  { intros j Hj. destruct (Z.eq_dec i j) as [<-|Hne].
    - rewrite slot_set_eq by auto. split; congruence.
    - rewrite slot_set_neq by lia. auto. }
  constructor.
  - unfold set_slot; simpl. rewrite length_upd. exact L.
  - intros j d Hj Hoj Hd.
    destruct (Same j Hj) as [So Sn]. rewrite So in Hoj. rewrite Sn in *.
    pose proof (ok_path st OK j d Hj Hoj Hd) as P.
    destruct (Same (at_step C (hashFunction C (network (slot st j))) d)) as [So' _].
    { apply at_step_range; lia. }
    rewrite So'. exact P.
  - intros a b Ha Hb Hoa Hob E.
    destruct (Same a Ha) as [Soa Sna]. destruct (Same b Hb) as [Sob Snb].
    rewrite Soa in Hoa. rewrite Sob in Hob. rewrite Sna, Snb in E.
    apply (ok_unique st OK); auto.
  - unfold set_slot; simpl.
    pose proof (count_upd occupied (hashTable st) (Z.to_nat i) s emptyInfo
                          ltac:(lia)) as Cn.
    fold (slot st i) in Cn. rewrite Ho, Hs in Cn.
    rewrite (ok_count st OK). lia.
Qed.

Lemma probing_ok_update (st : state) (k ip : string) (i : Z) :
  probing_ok st -> walk st k = Hit i -> probing_ok (update_slot st i ip).
Proof.
  intros OK W.
  assert (Hi : 0 <= i < C) by (apply (walk_index_range st k); auto).
  pose proof (walk_inv st k) as Wi. rewrite W in Wi.
  destruct Wi as (d & _ & _ & _ & Ho & Hk).
  rewrite update_slot_set. apply probing_ok_rewrite; auto.
  - apply updated_network.
  - rewrite updated_occupied. exact Ho.
Qed.

Lemma probing_ok_create (st : state) (k ip : string) (i : Z) :
  probing_ok st -> walk st k = Free i -> probing_ok (create_slot st i k ip).
Proof.
  intros OK W.
  assert (Hi : 0 <= i < C) by (apply (walk_index_range st k); auto).
  pose proof (walk_inv st k) as Wi. rewrite W in Wi.
  destruct Wi as (d & Hd & Ei & P & Hfree).
  pose proof (ok_length st OK) as L.
  pose proof (hash_range k) as Hr.
  assert (Mono : forall j, 0 <= j < C -> occupied (slot st j) = true ->
                           occupied (slot (create_slot st i k ip) j) = true).
  { intros j Hj Hoj. destruct (Z.eq_dec i j) as [<-|Hne].
    - rewrite slot_create_eq by auto. reflexivity.
    - rewrite slot_create_neq by lia. exact Hoj. }
  assert (Dist : (i - hashFunction C k) mod C = d).
  { rewrite Ei. unfold at_step. rewrite Zminus_mod_idemp_l.
    replace (hashFunction C k + d - hashFunction C k) with d by lia.
    apply Z.mod_small; lia. }
  assert (Fresh : forall j, 0 <= j < C -> occupied (slot st j) = true ->
                            network (slot st j) <> k).
  { intros j Hj Hoj E. rewrite (walk_stored st k j OK Hj Hoj E) in W. discriminate. }
  constructor.
  - unfold create_slot; simpl. rewrite length_upd. exact L.
  - intros j e Hj Hoj He.
    destruct (Z.eq_dec i j) as [<-|Hne].
    + rewrite slot_create_eq in * by auto. simpl in *.
      rewrite Dist in He. apply Mono.
      * apply at_step_range; lia.
      * destruct (P e ltac:(lia)) as [F _]. unfold free_of in F.
        apply negb_false_iff in F. exact F.
    + rewrite slot_create_neq in Hoj by lia.
      rewrite (slot_create_neq st i j) in * by lia.
      apply Mono.
      * apply at_step_range; lia.
      * apply (ok_path st OK j e); auto.
  - intros a b Ha Hb Hoa Hob E.
    destruct (Z.eq_dec i a) as [<-|Hna]; destruct (Z.eq_dec i b) as [<-|Hnb]; auto.
    + rewrite slot_create_eq in E by auto. simpl in E.
      rewrite slot_create_neq in Hob, E by lia.
      exfalso. apply (Fresh b); auto.
    + rewrite slot_create_eq in E by auto. simpl in E.
      rewrite slot_create_neq in Hoa, E by lia.
      exfalso. apply (Fresh a); auto.
    + rewrite slot_create_neq in Hoa, Hob, E by lia.
      rewrite (slot_create_neq st i b) in E by lia.
      apply (ok_unique st OK); auto.
  - unfold create_slot; simpl.
    pose proof (count_upd occupied (hashTable st) (Z.to_nat i)
                          (mkNetworkInfo k 1 (addIP [] ip) 1 true) emptyInfo
                          ltac:(lia)) as Cn.
    fold (slot st i) in Cn. rewrite Hfree in Cn. simpl in Cn.
    rewrite (ok_count st OK). lia.
Qed.

Lemma probing_ok_insert (st st' : state) (k ip : string) :
  probing_ok st -> insertOrUpdate C st k ip = (true, st') -> probing_ok st'.
Proof.
  intros OK H. rewrite insertOrUpdate_walk in H.
  destruct (itemCount st >=? C); [discriminate|].
  destruct (walk st k) as [i|i|] eqn:W; inversion H; subst.
  - eapply probing_ok_create; eauto.
  - eapply probing_ok_update; eauto.
Qed.

(** *** Aggregates of a log that grows by one record *)

Lemma accesses_snoc (recs : list record) (k ip k' : string) :
  accesses (recs ++ [(k, ip)]) k'
  = accesses recs k' + (if String.eqb k k' then 1 else 0).
Proof.
  unfold accesses, of_key. rewrite filter_app, length_app. cbn [filter fst].
  destruct (String.eqb k k'); cbn [List.length]; rewrite Nat2Z.inj_add; reflexivity.
Qed.

Lemma children_snoc (recs : list record) (k ip k' : string) :
  children (recs ++ [(k, ip)]) k'
  = if String.eqb k k'
    then (if ipExists (children recs k') ip then children recs k'
          else ip :: children recs k')
    else children recs k'.
Proof.
  unfold children. rewrite fold_left_app. reflexivity.
Qed.

Lemma absent_no_records (recs : list record) (k : string) :
  ~ In k (keys recs) -> accesses recs k = 0 /\ children recs k = [].
Proof.
  induction recs as [|[k0 ip0] recs IH] using rev_ind; intros Hn.
  - split; reflexivity.
  - unfold keys in Hn. rewrite map_app, in_app_iff in Hn. simpl in Hn.
    assert (Hne : String.eqb k0 k = false).
    { apply String.eqb_neq. intros E. apply Hn. right. left. exact E. }
    rewrite accesses_snoc, children_snoc, Hne.
    destruct IH as [A B]; [intros H; apply Hn; left; exact H|].
    rewrite A, B. split; reflexivity.
Qed.

Lemma aggregate_snoc_other (recs : list record) (k ip k' : string) :
  k <> k' -> aggregate (recs ++ [(k, ip)]) k' = aggregate recs k'.
Proof.
  intros Hne. apply String.eqb_neq in Hne.
  unfold aggregate. rewrite accesses_snoc, children_snoc, Hne.
  f_equal. lia.
Qed.

Lemma aggregate_snoc_same (recs : list record) (k ip : string) :
  aggregate (recs ++ [(k, ip)]) k = updated (aggregate recs k) ip.
Proof.
  unfold aggregate, updated; simpl.
  rewrite accesses_snoc, children_snoc, String.eqb_refl.
  destruct (ipExists (children recs k) ip); f_equal; simpl List.length; lia.
Qed.

Lemma distinct_keys_snoc (recs : list record) (k ip : string) :
  distinct_keys (recs ++ [(k, ip)])
  = distinct_keys recs + (if in_dec string_dec k (keys recs) then 0 else 1).
Proof.
  unfold distinct_keys, keys. rewrite map_app. simpl.
  rewrite nodup_snoc_length, Nat2Z.inj_add.
  repeat match goal with
         | |- context [in_dec ?a ?b ?c] => destruct (in_dec a b c)
         end; try reflexivity; contradiction.
Qed.

Lemma holds_init : holds (init C) [].
Proof.
  constructor.
  - intros i _ H. unfold slot, init in H; simpl in H.
    rewrite nth_repeat_default in H. discriminate.
  - intros k [].
  - reflexivity.
Qed.

(** An accepted record leaves the aggregates of the longer log. *)
Lemma holds_insert (st st' : state) (recs : list record) (k ip : string) :
  probing_ok st -> holds st recs ->
  insertOrUpdate C st k ip = (true, st') ->
  holds st' (recs ++ [(k, ip)]).
Proof.
  intros OK Hh H. rewrite insertOrUpdate_walk in H.
  destruct (itemCount st >=? C); [discriminate|].
  pose proof (ok_length st OK) as L.
  pose proof (walk_inv st k) as Wi.
  destruct (walk st k) as [i|i|] eqn:W; inversion H; subst; clear H.
  - (* a new network *)
    assert (Hi : 0 <= i < C) by (apply (walk_index_range st k); auto).
    destruct Wi as (d & _ & _ & _ & Hfree).
    assert (Hnew : ~ In k (keys recs)).
    { intros Hin. destruct (holds_key st recs Hh k Hin) as (j & Hj & Hoj & Hkj).
      rewrite (walk_stored st k j OK Hj Hoj Hkj) in W. discriminate. }
    destruct (absent_no_records recs k Hnew) as [A0 C0].
    constructor.
    + intros j Hj Hoj. destruct (Z.eq_dec i j) as [<-|Hne].
      * rewrite slot_create_eq in * by auto. simpl. split.
        -- unfold keys. rewrite map_app, in_app_iff. right. left. reflexivity.
        -- rewrite aggregate_snoc_same. unfold aggregate, updated; simpl.
           rewrite A0, C0. reflexivity.
      * rewrite slot_create_neq in * by lia.
        destruct (holds_slot st recs Hh j Hj Hoj) as [Hin Hag]. split.
        -- unfold keys in *. rewrite map_app, in_app_iff. left. exact Hin.
        -- rewrite aggregate_snoc_other; auto. congruence.
    + intros k' Hin. unfold keys in Hin. rewrite map_app, in_app_iff in Hin.
      destruct Hin as [Hin|[<-|[]]].
      * destruct (holds_key st recs Hh k' Hin) as (j & Hj & Hoj & Hkj).
        exists j. assert (i <> j) by congruence.
        rewrite slot_create_neq by lia. auto.
      * exists i. rewrite slot_create_eq by auto. auto.
    + unfold create_slot; simpl. rewrite distinct_keys_snoc.
      destruct (in_dec string_dec k (keys recs)); [contradiction|].
      rewrite (holds_count st recs Hh). reflexivity.
  - (* a network already stored *)
    assert (Hi : 0 <= i < C) by (apply (walk_index_range st k); auto).
    destruct Wi as (d & _ & _ & _ & Ho & Hk).
    rewrite update_slot_set.
    destruct (holds_slot st recs Hh i Hi Ho) as [Hin Hag].
    constructor.
    + intros j Hj Hoj. destruct (Z.eq_dec i j) as [<-|Hne].
      * rewrite slot_set_eq in * by auto. rewrite updated_network. split.
        -- unfold keys in *. rewrite map_app, in_app_iff. left. exact Hin.
        -- rewrite Hk. rewrite aggregate_snoc_same. rewrite Hag at 1.
           rewrite Hk. reflexivity.
      * rewrite slot_set_neq in * by lia.
        destruct (holds_slot st recs Hh j Hj Hoj) as [Hin' Hag']. split.
        -- unfold keys in *. rewrite map_app, in_app_iff. left. exact Hin'.
        -- rewrite aggregate_snoc_other; auto.
           intros E. apply Hne. apply (ok_unique st OK); auto. congruence.
    + intros k' Hin'. unfold keys in Hin'. rewrite map_app, in_app_iff in Hin'.
      assert (Hin'' : In k' (keys recs)).
      { destruct Hin' as [?|[<-|[]]]; auto. rewrite <- Hk. exact Hin. }
      destruct (holds_key st recs Hh k' Hin'') as (j & Hj & Hoj & Hkj).
      exists j. destruct (Z.eq_dec i j) as [<-|Hne].
      * rewrite slot_set_eq by auto.
        rewrite updated_network, updated_occupied. auto.
      * rewrite slot_set_neq by lia. auto.
    + unfold set_slot; simpl. rewrite distinct_keys_snoc.
      destruct (in_dec string_dec k (keys recs)) as [_|Hn].
      * rewrite (holds_count st recs Hh). lia.
      * exfalso. apply Hn. rewrite <- Hk. exact Hin.
Qed.

(** Both invariants along a whole log. *)
Lemma ingest_invariant (todo done : list record) (st st' : state) :
  probing_ok st -> holds st done ->
  ingest st todo = (true, st') ->
  probing_ok st' /\ holds st' (done ++ todo).
Proof.
  revert done st. induction todo as [|[k ip] todo IH]; intros done st OK Hh H.
  - simpl in H. inversion H; subst. rewrite app_nil_r. auto.
  - simpl in H. destruct (insertOrUpdate C st k ip) as [[|] st1] eqn:E;
      [|discriminate].
    destruct (IH (done ++ [(k, ip)]) st1) as [A B]; auto.
    + eapply probing_ok_insert; eauto.
    + eapply holds_insert; eauto.
    + split; auto. rewrite <- app_assoc in B. exact B.
Qed.

Lemma distinct_keys_prefix (l1 l2 : list record) :
  distinct_keys l1 <= distinct_keys (l1 ++ l2).
Proof.
  unfold distinct_keys, keys. rewrite map_app.
  apply inj_le. apply NoDup_incl_length.
  - apply NoDup_nodup.
  - intros x Hx. apply nodup_In in Hx. apply nodup_In.
    apply in_or_app. left. exact Hx.
Qed.

(** A log with fewer networks than cells is accepted whole. *)
Lemma ingest_succeeds (todo done : list record) (st : state) :
  probing_ok st -> holds st done ->
  distinct_keys (done ++ todo) < C ->
  exists st', ingest st todo = (true, st').
Proof.
  revert done st. induction todo as [|[k ip] todo IH]; intros done st OK Hh Hlt.
  - exists st. reflexivity.
  - simpl.
    assert (Hc : itemCount st < C).
    { rewrite (holds_count st done Hh).
      eapply Z.le_lt_trans; [apply distinct_keys_prefix | exact Hlt]. }
    assert (E : exists st1, insertOrUpdate C st k ip = (true, st1)).
    { rewrite insertOrUpdate_walk.
      destruct (Z.geb_spec (itemCount st) C) as [G|_]; [lia|].
      pose proof (walk_not_full st k OK Hc) as NF.
      destruct (walk st k); eauto. contradiction. }
    destruct E as [st1 E]. rewrite E.
    apply (IH (done ++ [(k, ip)]) st1).
    + eapply probing_ok_insert; eauto.
    + eapply holds_insert; eauto.
    + rewrite <- app_assoc. exact Hlt.
Qed.

(** *** What a query sees *)

(** The record [searchNetwork] leads to, if any. *)
Definition found (st : state) (k : string) : option NetworkInfo :=
  let index := searchNetwork C st k in
  if index =? -1 then None else Some (slot st index).

Definition accessCount_of (st : state) (k : string) : Z :=
  match found st k with Some s => accessCount s | None => 0 end.

Definition connectionCount_of (st : state) (k : string) : Z :=
  match found st k with Some s => connectionCount s | None => 0 end.

Definition uniqueIPs_of (st : state) (k : string) : list string :=
  match found st k with Some s => uniqueIPs s | None => [] end.

Lemma found_walk (st : state) (k : string) :
  found st k = match walk st k with
               | Hit i => Some (slot st i)
               | _ => None
               end.
Proof.
  unfold found. rewrite searchNetwork_walk.
  destruct (walk st k) as [i|i|] eqn:W; auto.
  assert (Hi : 0 <= i < C) by (apply (walk_index_range st k); auto).
  destruct (Z.eqb_spec i (-1)); auto. lia.
Qed.

(** Cells that agree along the walk give the same walk. *)
Lemma passes_ext (f1 h1 f2 h2 : Z -> bool) (h d : Z) :
  (forall j, 0 <= j < d -> f1 (at_step C h j) = f2 (at_step C h j)
                           /\ h1 (at_step C h j) = h2 (at_step C h j)) ->
  passes C f1 h1 h d -> passes C f2 h2 h d.
Proof.
  intros E P j Hj. destruct (E j Hj) as [<- <-]. apply P. exact Hj.
Qed.

Lemma walk_after_create (st : state) (k ip : string) (i : Z) :
  List.length (hashTable st) = Z.to_nat C ->
  walk st k = Free i -> walk (create_slot st i k ip) k = Hit i.
Proof.
  intros L W.
  assert (Hi : 0 <= i < C) by (apply (walk_index_range st k); auto).
  pose proof (walk_inv st k) as Wi. rewrite W in Wi.
  destruct Wi as (d & Hd & Ei & P & Hfree).
  pose proof (hash_range k) as Hr.
  unfold walk. rewrite <- (at_step_0 C (hashFunction C k) Hr) at 1.
  rewrite Ei. apply probe_hit; auto; try lia.
  - apply (passes_ext (free_of st) (hit_of st k)); auto.
    intros j Hj.
    assert (at_step C (hashFunction C k) j <> i).
    { rewrite Ei. intros E. apply wrap_inj in E; lia. }
    pose proof (at_step_range C Cpos (hashFunction C k) j).
    unfold free_of, hit_of. rewrite slot_create_neq by lia. auto.
  - rewrite <- Ei. unfold free_of. rewrite slot_create_eq by auto. reflexivity.
  - rewrite <- Ei. unfold hit_of. rewrite slot_create_eq by auto.
    apply String.eqb_refl.
Qed.

Lemma walk_after_rewrite (st : state) (k : string) (i : Z) (s : NetworkInfo) :
  List.length (hashTable st) = Z.to_nat C ->
  walk st k = Hit i -> network s = k -> occupied s = true ->
  walk (set_slot st i s) k = Hit i.
Proof.
  intros L W Hn Hs.
  assert (Hi : 0 <= i < C) by (apply (walk_index_range st k); auto).
  pose proof (walk_inv st k) as Wi. rewrite W in Wi.
  destruct Wi as (d & Hd & Ei & P & Ho & Hk).
  pose proof (hash_range k) as Hr.
  unfold walk. rewrite <- (at_step_0 C (hashFunction C k) Hr) at 1.
  rewrite Ei. apply probe_hit; auto; try lia.
  - apply (passes_ext (free_of st) (hit_of st k)); auto.
    intros j Hj.
    assert (at_step C (hashFunction C k) j <> i).
    { rewrite Ei. intros E. apply wrap_inj in E; lia. }
    pose proof (at_step_range C Cpos (hashFunction C k) j).
    unfold free_of, hit_of. rewrite slot_set_neq by lia. auto.
  - rewrite <- Ei. unfold free_of. rewrite slot_set_eq by auto.
    rewrite Hs. reflexivity.
  - rewrite <- Ei. unfold hit_of. rewrite slot_set_eq by auto.
    apply String.eqb_eq. exact Hn.
Qed.

(** One accepted record, seen through [found]. *)
Lemma found_after_insert (st st' : state) (k ip : string) :
  List.length (hashTable st) = Z.to_nat C ->
  insertOrUpdate C st k ip = (true, st') ->
  List.length (hashTable st') = Z.to_nat C
  /\ found st' k
     = Some (updated (match found st k with
                      | Some s => s
                      | None => mkNetworkInfo k 0 [] 0 true
                      end) ip).
Proof.
  intros L H. rewrite insertOrUpdate_walk in H.
  destruct (itemCount st >=? C); [discriminate|].
  rewrite !found_walk.
  destruct (walk st k) as [i|i|] eqn:W; inversion H; subst; clear H.
  - assert (Hi : 0 <= i < C) by (apply (walk_index_range st k); auto).
    rewrite (walk_after_create st k ip i L W).
    rewrite slot_create_eq by auto. split.
    + unfold create_slot; simpl. rewrite length_upd. exact L.
    + reflexivity.
  - assert (Hi : 0 <= i < C) by (apply (walk_index_range st k); auto).
    pose proof (walk_inv st k) as Wi. rewrite W in Wi.
    destruct Wi as (d & _ & _ & _ & Ho & Hk).
    rewrite update_slot_set.
    rewrite (walk_after_rewrite st k i _ L W).
    + rewrite slot_set_eq by auto. split; auto.
      unfold set_slot; simpl. rewrite length_upd. exact L.
    + rewrite updated_network. exact Hk.
    + rewrite updated_occupied. exact Ho.
Qed.

Lemma ipExists_In (l : list string) (ip : string) :
  ipExists l ip = true <-> In ip l.
Proof.
  induction l as [|a l IH]; simpl.
  - split; [discriminate | intros []].
  - destruct (String.eqb_spec a ip) as [->|Hne].
    + split; auto.
    + rewrite IH. split; auto. intros [E|H]; auto. contradiction.
Qed.

(** [children] lists exactly the addresses of the network, each once. *)
Lemma children_distinct (recs : list record) (k : string) :
  NoDup (children recs k)
  /\ (forall ip, In ip (children recs k) <-> In ip (map snd (of_key k recs))).
Proof.
  induction recs as [|[k0 ip0] recs [ND EQ]] using rev_ind.
  - split; [constructor | intros ip; split; intros []].
  - rewrite children_snoc. unfold of_key in *. rewrite filter_app, map_app.
    cbn [filter fst snd map].
    destruct (String.eqb k0 k).
    + destruct (ipExists (children recs k) ip0) eqn:Ex.
      * split; auto. intros ip. rewrite in_app_iff, <- EQ. simpl.
        apply ipExists_In in Ex. split; auto. intros [H|[<-|[]]]; auto.
      * split.
        -- constructor; auto. intros H. apply ipExists_In in H. congruence.
        -- intros ip. rewrite in_app_iff, <- EQ. simpl. tauto.
    + split; auto. intros ip. rewrite in_app_iff, <- EQ. simpl. tauto.
Qed.

Lemma children_count (recs : list record) (k : string) :
  Z.of_nat (List.length (children recs k)) = distinct_ips recs k.
Proof.
  unfold distinct_ips. f_equal. apply Permutation_length.
  destruct (children_distinct recs k) as [ND EQ].
  apply NoDup_Permutation; auto.
  - apply NoDup_nodup.
  - intros ip. rewrite nodup_In. apply EQ.
Qed.

Lemma In_of_key (recs : list record) (k ip : string) :
  In ip (map snd (of_key k recs)) <-> In (k, ip) recs.
Proof.
  unfold of_key. rewrite in_map_iff. split.
  - intros ([k0 ip0] & E & H). apply filter_In in H. destruct H as [H Hk].
    simpl in *. apply String.eqb_eq in Hk. subst. exact H.
  - intros H. exists (k, ip). split; auto. apply filter_In. split; auto.
    apply String.eqb_refl.
Qed.

(** A network without a cell is not found, whatever the table. *)
Lemma search_absent (st : state) (q : string) :
  (forall i, 0 <= i < C -> occupied (slot st i) = true -> network (slot st i) <> q) ->
  searchNetwork C st q = -1.
Proof.
  intros A. rewrite searchNetwork_walk.
  pose proof (walk_inv st q) as W.
  destruct (walk st q) as [i|i|] eqn:E; auto.
  destruct W as (d & Hd & Ei & _ & Ho & Hk).
  exfalso. apply (A i); auto. rewrite Ei. apply at_step_range. lia.
Qed.

(** *** The reading loop of [main] as a sequence of records *)

(** The call of [insertOrUpdate] that a line leads to, if any. *)
Definition record_of_line (line : string) : option record :=
  match line with
  | EmptyString => None
  | _ =>
      match read_fields line with
      | None => None
      | Some ipPort =>
          match extractNetwork (ip_of ipPort) with
          | EmptyString => None
          | network => Some (network, ip_of ipPort)
          end
      end
  end.

Fixpoint records_of (lines : list string) : list record :=
  match lines with
  | [] => []
  | line :: rest =>
      match record_of_line line with
      | Some r => r :: records_of rest
      | None => records_of rest
      end
  end.

Lemma ingest_line_record (st : state) (line : string) :
  ingest_line C st line
  = match record_of_line line with
    | None => (true, st)
    | Some (k, ip) => insertOrUpdate C st k ip
    end.
Proof.
  unfold ingest_line, record_of_line.
  destruct line as [|c line]; auto.
  destruct (read_fields (String c line)) as [ipPort|]; auto.
  destruct (extractNetwork (ip_of ipPort)); auto.
Qed.

Lemma ingest_lines_records (lines : list string) (st : state) :
  ingest_lines C st lines = ingest st (records_of lines).
Proof.
  revert st. induction lines as [|line rest IH]; intros st; simpl; auto.
  rewrite ingest_line_record.
  destruct (record_of_line line) as [[k ip]|]; simpl.
  - destruct (insertOrUpdate C st k ip) as [[|] st1]; auto.
  - apply IH.
Qed.

Lemma ingest_app (l1 l2 : list record) (st : state) :
  ingest st (l1 ++ l2)
  = let '(ok, st') := ingest st l1 in
    if ok then ingest st' l2 else (false, st').
Proof.
  revert st. induction l1 as [|[k ip] l1 IH]; intros st; simpl.
  - destruct (ingest st l2) as [[|] s]; reflexivity.
  - destruct (insertOrUpdate C st k ip) as [[|] st1]; auto.
Qed.

Lemma records_of_app (l1 l2 : list string) :
  records_of (l1 ++ l2) = records_of l1 ++ records_of l2.
Proof.
  induction l1 as [|line l1 IH]; simpl; auto.
  destruct (record_of_line line); simpl; rewrite IH; reflexivity.
Qed.

(** A walk that meets only cells of other networks ends in a refusal. *)
Lemma insertOrUpdate_exhausted (st : state) (k ip : string) :
  (forall i, 0 <= i < C -> occupied (slot st i) = true /\ network (slot st i) <> k) ->
  insertOrUpdate C st k ip = (false, st).
Proof.
  intros All. rewrite insertOrUpdate_walk.
  destruct (itemCount st >=? C); auto.
  pose proof (walk_inv st k) as W.
  destruct (walk st k) as [i|i|] eqn:E; auto; exfalso.
  - destruct W as (d & Hd & Ei & _ & Hfree).
    destruct (All i) as [U _]; [rewrite Ei; apply at_step_range; lia|].
    congruence.
  - destruct W as (d & Hd & Ei & _ & _ & Hk).
    destruct (All i) as [_ N]; [rewrite Ei; apply at_step_range; lia|].
    contradiction.
Qed.

Lemma ingest_lines_app (l1 l2 : list string) (st : state) :
  ingest_lines C st (l1 ++ l2)
  = let '(ok, st') := ingest_lines C st l1 in
    if ok then ingest_lines C st' l2 else (false, st').
Proof.
  rewrite !ingest_lines_records, records_of_app, ingest_app.
  destruct (ingest st (records_of l1)) as [[|] st1]; auto.
  rewrite ingest_lines_records. reflexivity.
Qed.

(** A refused line ends [main] with status 1, whatever follows it. *)
Lemma main_refused (lines later : list string) (line : string)
      (st st' : state) (n : Z) (input : list string) :
  ingest_lines C (init C) lines = (true, st) ->
  ingest_line C st line = (false, st') ->
  main C (Some (lines ++ line :: later)) n input
  = mkRun 1 EmptyString
          ("Error: Tabla llena, imposible meter más datos" ++ endl).
Proof.
  intros H1 H2. unfold main. rewrite ingest_lines_app, H1.
  cbn [ingest_lines]. rewrite H2. reflexivity.
Qed.

(** *** Finding what was inserted *)

(** C1. After the records of a log with fewer networks than the table has
    cells (none is then refused), [searchNetwork] leads every network of
    the log to the cell that stores this very network, with the number of
    its records, the number of its different addresses and exactly its
    addresses; for every other network it returns -1, the walk having met
    only cells used by other networks before the first unused cell of its
    probe sequence. *)
Theorem find_after_ingest (recs : list record) :
  distinct_keys recs < C ->
  exists st,
    ingest (init C) recs = (true, st)
    /\ (forall k, In k (keys recs) ->
          let s := slot st (searchNetwork C st k) in
          0 <= searchNetwork C st k < C
          /\ occupied s = true
          /\ network s = k
          /\ accessCount s = accesses recs k
          /\ connectionCount s = distinct_ips recs k
          /\ (forall ip, In ip (uniqueIPs s) <-> In (k, ip) recs))
    /\ (forall k, ~ In k (keys recs) ->
          searchNetwork C st k = -1
          /\ exists d, 0 <= d < C
               /\ occupied (slot st ((hashFunction C k + d) mod C)) = false
               /\ forall j, 0 <= j < d ->
                    occupied (slot st ((hashFunction C k + j) mod C)) = true
                    /\ network (slot st ((hashFunction C k + j) mod C)) <> k).
Proof.
  intros Hlt.
  destruct (ingest_succeeds recs [] (init C) probing_ok_init holds_init Hlt)
    as [st Hst].
  destruct (ingest_invariant recs [] (init C) st probing_ok_init holds_init Hst)
    as [OK Hh].
  simpl in Hh. exists st. split; [exact Hst|]. split.
  - intros k Hin.
    destruct (holds_key st recs Hh k Hin) as (i & Hi & Ho & Hk).
    pose proof (walk_stored st k i OK Hi Ho Hk) as W.
    rewrite searchNetwork_walk, W. cbv zeta.
    destruct (holds_slot st recs Hh i Hi Ho) as [_ Hag].
    rewrite Hk in Hag. rewrite Hag. unfold aggregate; simpl.
    repeat split; auto; try lia.
    + apply children_count.
    + intros H. apply In_of_key. apply (children_distinct recs k). exact H.
    + intros H. apply (children_distinct recs k). apply In_of_key. exact H.
  - intros k Hnot.
    pose proof (walk_inv st k) as Wi.
    rewrite searchNetwork_walk.
    destruct (walk st k) as [i|i|] eqn:W.
    + destruct Wi as (d & Hd & Ei & P & Hfree). split; auto.
      exists d. split; [exact Hd|]. split.
      * fold (at_step C (hashFunction C k) d). rewrite <- Ei. exact Hfree.
      * intros j Hj. destruct (P j Hj) as [F H].
        unfold free_of in F. apply negb_false_iff in F.
        unfold hit_of in H. apply String.eqb_neq in H. auto.
    + exfalso. destruct Wi as (d & Hd & Ei & _ & Ho & Hk).
      assert (Hi : 0 <= i < C) by (rewrite Ei; apply at_step_range; lia).
      destruct (holds_slot st recs Hh i Hi Ho) as [Hin _].
      apply Hnot. rewrite <- Hk. exact Hin.
    + exfalso. apply (walk_not_full st k OK); auto.
      rewrite (holds_count st recs Hh). exact Hlt.
Qed.

(** *** Counters *)

(** Whenever [insertOrUpdate] accepts a record, the network's
    [accessCount] grows by 1, and its [connectionCount] by 1 if the
    address is not yet among the network's addresses and by 0 if it is;
    the same new address accepted twice adds 2 and 1; after any accepted
    log the two counters are the numbers of the log. *)
Lemma accepted_record_counts :
  (forall st st' k ip,
      List.length (hashTable st) = Z.to_nat C ->
      insertOrUpdate C st k ip = (true, st') ->
      accessCount_of st' k = accessCount_of st k + 1
      /\ connectionCount_of st' k
         = connectionCount_of st k
           + (if ipExists (uniqueIPs_of st k) ip then 0 else 1))
  /\ (forall st st1 st2 k ip,
      List.length (hashTable st) = Z.to_nat C ->
      ipExists (uniqueIPs_of st k) ip = false ->
      insertOrUpdate C st k ip = (true, st1) ->
      insertOrUpdate C st1 k ip = (true, st2) ->
      accessCount_of st2 k = accessCount_of st k + 2
      /\ connectionCount_of st2 k = connectionCount_of st k + 1)
  /\ (forall recs st k,
      ingest (init C) recs = (true, st) ->
      connectionCount_of st k = distinct_ips recs k
      /\ accessCount_of st k = accesses recs k).
Proof.
  assert (Step : forall st st' k ip,
      List.length (hashTable st) = Z.to_nat C ->
      insertOrUpdate C st k ip = (true, st') ->
      List.length (hashTable st') = Z.to_nat C
      /\ accessCount_of st' k = accessCount_of st k + 1
      /\ connectionCount_of st' k
         = connectionCount_of st k
           + (if ipExists (uniqueIPs_of st k) ip then 0 else 1)
      /\ uniqueIPs_of st' k
         = if ipExists (uniqueIPs_of st k) ip then uniqueIPs_of st k
           else ip :: uniqueIPs_of st k).
  { intros st st' k ip L H.
    destruct (found_after_insert st st' k ip L H) as [L' F].
    unfold accessCount_of, connectionCount_of, uniqueIPs_of. rewrite F.
    split; [exact L'|].
    destruct (found st k) as [s|]; unfold updated; simpl.
    - destruct (ipExists (uniqueIPs s) ip); simpl; repeat split; lia.
    - repeat split; lia. }
  split; [|split].
  - intros st st' k ip L H. destruct (Step st st' k ip L H) as (_ & A & B & _).
    auto.
  - intros st st1 st2 k ip L New H1 H2.
    destruct (Step st st1 k ip L H1) as (L1 & A1 & B1 & U1).
    destruct (Step st1 st2 k ip L1 H2) as (_ & A2 & B2 & _).
    rewrite New in *. rewrite U1 in B2. simpl in B2.
    rewrite String.eqb_refl in B2. lia.
  - intros recs st k Hst.
    destruct (ingest_invariant recs [] (init C) st probing_ok_init holds_init Hst)
      as [OK Hh].
    simpl in Hh.
    unfold connectionCount_of, accessCount_of. rewrite found_walk.
    pose proof (walk_inv st k) as Wi.
    destruct (walk st k) as [i|i|] eqn:W.
    + assert (Hnot : ~ In k (keys recs)).
      { intros Hin. destruct (holds_key st recs Hh k Hin) as (j & Hj & Hoj & Hkj).
        rewrite (walk_stored st k j OK Hj Hoj Hkj) in W. discriminate. }
      destruct (absent_no_records recs k Hnot) as [A0 C0].
      rewrite <- children_count, C0, A0. auto.
    + destruct Wi as (d & Hd & Ei & _ & Ho & Hk).
      assert (Hi : 0 <= i < C) by (rewrite Ei; apply at_step_range; lia).
      destruct (holds_slot st recs Hh i Hi Ho) as [_ Hag].
      rewrite Hk in Hag. rewrite Hag. unfold aggregate; simpl.
      split; auto. apply children_count.
    + assert (Hnot : ~ In k (keys recs)).
      { intros Hin. destruct (holds_key st recs Hh k Hin) as (j & Hj & Hoj & Hkj).
        rewrite (walk_stored st k j OK Hj Hoj Hkj) in W. discriminate. }
      destruct (absent_no_records recs k Hnot) as [A0 C0].
      rewrite <- children_count, C0, A0. auto.
Qed.

(** *** Queries that miss *)

(** C9. A queried network that no cell stores is answered by the query
    itself and the fixed line "Red no encontrada"; the table is left as it
    was, the loop goes on with the next query, and [main] returns 0 with
    nothing on the diagnostic stream whenever the file was read. *)
Theorem query_miss_is_not_an_error :
  (forall st q,
      (forall i, 0 <= i < C -> occupied (slot st i) = true ->
                 network (slot st i) <> q) ->
      answer_query C st q
      = ((q ++ endl ++ "Red no encontrada" ++ endl)%string, st)
      /\ forall count i n rest,
           query_loop C (S count) i n st (q :: rest)
           = ((q ++ endl ++ "Red no encontrada" ++ endl)
              ++ (if (i <? n - 1)%Z then endl else EmptyString)
              ++ query_loop C count (i + 1)%Z n st rest)%string)
  /\ (forall lines st n input,
      ingest_lines C (init C) lines = (true, st) ->
      main C (Some lines) n input
      = mkRun 0 (query_loop C (Z.to_nat n) 0 n st input) EmptyString).
Proof.
  split.
  - intros st q A.
    assert (E : answer_query C st q
                = ((q ++ endl ++ "Red no encontrada" ++ endl)%string, st)).
    { unfold answer_query. rewrite (search_absent st q A). reflexivity. }
    split; [exact E|].
    intros count i n rest. cbn [query_loop hd tl]. rewrite E. reflexivity.
  - intros lines st n input H. unfold main. rewrite H. reflexivity.
Qed.

(** *** The capacity guard *)

Definition table_full_message : string :=
  ("Error: Tabla llena, imposible meter más datos" ++ endl)%string.

(** C10. Once [itemCount] has reached the capacity, [insertOrUpdate]
    returns [false] and changes nothing, for every record.  A table that
    took a log with as many networks as it has cells is in that state:
    it then refuses also the networks it stores, which [searchNetwork]
    still finds, and [main] ends with status 1 on the next line that
    carries a record, whatever follows. *)
Theorem full_table_refuses_every_record :
  (forall st k ip,
      itemCount st >= C -> insertOrUpdate C st k ip = (false, st))
  /\ (forall recs st,
      ingest (init C) recs = (true, st) ->
      distinct_keys recs = C ->
      itemCount st = C
      /\ forall k ip,
           insertOrUpdate C st k ip = (false, st)
           /\ (In k (keys recs) ->
               0 <= searchNetwork C st k < C
               /\ network (slot st (searchNetwork C st k)) = k))
  /\ (forall lines line later r n input st,
      ingest_lines C (init C) lines = (true, st) ->
      distinct_keys (records_of lines) = C ->
      record_of_line line = Some r ->
      main C (Some (lines ++ line :: later)) n input
      = mkRun 1 EmptyString table_full_message).
Proof.
  assert (Guard : forall st k ip,
             itemCount st >= C -> insertOrUpdate C st k ip = (false, st)).
  { intros st k ip H. unfold insertOrUpdate.
    destruct (Z.geb_spec (itemCount st) C); [reflexivity | lia]. }
  assert (Full : forall recs st,
             ingest (init C) recs = (true, st) -> distinct_keys recs = C ->
             probing_ok st /\ holds st recs /\ itemCount st = C).
  { intros recs st Hst Hn.
    destruct (ingest_invariant recs [] (init C) st probing_ok_init holds_init Hst)
      as [OK Hh].
    simpl in Hh. split; [exact OK|]. split; [exact Hh|].
    rewrite (holds_count st recs Hh). exact Hn. }
  split; [exact Guard|]. split.
  - intros recs st Hst Hn. destruct (Full recs st Hst Hn) as (OK & Hh & Hc).
    split; [exact Hc|]. intros k ip. split.
    + apply Guard. lia.
    + intros Hin. destruct (holds_key st recs Hh k Hin) as (i & Hi & Ho & Hk).
      rewrite searchNetwork_walk, (walk_stored st k i OK Hi Ho Hk). auto.
  - intros lines line later [k ip] n input st Hst Hn Hr.
    rewrite ingest_lines_records in Hst.
    destruct (Full _ st Hst Hn) as (_ & _ & Hc).
    unfold main. rewrite ingest_lines_records, records_of_app, ingest_app, Hst.
    simpl. rewrite Hr. simpl. rewrite (Guard st k ip) by lia. reflexivity.
Qed.

End Table.


(** *** Runs on small tables *)

Definition sample_log : list record :=
  [ ("10.0", "10.0.0.5"); ("10.0", "10.0.0.5"); ("10.0", "10.0.0.9");
    ("11.7", "11.7.0.1") ]%string.

Definition sample_lines : list string :=
  [ "Jul 18 07:53:22 10.0.0.5:6526 timeout";
    "Jul 18 07:53:23 10.0.0.5:6526 timeout";
    "Jul 19 08:00:00 10.0.0.9:80 ok";
    "Jul 19 08:00:01 11.7.0.1:80 ok" ]%string.

Definition two_networks : list string :=
  [ "Jul 18 07:53:22 10.0.0.5:6526 timeout";
    "Jul 19 08:00:01 11.7.0.1:80 ok" ]%string.

Example sample_lines_records : records_of sample_lines = sample_log.
Proof. reflexivity. Qed.

(** The scenario of the specification: three records of network 10.0 from
    two addresses, listed in ascending order. *)
Example sample_summary :
  main TABLE_SIZE (Some (firstn 3 sample_lines)) 1 ["10.0"%string]
  = mkRun 0 ("10.0" ++ endl ++ "3" ++ endl ++ "2" ++ endl
             ++ "10.0.0.5" ++ endl ++ "10.0.0.9" ++ endl)%string
          EmptyString.
Proof. vm_compute. reflexivity. Qed.

Lemma find_after_ingest_witness :
  exists st,
    ingest 7 (init 7) sample_log = (true, st)
    /\ (forall k, In k (keys sample_log) ->
          let s := slot st (searchNetwork 7 st k) in
          0 <= searchNetwork 7 st k < 7
          /\ occupied s = true
          /\ network s = k
          /\ accessCount s = accesses sample_log k
          /\ connectionCount s = distinct_ips sample_log k
          /\ (forall ip, In ip (uniqueIPs s) <-> In (k, ip) sample_log))
    /\ (forall k, ~ In k (keys sample_log) ->
          searchNetwork 7 st k = -1
          /\ exists d, 0 <= d < 7
               /\ occupied (slot st ((hashFunction 7 k + d) mod 7)) = false
               /\ forall j, 0 <= j < d ->
                    occupied (slot st ((hashFunction 7 k + j) mod 7)) = true
                    /\ network (slot st ((hashFunction 7 k + j) mod 7)) <> k).
Proof.
  apply (find_after_ingest 7); reflexivity.
Defined.

(** A table of two cells that holds two networks refuses a further record
    of the first of them, although its address is among the network's
    addresses: [accessCount] stays 1. *)
Lemma known_address_refused_when_full :
  let st := snd (ingest_lines 2 (init 2) two_networks) in
  let st' := snd (insertOrUpdate 2 st "10.0" "10.0.0.5") in
  ingest_lines 2 (init 2) two_networks = (true, st)
  /\ ipExists (uniqueIPs_of 2 st "10.0") "10.0.0.5" = true
  /\ accessCount_of 2 st "10.0" = 1
  /\ accessCount_of 2 st' "10.0" = 1
  /\ accessCount_of 2 st' "10.0" <> accessCount_of 2 st "10.0" + 1.
Proof.
  vm_compute. repeat split; discriminate.
Qed.

Lemma query_miss_is_not_an_error_witness :
  main 7 (Some sample_lines) 2 ["99.9"; "10.0"]%string
  = mkRun 0 ("99.9" ++ endl ++ "Red no encontrada" ++ endl
             ++ endl
             ++ "10.0" ++ endl ++ "3" ++ endl ++ "2" ++ endl
             ++ "10.0.0.5" ++ endl ++ "10.0.0.9" ++ endl)%string
          EmptyString.
Proof.
  destruct (query_miss_is_not_an_error 7 eq_refl) as [Miss Run].
  rewrite (Run sample_lines (snd (ingest_lines 7 (init 7) sample_lines)) 2 _ eq_refl).
  assert (Absent : forall i, 0 <= i < 7 ->
            occupied (slot (snd (ingest_lines 7 (init 7) sample_lines)) i) = true ->
            network (slot (snd (ingest_lines 7 (init 7) sample_lines)) i)
            <> "99.9"%string).
  { intros i Hi Ho.
    assert (E : i = 0 \/ i = 1 \/ i = 2 \/ i = 3 \/ i = 4 \/ i = 5 \/ i = 6) by lia.
    destruct E as [E|[E|[E|[E|[E|[E|E]]]]]]; subst i;
      vm_compute in Ho; try discriminate Ho; vm_compute; discriminate. }
  destruct (Miss _ _ Absent) as [_ Loop].
  change (Z.to_nat 2) with 2%nat. rewrite Loop. reflexivity.
Defined.

Lemma full_table_refuses_every_record_witness :
  main 2 (Some (two_networks ++ "Jul 19 08:00:02 10.0.0.5:81 again"%string
                             :: sample_lines)) 1 ["10.0"%string]
  = mkRun 1 EmptyString table_full_message.
Proof.
  destruct (full_table_refuses_every_record 2 eq_refl) as (_ & _ & Run).
  apply (Run two_networks _ sample_lines ("10.0", "10.0.0.5")%string 1 _
             (snd (ingest_lines 2 (init 2) two_networks)));
    reflexivity.
Defined.

End Act52Facts.

(** ** The two tables of [Act43] *)

Module Act43Facts.

Import Act43 Probe.

(** *** The two scans of a max-count query *)

Section Scans.

Context {Cell : Type}.
Variable is_used : Cell -> bool.
Variable selector : Cell -> Z.

Let step (m : Z) (s : Cell) : Z :=
  if (is_used s && (selector s >? m))%bool then selector s else m.

Lemma scan_from_ge (t : list Cell) (m : Z) : m <= fold_left step t m.
Proof.
  revert m. induction t as [|s t IH]; intros m; simpl; [lia|].
  specialize (IH (step m s)). unfold step in *.
  destruct (is_used s && (selector s >? m))%bool eqn:E; [|exact IH].
  apply andb_true_iff in E. destruct E as [_ E]. apply Z.gtb_lt in E. lia.
Qed.

Lemma scan_from_bounds (t : list Cell) (m : Z) (s : Cell) :
  In s t -> is_used s = true -> selector s <= fold_left step t m.
Proof.
  revert m. induction t as [|x t IH]; intros m Hin Hu; [destruct Hin|].
  destruct Hin as [<-|Hin]; simpl.
  - pose proof (scan_from_ge t (step m x)) as G. unfold step in *.
    rewrite Hu in *. simpl in *.
    destruct (Z.gtb_spec (selector x) m); lia.
  - apply IH; auto.
Qed.

Lemma scan_from_attained (t : list Cell) (m : Z) :
  fold_left step t m = m
  \/ exists s, In s t /\ is_used s = true /\ selector s = fold_left step t m.
Proof.
  revert m. induction t as [|x t IH]; intros m; simpl; [left; reflexivity|].
  destruct (IH (step m x)) as [E|(s & Hin & Hu & Hs)].
  - rewrite E. unfold step.
    destruct (is_used x && (selector x >? m))%bool eqn:B; [|left; reflexivity].
    apply andb_true_iff in B. destruct B as [Hu _].
    right. exists x. auto.
  - right. exists s. auto.
Qed.

(** The maximum is an upper bound of the used cells' values, and the value
    of one of them as soon as one is not negative. *)
Lemma max_scan_is_maximum (t : list Cell) :
  (forall s, In s t -> is_used s = true -> selector s <= max_scan is_used selector t)
  /\ ((exists s, In s t /\ is_used s = true /\ 0 <= selector s) ->
      exists s, In s t /\ is_used s = true
                /\ selector s = max_scan is_used selector t).
Proof.
  unfold max_scan. fold step. split.
  - intros s. apply scan_from_bounds.
  - intros (s & Hin & Hu & Hs).
    destruct (scan_from_attained t 0) as [E|H]; auto.
    exists s. repeat split; auto.
    pose proof (scan_from_bounds t 0 s Hin Hu). lia.
Qed.

Lemma nth_past (l0 r : list Cell) (x d : Cell) (n : nat) :
  (List.length l0 < n)%nat ->
  nth n (l0 ++ x :: r) d = nth (n - List.length l0 - 1)%nat r d.
Proof.
  intros H. rewrite app_nth2 by lia.
  destruct (n - List.length l0)%nat as [|m] eqn:E; [lia|].
  simpl. f_equal. lia.
Qed.

Lemma three_positions (t : list Cell) (d : Cell) (i j k : nat) :
  (i < j)%nat -> (j < k)%nat -> (k < List.length t)%nat ->
  exists l0 l1 l2 l3,
    t = l0 ++ nth i t d :: l1 ++ nth j t d :: l2 ++ nth k t d :: l3.
Proof.
  intros Hij Hjk Hk.
  destruct (nth_split t d (n := i) ltac:(lia)) as (l0 & r0 & E0 & L0).
  remember (nth i t d) as x eqn:Ex.
  assert (Lr0 : List.length t = (i + 1 + List.length r0)%nat).
  { rewrite E0. rewrite length_app. simpl. lia. }
  assert (Ej : nth j t d = nth (j - i - 1)%nat r0 d).
  { rewrite E0. rewrite nth_past by lia. rewrite L0. reflexivity. }
  assert (Ek : nth k t d = nth (k - i - 1)%nat r0 d).
  { rewrite E0. rewrite nth_past by lia. rewrite L0. reflexivity. }
  destruct (nth_split r0 d (n := (j - i - 1)%nat) ltac:(lia)) as (l1 & r1 & E1 & L1).
  remember (nth (j - i - 1) r0 d) as y eqn:Ey.
  assert (Lr1 : List.length r0 = (j - i - 1 + 1 + List.length r1)%nat).
  { rewrite E1. rewrite length_app. simpl. lia. }
  assert (Ek' : nth k t d = nth (k - j - 1)%nat r1 d).
  { rewrite Ek, E1. rewrite nth_past by lia. rewrite L1. f_equal. lia. }
  destruct (nth_split r1 d (n := (k - j - 1)%nat) ltac:(lia)) as (l2 & l3 & E2 & L2).
  exists l0, l1, l2, l3.
  rewrite Ek', Ej. rewrite <- E2. rewrite <- E1. exact E0.
Qed.

(** Three cells that qualify are three entries of the second scan, in
    table order. *)
Lemma scan_equal_three (label : Cell -> string) (target : Z) (t : list Cell) (d : Cell)
      (i j k : nat) :
  (i < j)%nat -> (j < k)%nat -> (k < List.length t)%nat ->
  (forall n, n = i \/ n = j \/ n = k ->
             is_used (nth n t d) = true /\ selector (nth n t d) = target) ->
  exists l0 l1 l2 l3,
    map label (scan_equal is_used selector target t)
    = l0 ++ label (nth i t d) :: l1 ++ label (nth j t d) :: l2
         ++ label (nth k t d) :: l3.
Proof.
  intros Hij Hjk Hk Q.
  destruct (three_positions t d i j k Hij Hjk Hk) as (l0 & l1 & l2 & l3 & E).
  set (f := fun s => (is_used s && (selector s =? target))%bool).
  assert (Qf : forall n, n = i \/ n = j \/ n = k -> f (nth n t d) = true).
  { intros n Hn. destruct (Q n Hn) as [U V]. unfold f.
    rewrite U, V, Z.eqb_refl. reflexivity. }
  exists (map label (filter f l0)), (map label (filter f l1)),
         (map label (filter f l2)), (map label (filter f l3)).
  unfold scan_equal. fold f. rewrite E at 1.
  rewrite filter_app. cbn [filter]. rewrite (Qf i) by auto.
  rewrite filter_app. cbn [filter]. rewrite (Qf j) by auto.
  rewrite filter_app. cbn [filter]. rewrite (Qf k) by auto.
  rewrite !map_app. cbn [map]. rewrite !map_app. cbn [map].
  rewrite !map_app. cbn [map]. reflexivity.
Qed.

End Scans.

Section Table.

Variable C : Z.
Hypothesis Cpos : 0 < C.
(** [TABLE_SIZE] is an [int]. *)
Hypothesis Cint : C < 2 ^ 31.

Lemma next_index_wraps (h : Z) :
  0 <= h < C -> next_index C h = (h + 1) mod C.
Proof.
  intros Hh. unfold next_index, wrap32.
  rewrite (Z.mod_small (h + 1)) by lia.
  destruct (Z.eqb_spec (h + 1) C) as [E|Hne].
  - rewrite E, Z.mod_same by lia. reflexivity.
  - symmetry. apply Z.mod_small. lia.
Qed.

Lemma network_loop_probe (n : nat) (t : list Network) (p : string) (h : Z) :
  0 <= h < C ->
  network_loop C n t p h
  = match probe C (fun i => negb (used (net t i)))
                (fun i => String.eqb (prefix (net t i)) p) n h with
    | Free i => Some (i, upd t (Z.to_nat i) (mkNetwork p 0 true))
    | Hit i => Some (i, t)
    | Full => None
    end.
Proof.
  revert h. induction n as [|n IH]; intros h Hh; [reflexivity|].
  cbn [network_loop probe].
  destruct (negb (used (net t h))); auto.
  destruct (String.eqb (prefix (net t h)) p); auto.
  rewrite next_index_wraps by exact Hh.
  apply IH. apply Z.mod_pos_bound. lia.
Qed.

Lemma host_loop_probe (n : nat) (t : list Host) (a : string) (h : Z) :
  0 <= h < C ->
  host_loop C n t a h
  = match probe C (fun i => negb (hused (host t i)))
                (fun i => String.eqb (ip (host t i)) a) n h with
    | Free i => Some (i, true, upd t (Z.to_nat i) (mkHost a [] 0 10 true))
    | Hit i => Some (i, false, t)
    | Full => None
    end.
Proof.
  revert h. induction n as [|n IH]; intros h Hh; [reflexivity|].
  cbn [host_loop probe].
  destruct (negb (hused (host t h))); auto.
  destruct (String.eqb (ip (host t h)) a); auto.
  rewrite next_index_wraps by exact Hh.
  apply IH. apply Z.mod_pos_bound. lia.
Qed.

(** A walk over a table whose cells are all used by other keys goes
    round it. *)
Lemma probe_all_taken (free hit : Z -> bool) (h : Z) :
  0 <= h < C ->
  (forall i, 0 <= i < C -> free i = false /\ hit i = false) ->
  probe C free hit (Z.to_nat C) h = Full.
Proof.
  intros Hh All. rewrite <- (at_step_0 C h Hh).
  apply probe_full; auto. intros j _. apply All. apply at_step_range. lia.
Qed.

Lemma networks_exhausted (t : list Network) (p : string) :
  (forall i, 0 <= i < C -> used (net t i) = true /\ prefix (net t i) <> p) ->
  getNetworkIndex C t p = Exit 1 networks_full.
Proof.
  intros All. unfold getNetworkIndex.
  rewrite network_loop_probe by (apply Z.mod_pos_bound; lia).
  rewrite probe_all_taken; auto.
  - apply Z.mod_pos_bound; lia.
  - intros i Hi. destruct (All i Hi) as [U P]. rewrite U. split; auto.
    apply String.eqb_neq. exact P.
Qed.

Lemma hosts_exhausted (t : list Host) (a : string) :
  (forall i, 0 <= i < C -> hused (host t i) = true /\ ip (host t i) <> a) ->
  getHostIndex C t a = Exit 1 hosts_full.
Proof.
  intros All. unfold getHostIndex.
  rewrite host_loop_probe by (apply Z.mod_pos_bound; lia).
  rewrite probe_all_taken; auto.
  - apply Z.mod_pos_bound; lia.
  - intros i Hi. destruct (All i Hi) as [U P]. rewrite U. split; auto.
    apply String.eqb_neq. exact P.
Qed.

Lemma reading_loop_app (l1 l2 : list string) (st : state) :
  ingest_lines C st (l1 ++ l2)
  = match ingest_lines C st l1 with
    | Ok st' => ingest_lines C st' l2
    | Exit status d => Exit status d
    end.
Proof.
  revert st. induction l1 as [|line l1 IH]; intros st; simpl; auto.
  destruct (ingest_line C st line); auto.
Qed.

(** An [exit] in the reading loop comes from one of the two full tables. *)
Lemma ingest_line_exit (st : state) (line : string) (status : Z) (d : string) :
  ingest_line C st line = Exit status d ->
  status = 1 /\ (d = hosts_full \/ d = networks_full).
Proof.
  unfold ingest_line. destruct (parse_line line) as [[a e]|]; [|discriminate].
  unfold ingest_record, getHostIndex, getNetworkIndex.
  destruct (host_loop C (Z.to_nat C) (hostTable st) a (hashString a mod C))
    as [[[h isNew] hosts]|].
  - destruct isNew; [|discriminate].
    destruct (network_loop C (Z.to_nat C) (networkTable st) (prefixFromIP a)
                           (hashString (prefixFromIP a) mod C)) as [[i nets]|];
      [discriminate|].
    intros H; inversion H; auto.
  - intros H; inversion H; auto.
Qed.

(** C4. When the walk of [getNetworkIndex] or [getHostIndex] meets only
    cells used by other keys, the call writes the table-full line to the
    diagnostic stream and ends the process with status 1.  Whatever ends
    the reading loop this way ends [main]: the lines that follow are not
    read and nothing is printed.  In [Act52], [insertOrUpdate] returns
    [false] in that situation and [main] writes its table-full line and
    returns 1, again without reading on. *)
Theorem table_full_is_fatal :
  (forall t p,
      (forall i, 0 <= i < C -> used (net t i) = true /\ prefix (net t i) <> p) ->
      getNetworkIndex C t p = Exit 1 networks_full)
  /\ (forall t a,
      (forall i, 0 <= i < C -> hused (host t i) = true /\ Act43.ip (host t i) <> a) ->
      getHostIndex C t a = Exit 1 hosts_full)
  /\ (forall st a e,
      (forall i, 0 <= i < C ->
                 hused (host (hostTable st) i) = true
                 /\ Act43.ip (host (hostTable st) i) <> a) ->
      ingest_record C st a e = Exit 1 hosts_full)
  /\ (forall st a e h hosts,
      getHostIndex C (hostTable st) a = Ok (h, true, hosts) ->
      (forall i, 0 <= i < C ->
                 used (net (networkTable st) i) = true
                 /\ prefix (net (networkTable st) i) <> prefixFromIP a) ->
      ingest_record C st a e = Exit 1 networks_full)
  /\ (forall lines line later st status d,
      ingest_lines C (init C) lines = Ok st ->
      ingest_line C st line = Exit status d ->
      status = 1
      /\ (d = hosts_full \/ d = networks_full)
      /\ main C (Some (lines ++ line :: later)) = mkRun 1 EmptyString d)
  /\ (forall st k ip,
      (forall i, 0 <= i < C ->
                 Act52.occupied (Act52.slot st i) = true
                 /\ Act52.network (Act52.slot st i) <> k) ->
      Act52.insertOrUpdate C st k ip = (false, st))
  /\ (forall lines line later st st' n input,
      Act52.ingest_lines C (Act52.init C) lines = (true, st) ->
      Act52.ingest_line C st line = (false, st') ->
      Act52.main C (Some (lines ++ line :: later)) n input
      = Act52.mkRun 1 EmptyString
                    ("Error: Tabla llena, imposible meter más datos" ++ endl)).
Proof.
  split; [exact networks_exhausted|].
  split; [exact hosts_exhausted|].
  split.
  { intros st a e All. unfold ingest_record.
    rewrite (hosts_exhausted _ a All). reflexivity. }
  split.
  { intros st a e h hosts H All. unfold ingest_record.
    rewrite H, (networks_exhausted _ (prefixFromIP a) All). reflexivity. }
  split.
  { intros lines line later st status d H1 H2.
    destruct (ingest_line_exit st line status d H2) as [-> Hd].
    split; auto. split; auto.
    unfold main. rewrite reading_loop_app, H1. cbn [ingest_lines].
    rewrite H2. reflexivity. }
  split.
  - intros st k ip. apply Act52Facts.insertOrUpdate_exhausted. exact Cpos.
  - intros lines line later st st' n input.
    apply Act52Facts.main_refused.
Qed.

(** *** The tables after a log *)

(** The home cell of a key, in both tables. *)
Definition home (k : string) : Z := hashString k mod C.

Lemma home_range (k : string) : 0 <= home k < C.
Proof. unfold home. apply Z.mod_pos_bound. lia. Qed.

Definition host_walk : list Host -> string -> stop :=
  OpenTable.walk hused ip emptyHost C home.

Definition net_walk : list Network -> string -> stop :=
  OpenTable.walk used prefix emptyNetwork C home.

Definition hosts_ok : list Host -> Prop :=
  OpenTable.well_formed hused ip emptyHost C home.

Definition nets_ok : list Network -> Prop :=
  OpenTable.well_formed used prefix emptyNetwork C home.

Lemma getHostIndex_walk (t : list Host) (a : string) :
  getHostIndex C t a
  = match host_walk t a with
    | Free i => Ok (i, true, upd t (Z.to_nat i) (mkHost a [] 0 10 true))
    | Hit i => Ok (i, false, t)
    | Full => Exit 1 hosts_full
    end.
Proof.
  unfold getHostIndex. rewrite host_loop_probe by apply home_range.
  unfold host_walk, OpenTable.walk, OpenTable.cell, host, home.
  destruct (probe C _ _ (Z.to_nat C) (hashString a mod C)); reflexivity.
Qed.

Lemma getNetworkIndex_walk (t : list Network) (p : string) :
  getNetworkIndex C t p
  = match net_walk t p with
    | Free i => Ok (i, upd t (Z.to_nat i) (mkNetwork p 0 true))
    | Hit i => Ok (i, t)
    | Full => Exit 1 networks_full
    end.
Proof.
  unfold getNetworkIndex. rewrite network_loop_probe by apply home_range.
  unfold net_walk, OpenTable.walk, OpenTable.cell, net, home.
  destruct (probe C _ _ (Z.to_nat C) (hashString p mod C)); reflexivity.
Qed.

(** A record as the reading loop hands it on: address and entry. *)
Definition record : Type := (string * Entry)%type.

Fixpoint parsed (lines : list string) : list record :=
  match lines with
  | [] => []
  | line :: rest =>
      match parse_line line with
      | Some r => r :: parsed rest
      | None => parsed rest
      end
  end.

Fixpoint ingest (st : state) (recs : list record) : result state :=
  match recs with
  | [] => Ok st
  | (a, e) :: rest =>
      match ingest_record C st a e with
      | Ok st' => ingest st' rest
      | Exit status d => Exit status d
      end
  end.

Lemma ingest_lines_parsed (lines : list string) (st : state) :
  ingest_lines C st lines = ingest st (parsed lines).
Proof.
  revert st. induction lines as [|line rest IH]; intros st; simpl; auto.
  unfold ingest_line. destruct (parse_line line) as [[a e]|]; simpl.
  - destruct (ingest_record C st a e); auto.
  - apply IH.
Qed.

(** The addresses of a log, the entries of one address, the networks,
    and the number of different addresses of one network. *)
Definition ips (recs : list record) : list string := map fst recs.

Definition entries_of (recs : list record) (a : string) : list Entry :=
  map snd (filter (fun r => String.eqb (fst r) a) recs).

Definition prefixes (recs : list record) : list string :=
  map (fun r => prefixFromIP (fst r)) recs.

Definition hosts_of (recs : list record) (p : string) : list string :=
  nodup string_dec (filter (fun a => String.eqb (prefixFromIP a) p) (ips recs)).

Definition distinct_hosts (recs : list record) (p : string) : Z :=
  Z.of_nat (List.length (hosts_of recs p)).

(** The host table holds the entries of each address of [recs]. *)
Record hosts_hold (t : list Host) (recs : list record) : Prop := mkHostsHold {
  hh_ok : hosts_ok t;
  hh_slot : forall i,
      0 <= i < C -> hused (host t i) = true ->
      In (ip (host t i)) (ips recs)
      /\ entries (host t i) = entries_of recs (ip (host t i))
      /\ entryCount (host t i) = Z.of_nat (List.length (entries (host t i)));
  hh_key : forall a,
      In a (ips recs) ->
      exists i, 0 <= i < C /\ hused (host t i) = true /\ ip (host t i) = a
}.

(** The network table holds the number of addresses of each network of
    [recs]. *)
Record nets_hold (t : list Network) (recs : list record) : Prop := mkNetsHold {
  nh_ok : nets_ok t;
  nh_slot : forall i,
      0 <= i < C -> used (net t i) = true ->
      In (prefix (net t i)) (prefixes recs)
      /\ uniqueHostCount (net t i) = distinct_hosts recs (prefix (net t i));
  nh_key : forall p,
      In p (prefixes recs) ->
      exists i, 0 <= i < C /\ used (net t i) = true /\ prefix (net t i) = p
}.

Lemma entries_of_snoc (recs : list record) (a a' : string) (e : Entry) :
  entries_of (recs ++ [(a, e)]) a'
  = entries_of recs a' ++ (if String.eqb a a' then [e] else []).
Proof.
  unfold entries_of. rewrite filter_app, map_app. cbn [filter fst].
  destruct (String.eqb a a'); reflexivity.
Qed.

Lemma distinct_hosts_snoc (recs : list record) (a p : string) (e : Entry) :
  distinct_hosts (recs ++ [(a, e)]) p
  = distinct_hosts recs p
    + (if String.eqb (prefixFromIP a) p
       then (if in_dec string_dec a (ips recs) then 0 else 1)
       else 0).
Proof.
  unfold distinct_hosts, hosts_of, ips. rewrite map_app, filter_app.
  cbn [map filter fst].
  destruct (String.eqb (prefixFromIP a) p) eqn:E.
  - rewrite nodup_snoc_length, Nat2Z.inj_add. f_equal.
    repeat match goal with
           | |- context [in_dec ?x ?y ?z] => destruct (in_dec x y z)
           end; auto.
    + exfalso. match goal with H : In _ (filter _ _) |- _ =>
                 apply filter_In in H; tauto end.
    + exfalso. match goal with H : ~ In _ (filter _ _) |- _ =>
                 apply H; apply filter_In; auto end.
  - rewrite app_nil_r, Z.add_0_r. reflexivity.
Qed.

Lemma host_upd_eq (t : list Host) (i : Z) (c : Host) :
  List.length t = Z.to_nat C -> 0 <= i < C -> host (upd t (Z.to_nat i) c) i = c.
Proof. intros L Hi. unfold host. apply nth_upd_eq. lia. Qed.

Lemma host_upd_neq (t : list Host) (i j : Z) (c : Host) :
  0 <= i -> 0 <= j -> i <> j -> host (upd t (Z.to_nat i) c) j = host t j.
Proof. intros Hi Hj Hne. unfold host. apply nth_upd_neq. lia. Qed.

Lemma net_upd_eq (t : list Network) (i : Z) (c : Network) :
  List.length t = Z.to_nat C -> 0 <= i < C -> net (upd t (Z.to_nat i) c) i = c.
Proof. intros L Hi. unfold net. apply nth_upd_eq. lia. Qed.

Lemma net_upd_neq (t : list Network) (i j : Z) (c : Network) :
  0 <= i -> 0 <= j -> i <> j -> net (upd t (Z.to_nat i) c) j = net t j.
Proof. intros Hi Hj Hne. unfold net. apply nth_upd_neq. lia. Qed.

Lemma host_walk_inv (t : list Host) (a : string) :
  match host_walk t a with
  | Free i => 0 <= i < C /\ hused (host t i) = false
  | Hit i => 0 <= i < C /\ hused (host t i) = true /\ ip (host t i) = a
  | Full => forall i, 0 <= i < C -> hused (host t i) = true /\ ip (host t i) <> a
  end.
Proof.
  pose proof (OpenTable.table_walk_inv hused ip emptyHost C home Cpos home_range t a) as H.
  fold (host_walk t a) in H.
  destruct (host_walk t a); auto.
  destruct H as (d & _ & _ & Hi & F). auto.
Qed.

Lemma net_walk_inv (t : list Network) (p : string) :
  match net_walk t p with
  | Free i => 0 <= i < C /\ used (net t i) = false
  | Hit i => 0 <= i < C /\ used (net t i) = true /\ prefix (net t i) = p
  | Full => forall i, 0 <= i < C -> used (net t i) = true /\ prefix (net t i) <> p
  end.
Proof.
  pose proof (OpenTable.table_walk_inv used prefix emptyNetwork C home Cpos home_range t p) as H.
  fold (net_walk t p) in H.
  destruct (net_walk t p); auto.
  destruct H as (d & _ & _ & Hi & F). auto.
Qed.

Lemma host_walk_stored (t : list Host) (a : string) (i : Z) :
  hosts_ok t -> 0 <= i < C -> hused (host t i) = true -> ip (host t i) = a ->
  host_walk t a = Hit i.
Proof. apply (OpenTable.table_walk_stored hused ip emptyHost C home Cpos home_range). Qed.

Lemma net_walk_stored (t : list Network) (p : string) (i : Z) :
  nets_ok t -> 0 <= i < C -> used (net t i) = true -> prefix (net t i) = p ->
  net_walk t p = Hit i.
Proof. apply (OpenTable.table_walk_stored used prefix emptyNetwork C home Cpos home_range). Qed.

Lemma hosts_hold_init : hosts_hold (hostTable (init C)) [].
Proof.
  constructor.
  - apply (OpenTable.well_formed_blank hused ip emptyHost C home). reflexivity.
  - intros i _ H. unfold host, init in H; simpl in H.
    rewrite nth_repeat_default in H. discriminate.
  - intros a [].
Qed.

Lemma nets_hold_init : nets_hold (networkTable (init C)) [].
Proof.
  constructor.
  - apply (OpenTable.well_formed_blank used prefix emptyNetwork C home). reflexivity.
  - intros i _ H. unfold net, init in H; simpl in H.
    rewrite nth_repeat_default in H. discriminate.
  - intros a [].
Qed.

Lemma no_entries (recs : list record) (a : string) :
  ~ In a (ips recs) -> entries_of recs a = [].
Proof.
  intros Hn. unfold entries_of. rewrite filter_none; auto.
  intros [a' e'] Hin. apply String.eqb_neq. intros E. simpl in E. subst a'.
  apply Hn. unfold ips. apply in_map_iff. exists (a, e'). auto.
Qed.


Lemma no_hosts (recs : list record) (p : string) :
  ~ In p (prefixes recs) -> distinct_hosts recs p = 0.
Proof.
  intros Hn. unfold distinct_hosts, hosts_of. rewrite filter_none; auto.
  intros a Hin. apply String.eqb_neq. intros E.
  apply Hn. unfold ips in Hin. apply in_map_iff in Hin.
  destruct Hin as ([a' e'] & Ea & Hin). simpl in Ea. subst a'.
  unfold prefixes. apply in_map_iff. exists (a, e'). auto.
Qed.

Lemma ips_snoc (recs : list record) (a a' : string) (e : Entry) :
  In a' (ips (recs ++ [(a, e)])) <-> In a' (ips recs) \/ a' = a.
Proof.
  unfold ips. rewrite map_app, in_app_iff. simpl. intuition congruence.
Qed.

Lemma prefixes_snoc (recs : list record) (a p : string) (e : Entry) :
  In p (prefixes (recs ++ [(a, e)])) <-> In p (prefixes recs) \/ p = prefixFromIP a.
Proof.
  unfold prefixes. rewrite map_app, in_app_iff. simpl. intuition congruence.
Qed.

Lemma prefix_of_known (recs : list record) (a : string) :
  In a (ips recs) -> In (prefixFromIP a) (prefixes recs).
Proof.
  unfold ips, prefixes. intros H. apply in_map_iff in H.
  destruct H as ([a' e'] & E & Hin). simpl in E. subst a'.
  apply in_map_iff. exists (a, e'). auto.
Qed.

(** The host table after the cell for [a] has been found or made and
    the entry appended. *)
Lemma hosts_step (t : list Host) (recs : list record) (a : string) (e : Entry) :
  hosts_hold t recs ->
  match host_walk t a with
  | Free i =>
      ~ In a (ips recs)
      /\ hosts_hold (upd t (Z.to_nat i) (mkHost a [e] 1 10 true)) (recs ++ [(a, e)])
  | Hit i =>
      In a (ips recs)
      /\ hosts_hold (upd t (Z.to_nat i) (push_entry (host t i) e)) (recs ++ [(a, e)])
  | Full => True
  end.
Proof.
  intros H. pose proof (hh_ok t recs H) as OK.
  pose proof (OpenTable.wf_length _ _ _ _ _ t OK) as L.
  pose proof (host_walk_inv t a) as W.
  destruct (host_walk t a) as [i|i|] eqn:E; auto.
  - destruct W as [Hi Hfree].
    assert (Hnew : ~ In a (ips recs)).
    { intros Hin. destruct (hh_key t recs H a Hin) as (j & Hj & Hu & Hk).
      rewrite (host_walk_stored t a j OK Hj Hu Hk) in E. discriminate. }
    split; [exact Hnew|]. constructor.
    + apply (OpenTable.well_formed_create hused ip emptyHost C home Cpos home_range
                                          t a i); auto.
    + intros j Hj Hu. destruct (Z.eq_dec i j) as [<-|Hne].
      * rewrite host_upd_eq in * by auto. simpl. split; [|split].
        -- apply ips_snoc. auto.
        -- rewrite entries_of_snoc, String.eqb_refl, (no_entries recs a Hnew).
           reflexivity.
        -- reflexivity.
      * rewrite host_upd_neq in * by lia.
        destruct (hh_slot t recs H j Hj Hu) as (Hin & He & Hc).
        split; [apply ips_snoc; auto|]. split; auto.
        rewrite entries_of_snoc.
        destruct (String.eqb_spec a (ip (host t j))) as [Ea|_].
        -- exfalso. apply Hnew. rewrite Ea. exact Hin.
        -- rewrite app_nil_r. exact He.
    + intros a' Hin. apply ips_snoc in Hin. destruct Hin as [Hin| ->].
      * destruct (hh_key t recs H a' Hin) as (j & Hj & Hu & Hk).
        exists j. assert (i <> j) by congruence.
        rewrite host_upd_neq by lia. auto.
      * exists i. rewrite host_upd_eq by auto. auto.
  - destruct W as (Hi & Hu & Hk).
    destruct (hh_slot t recs H i Hi Hu) as (Hin & He & Hc).
    split; [rewrite <- Hk; exact Hin|]. constructor.
    + apply (OpenTable.well_formed_rewrite hused ip emptyHost C home Cpos); auto.
    + intros j Hj Huj. destruct (Z.eq_dec i j) as [<-|Hne].
      * rewrite host_upd_eq in * by auto. unfold push_entry; simpl.
        split; [apply ips_snoc; auto|]. split.
        -- rewrite entries_of_snoc, He, Hk, String.eqb_refl. reflexivity.
        -- rewrite length_app, Hc. simpl. lia.
      * rewrite host_upd_neq in * by lia.
        destruct (hh_slot t recs H j Hj Huj) as (Hin' & He' & Hc').
        split; [apply ips_snoc; auto|]. split; auto.
        rewrite entries_of_snoc.
        destruct (String.eqb_spec a (ip (host t j))) as [Ea|_].
        -- exfalso. apply Hne. apply (OpenTable.wf_unique _ _ _ _ _ t OK); auto.
           change (ip (host t i) = ip (host t j)). congruence.
        -- rewrite app_nil_r. exact He'.
    + intros a' Hin'. apply ips_snoc in Hin'.
      assert (Hin'' : In a' (ips recs)).
      { destruct Hin' as [?| ->]; auto. rewrite <- Hk. exact Hin. }
      destruct (hh_key t recs H a' Hin'') as (j & Hj & Huj & Hkj).
      exists j. destruct (Z.eq_dec i j) as [<-|Hne].
      * rewrite host_upd_eq by auto. unfold push_entry; simpl. auto.
      * rewrite host_upd_neq by lia. auto.
Qed.

(** The network table after the cell for the network of a new address
    has been found or made and its counter incremented. *)
Lemma nets_step_new (t : list Network) (recs : list record) (a : string) (e : Entry) :
  nets_hold t recs -> ~ In a (ips recs) ->
  match net_walk t (prefixFromIP a) with
  | Free j =>
      nets_hold (upd t (Z.to_nat j) (mkNetwork (prefixFromIP a) 1 true))
                (recs ++ [(a, e)])
  | Hit j =>
      nets_hold (upd t (Z.to_nat j)
                     (mkNetwork (prefix (net t j)) (uniqueHostCount (net t j) + 1)
                                (used (net t j))))
                (recs ++ [(a, e)])
  | Full => True
  end.
Proof.
  intros H Hnew. pose proof (nh_ok t recs H) as OK.
  pose proof (OpenTable.wf_length _ _ _ _ _ t OK) as L.
  set (p := prefixFromIP a).
  pose proof (net_walk_inv t p) as W.
  assert (Count : forall p', distinct_hosts (recs ++ [(a, e)]) p'
                  = distinct_hosts recs p' + (if String.eqb p p' then 1 else 0)).
  { intros p'. rewrite distinct_hosts_snoc. fold p.
    destruct (in_dec string_dec a (ips recs)); [contradiction | reflexivity]. }
  destruct (net_walk t p) as [j|j|] eqn:E; auto.
  - destruct W as [Hj Hfree].
    assert (Pnew : ~ In p (prefixes recs)).
    { intros Hin. destruct (nh_key t recs H p Hin) as (i & Hi & Hu & Hk).
      rewrite (net_walk_stored t p i OK Hi Hu Hk) in E. discriminate. }
    constructor.
    + apply (OpenTable.well_formed_create used prefix emptyNetwork C home Cpos
                                          home_range t p j); auto.
    + intros i Hi Hu. destruct (Z.eq_dec j i) as [<-|Hne].
      * rewrite net_upd_eq in * by auto. simpl. split.
        -- apply prefixes_snoc. auto.
        -- rewrite Count, String.eqb_refl, (no_hosts recs p Pnew). reflexivity.
      * rewrite net_upd_neq in * by lia.
        destruct (nh_slot t recs H i Hi Hu) as (Hin & Hc).
        split; [apply prefixes_snoc; auto|].
        rewrite Count.
        destruct (String.eqb_spec p (prefix (net t i))) as [Ep|_].
        -- exfalso. apply Pnew. rewrite Ep. exact Hin.
        -- lia.
    + intros p' Hin. apply prefixes_snoc in Hin. destruct Hin as [Hin| ->].
      * destruct (nh_key t recs H p' Hin) as (i & Hi & Hu & Hk).
        exists i. assert (j <> i) by congruence.
        rewrite net_upd_neq by lia. auto.
      * exists j. rewrite net_upd_eq by auto. auto.
  - destruct W as (Hj & Hu & Hk).
    destruct (nh_slot t recs H j Hj Hu) as (Hin & Hc).
    constructor.
    + apply (OpenTable.well_formed_rewrite used prefix emptyNetwork C home Cpos); auto.
    + intros i Hi Hui. destruct (Z.eq_dec j i) as [<-|Hne].
      * rewrite net_upd_eq in * by auto. simpl.
        split; [apply prefixes_snoc; auto|].
        rewrite Count, Hk, String.eqb_refl, Hc, Hk. reflexivity.
      * rewrite net_upd_neq in * by lia.
        destruct (nh_slot t recs H i Hi Hui) as (Hin' & Hc').
        split; [apply prefixes_snoc; auto|].
        rewrite Count.
        destruct (String.eqb_spec p (prefix (net t i))) as [Ep|_].
        -- exfalso. apply Hne. apply (OpenTable.wf_unique _ _ _ _ _ t OK); auto.
           change (prefix (net t j) = prefix (net t i)). congruence.
        -- lia.
    + intros p' Hin'. apply prefixes_snoc in Hin'.
      assert (Hin'' : In p' (prefixes recs)).
      { destruct Hin' as [?| ->]; auto. fold p. rewrite <- Hk. exact Hin. }
      destruct (nh_key t recs H p' Hin'') as (i & Hi & Hui & Hki).
      exists i. destruct (Z.eq_dec j i) as [<-|Hne].
      * rewrite net_upd_eq by auto. simpl. auto.
      * rewrite net_upd_neq by lia. auto.
Qed.

(** A further record of a known address changes no network's number. *)
Lemma nets_step_known (t : list Network) (recs : list record) (a : string) (e : Entry) :
  nets_hold t recs -> In a (ips recs) -> nets_hold t (recs ++ [(a, e)]).
Proof.
  intros H Hin. constructor.
  - apply (nh_ok t recs H).
  - intros i Hi Hu. destruct (nh_slot t recs H i Hi Hu) as (Hp & Hc).
    split; [apply prefixes_snoc; auto|].
    rewrite distinct_hosts_snoc.
    destruct (in_dec string_dec a (ips recs)); [|contradiction].
    destruct (String.eqb (prefixFromIP a) (prefix (net t i))); lia.
  - intros p Hp. apply prefixes_snoc in Hp.
    apply (nh_key t recs H). destruct Hp as [?| ->]; auto.
    apply prefix_of_known. exact Hin.
Qed.

(** One record that does not end the run keeps both tables in step with
    the log. *)
Lemma ingest_record_holds (st st' : state) (recs : list record) (a : string) (e : Entry) :
  hosts_hold (hostTable st) recs -> nets_hold (networkTable st) recs ->
  ingest_record C st a e = Ok st' ->
  hosts_hold (hostTable st') (recs ++ [(a, e)])
  /\ nets_hold (networkTable st') (recs ++ [(a, e)])
  /\ (In a (ips recs) -> networkTable st' = networkTable st).
Proof.
  intros HH NH. unfold ingest_record.
  pose proof (OpenTable.wf_length _ _ _ _ _ _ (hh_ok _ _ HH)) as LH.
  pose proof (OpenTable.wf_length _ _ _ _ _ _ (nh_ok _ _ NH)) as LN.
  rewrite getHostIndex_walk.
  pose proof (hosts_step (hostTable st) recs a e HH) as HS.
  pose proof (host_walk_inv (hostTable st) a) as HW.
  destruct (host_walk (hostTable st) a) as [i|i|] eqn:EH; [| |discriminate].
  - destruct HS as [Hnew HS]. destruct HW as [Hi _].
    rewrite getNetworkIndex_walk.
    pose proof (nets_step_new (networkTable st) recs a e NH Hnew) as NS.
    pose proof (net_walk_inv (networkTable st) (prefixFromIP a)) as NW.
    destruct (net_walk (networkTable st) (prefixFromIP a)) as [j|j|] eqn:EN;
      [| |discriminate].
    + destruct NW as [Hj _]. intros E. inversion E; subst; clear E. simpl.
      rewrite host_upd_eq by auto. rewrite OpenTable.upd_upd.
      rewrite net_upd_eq by auto. rewrite OpenTable.upd_upd.
      split; [exact HS|]. split; [exact NS|]. intros Hin. contradiction.
    + intros E. inversion E; subst; clear E. simpl.
      rewrite host_upd_eq by auto. rewrite OpenTable.upd_upd.
      split; [exact HS|]. split; [exact NS|]. intros Hin. contradiction.
  - destruct HS as [Hin HS].
    intros E. inversion E; subst; clear E. simpl.
    split; [exact HS|]. split; [|reflexivity].
    apply nets_step_known; auto.
Qed.

Lemma ingest_holds (todo done : list record) (st st' : state) :
  hosts_hold (hostTable st) done -> nets_hold (networkTable st) done ->
  ingest st todo = Ok st' ->
  hosts_hold (hostTable st') (done ++ todo)
  /\ nets_hold (networkTable st') (done ++ todo).
Proof.
  revert done st. induction todo as [|[a e] todo IH]; intros done st HH NH H.
  - simpl in H. inversion H; subst. rewrite app_nil_r. auto.
  - simpl in H. destruct (ingest_record C st a e) as [st1|] eqn:E; [|discriminate].
    destruct (ingest_record_holds st st1 done a e HH NH E) as (HH1 & NH1 & _).
    destruct (IH (done ++ [(a, e)]) st1 HH1 NH1 H) as [A B].
    rewrite <- app_assoc in A, B. auto.
Qed.

(** *** The counters of a network and of a host *)

(** The number stored for network [p], 0 when it has no cell. *)
Definition uniqueHostCount_of (t : list Network) (p : string) : Z :=
  match net_walk t p with
  | Hit i => uniqueHostCount (net t i)
  | _ => 0
  end.

(** The number of entries stored for address [a], 0 when it has no
    cell. *)
Definition entryCount_of (t : list Host) (a : string) : Z :=
  match host_walk t a with
  | Hit i => entryCount (host t i)
  | _ => 0
  end.

Lemma uniqueHostCount_of_holds (t : list Network) (recs : list record) (p : string) :
  nets_hold t recs -> uniqueHostCount_of t p = distinct_hosts recs p.
Proof.
  intros H. unfold uniqueHostCount_of.
  pose proof (net_walk_inv t p) as W.
  assert (Absent : net_walk t p <> Hit 0 -> (forall i, net_walk t p <> Hit i) ->
                   distinct_hosts recs p = 0).
  { intros _ N. apply no_hosts. intros Hin.
    destruct (nh_key t recs H p Hin) as (i & Hi & Hu & Hk).
    apply (N i). apply net_walk_stored; auto. apply (nh_ok t recs H). }
  destruct (net_walk t p) as [i|i|] eqn:E.
  - symmetry. apply Absent; intros; discriminate.
  - destruct W as (Hi & Hu & Hk).
    destruct (nh_slot t recs H i Hi Hu) as (_ & Hc). rewrite Hc, Hk. reflexivity.
  - symmetry. apply Absent; intros; discriminate.
Qed.

Lemma entryCount_of_holds (t : list Host) (recs : list record) (a : string) :
  hosts_hold t recs ->
  entryCount_of t a = Z.of_nat (List.length (entries_of recs a)).
Proof.
  intros H. unfold entryCount_of.
  pose proof (host_walk_inv t a) as W.
  assert (Absent : (forall i, host_walk t a <> Hit i) -> entries_of recs a = []).
  { intros N. apply no_entries. intros Hin.
    destruct (hh_key t recs H a Hin) as (i & Hi & Hu & Hk).
    apply (N i). apply host_walk_stored; auto. apply (hh_ok t recs H). }
  destruct (host_walk t a) as [i|i|] eqn:E.
  - rewrite Absent by (intros; discriminate). reflexivity.
  - destruct W as (Hi & Hu & Hk).
    destruct (hh_slot t recs H i Hi Hu) as (_ & He & Hc).
    rewrite Hc, He, Hk. reflexivity.
  - rewrite Absent by (intros; discriminate). reflexivity.
Qed.

(** After a log that did not end the run, and after one more record. *)
Lemma hierarchy_counts :
  (forall lines st,
      ingest_lines C (init C) lines = Ok st ->
      (forall p, uniqueHostCount_of (networkTable st) p
                 = distinct_hosts (parsed lines) p)
      /\ (forall a, entryCount_of (hostTable st) a
                    = Z.of_nat (List.length (entries_of (parsed lines) a))))
  /\ (forall lines st a e st',
      ingest_lines C (init C) lines = Ok st ->
      ingest_record C st a e = Ok st' ->
      entryCount_of (hostTable st') a = entryCount_of (hostTable st) a + 1
      /\ uniqueHostCount_of (networkTable st') (prefixFromIP a)
         = uniqueHostCount_of (networkTable st) (prefixFromIP a)
           + (if in_dec string_dec a (ips (parsed lines)) then 0 else 1)
      /\ (forall p, p <> prefixFromIP a ->
                    uniqueHostCount_of (networkTable st') p
                    = uniqueHostCount_of (networkTable st) p)).
Proof.
  assert (Reach : forall lines st,
             ingest_lines C (init C) lines = Ok st ->
             hosts_hold (hostTable st) (parsed lines)
             /\ nets_hold (networkTable st) (parsed lines)).
  { intros lines st H. rewrite ingest_lines_parsed in H.
    apply (ingest_holds (parsed lines) [] (init C) st
                        hosts_hold_init nets_hold_init H). }
  split.
  - intros lines st H. destruct (Reach lines st H) as [HH NH]. split.
    + intros p. apply uniqueHostCount_of_holds. exact NH.
    + intros a. apply entryCount_of_holds. exact HH.
  - intros lines st a e st' H E.
    destruct (Reach lines st H) as [HH NH].
    destruct (ingest_record_holds st st' (parsed lines) a e HH NH E)
      as (HH' & NH' & _).
    rewrite (entryCount_of_holds _ _ a HH'), (entryCount_of_holds _ _ a HH).
    rewrite entries_of_snoc, String.eqb_refl, length_app, Nat2Z.inj_add.
    split; [reflexivity|]. split.
    + rewrite (uniqueHostCount_of_holds _ _ _ NH'), (uniqueHostCount_of_holds _ _ _ NH).
      rewrite distinct_hosts_snoc, String.eqb_refl. reflexivity.
    + intros p Hp.
      rewrite (uniqueHostCount_of_holds _ _ _ NH'), (uniqueHostCount_of_holds _ _ _ NH).
      rewrite distinct_hosts_snoc.
      destruct (String.eqb_spec (prefixFromIP a) p); [congruence | lia].
Qed.

(** *** The winners of a log *)

Lemma In_net (t : list Network) (s : Network) :
  List.length t = Z.to_nat C ->
  In s t <-> exists i, 0 <= i < C /\ net t i = s.
Proof.
  intros L. split.
  - intros H. destruct (In_nth t s emptyNetwork H) as (n & Hn & E).
    exists (Z.of_nat n). split; [lia|]. unfold net. rewrite Nat2Z.id. exact E.
  - intros (i & Hi & E). rewrite <- E. unfold net. apply nth_In. lia.
Qed.

Lemma In_host (t : list Host) (s : Host) :
  List.length t = Z.to_nat C ->
  In s t <-> exists i, 0 <= i < C /\ host t i = s.
Proof.
  intros L. split.
  - intros H. destruct (In_nth t s emptyHost H) as (n & Hn & E).
    exists (Z.of_nat n). split; [lia|]. unfold host. rewrite Nat2Z.id. exact E.
  - intros (i & Hi & E). rewrite <- E. unfold host. apply nth_In. lia.
Qed.

(** The maximum of a scan, from a bound that is attained. *)
Lemma max_scan_value {Cell : Type} (is_used : Cell -> bool) (selector : Cell -> Z)
      (t : list Cell) (w : Cell) :
  In w t -> is_used w = true -> 0 <= selector w ->
  (forall s, In s t -> is_used s = true -> selector s <= selector w) ->
  max_scan is_used selector t = selector w.
Proof.
  intros Hin Hu H0 Hmax.
  destruct (max_scan_is_maximum is_used selector t) as [B A].
  destruct A as (s & Hs & Hus & Es); [exists w; auto|].
  specialize (B w Hin Hu). specialize (Hmax s Hs Hus). lia.
Qed.

(** The networks printed are the networks of the log with the largest
    number of different addresses, all of them. *)
Lemma top_networks_of_log (lines : list string) (st : state) (p : string) :
  ingest_lines C (init C) lines = Ok st ->
  In p (top_networks (networkTable st))
  <-> In p (prefixes (parsed lines))
      /\ forall q, In q (prefixes (parsed lines)) ->
                   distinct_hosts (parsed lines) q <= distinct_hosts (parsed lines) p.
Proof.
  intros H. rewrite ingest_lines_parsed in H.
  destruct (ingest_holds (parsed lines) [] (init C) st
                         hosts_hold_init nets_hold_init H) as [_ NH].
  simpl in NH. set (recs := parsed lines) in *. set (t := networkTable st) in *.
  pose proof (OpenTable.wf_length _ _ _ _ _ _ (nh_ok _ _ NH)) as L.
  assert (Slot : forall s, In s t -> used s = true ->
                 In (prefix s) (prefixes recs)
                 /\ uniqueHostCount s = distinct_hosts recs (prefix s)).
  { intros s Hs Hu. apply (In_net t s L) in Hs. destruct Hs as (i & Hi & <-).
    apply (nh_slot t recs NH i Hi Hu). }
  assert (Key : forall q, In q (prefixes recs) ->
                exists s, In s t /\ used s = true /\ prefix s = q).
  { intros q Hq. destruct (nh_key t recs NH q Hq) as (i & Hi & Hu & Hk).
    exists (net t i). split; auto. apply (In_net t _ L). exists i. auto. }
  assert (Nonneg : forall q, 0 <= distinct_hosts recs q)
    by (intros q; unfold distinct_hosts; lia).
  unfold top_networks, scan_equal. rewrite in_map_iff. split.
  - intros (s & Ep & Hs). apply filter_In in Hs. destruct Hs as [Hs Hq].
    apply andb_true_iff in Hq. destruct Hq as [Hu Hm]. apply Z.eqb_eq in Hm.
    destruct (Slot s Hs Hu) as [Hin Hc]. subst p. split; auto.
    intros q Hq. destruct (Key q Hq) as (s' & Hs' & Hu' & <-).
    destruct (Slot s' Hs' Hu') as [_ Hc'].
    rewrite <- Hc, <- Hc', Hm.
    apply (max_scan_is_maximum used uniqueHostCount t); auto.
  - intros [Hin Hmax]. destruct (Key p Hin) as (s & Hs & Hu & <-).
    destruct (Slot s Hs Hu) as [_ Hc].
    exists s. split; auto. apply filter_In. split; auto.
    rewrite Hu. apply Z.eqb_eq. symmetry.
    apply (max_scan_value used uniqueHostCount t s); auto.
    + rewrite Hc. apply Nonneg.
    + intros s' Hs' Hu'. destruct (Slot s' Hs' Hu') as [Hin' Hc'].
      rewrite Hc, Hc'. apply Hmax. exact Hin'.
Qed.

(** The hosts printed are the addresses of the log with the largest
    number of records, all of them. *)
Lemma top_hosts_of_log (lines : list string) (st : state) (a : string) :
  ingest_lines C (init C) lines = Ok st ->
  In a (top_hosts (hostTable st))
  <-> In a (ips (parsed lines))
      /\ forall b, In b (ips (parsed lines)) ->
                   (List.length (entries_of (parsed lines) b)
                    <= List.length (entries_of (parsed lines) a))%nat.
Proof.
  intros H. rewrite ingest_lines_parsed in H.
  destruct (ingest_holds (parsed lines) [] (init C) st
                         hosts_hold_init nets_hold_init H) as [HH _].
  simpl in HH. set (recs := parsed lines) in *. set (t := hostTable st) in *.
  pose proof (OpenTable.wf_length _ _ _ _ _ _ (hh_ok _ _ HH)) as L.
  assert (Slot : forall s, In s t -> hused s = true ->
                 In (ip s) (ips recs)
                 /\ entryCount s = Z.of_nat (List.length (entries_of recs (ip s)))).
  { intros s Hs Hu. apply (In_host t s L) in Hs. destruct Hs as (i & Hi & <-).
    destruct (hh_slot t recs HH i Hi Hu) as (A & B & D).
    split; auto. rewrite D, B. reflexivity. }
  assert (Key : forall b, In b (ips recs) ->
                exists s, In s t /\ hused s = true /\ ip s = b).
  { intros b Hb. destruct (hh_key t recs HH b Hb) as (i & Hi & Hu & Hk).
    exists (host t i). split; auto. apply (In_host t _ L). exists i. auto. }
  unfold top_hosts, scan_equal. rewrite in_map_iff. split.
  - intros (s & Ep & Hs). apply filter_In in Hs. destruct Hs as [Hs Hq].
    apply andb_true_iff in Hq. destruct Hq as [Hu Hm]. apply Z.eqb_eq in Hm.
    destruct (Slot s Hs Hu) as [Hin Hc]. subst a. split; auto.
    intros b Hb. destruct (Key b Hb) as (s' & Hs' & Hu' & <-).
    destruct (Slot s' Hs' Hu') as [_ Hc'].
    assert (entryCount s' <= entryCount s).
    { rewrite Hm. apply (max_scan_is_maximum hused entryCount t); auto. }
    lia.
  - intros [Hin Hmax]. destruct (Key a Hin) as (s & Hs & Hu & <-).
    destruct (Slot s Hs Hu) as [_ Hc].
    exists s. split; auto. apply filter_In. split; auto.
    rewrite Hu. apply Z.eqb_eq. symmetry.
    apply (max_scan_value hused entryCount t s); auto.
    + lia.
    + intros s' Hs' Hu'. destruct (Slot s' Hs' Hu') as [Hin' Hc'].
      specialize (Hmax (ip s') Hin'). lia.
Qed.

(** No network and no host is printed twice. *)
Lemma top_networks_NoDup (lines : list string) (st : state) :
  ingest_lines C (init C) lines = Ok st ->
  NoDup (top_networks (networkTable st)).
Proof.
  intros H. rewrite ingest_lines_parsed in H.
  destruct (ingest_holds (parsed lines) [] (init C) st
                         hosts_hold_init nets_hold_init H) as [_ NH].
  pose proof (nh_ok _ _ NH) as OK.
  pose proof (OpenTable.wf_length _ _ _ _ _ _ OK) as L.
  unfold top_networks, scan_equal.
  apply (selection_NoDup prefix _ (networkTable st) emptyNetwork).
  intros i j Hi Hj Fi Fj E.
  apply andb_true_iff in Fi, Fj. destruct Fi as [Ui _], Fj as [Uj _].
  pose proof (OpenTable.wf_unique _ _ _ _ _ _ OK (Z.of_nat i) (Z.of_nat j)) as U.
  unfold OpenTable.cell in U. rewrite !Nat2Z.id in U.
  apply Nat2Z.inj. apply U; auto; lia.
Qed.

Lemma top_hosts_NoDup (lines : list string) (st : state) :
  ingest_lines C (init C) lines = Ok st ->
  NoDup (top_hosts (hostTable st)).
Proof.
  intros H. rewrite ingest_lines_parsed in H.
  destruct (ingest_holds (parsed lines) [] (init C) st
                         hosts_hold_init nets_hold_init H) as [HH _].
  pose proof (hh_ok _ _ HH) as OK.
  pose proof (OpenTable.wf_length _ _ _ _ _ _ OK) as L.
  unfold top_hosts, scan_equal.
  apply (selection_NoDup ip _ (hostTable st) emptyHost).
  intros i j Hi Hj Fi Fj E.
  apply andb_true_iff in Fi, Fj. destruct Fi as [Ui _], Fj as [Uj _].
  pose proof (OpenTable.wf_unique _ _ _ _ _ _ OK (Z.of_nat i) (Z.of_nat j)) as U.
  unfold OpenTable.cell in U. rewrite !Nat2Z.id in U.
  apply Nat2Z.inj. apply U; auto; lia.
Qed.

End Table.


(** C3. In both max-count queries the first scan yields the largest value
    among the used cells, and the second scan prints every used cell with
    that value, in table order.  What is written is the prefix of each of
    these networks on a line of its own, a blank line, and the address of
    each of these hosts on a line of its own: any three cells that tie at
    the maximum are three lines of the text, for networks and for hosts.
    After a log that did not end the run this is the output of [main], in
    which every listed network and host has its line; the networks listed
    are exactly the networks of the log with the largest number of
    different addresses, and the hosts listed exactly the addresses with
    the largest number of records, each of them once. *)
Theorem max_count_queries_report_all_ties :
  (forall t : list Network,
      (forall s, In s t -> used s = true -> uniqueHostCount s <= maxHosts t)
      /\ ((exists s, In s t /\ used s = true /\ 0 <= uniqueHostCount s) ->
          exists s, In s t /\ used s = true /\ uniqueHostCount s = maxHosts t)
      /\ top_networks t
         = map prefix
               (filter (fun s => (used s && (uniqueHostCount s =? maxHosts t))%bool) t)
      /\ (forall i j k,
             (i < j)%nat -> (j < k)%nat -> (k < List.length t)%nat ->
             (forall n, n = i \/ n = j \/ n = k ->
                        used (nth n t emptyNetwork) = true
                        /\ uniqueHostCount (nth n t emptyNetwork) = maxHosts t) ->
             exists l0 l1 l2 l3,
               top_networks t
               = l0 ++ prefix (nth i t emptyNetwork)
                    :: l1 ++ prefix (nth j t emptyNetwork)
                    :: l2 ++ prefix (nth k t emptyNetwork) :: l3))
  /\ (forall t : list Host,
      (forall s, In s t -> hused s = true -> entryCount s <= maxEntries t)
      /\ ((exists s, In s t /\ hused s = true /\ 0 <= entryCount s) ->
          exists s, In s t /\ hused s = true /\ entryCount s = maxEntries t)
      /\ top_hosts t
         = map ip (filter (fun s => (hused s && (entryCount s =? maxEntries t))%bool) t)
      /\ (forall i j k,
             (i < j)%nat -> (j < k)%nat -> (k < List.length t)%nat ->
             (forall n, n = i \/ n = j \/ n = k ->
                        hused (nth n t emptyHost) = true
                        /\ entryCount (nth n t emptyHost) = maxEntries t) ->
             exists l0 l1 l2 l3,
               top_hosts t
               = l0 ++ ip (nth i t emptyHost)
                    :: l1 ++ ip (nth j t emptyHost)
                    :: l2 ++ ip (nth k t emptyHost) :: l3))
  /\ (forall st,
      report st
      = (String.concat EmptyString
           (map (fun p => p ++ endl) (top_networks (networkTable st)))
         ++ endl
         ++ String.concat EmptyString
              (map (fun a => a ++ endl) (top_hosts (hostTable st))))%string
      /\ (forall i j k,
             (i < j)%nat -> (j < k)%nat -> (k < List.length (networkTable st))%nat ->
             (forall n, n = i \/ n = j \/ n = k ->
                        used (nth n (networkTable st) emptyNetwork) = true
                        /\ uniqueHostCount (nth n (networkTable st) emptyNetwork)
                           = maxHosts (networkTable st)) ->
             exists s0 s1 s2 s3,
               report st
               = (s0 ++ (prefix (nth i (networkTable st) emptyNetwork) ++ endl)
                     ++ s1 ++ (prefix (nth j (networkTable st) emptyNetwork) ++ endl)
                     ++ s2 ++ (prefix (nth k (networkTable st) emptyNetwork) ++ endl)
                     ++ s3)%string)
      /\ (forall i j k,
             (i < j)%nat -> (j < k)%nat -> (k < List.length (hostTable st))%nat ->
             (forall n, n = i \/ n = j \/ n = k ->
                        hused (nth n (hostTable st) emptyHost) = true
                        /\ entryCount (nth n (hostTable st) emptyHost)
                           = maxEntries (hostTable st)) ->
             exists s0 s1 s2 s3,
               report st
               = (s0 ++ (ip (nth i (hostTable st) emptyHost) ++ endl)
                     ++ s1 ++ (ip (nth j (hostTable st) emptyHost) ++ endl)
                     ++ s2 ++ (ip (nth k (hostTable st) emptyHost) ++ endl)
                     ++ s3)%string))
  /\ (forall C lines st,
      0 < C -> C < 2 ^ 31 ->
      ingest_lines C (init C) lines = Ok st ->
      main C (Some lines)
      = mkRun 0
              (String.concat EmptyString
                 (map (fun p => p ++ endl) (top_networks (networkTable st)))
               ++ endl
               ++ String.concat EmptyString
                    (map (fun a => a ++ endl) (top_hosts (hostTable st))))%string
              EmptyString
      /\ (forall p, In p (top_networks (networkTable st)) ->
                     exists s0 s1,
                       out (main C (Some lines)) = (s0 ++ (p ++ endl) ++ s1)%string)
      /\ (forall a, In a (top_hosts (hostTable st)) ->
                     exists s0 s1,
                       out (main C (Some lines)) = (s0 ++ (a ++ endl) ++ s1)%string)
      /\ NoDup (top_networks (networkTable st))
      /\ NoDup (top_hosts (hostTable st))
      /\ (forall p,
          In p (top_networks (networkTable st))
          <-> In p (prefixes (parsed lines))
              /\ forall q, In q (prefixes (parsed lines)) ->
                           distinct_hosts (parsed lines) q
                           <= distinct_hosts (parsed lines) p)
      /\ (forall a,
          In a (top_hosts (hostTable st))
          <-> In a (ips (parsed lines))
              /\ forall b, In b (ips (parsed lines)) ->
                           (List.length (entries_of (parsed lines) b)
                            <= List.length (entries_of (parsed lines) a))%nat)).
Proof.
  split; [|split; [|split]].
  - intros t.
    destruct (max_scan_is_maximum used uniqueHostCount t) as [B A].
    split; [exact B|]. split; [exact A|]. split; [reflexivity|].
    intros i j k. apply scan_equal_three.
  - intros t.
    destruct (max_scan_is_maximum hused entryCount t) as [B A].
    split; [exact B|]. split; [exact A|]. split; [reflexivity|].
    intros i j k. apply scan_equal_three.
  - intros st. split; [reflexivity|]. split.
    + intros i j k Hij Hjk Hk Q.
      destruct (scan_equal_three used uniqueHostCount prefix
                  (maxHosts (networkTable st)) (networkTable st) emptyNetwork
                  i j k Hij Hjk Hk Q) as (l0 & l1 & l2 & l3 & E).
      unfold report, print_lines, top_networks. rewrite E.
      apply three_lines_in_text.
    + intros i j k Hij Hjk Hk Q.
      destruct (scan_equal_three hused entryCount ip
                  (maxEntries (hostTable st)) (hostTable st) emptyHost
                  i j k Hij Hjk Hk Q) as (l0 & l1 & l2 & l3 & E).
      unfold report, print_lines.
      set (nets := String.concat EmptyString
                     (map (fun x => x ++ endl)%string (top_networks (networkTable st)))).
      unfold top_hosts. rewrite E.
      destruct (three_lines_in_text l0 l1 l2 l3
                  (ip (nth i (hostTable st) emptyHost))
                  (ip (nth j (hostTable st) emptyHost))
                  (ip (nth k (hostTable st) emptyHost)) EmptyString)
        as (s0 & s1 & s2 & s3 & T).
      rewrite text_nil_r in T. rewrite T.
      exists (nets ++ endl ++ s0)%string, s1, s2, s3.
      rewrite !text_assoc. reflexivity.
  - intros C lines st Cpos Cint H.
    assert (Out : main C (Some lines)
                  = mkRun 0 (report st) EmptyString)
      by (unfold main; rewrite H; reflexivity).
    split; [exact Out|]. split; [|split; [|split; [|split; [|split]]]].
    + intros p Hp. rewrite Out. cbn [out]. unfold report, print_lines.
      destruct (line_in_text _ p EmptyString
                  (endl ++ String.concat EmptyString
                             (map (fun a => a ++ endl)
                                  (top_hosts (hostTable st))))%string Hp)
        as (s0 & s1 & E).
      exists s0, s1. exact E.
    + intros a Ha. rewrite Out. cbn [out]. unfold report, print_lines.
      destruct (line_in_text _ a
                  (String.concat EmptyString
                     (map (fun p => p ++ endl)
                          (top_networks (networkTable st))) ++ endl)%string
                  EmptyString Ha)
        as (s0 & s1 & E).
      exists s0, s1. rewrite <- E, text_nil_r, !text_assoc. reflexivity.
    + apply (top_networks_NoDup C Cpos Cint lines st H).
    + apply (top_hosts_NoDup C Cpos Cint lines st H).
    + intros p. apply (top_networks_of_log C Cpos Cint lines st p H).
    + intros a. apply (top_hosts_of_log C Cpos Cint lines st a H).
Qed.


(** *** Runs on small tables *)

Definition two_hosts : list string :=
  [ "Jul 18 07:53:22 10.0.0.5:6526 timeout";
    "Jul 19 08:00:01 11.7.0.1:80 ok" ]%string.

Definition three_networks : list string :=
  [ "Jul 18 07:53:22 10.0.0.5:6526 timeout";
    "Jul 18 07:53:23 10.0.0.9:6526 timeout";
    "Jul 19 08:00:01 11.7.0.1:80 ok";
    "Jul 19 08:00:02 11.7.0.2:80 ok";
    "Jul 19 08:00:03 12.1.0.1:80 ok";
    "Jul 19 08:00:04 12.1.0.1:80 ok";
    "Jul 19 08:00:05 12.1.0.7:80 ok";
    "Jul 19 08:00:06 13.1.0.7:80 ok" ]%string.

(** Three networks with two hosts each and one with a single host: the
    three are printed; so is the only host with two entries. *)
Example three_networks_tie :
  exists order,
    Permutation order ["10.0"; "11.7"; "12.1"]%string
    /\ main 11 (Some three_networks)
       = mkRun 0 (print_lines order ++ endl ++ print_lines ["12.1.0.1"%string])
               EmptyString.
Proof.
  exists (top_networks
            (networkTable
               (match ingest_lines 11 (init 11) three_networks with
                | Ok st => st
                | Exit _ _ => init 11
                end))).
  split.
  - vm_compute.
    repeat first [ apply Permutation_refl
                 | apply perm_skip
                 | (eapply perm_trans; [apply perm_swap|]) ].
  - vm_compute. reflexivity.
Qed.

Lemma table_full_is_fatal_witness :
  (forall later,
      main 2 (Some (two_hosts ++ "Jul 19 08:00:02 12.0.0.1:81 more"%string :: later))
      = mkRun 1 EmptyString hosts_full)
  /\ getNetworkIndex 2 [mkNetwork "10.0" 1 true; mkNetwork "11.7" 1 true] "12.0"
     = Exit 1 networks_full.
Proof.
  destruct (table_full_is_fatal 2 eq_refl eq_refl) as (Net & _ & _ & _ & Run & _).
  split.
  - intros later.
    destruct (Run two_hosts "Jul 19 08:00:02 12.0.0.1:81 more"%string later
                  (match ingest_lines 2 (init 2) two_hosts with
                   | Ok st => st
                   | Exit _ _ => init 2
                   end) 1 hosts_full eq_refl eq_refl) as (_ & _ & E).
    exact E.
  - apply Net. intros i Hi.
    assert (E : i = 0 \/ i = 1) by lia.
    destruct E as [E|E]; subst i; vm_compute; split; auto; discriminate.
Defined.


Lemma max_count_queries_report_all_ties_witness :
  main 11 (Some three_networks)
  = mkRun 0
          ("10.0" ++ endl ++ "12.1" ++ endl ++ "11.7" ++ endl ++ endl
           ++ "12.1.0.1" ++ endl)%string
          EmptyString
  /\ exists st,
    ingest_lines 11 (init 11) three_networks = Ok st
    /\ NoDup (top_networks (networkTable st))
    /\ In "10.0"%string (top_networks (networkTable st))
    /\ In "11.7"%string (top_networks (networkTable st))
    /\ In "12.1"%string (top_networks (networkTable st))
    /\ ~ In "13.1"%string (top_networks (networkTable st)).
Proof.
  destruct (ingest_lines 11 (init 11) three_networks) as [st|n d] eqn:H;
    [|vm_compute in H; discriminate].
  destruct max_count_queries_report_all_ties as (_ & _ & _ & Log).
  destruct (Log 11 three_networks st eq_refl eq_refl H)
    as (Out & _ & _ & ND & _ & Nets & _).
  split.
  { rewrite Out. vm_compute in H. injection H as <-. vm_compute. reflexivity. }
  exists st. split; [reflexivity|]. split; [exact ND|].
  assert (Max : forall p q,
             In p ["10.0"; "11.7"; "12.1"]%string ->
             In q (prefixes (parsed three_networks)) ->
             distinct_hosts (parsed three_networks) q
             <= distinct_hosts (parsed three_networks) p).
  { intros p q Hp Hq. simpl in Hp.
    destruct Hp as [<-|[<-|[<-|[]]]];
      vm_compute in Hq;
      repeat (destruct Hq as [<-|Hq]; [vm_compute; discriminate|]);
      destruct Hq. }
  split; [|split; [|split]].
  - apply Nets. split; [vm_compute; tauto|]. intros q. apply Max. simpl; auto.
  - apply Nets. split; [vm_compute; tauto|]. intros q. apply Max. simpl; auto.
  - apply Nets. split; [vm_compute; tauto|]. intros q. apply Max. simpl; auto.
  - intros Hin. apply Nets in Hin. destruct Hin as [_ Hmax].
    specialize (Hmax "10.0"%string). vm_compute in Hmax. apply Hmax; auto.
Defined.

End Act43Facts.

(** ** Counters of both variants *)

Module Counters.

(** C2, as the code has it.  In the network summary, whenever
    [insertOrUpdate] accepts a record (it refuses every record once
    [itemCount] has reached the capacity), the network's [accessCount]
    grows by 1, and its [connectionCount] by 1 if the address is not yet
    among the network's addresses and by 0 if it is; so the same new
    address accepted twice adds 2 and 1; and after any accepted log
    [connectionCount] is the number of different addresses of the network
    and [accessCount] the number of its records.  In the hierarchy, after
    a log that did not end the run [uniqueHostCount] is the number of
    different addresses of the network and [entryCount] the number of
    records of the host; one more record adds 1 to its host's
    [entryCount], and to its network's [uniqueHostCount] 1 if the address
    is new and 0 if it is known, and leaves the other networks alone. *)
Theorem counters_follow_records (C : Z) :
  0 < C ->
  (forall st st' k ip,
      List.length (Act52.hashTable st) = Z.to_nat C ->
      Act52.insertOrUpdate C st k ip = (true, st') ->
      Act52Facts.accessCount_of C st' k = Act52Facts.accessCount_of C st k + 1
      /\ Act52Facts.connectionCount_of C st' k
         = Act52Facts.connectionCount_of C st k
           + (if Act52.ipExists (Act52Facts.uniqueIPs_of C st k) ip then 0 else 1))
  /\ (forall st st1 st2 k ip,
      List.length (Act52.hashTable st) = Z.to_nat C ->
      Act52.ipExists (Act52Facts.uniqueIPs_of C st k) ip = false ->
      Act52.insertOrUpdate C st k ip = (true, st1) ->
      Act52.insertOrUpdate C st1 k ip = (true, st2) ->
      Act52Facts.accessCount_of C st2 k = Act52Facts.accessCount_of C st k + 2
      /\ Act52Facts.connectionCount_of C st2 k
         = Act52Facts.connectionCount_of C st k + 1)
  /\ (forall recs st k,
      Act52Facts.ingest C (Act52.init C) recs = (true, st) ->
      Act52Facts.connectionCount_of C st k = Act52Facts.distinct_ips recs k
      /\ Act52Facts.accessCount_of C st k = Act52Facts.accesses recs k)
  /\ (C < 2 ^ 31 ->
      (forall lines st,
          Act43.ingest_lines C (Act43.init C) lines = Act43.Ok st ->
          (forall p,
              Act43Facts.uniqueHostCount_of C (Act43.networkTable st) p
              = Act43Facts.distinct_hosts (Act43Facts.parsed lines) p)
          /\ (forall a,
                 Act43Facts.entryCount_of C (Act43.hostTable st) a
                 = Z.of_nat (List.length
                               (Act43Facts.entries_of (Act43Facts.parsed lines) a))))
      /\ (forall lines st a e st',
          Act43.ingest_lines C (Act43.init C) lines = Act43.Ok st ->
          Act43.ingest_record C st a e = Act43.Ok st' ->
          Act43Facts.entryCount_of C (Act43.hostTable st') a
          = Act43Facts.entryCount_of C (Act43.hostTable st) a + 1
          /\ Act43Facts.uniqueHostCount_of C (Act43.networkTable st')
                                           (Act43.prefixFromIP a)
             = Act43Facts.uniqueHostCount_of C (Act43.networkTable st)
                                             (Act43.prefixFromIP a)
               + (if in_dec string_dec a (Act43Facts.ips (Act43Facts.parsed lines))
                  then 0 else 1)
          /\ (forall p, p <> Act43.prefixFromIP a ->
                        Act43Facts.uniqueHostCount_of C (Act43.networkTable st') p
                        = Act43Facts.uniqueHostCount_of C (Act43.networkTable st) p))).
Proof.
  intros Cpos.
  destruct (Act52Facts.accepted_record_counts C Cpos) as (Step & Twice & Ever).
  split; [exact Step|]. split; [exact Twice|]. split; [exact Ever|].
  intros Cint. exact (Act43Facts.hierarchy_counts C Cpos Cint).
Qed.

(** The scenario of the specification in both variants: network 10.0 has
    three records from two addresses. *)
Lemma counters_follow_records_witness :
  (let st := snd (Act52Facts.ingest 7 (Act52.init 7) Act52Facts.sample_log) in
   Act52Facts.connectionCount_of 7 st "10.0" = 2
   /\ Act52Facts.accessCount_of 7 st "10.0" = 3)
  /\ (forall st,
        Act43.ingest_lines 7 (Act43.init 7) Act52Facts.sample_lines = Act43.Ok st ->
        Act43Facts.uniqueHostCount_of 7 (Act43.networkTable st) "10.0" = 2
        /\ Act43Facts.entryCount_of 7 (Act43.hostTable st) "10.0.0.5" = 2).
Proof.
  destruct (counters_follow_records 7 eq_refl) as (_ & _ & Ever & Hier).
  split.
  - exact (Ever Act52Facts.sample_log
                (snd (Act52Facts.ingest 7 (Act52.init 7) Act52Facts.sample_log))
                "10.0"%string eq_refl).
  - intros st H. destruct (Hier eq_refl) as [Log _].
    destruct (Log Act52Facts.sample_lines st H) as [N E].
    split; [exact (N "10.0"%string) | exact (E "10.0.0.5"%string)].
Defined.

End Counters.

(** ** Numeric order of addresses *)

Module IPOrder.

(** An octet of a dotted-quad address. *)
Definition octet (x : Z) : Prop := 0 <= x <= 255.

Lemma lor_shiftl_low (x d n : Z) :
  0 <= n -> 0 <= d < 2 ^ n -> Z.lor (Z.shiftl x n) d = x * 2 ^ n + d.
Proof.
  intros Hn Hd. rewrite <- Z.shiftl_mul_pow2 by lia.
  assert (L : Z.land (Z.shiftl x n) d = 0).
  { apply Z.bits_inj'. intros m Hm. rewrite Z.land_spec, Z.bits_0.
    destruct (Z_lt_ge_dec m n) as [Lt|Ge].
    - rewrite Z.shiftl_spec_low by lia. reflexivity.
    - destruct (Z.eq_dec d 0) as [->|Hne].
      + rewrite Z.bits_0. apply andb_false_r.
      + rewrite (Z.bits_above_log2 d m); [apply andb_false_r | lia |].
        assert (Z.log2 d < n) by (apply Z.log2_lt_pow2; lia). lia. }
  rewrite <- Z.lxor_lor by exact L.
  symmetry. apply Z.add_nocarry_lxor. exact L.
Qed.

(** The composite of four octets is their base-256 number. *)
Lemma ip_value_octets (a b c d : Z) :
  octet a -> octet b -> octet c -> octet d ->
  Act23.ip_value a b c d = a * 2 ^ 24 + b * 2 ^ 16 + c * 2 ^ 8 + d.
Proof.
  unfold octet, Act23.ip_value, wrap64. intros Ha Hb Hc Hd.
  rewrite !(Z.mod_small a), !(Z.mod_small b), !(Z.mod_small c), !(Z.mod_small d) by lia.
  rewrite !Z.shiftl_mul_pow2 by lia.
  rewrite !Z.mod_small by lia.
  replace (a * 2 ^ 24) with (Z.shiftl (Z.shiftl a 8) 16)
    by (rewrite !Z.shiftl_mul_pow2 by lia; lia).
  replace (b * 2 ^ 16) with (Z.shiftl b 16) by (rewrite Z.shiftl_mul_pow2 by lia; lia).
  rewrite <- Z.shiftl_lor.
  rewrite (lor_shiftl_low a b 8) by lia.
  replace (Z.shiftl (a * 2 ^ 8 + b) 16) with (Z.shiftl (Z.shiftl (a * 2 ^ 8 + b) 8) 8)
    by (rewrite !Z.shiftl_mul_pow2 by lia; lia).
  replace (c * 2 ^ 8) with (Z.shiftl c 8) by (rewrite Z.shiftl_mul_pow2 by lia; lia).
  rewrite <- Z.shiftl_lor.
  rewrite (lor_shiftl_low (a * 2 ^ 8 + b) c 8) by lia.
  rewrite (lor_shiftl_low ((a * 2 ^ 8 + b) * 2 ^ 8 + c) d 8) by lia.
  rewrite !Z.shiftl_mul_pow2 by lia.
  change (2 ^ 24) with 16777216. change (2 ^ 16) with 65536. change (2 ^ 8) with 256.
  lia.
Qed.

(** Octet after octet, from the left. *)
Definition octetwise_lt (a1 a2 a3 a4 b1 b2 b3 b4 : Z) : Prop :=
  a1 < b1
  \/ (a1 = b1 /\ (a2 < b2
                  \/ (a2 = b2 /\ (a3 < b3 \/ (a3 = b3 /\ a4 < b4))))).

Lemma octetwise_composite (a1 a2 a3 a4 b1 b2 b3 b4 : Z) :
  octet a1 -> octet a2 -> octet a3 -> octet a4 ->
  octet b1 -> octet b2 -> octet b3 -> octet b4 ->
  octetwise_lt a1 a2 a3 a4 b1 b2 b3 b4
  <-> Act23.ip_value a1 a2 a3 a4 < Act23.ip_value b1 b2 b3 b4.
Proof.
  intros. rewrite !ip_value_octets by assumption.
  unfold octetwise_lt, octet in *.
  change (2 ^ 24) with 16777216. change (2 ^ 16) with 65536. change (2 ^ 8) with 256.
  lia.
Qed.

Lemma key_lt_octetwise (a1 a2 a3 a4 b1 b2 b3 b4 : Z) :
  Act34.IPKey.lt (Act34.IPKey.mk a1 a2 a3 a4) (Act34.IPKey.mk b1 b2 b3 b4) = true
  <-> octetwise_lt a1 a2 a3 a4 b1 b2 b3 b4.
Proof.
  unfold Act34.IPKey.lt, octetwise_lt; simpl.
  destruct (Z.eqb_spec a1 b1); simpl; [|rewrite Z.ltb_lt; lia].
  destruct (Z.eqb_spec a2 b2); simpl; [|rewrite Z.ltb_lt; lia].
  destruct (Z.eqb_spec a3 b3); simpl; rewrite Z.ltb_lt; lia.
Qed.




End IPOrder.

(** ** The top five of [Act34] *)

Module Act34Facts.

Import Act34.

(** *** [std::sort] *)

Section Sorting.

Context {A : Type}.
Variable comp : A -> A -> bool.

(** No element is followed by one that [comp] puts before it. *)
Definition ordered (l : list A) : Prop :=
  StronglySorted (fun a b => comp b a = false) l.

Lemma sort_insert_perm (x : A) (l : list A) :
  Permutation (x :: l) (sort_insert comp x l).
Proof.
  induction l as [|y r IH]; simpl; auto.
  destruct (comp y x); auto.
  apply perm_trans with (y :: x :: r); [apply perm_swap|].
  apply perm_skip. exact IH.
Qed.

Lemma std_sort_perm (l : list A) : Permutation l (std_sort comp l).
Proof.
  induction l as [|x l IH]; simpl; auto.
  apply perm_trans with (x :: std_sort comp l); auto.
  apply sort_insert_perm.
Qed.

(** What [std::sort] asks of its comparator. *)
Hypothesis comp_asym : forall a b, comp a b = true -> comp b a = false.
Hypothesis comp_neg_trans :
  forall a b c, comp b a = false -> comp c b = false -> comp c a = false.

Lemma sort_insert_ordered (x : A) (l : list A) :
  ordered l -> ordered (sort_insert comp x l).
Proof.
  unfold ordered. induction l as [|y r IH]; intros H; simpl.
  - repeat constructor.
  - inversion H as [|? ? Hr Hy]; subst.
    destruct (comp y x) eqn:E.
    + constructor; auto.
      apply Forall_forall. intros z Hz.
      apply (Permutation_in _ (Permutation_sym (sort_insert_perm x r))) in Hz.
      destruct Hz as [<-|Hz]; auto.
      rewrite Forall_forall in Hy. auto.
    + constructor; auto. constructor; auto.
      rewrite Forall_forall in *. intros z Hz.
      apply (comp_neg_trans x y z); auto.
Qed.

Lemma std_sort_ordered (l : list A) : ordered (std_sort comp l).
Proof.
  induction l as [|x l IH]; simpl.
  - constructor.
  - apply sort_insert_ordered. exact IH.
Qed.

End Sorting.

(** Two lists in strict order with the same elements are the same list. *)
Lemma strict_order_unique {A : Type} (R : A -> A -> Prop) :
  (forall a b, R a b -> R b a -> False) ->
  forall l l', StronglySorted R l -> StronglySorted R l' ->
               Permutation l l' -> l = l'.
Proof.
  intros asym. induction l as [|a l IH]; intros l' S S' P.
  - apply Permutation_nil in P. auto.
  - destruct l' as [|b l'].
    + apply Permutation_sym, Permutation_nil in P. discriminate.
    + inversion S as [|? ? Sl Fa]; subst. inversion S' as [|? ? Sl' Fb]; subst.
      rewrite Forall_forall in Fa, Fb.
      assert (E : a = b).
      { assert (Ia : In a (b :: l')) by (apply (Permutation_in _ P); left; auto).
        assert (Ib : In b (a :: l))
          by (apply (Permutation_in _ (Permutation_sym P)); left; auto).
        destruct Ia as [E|Ia]; auto. destruct Ib as [E|Ib]; auto.
        exfalso. apply (asym a b); auto. }
      subst b. f_equal. apply IH; auto.
      apply Permutation_cons_inv in P. exact P.
Qed.

(** *** The order of [IPKey] *)

Definition key_lt (a b : IPKey.t) : Prop :=
  IPOrder.octetwise_lt (IPKey.ip1 a) (IPKey.ip2 a) (IPKey.ip3 a) (IPKey.ip4 a)
                       (IPKey.ip1 b) (IPKey.ip2 b) (IPKey.ip3 b) (IPKey.ip4 b).

Lemma lt_spec (a b : IPKey.t) : IPKey.lt a b = true <-> key_lt a b.
Proof. destruct a, b. apply IPOrder.key_lt_octetwise. Qed.

Lemma lt_false (a b : IPKey.t) : IPKey.lt a b = false <-> ~ key_lt a b.
Proof.
  rewrite <- lt_spec. destruct (IPKey.lt a b); split; intros; congruence.
Qed.

Lemma key_lt_irrefl (a : IPKey.t) : ~ key_lt a a.
Proof. unfold key_lt, IPOrder.octetwise_lt. lia. Qed.

Lemma key_lt_trans (a b c : IPKey.t) : key_lt a b -> key_lt b c -> key_lt a c.
Proof. unfold key_lt, IPOrder.octetwise_lt. lia. Qed.

Lemma key_trichotomy (a b : IPKey.t) : ~ key_lt a b -> ~ key_lt b a -> a = b.
Proof.
  destruct a, b. unfold key_lt, IPOrder.octetwise_lt; simpl. intros H1 H2.
  f_equal; lia.
Qed.

Definition key_eq_dec (a b : IPKey.t) : {a = b} + {a <> b}.
Proof. decide equality; apply Z.eq_dec. Defined.
Arguments key_eq_dec : simpl never.

(** *** The map *)

(** The records of a log with address [k], in the order of the log. *)
Definition with_key (k : IPKey.t) (log : list entry) : list entry :=
  filter (fun E => if key_eq_dec (key_of E) k then true else false) log.

(** The vector the map holds for [k]. *)
Fixpoint lookup (m : list (IPKey.t * list entry)) (k : IPKey.t) : list entry :=
  match m with
  | [] => []
  | (k', v) :: rest => if key_eq_dec k' k then v else lookup rest k
  end.

Definition ascending (m : list (IPKey.t * list entry)) : Prop :=
  StronglySorted (fun p q => key_lt (fst p) (fst q)) m.

Lemma map_push_keys (m : list (IPKey.t * list entry)) (k : IPKey.t) (E : entry) :
  forall k', In k' (map fst (map_push m k E)) <-> k' = k \/ In k' (map fst m).
Proof.
  induction m as [|[k0 v] m IH]; intros k'; simpl.
  - intuition congruence.
  - destruct (IPKey.lt k k0) eqn:L1; simpl; [intuition congruence|].
    destruct (IPKey.lt k0 k) eqn:L2; simpl.
    + rewrite IH. intuition congruence.
    + apply lt_false in L1, L2.
      assert (k = k0) by (apply key_trichotomy; auto). subst.
      intuition congruence.
Qed.

Lemma map_push_ascending (m : list (IPKey.t * list entry)) (k : IPKey.t) (E : entry) :
  ascending m -> ascending (map_push m k E).
Proof.
  unfold ascending. induction m as [|[k0 v] m IH]; intros H; simpl.
  - repeat constructor.
  - inversion H as [|? ? Hm Hk]; subst.
    destruct (IPKey.lt k k0) eqn:L1.
    + apply lt_spec in L1. constructor; auto. constructor; auto.
      rewrite Forall_forall in *. intros q Hq. simpl.
      apply key_lt_trans with k0; [exact L1 | apply (Hk q Hq)].
    + destruct (IPKey.lt k0 k) eqn:L2.
      * apply lt_spec in L2. constructor; auto.
        rewrite Forall_forall in *. intros q Hq. simpl.
        assert (Hin : In (fst q) (map fst (map_push m k E))) by (apply in_map; auto).
        apply map_push_keys in Hin. destruct Hin as [->|Hin]; auto.
        apply in_map_iff in Hin. destruct Hin as (q' & Eq & Hq').
        rewrite <- Eq. apply (Hk q' Hq').
      * constructor; auto.
Qed.

Lemma lookup_above (m : list (IPKey.t * list entry)) (k : IPKey.t) :
  Forall (fun q => key_lt k (fst q)) m -> lookup m k = [].
Proof.
  induction m as [|[k0 v] m IH]; intros H; simpl; auto.
  inversion H as [|? ? Hk Hm]; subst. simpl in Hk.
  destruct (key_eq_dec k0 k) as [->|_]; auto.
  exfalso. apply (key_lt_irrefl k). exact Hk.
Qed.

Lemma map_push_lookup (m : list (IPKey.t * list entry)) (k : IPKey.t) (E : entry) :
  ascending m ->
  forall k', lookup (map_push m k E) k'
             = if key_eq_dec k k' then lookup m k ++ [E] else lookup m k'.
Proof.
  unfold ascending. induction m as [|[k0 v] m IH]; intros H k'; simpl.
  - destruct (key_eq_dec k k'); reflexivity.
  - inversion H as [|? ? Hm Hk]; subst. simpl in Hk.
    destruct (IPKey.lt k k0) eqn:L1.
    + apply lt_spec in L1. simpl.
      destruct (key_eq_dec k0 k) as [->|Hne0];
        [exfalso; apply (key_lt_irrefl k); exact L1|].
      destruct (key_eq_dec k k') as [<-|Hne]; auto.
      rewrite lookup_above; auto.
      rewrite Forall_forall in *. intros q Hq.
      apply key_lt_trans with k0; [exact L1 | apply (Hk q Hq)].
    + destruct (IPKey.lt k0 k) eqn:L2.
      * apply lt_spec in L2. simpl. rewrite IH by auto.
        destruct (key_eq_dec k0 k) as [->|Hne0];
          [exfalso; apply (key_lt_irrefl k); exact L2|].
        destruct (key_eq_dec k0 k') as [<-|Hne']; auto.
        destruct (key_eq_dec k k0); congruence.
      * apply lt_false in L1, L2.
        assert (k = k0) by (apply key_trichotomy; auto). subst k0. simpl.
        destruct (key_eq_dec k k); [|congruence].
        destruct (key_eq_dec k k') as [<-|Hne]; auto.
Qed.

Lemma group_spec (log : list entry) :
  ascending (group log)
  /\ (forall k, lookup (group log) k = with_key k log)
  /\ (forall k, In k (map fst (group log)) <-> In k (map key_of log)).
Proof.
  unfold group. induction log as [|E log (Asc & Look & Keys)] using rev_ind.
  - simpl. split; [constructor|]. split; [reflexivity|]. intros k; tauto.
  - rewrite fold_left_app. simpl. split; [|split].
    + apply map_push_ascending. exact Asc.
    + intros k. rewrite map_push_lookup by exact Asc.
      unfold with_key. rewrite filter_app. simpl.
      rewrite !Look. unfold with_key.
      destruct (key_eq_dec (key_of E) k) as [->|Hne]; auto.
      rewrite app_nil_r. reflexivity.
    + intros k. rewrite map_push_keys, Keys, map_app, in_app_iff. simpl.
      intuition auto.
Qed.

Lemma ascending_NoDup (m : list (IPKey.t * list entry)) :
  ascending m -> NoDup (map fst m).
Proof.
  unfold ascending. induction 1 as [|p m Hm IH Hp]; simpl; constructor; auto.
  intros Hin. apply in_map_iff in Hin. destruct Hin as (q & Eq & Hq).
  rewrite Forall_forall in Hp. specialize (Hp q Hq). rewrite Eq in Hp.
  apply (key_lt_irrefl (fst p)). exact Hp.
Qed.

Lemma lookup_In (m : list (IPKey.t * list entry)) (k : IPKey.t) (v : list entry) :
  NoDup (map fst m) -> In (k, v) m -> lookup m k = v.
Proof.
  induction m as [|[k0 v0] m IH]; intros ND Hin; simpl in *; [contradiction|].
  inversion ND as [|? ? Hn ND']; subst.
  destruct Hin as [E|Hin].
  - inversion E; subst. destruct (key_eq_dec k k); congruence.
  - destruct (key_eq_dec k0 k) as [->|Hne]; auto.
    exfalso. apply Hn. apply in_map_iff. exists (k, v). auto.
Qed.


(** *** The comparator of the second sort *)

(** [a] comes before [b]: more accesses, or as many and the larger
    address, octet after octet from the left. *)
Definition ranks_before (a b : IPData) : Prop :=
  count a > count b \/ (count a = count b /\ key_lt (key b) (key a)).

Lemma by_count_spec (a b : IPData) :
  by_count_then_ip a b = true <-> ranks_before a b.
Proof.
  unfold by_count_then_ip, ranks_before, key_lt, IPOrder.octetwise_lt.
  destruct (Z.eqb_spec (count a) (count b)); simpl; [|rewrite Z.gtb_lt; lia].
  destruct (Z.eqb_spec (IPKey.ip1 (key a)) (IPKey.ip1 (key b))); simpl;
    [|rewrite Z.gtb_lt; lia].
  destruct (Z.eqb_spec (IPKey.ip2 (key a)) (IPKey.ip2 (key b))); simpl;
    [|rewrite Z.gtb_lt; lia].
  destruct (Z.eqb_spec (IPKey.ip3 (key a)) (IPKey.ip3 (key b))); simpl;
    rewrite Z.gtb_lt; lia.
Qed.

Lemma by_count_false (a b : IPData) :
  by_count_then_ip a b = false <-> ~ ranks_before a b.
Proof.
  rewrite <- by_count_spec. destruct (by_count_then_ip a b); split; intros; congruence.
Qed.

Lemma ranks_asym (a b : IPData) : ranks_before a b -> ranks_before b a -> False.
Proof. unfold ranks_before, key_lt, IPOrder.octetwise_lt. lia. Qed.

Lemma ranks_neg_trans (a b c : IPData) :
  ~ ranks_before b a -> ~ ranks_before c b -> ~ ranks_before c a.
Proof. unfold ranks_before, key_lt, IPOrder.octetwise_lt. lia. Qed.

Lemma ranks_total (a b : IPData) :
  key a <> key b -> ~ ranks_before b a -> ranks_before a b.
Proof.
  intros Hne Hn. unfold ranks_before in *.
  destruct (Z_lt_ge_dec (count b) (count a)); [left; lia|].
  right. split; [lia|].
  destruct (lt_spec (key b) (key a)) as [_ _].
  assert (D : key_lt (key b) (key a) \/ ~ key_lt (key b) (key a)).
  { unfold key_lt, IPOrder.octetwise_lt. lia. }
  destruct D as [D|D]; auto.
  exfalso. apply Hne. apply key_trichotomy; auto.
  intros K. apply Hn. right. split; [lia | exact K].
Qed.

Lemma by_count_asym (a b : IPData) :
  by_count_then_ip a b = true -> by_count_then_ip b a = false.
Proof.
  rewrite by_count_spec, by_count_false. intros H H'. exact (ranks_asym a b H H').
Qed.

Lemma by_count_neg_trans (a b c : IPData) :
  by_count_then_ip b a = false -> by_count_then_ip c b = false ->
  by_count_then_ip c a = false.
Proof. rewrite !by_count_false. apply ranks_neg_trans. Qed.

(** With distinct addresses, "no later element comes before" is the
    strict order. *)
Lemma ordered_strict (l : list IPData) :
  NoDup (map key l) -> ordered by_count_then_ip l -> StronglySorted ranks_before l.
Proof.
  unfold ordered. intros ND H. induction H as [|a l Hl IH Ha]; constructor.
  - apply IH. inversion ND; auto.
  - inversion ND as [|? ? Hn _]; subst.
    rewrite Forall_forall in *. intros b Hb.
    apply ranks_total.
    + intros E. apply Hn. rewrite E. apply in_map. exact Hb.
    + apply by_count_false. apply Ha. exact Hb.
Qed.

Lemma make_data_key (m : list (IPKey.t * list entry)) :
  map key (map make_data m) = map fst m.
Proof. rewrite map_map. reflexivity. Qed.

Lemma to_nat_min (n : nat) : Z.to_nat (Z.min 5 (Z.of_nat n)) = Nat.min 5 n.
Proof. lia. Qed.

(** *** The records that are printed *)

(** The records of a log with one of the addresses [ks], in the order of
    the log. *)
Definition with_keys (ks : list IPKey.t) (log : list entry) : list entry :=
  filter (fun E => if in_dec key_eq_dec (key_of E) ks then true else false) log.

Lemma with_keys_cons (k : IPKey.t) (ks : list IPKey.t) (log : list entry) :
  ~ In k ks ->
  Permutation (with_key k log ++ with_keys ks log) (with_keys (k :: ks) log).
Proof.
  intros Hk. unfold with_key, with_keys.
  induction log as [|E log IH]; [constructor|].
  cbn [filter].
  destruct (key_eq_dec (key_of E) k) as [Ek|Nk];
    destruct (in_dec key_eq_dec (key_of E) ks) as [Ik|Nks];
    destruct (in_dec key_eq_dec (key_of E) (k :: ks)) as [Ic|Nc].
  - exfalso. apply Hk. rewrite <- Ek. exact Ik.
  - exfalso. apply Nc. left. auto.
  - cbn [app]. apply perm_skip. exact IH.
  - exfalso. apply Nc. left. auto.
  - apply Permutation_sym. apply Permutation_cons_app.
    apply Permutation_sym. exact IH.
  - exfalso. apply Nc. right. exact Ik.
  - exfalso. destruct Ic as [Ic|Ic]; [apply Nk; auto | apply Nks; exact Ic].
  - exact IH.
Qed.

Lemma flat_with_key (ks : list IPKey.t) (log : list entry) :
  NoDup ks ->
  Permutation (flat_map (fun k => with_key k log) ks) (with_keys ks log).
Proof.
  induction 1 as [|k ks Hk ND IH]; cbn [flat_map].
  - unfold with_keys. rewrite filter_none; [constructor|].
    intros E _. destruct (in_dec key_eq_dec (key_of E) []) as [[]|]; reflexivity.
  - apply perm_trans with (with_key k log ++ with_keys ks log).
    + apply Permutation_app_head. exact IH.
    + apply with_keys_cons. exact Hk.
Qed.

Lemma flat_map_perm {A B : Type} (f g : A -> list B) (l : list A) :
  (forall d, In d l -> Permutation (f d) (g d)) ->
  Permutation (flat_map f l) (flat_map g l).
Proof.
  induction l as [|d l IH]; intros H; cbn [flat_map]; [constructor|].
  apply Permutation_app.
  - apply H. left. reflexivity.
  - apply IH. intros x Hx. apply H. right. exact Hx.
Qed.

Lemma firstn_NoDup {A : Type} (n : nat) (l : list A) : NoDup l -> NoDup (firstn n l).
Proof.
  intros H. rewrite <- (firstn_skipn n l) in H.
  apply NoDup_app_remove_r in H. exact H.
Qed.

Lemma firstn_In {A : Type} (n : nat) (l : list A) (x : A) :
  In x (firstn n l) -> In x l.
Proof.
  intros H. rewrite <- (firstn_skipn n l). apply in_or_app. left. exact H.
Qed.

(** C5. The groups are one per address of the log, each with all records
    of its address and their number as [count].  After the second sort a
    group with more accesses comes before one with fewer, and of two with
    as many the one with the larger address (octet after octet from the
    left) comes first; no other arrangement of the groups satisfies the
    comparator.  The output is the lines of the first min(5, number of
    addresses) groups, group after group in this order and within a group
    in the order of its vector, each line followed by a line terminator:
    the records written are the records of the log with one of these
    addresses, each as often as in the log, and nothing else is written. *)
Theorem top_five_by_count_then_ip (log : list entry) :
  let groups := ipDataList log in
  let addresses := nodup key_eq_dec (map key_of log) in
  let shown := firstn (Nat.min 5 (List.length addresses)) groups in
  NoDup (map key groups)
  /\ (forall k, In k (map key groups) <-> In k (map key_of log))
  /\ (forall d, In d groups ->
        count d = Z.of_nat (List.length (with_key (key d) log))
        /\ Permutation (entries d) (with_key (key d) log))
  /\ StronglySorted
       (fun a b =>
          count a > count b
          \/ (count a = count b
              /\ IPOrder.octetwise_lt
                   (IPKey.ip1 (key b)) (IPKey.ip2 (key b))
                   (IPKey.ip3 (key b)) (IPKey.ip4 (key b))
                   (IPKey.ip1 (key a)) (IPKey.ip2 (key a))
                   (IPKey.ip3 (key a)) (IPKey.ip4 (key a))))
       groups
  /\ (forall l, Permutation l (map make_data (group log)) ->
                StronglySorted (fun a b => by_count_then_ip b a = false) l ->
                l = groups)
  /\ top log = shown
  /\ List.length (top log) = Nat.min 5 (List.length addresses)
  /\ main (Some log)
     = mkRun 0 (String.concat EmptyString (map print_group (top log))) EmptyString
  /\ main (Some log)
     = mkRun 0
             (String.concat EmptyString
                (map (fun e => originLine e ++ endl)%string (flat_map entries shown)))
             EmptyString
  /\ Permutation (flat_map entries shown) (with_keys (map key shown) log)
  /\ (forall d, In d groups -> entries d <> []).
Proof.
  intros groups addresses shown.
  destruct (group_spec log) as (Asc & Look & Keys).
  pose proof (ascending_NoDup _ Asc) as NDm.
  assert (P : Permutation (map make_data (group log)) groups)
    by apply std_sort_perm.
  assert (Pk : Permutation (map fst (group log)) (map key groups)).
  { rewrite <- make_data_key. apply Permutation_map. exact P. }
  assert (ND : NoDup (map key groups)) by (apply (Permutation_NoDup Pk); exact NDm).
  assert (Kin : forall k, In k (map key groups) <-> In k (map key_of log)).
  { intros k. rewrite <- Keys. split; intros H.
    - apply (Permutation_in _ (Permutation_sym Pk)). exact H.
    - apply (Permutation_in _ Pk). exact H. }
  assert (Len : List.length groups = List.length addresses).
  { rewrite <- (length_map key groups). apply Permutation_length.
    apply NoDup_Permutation; auto.
    - apply NoDup_nodup.
    - intros k. rewrite Kin. unfold addresses. rewrite nodup_In. tauto. }
  assert (Srt : StronglySorted ranks_before groups).
  { apply ordered_strict; auto.
    apply std_sort_ordered; [exact by_count_asym | exact by_count_neg_trans]. }
  assert (Grp : forall d, In d groups ->
                count d = Z.of_nat (List.length (with_key (key d) log))
                /\ Permutation (entries d) (with_key (key d) log)).
  { intros d Hd.
    apply (Permutation_in _ (Permutation_sym P)) in Hd.
    apply in_map_iff in Hd. destruct Hd as ([k v] & <- & Hin).
    unfold make_data; simpl.
    rewrite <- Look, (lookup_In _ k v NDm Hin). split; auto.
    apply Permutation_sym. apply std_sort_perm. }
  split; [exact ND|]. split; [exact Kin|]. split; [exact Grp|].
  split; [exact Srt|]. split.
  { intros l Pl Sl.
    apply (strict_order_unique ranks_before ranks_asym); auto.
    - apply ordered_strict; auto.
      apply (Permutation_NoDup (l := map key (map make_data (group log)))).
      + apply Permutation_map. apply Permutation_sym. exact Pl.
      + rewrite make_data_key. exact NDm.
    - apply perm_trans with (map make_data (group log)); auto. }
  assert (T : top log = shown).
  { unfold top, shown. fold groups. rewrite to_nat_min, Len. reflexivity. }
  split; [exact T|]. split.
  { rewrite T. unfold shown. rewrite length_firstn, Len. lia. }
  split; [reflexivity|]. split.
  { unfold main. rewrite T. unfold print_group.
    rewrite <- text_concat_flat_map. reflexivity. }
  split.
  { apply perm_trans with (flat_map (fun k => with_key k log) (map key shown)).
    - rewrite flat_map_concat_map, flat_map_concat_map, map_map.
      rewrite <- !flat_map_concat_map.
      apply flat_map_perm. intros d Hd. apply Grp.
      apply (firstn_In _ _ _ Hd).
    - apply flat_with_key. unfold shown. rewrite <- firstn_map.
      apply firstn_NoDup. exact ND. }
  intros d Hd E.
  destruct (Grp d Hd) as [_ Pd]. rewrite E in Pd.
  apply Permutation_nil in Pd.
  assert (Hk : In (key d) (map key_of log)) by (apply Kin; apply in_map; exact Hd).
  apply in_map_iff in Hk. destruct Hk as (e & Ee & He).
  assert (X : In e (with_key (key d) log)).
  { unfold with_key. apply filter_In. split; [exact He|].
    destruct (key_eq_dec (key_of e) (key d)); [reflexivity | contradiction]. }
  rewrite Pd in X. destruct X.
Qed.

(** Six addresses; two of them tie at two accesses and two at one. *)
Definition six_addresses : list entry :=
  let e (d c : Z) (line : string) :=
      mkEntry 7 18 7 53 c (total_time 7 18 7 53 c) 10 0 0 d 80 "r" line in
  [ e 9 1 "a"; e 10 2 "b"; e 9 3 "c"; e 10 4 "d"; e 3 5 "e"; e 4 6 "f";
    e 5 7 "g"; e 5 8 "h"; e 5 9 "i"; e 200 10 "j" ]%string.

Example six_addresses_top :
  map (fun d => (IPKey.ip4 (key d), count d)) (top six_addresses)
  = [ (5, 3); (10, 2); (9, 2); (200, 1); (4, 1) ]
  /\ out (main (Some six_addresses))
     = ("g" ++ endl ++ "h" ++ endl ++ "i" ++ endl ++ "b" ++ endl ++ "d" ++ endl
        ++ "a" ++ endl ++ "c" ++ endl ++ "j" ++ endl ++ "f" ++ endl)%string.
Proof. split; vm_compute; reflexivity. Qed.


Lemma top_five_by_count_then_ip_witness :
  main (Some six_addresses)
  = mkRun 0
          ("g" ++ endl ++ "h" ++ endl ++ "i" ++ endl ++ "b" ++ endl ++ "d" ++ endl
           ++ "a" ++ endl ++ "c" ++ endl ++ "j" ++ endl ++ "f" ++ endl)%string
          EmptyString
  /\ List.length (top six_addresses) = 5%nat
  /\ NoDup (map key (ipDataList six_addresses)).
Proof.
  destruct (top_five_by_count_then_ip six_addresses)
    as (ND & _ & _ & _ & _ & _ & Len & _ & Out & _).
  split; [|split; [exact Len | exact ND]].
  rewrite Out. vm_compute. reflexivity.
Defined.

End Act34Facts.

(** ** Merge sort and range search of [Act23] *)

Module Act23Facts.

Import Act23.

(** *** The order of [std::string] *)

Lemma ascii_compare_lt (a b : ascii) :
  Ascii.compare a b = Lt <-> (N_of_ascii a < N_of_ascii b)%N.
Proof. unfold Ascii.compare. apply N.compare_lt_iff. Qed.

Lemma ascii_compare_eq (a b : ascii) : Ascii.compare a b = Eq <-> a = b.
Proof.
  split; [apply Ascii.compare_eq_iff|].
  intros ->. unfold Ascii.compare. apply N.compare_refl.
Qed.

Lemma string_compare_refl (s : string) : String.compare s s = Eq.
Proof.
  induction s as [|c s IH]; simpl; auto.
  rewrite (proj2 (ascii_compare_eq c c) eq_refl). exact IH.
Qed.

Lemma string_lt_trans (a b c : string) :
  String.compare a b = Lt -> String.compare b c = Lt -> String.compare a c = Lt.
Proof.
  revert b c. induction a as [|x a IH]; intros [|y b] [|z c]; simpl; try congruence.
  destruct (Ascii.compare x y) eqn:Exy; try discriminate;
    destruct (Ascii.compare y z) eqn:Eyz; try discriminate; intros H1 H2.
  - apply ascii_compare_eq in Exy, Eyz. subst.
    rewrite (proj2 (ascii_compare_eq z z) eq_refl). eapply IH; eauto.
  - apply ascii_compare_eq in Exy. subst. rewrite Eyz. reflexivity.
  - apply ascii_compare_eq in Eyz. subst. rewrite Exy. reflexivity.
  - apply ascii_compare_lt in Exy. apply ascii_compare_lt in Eyz.
    assert (Exz : Ascii.compare x z = Lt)
      by (apply ascii_compare_lt; eapply N.lt_trans; eauto).
    rewrite Exz. reflexivity.
Qed.

Definition string_lt (a b : string) : Prop := String.compare a b = Lt.

Lemma ltb_spec (a b : string) : String.ltb a b = true <-> string_lt a b.
Proof.
  unfold String.ltb, string_lt. destruct (String.compare a b); split; congruence.
Qed.

Lemma string_lt_irrefl (a : string) : ~ string_lt a a.
Proof. unfold string_lt. rewrite string_compare_refl. discriminate. Qed.

Lemma string_trichotomy (a b : string) : string_lt a b \/ a = b \/ string_lt b a.
Proof.
  unfold string_lt. rewrite (String.compare_antisym b a).
  destruct (String.compare a b) eqn:E; simpl; auto.
  right. left. apply String.compare_eq_iff. exact E.
Qed.

(** *** The composite key *)

(** The numeric part of the key in order: address, then time. *)
Definition num_lt (a b : entry) : Prop :=
  ip1 a < ip1 b
  \/ (ip1 a = ip1 b
      /\ (ip2 a < ip2 b
          \/ (ip2 a = ip2 b
              /\ (ip3 a < ip3 b
                  \/ (ip3 a = ip3 b
                      /\ (ip4 a < ip4 b
                          \/ (ip4 a = ip4 b /\ totalTime a < totalTime b))))))).

Definition num_eq (a b : entry) : Prop :=
  ip1 a = ip1 b /\ ip2 a = ip2 b /\ ip3 a = ip3 b /\ ip4 a = ip4 b
  /\ totalTime a = totalTime b.

(** Address octet by octet, then time, then reason. *)
Definition key_lt (a b : entry) : Prop :=
  num_lt a b \/ (num_eq a b /\ string_lt (reason a) (reason b)).

(** Exactly equal composite keys. *)
Definition key_eq (a b : entry) : Prop := num_eq a b /\ reason a = reason b.

Lemma lessEntry_spec (a b : entry) : lessEntry a b = true <-> key_lt a b.
Proof.
  unfold lessEntry, key_lt, num_lt, num_eq.
  destruct (Z.eqb_spec (ip1 a) (ip1 b)); simpl; [|rewrite Z.ltb_lt; lia].
  destruct (Z.eqb_spec (ip2 a) (ip2 b)); simpl; [|rewrite Z.ltb_lt; lia].
  destruct (Z.eqb_spec (ip3 a) (ip3 b)); simpl; [|rewrite Z.ltb_lt; lia].
  destruct (Z.eqb_spec (ip4 a) (ip4 b)); simpl; [|rewrite Z.ltb_lt; lia].
  destruct (Z.eqb_spec (totalTime a) (totalTime b)); simpl; [|rewrite Z.ltb_lt; lia].
  rewrite ltb_spec. intuition lia.
Qed.

Lemma lessEntry_false (a b : entry) : lessEntry a b = false <-> ~ key_lt a b.
Proof.
  rewrite <- lessEntry_spec. destruct (lessEntry a b); split; intros; congruence.
Qed.

Lemma num_cases (a b : entry) : num_lt a b \/ num_eq a b \/ num_lt b a.
Proof. unfold num_lt, num_eq. lia. Qed.

Lemma entry_lt_trans (a b c : entry) : key_lt a b -> key_lt b c -> key_lt a c.
Proof.
  unfold key_lt. intros [N1|[E1 S1]] [N2|[E2 S2]].
  - left. unfold num_lt in *. lia.
  - left. unfold num_lt, num_eq in *. lia.
  - left. unfold num_lt, num_eq in *. lia.
  - right. split; [unfold num_eq in *; lia|].
    unfold string_lt in *. eapply string_lt_trans; eauto.
Qed.

Lemma entry_lt_irrefl (a : entry) : ~ key_lt a a.
Proof.
  unfold key_lt. intros [N|[_ S]].
  - unfold num_lt in N. lia.
  - exact (string_lt_irrefl _ S).
Qed.

Lemma key_cases (a b : entry) : key_lt a b \/ key_eq a b \/ key_lt b a.
Proof.
  unfold key_lt, key_eq.
  destruct (num_cases a b) as [N|[E|N]]; auto.
  destruct (string_trichotomy (reason a) (reason b)) as [S|[S|S]]; auto.
  right. right. right. split; auto. unfold num_eq in *. lia.
Qed.

Lemma key_eq_lt (a b c : entry) : key_eq a b -> key_lt b c -> key_lt a c.
Proof.
  unfold key_eq, key_lt. intros [E R] [N|[E' S]].
  - left. unfold num_lt, num_eq in *. lia.
  - right. rewrite R. split; auto. unfold num_eq in *. lia.
Qed.

Lemma key_lt_eq (a b c : entry) : key_lt a b -> key_eq b c -> key_lt a c.
Proof.
  unfold key_eq, key_lt. intros [N|[E' S]] [E R].
  - left. unfold num_lt, num_eq in *. lia.
  - right. rewrite <- R. split; auto. unfold num_eq in *. lia.
Qed.

Lemma key_eq_sym (a b : entry) : key_eq a b -> key_eq b a.
Proof. unfold key_eq, num_eq. intuition. Qed.

Lemma key_eq_not_lt (a b : entry) : key_eq a b -> ~ key_lt a b.
Proof.
  intros E L. apply (entry_lt_irrefl b). eapply key_eq_lt; eauto.
  apply key_eq_sym. exact E.
Qed.

(** Not after: [a] may stand before [b] in an ascending list. *)
Lemma not_lt_trans (a b c : entry) :
  ~ key_lt b a -> ~ key_lt c b -> ~ key_lt c a.
Proof.
  intros H1 H2 H3.
  destruct (key_cases a b) as [L|[E|L]].
  - apply H2. eapply entry_lt_trans; eauto.
  - apply H2. eapply key_lt_eq; eauto.
  - contradiction.
Qed.


(** *** The merge *)

(** Exactly equal composite keys, decided. *)
Definition same_key (a b : entry) : bool :=
  ((ip1 a =? ip1 b) && (ip2 a =? ip2 b) && (ip3 a =? ip3 b) && (ip4 a =? ip4 b)
   && (totalTime a =? totalTime b) && String.eqb (reason a) (reason b))%bool.

Lemma same_key_spec (a b : entry) : same_key a b = true <-> key_eq a b.
Proof.
  unfold same_key, key_eq, num_eq.
  rewrite !andb_true_iff, !Z.eqb_eq, String.eqb_eq. tauto.
Qed.

(** Ascending: no record is followed by one that [lessEntry] puts before
    it. *)
Definition ordered (l : list entry) : Prop :=
  StronglySorted (fun a b => lessEntry b a = false) l.

Lemma merge_nil_l (l2 : list entry) : mergeSortedLists [] l2 = l2.
Proof. destruct l2; reflexivity. Qed.

Lemma merge_nil_r (l1 : list entry) : mergeSortedLists l1 [] = l1.
Proof. destruct l1; reflexivity. Qed.

Lemma merge_cons (a b : entry) (l1 l2 : list entry) :
  mergeSortedLists (a :: l1) (b :: l2)
  = if lessEntry a b then a :: mergeSortedLists l1 (b :: l2)
    else b :: mergeSortedLists (a :: l1) l2.
Proof. reflexivity. Qed.

Lemma merge_perm (l1 l2 : list entry) :
  Permutation (l1 ++ l2) (mergeSortedLists l1 l2).
Proof.
  revert l2. induction l1 as [|a l1 IH1]; intros l2.
  - rewrite merge_nil_l. apply Permutation_refl.
  - induction l2 as [|b l2 IH2].
    + rewrite merge_nil_r, app_nil_r. apply Permutation_refl.
    + rewrite merge_cons. destruct (lessEntry a b).
      * simpl. apply perm_skip. apply IH1.
      * apply perm_trans with (b :: (a :: l1) ++ l2).
        -- apply Permutation_sym. apply Permutation_middle.
        -- apply perm_skip. exact IH2.
Qed.

Lemma merge_ordered (l1 l2 : list entry) :
  ordered l1 -> ordered l2 -> ordered (mergeSortedLists l1 l2).
Proof.
  unfold ordered. revert l2. induction l1 as [|a l1 IH1]; intros l2 H1 H2.
  - rewrite merge_nil_l. exact H2.
  - induction l2 as [|b l2 IH2].
    + rewrite merge_nil_r. exact H1.
    + rewrite merge_cons.
      inversion H1 as [|? ? S1 F1]; subst. inversion H2 as [|? ? S2 F2]; subst.
      rewrite Forall_forall in F1, F2.
      destruct (lessEntry a b) eqn:L.
      * constructor; [apply IH1; auto|].
        apply Forall_forall. intros z Hz.
        apply (Permutation_in _ (Permutation_sym (merge_perm l1 (b :: l2)))) in Hz.
        apply in_app_or in Hz. destruct Hz as [Hz|[<-|Hz]]; auto.
        -- apply lessEntry_false. apply lessEntry_spec in L.
           intros K. apply (entry_lt_irrefl a). eapply entry_lt_trans; eauto.
        -- apply lessEntry_false. apply lessEntry_spec in L.
           specialize (F2 z Hz). apply lessEntry_false in F2.
           intros K. apply F2. eapply entry_lt_trans; eauto.
      * constructor; [apply IH2; auto|].
        apply Forall_forall. intros z Hz.
        apply (Permutation_in _ (Permutation_sym (merge_perm (a :: l1) l2))) in Hz.
        apply in_app_or in Hz. destruct Hz as [[<-|Hz]|Hz]; auto.
        apply lessEntry_false. apply lessEntry_false in L.
        specialize (F1 z Hz). apply lessEntry_false in F1.
        apply (not_lt_trans b a z); auto.
Qed.

(** Of the records with one key the merge emits those of the second list
    first. *)
Lemma merge_ties (k : entry) (l1 l2 : list entry) :
  ordered l1 -> ordered l2 ->
  filter (same_key k) (mergeSortedLists l1 l2)
  = filter (same_key k) l2 ++ filter (same_key k) l1.
Proof.
  unfold ordered. revert l2. induction l1 as [|a l1 IH1]; intros l2 H1 H2.
  - rewrite merge_nil_l. simpl. rewrite app_nil_r. reflexivity.
  - induction l2 as [|b l2 IH2].
    + rewrite merge_nil_r. reflexivity.
    + rewrite merge_cons.
      inversion H1 as [|? ? S1 F1]; subst. inversion H2 as [|? ? S2 F2]; subst.
      rewrite Forall_forall in F1, F2.
      destruct (lessEntry a b) eqn:L.
      * cbn [filter]. rewrite (IH1 (b :: l2) S1 H2).
        destruct (same_key k a) eqn:Ka; auto.
        assert (N : filter (same_key k) (b :: l2) = []).
        { apply filter_none. intros z Hz.
          destruct (same_key k z) eqn:Kz; auto. exfalso.
          apply same_key_spec in Ka. apply same_key_spec in Kz.
          apply lessEntry_spec in L.
          assert (Laz : key_lt a z).
          { destruct Hz as [<-|Hz]; auto.
            specialize (F2 z Hz). apply lessEntry_false in F2.
            destruct (key_cases b z) as [Lt|[Eq|Gt]];
              [eapply entry_lt_trans; eauto | eapply key_lt_eq; eauto | contradiction]. }
          apply (key_eq_not_lt k z Kz). apply (key_eq_lt k a z); auto. }
        pose proof N as N'. cbn [filter] in N'. rewrite N, N'. reflexivity.
      * cbn [filter]. rewrite (IH2 S2).
        destruct (same_key k b); reflexivity.
Qed.

(** *** The sort *)

Lemma slow_moves_bound (n : nat) (l : list entry) :
  (List.length l <= n)%nat -> l <> [] ->
  (2 * slow_moves l + 1 <= List.length l)%nat.
Proof.
  revert l. induction n as [|n IH]; intros l Hn Hl.
  - destruct l; [congruence | simpl in Hn; lia].
  - destruct l as [|a [|b [|c r]]]; simpl in *; try lia; [congruence|].
    assert (H : (2 * slow_moves (c :: r) + 1 <= List.length (c :: r))%nat).
    { apply IH; [simpl; lia | discriminate]. }
    simpl in H. lia.
Qed.

Lemma sort_depth_spec (fuel : nat) (l : list entry) :
  (List.length l <= fuel)%nat ->
  Permutation l (sort_depth fuel l)
  /\ ordered (sort_depth fuel l)
  /\ forall k, filter (same_key k) (sort_depth fuel l) = rev (filter (same_key k) l).
Proof.
  revert l. induction fuel as [|fuel IH]; intros l Hl.
  - destruct l; [|simpl in Hl; lia]. simpl.
    split; [constructor|]. split; [constructor|]. reflexivity.
  - destruct l as [|a [|b r]].
    + simpl. split; [constructor|]. split; [constructor|]. reflexivity.
    + simpl. split; [apply Permutation_refl|]. split; [repeat constructor|].
      intros k. destruct (same_key k a); reflexivity.
    + set (l := a :: b :: r) in *.
      assert (B : (2 * slow_moves l + 1 <= List.length l)%nat)
        by (apply (slow_moves_bound (List.length l)); [lia | discriminate]).
      assert (L2 : (2 <= List.length l)%nat) by (simpl; lia).
      set (cut := S (slow_moves l)).
      assert (E : sort_depth (S fuel) l
                  = mergeSortedLists (sort_depth fuel (firstn cut l))
                                     (sort_depth fuel (skipn cut l)))
        by reflexivity.
      destruct (IH (firstn cut l)) as (P1 & O1 & T1).
      { rewrite length_firstn. unfold cut. lia. }
      destruct (IH (skipn cut l)) as (P2 & O2 & T2).
      { rewrite length_skipn. unfold cut. lia. }
      rewrite E. split; [|split].
      * apply perm_trans with (sort_depth fuel (firstn cut l)
                               ++ sort_depth fuel (skipn cut l)).
        -- rewrite <- (firstn_skipn cut l) at 1. apply Permutation_app; auto.
        -- apply merge_perm.
      * apply merge_ordered; auto.
      * intros k. rewrite merge_ties by auto. rewrite T1, T2.
        rewrite <- rev_app_distr, <- filter_app, firstn_skipn. reflexivity.
Qed.


Lemma ordered_ascending (l : list entry) :
  ordered l -> StronglySorted (fun a b => key_lt a b \/ key_eq a b) l.
Proof.
  unfold ordered. induction 1 as [|a r Sr IH Fa]; constructor; auto.
  apply Forall_forall. intros b Hb. rewrite Forall_forall in Fa.
  specialize (Fa b Hb). apply lessEntry_false in Fa.
  destruct (key_cases a b) as [L|[E|G]]; auto. contradiction.
Qed.

(** C8, as the code has it.  [lessEntry] is the order of the composite key
    (address octet by octet, then [totalTime], then [reason]);
    [mergeSortList] returns a permutation of its input in which every
    record's key is below or equal to the keys of the records after it;
    the merge of two ascending lists is an ascending permutation of them,
    and of the records with one and the same key it emits those of the
    second list before those of the first, so that [mergeSortList] leaves
    records with equal keys in the reverse of their input order. *)
Theorem merge_sort_orders_by_key :
  (forall a b, lessEntry a b = true <-> key_lt a b)
  /\ (forall l,
        Permutation l (mergeSortList l)
        /\ StronglySorted (fun a b => key_lt a b \/ key_eq a b) (mergeSortList l))
  /\ (forall l1 l2,
        ordered l1 -> ordered l2 ->
        Permutation (l1 ++ l2) (mergeSortedLists l1 l2)
        /\ ordered (mergeSortedLists l1 l2)
        /\ forall k,
             filter (same_key k) (mergeSortedLists l1 l2)
             = filter (same_key k) l2 ++ filter (same_key k) l1)
  /\ (forall l k,
        filter (same_key k) (mergeSortList l) = rev (filter (same_key k) l)).
Proof.
  split; [exact lessEntry_spec|]. split; [|split].
  - intros l. unfold mergeSortList.
    destruct (sort_depth_spec (List.length l) l (le_n _)) as (P & O & _).
    split; [exact P|]. apply ordered_ascending. exact O.
  - intros l1 l2 O1 O2. split; [apply merge_perm|].
    split; [apply merge_ordered; auto|].
    intros k. apply merge_ties; auto.
  - intros l k. unfold mergeSortList.
    destruct (sort_depth_spec (List.length l) l (le_n _)) as (_ & _ & T).
    apply T.
Qed.

(** Two records of one address, time and reason from different ports. *)
Definition twin_a : entry :=
  mkEntry 7 18 7 53 22 (total_time 7 18 7 53 22) 10 0 0 5 6526 "timeout"
          "Jul 18 07:53:22 10.0.0.5:6526 timeout".

Definition twin_b : entry :=
  mkEntry 7 18 7 53 22 (total_time 7 18 7 53 22) 10 0 0 5 6527 "timeout"
          "Jul 18 07:53:22 10.0.0.5:6527 timeout".

(** The record of the first list does not come first: the merge is not
    stable. *)
Lemma merge_puts_second_list_first :
  same_key twin_a twin_b = true
  /\ mergeSortedLists [twin_a] [twin_b] = [twin_b; twin_a]
  /\ mergeSortList [twin_a; twin_b] = [twin_b; twin_a]
  /\ ~ (exists pre mid post,
          mergeSortedLists [twin_a] [twin_b] = pre ++ twin_a :: mid ++ twin_b :: post).
Proof.
  split; [reflexivity|]. split; [reflexivity|]. split; [reflexivity|].
  intros (pre & mid & post & E).
  change (mergeSortedLists [twin_a] [twin_b]) with [twin_b; twin_a] in E.
  destruct pre as [|p [|q pre]]; cbn [app] in E.
  - injection E as H _. discriminate H.
  - injection E as _ H. destruct mid; discriminate H.
  - injection E as _ _ H. destruct pre; discriminate H.
Qed.

Lemma merge_sort_orders_by_key_witness :
  filter (same_key twin_a) (mergeSortedLists [twin_a] [twin_b]) = [twin_b; twin_a]
  /\ Permutation [twin_a; twin_b] (mergeSortList [twin_a; twin_b]).
Proof.
  destruct merge_sort_orders_by_key as (_ & Sort & Merge & _).
  split.
  - destruct (Merge [twin_a] [twin_b]) as (_ & _ & T).
    + repeat constructor.
    + repeat constructor.
    + exact (T twin_a).
  - exact (proj1 (Sort [twin_a; twin_b])).
Defined.


(** *** The range search *)

Lemma firstn_snoc {A : Type} (l : list A) (n : nat) (d : A) :
  (n < List.length l)%nat -> firstn (S n) l = firstn n l ++ [nth n l d].
Proof.
  revert n. induction l as [|x l IH]; intros [|n] H; simpl in *; try lia; auto.
  f_equal. apply IH. lia.
Qed.

(** Walking back from [e] when [startNode] lies behind it ends at the
    head: the loop never meets [startNode]. *)
Lemma walk_back_past (l : list entry) (e s : nat) :
  (e < s)%nat -> (e < List.length l)%nat ->
  walk_back l e s = rev (firstn (S e) l).
Proof.
  intros Hs. induction e as [|e IH]; intros He.
  - cbn [walk_back]. destruct (Nat.eqb_spec 0 s); [lia|].
    destruct l as [|x l]; [simpl in He; lia|]. reflexivity.
  - cbn [walk_back]. destruct (Nat.eqb_spec (S e) s); [lia|].
    rewrite IH by lia.
    rewrite (firstn_snoc l (S e) dummy He), rev_app_distr. reflexivity.
Qed.

(** Walking back from [e] to a [startNode] at or before it prints the
    records from [s] to [e], last first. *)
Lemma walk_back_to (l : list entry) (e s : nat) :
  (s <= e)%nat -> (e < List.length l)%nat ->
  walk_back l e s = rev (firstn (e - s + 1) (skipn s l)).
Proof.
  intros Hs. induction e as [|e IH]; intros He.
  - assert (s = 0)%nat by lia. subst. cbn [walk_back Nat.eqb skipn].
    destruct l as [|x l]; [simpl in He; lia|]. reflexivity.
  - cbn [walk_back]. destruct (Nat.eqb_spec (S e) s) as [E|N].
    + subst s. replace (S e - S e + 1)%nat with 1%nat by lia.
      rewrite (firstn_snoc (skipn (S e) l) 0 dummy)
        by (rewrite length_skipn; lia).
      cbn [firstn app rev]. rewrite nth_skipn. f_equal. f_equal. lia.
    + rewrite IH by lia.
      replace (S e - s + 1)%nat with (S (e - s + 1)) by lia.
      rewrite (firstn_snoc (skipn s l) (e - s + 1) dummy)
        by (rewrite length_skipn; lia).
      rewrite rev_app_distr. cbn [rev app]. rewrite nth_skipn.
      f_equal. f_equal. lia.
Qed.

Lemma lower_scan_skip (A R : list entry) (pos : nat) (key : Z) :
  (forall a, In a A -> ipVal a < key) ->
  lower_scan (A ++ R) pos key = lower_scan R (pos + List.length A) key.
Proof.
  revert pos. induction A as [|a A IH]; intros pos H; simpl.
  - f_equal. lia.
  - destruct (Z.geb_spec (ipVal a) key) as [G|_].
    + specialize (H a (or_introl eq_refl)). lia.
    + rewrite IH by (intros x Hx; apply H; right; exact Hx). f_equal. lia.
Qed.

Lemma upper_scan_skip (B R : list entry) (pos : nat) (key : Z) :
  (forall b, In b B -> ipVal b <= key) ->
  upper_scan (B ++ R) pos key = upper_scan R (pos + List.length B) key.
Proof.
  revert pos. induction B as [|b B IH]; intros pos H; simpl.
  - f_equal. lia.
  - destruct (Z.gtb_spec (ipVal b) key) as [G|_].
    + specialize (H b (or_introl eq_refl)). lia.
    + rewrite IH by (intros x Hx; apply H; right; exact Hx). f_equal. lia.
Qed.

(** Steps 3.5 and 3.6 on a list that is not empty. *)
Lemma range_records_unfold (l : list entry) (lo hi : Z) :
  l <> [] -> lo <= hi ->
  range_records l lo hi
  = match lower_scan l 0 lo with
    | None => []
    | Some s =>
        match (match upper_scan (skipn s l) s hi with
               | None => Some (List.length l - 1)%nat
               | Some b => prev b
               end) with
        | Some e => walk_back l e s
        | None => []
        end
    end.
Proof.
  intros Hl Hlh. unfold range_records.
  destruct (Z.gtb_spec lo hi) as [G|_]; [lia|].
  destruct l as [|x l]; [congruence|].
  unfold lowerBoundIP, upperBoundIP. cbn [skipn].
  destruct (lower_scan (x :: l) 0 lo) as [s|]; [reflexivity|].
  cbn [skipn]. destruct (upper_scan (x :: l) 0 hi) as [b|]; [|reflexivity].
  destruct (prev b); reflexivity.
Qed.

(** What the range search prints, for a list made of the records below
    the range, the records in it and the records above it, in this order
    (every list sorted by address is): the records in the range, last
    first; but when none is in the range and some record lies above it,
    all the records below the range. *)
Lemma range_records_parts (A B D : list entry) (lo hi : Z) :
  lo <= hi ->
  (forall a, In a A -> ipVal a < lo) ->
  (forall b, In b B -> lo <= ipVal b <= hi) ->
  (forall d, In d D -> hi < ipVal d) ->
  range_records (A ++ B ++ D) lo hi
  = match B, D with
    | [], [] => []
    | [], _ :: _ => rev A
    | _ :: _, _ => rev B
    end
  /\ range_records (A ++ B ++ D) hi lo = range_records (A ++ B ++ D) lo hi.
Proof.
  intros Hlh HA HB HD.
  assert (Swap : range_records (A ++ B ++ D) hi lo = range_records (A ++ B ++ D) lo hi).
  { unfold range_records.
    destruct (Z.gtb_spec hi lo) as [G|G]; destruct (Z.gtb_spec lo hi) as [G'|G'];
      try lia; auto.
    assert (hi = lo) by lia. subst. reflexivity. }
  split; [|exact Swap].
  assert (SkipA : forall R, skipn (List.length A) (A ++ R) = R).
  { intros R. rewrite skipn_app, skipn_all, Nat.sub_diag. reflexivity. }
  assert (TakeA : forall R, firstn (List.length A) (A ++ R) = A).
  { intros R. rewrite firstn_app, firstn_all, Nat.sub_diag. cbn [firstn].
    apply app_nil_r. }
  assert (LowA : forall R, lower_scan (A ++ R) 0 lo = lower_scan R (List.length A) lo).
  { intros R. rewrite lower_scan_skip by exact HA. reflexivity. }
  destruct B as [|b B].
  - cbn [app]. destruct D as [|d D].
    + (* no record at or above the range *)
      rewrite app_nil_r. destruct A as [|a A].
      { unfold range_records. destruct (lo >? hi); reflexivity. }
      rewrite range_records_unfold by (auto; discriminate).
      rewrite <- (app_nil_r (a :: A)), LowA. reflexivity.
    + (* none in the range, some above it *)
      assert (Hd : hi < ipVal d) by (apply HD; left; reflexivity).
      rewrite range_records_unfold by (auto; destruct A; discriminate).
      rewrite LowA. cbn [lower_scan].
      destruct (Z.geb_spec (ipVal d) lo) as [_|N]; [|lia].
      rewrite SkipA. cbn [upper_scan].
      destruct (Z.gtb_spec (ipVal d) hi) as [_|N]; [|lia].
      destruct A as [|a A]; [reflexivity|].
      cbn [List.length prev].
      rewrite walk_back_past
        by (rewrite ?length_app; cbn [List.length]; lia).
      change (S (List.length A)) with (List.length (a :: A)).
      rewrite (firstn_app (List.length (a :: A))), firstn_all, Nat.sub_diag.
      cbn [firstn]. rewrite app_nil_r. reflexivity.
  - (* some record in the range *)
    assert (Hb : lo <= ipVal b <= hi) by (apply HB; left; reflexivity).
    assert (Ne : A ++ (b :: B) ++ D <> []) by (destruct A; discriminate).
    rewrite range_records_unfold by auto.
    rewrite LowA. cbn [app lower_scan].
    destruct (Z.geb_spec (ipVal b) lo) as [_|N]; [|lia].
    change (b :: B ++ D) with ((b :: B) ++ D).
    rewrite SkipA.
    rewrite upper_scan_skip by (intros y Hy; apply HB; exact Hy).
    assert (Out : walk_back (A ++ (b :: B) ++ D)
                            (List.length A + List.length (b :: B) - 1)
                            (List.length A)
                  = rev (b :: B)).
    { rewrite walk_back_to
        by (rewrite ?length_app; cbn [List.length]; lia).
      rewrite SkipA.
      replace (List.length A + List.length (b :: B) - 1 - List.length A + 1)%nat
        with (List.length (b :: B)) by (cbn [List.length]; lia).
      rewrite firstn_app, firstn_all, Nat.sub_diag. cbn [firstn].
      rewrite app_nil_r. reflexivity. }
    destruct D as [|d D].
    + cbn [upper_scan]. rewrite <- Out. f_equal.
      rewrite !length_app. cbn [List.length]. lia.
    + assert (Hd : hi < ipVal d) by (apply HD; left; reflexivity).
      cbn [upper_scan].
      destruct (Z.gtb_spec (ipVal d) hi) as [_|N]; [|lia].
      replace (List.length A + List.length (b :: B))%nat
        with (S (List.length A + List.length B)) by (cbn [List.length]; lia).
      cbn [prev]. rewrite <- Out. f_equal. cbn [List.length]. lia.
Qed.



(** A range that covers every stored address prints the whole list, last
    record first, whichever way round the two addresses are given; this
    is the case of the smallest and the largest stored address. *)
Lemma full_range_reverses (l : list entry) (lo hi : Z) :
  l <> [] ->
  (forall e, In e l -> lo <= ipVal e <= hi) ->
  range_records l lo hi = rev l /\ range_records l hi lo = rev l.
Proof.
  intros Hl Hall.
  assert (Hlh : lo <= hi).
  { destruct l as [|x l]; [congruence|].
    specialize (Hall x (or_introl eq_refl)). lia. }
  destruct (range_records_parts [] l [] lo hi Hlh) as [E S].
  - intros a [].
  - exact Hall.
  - intros d [].
  - cbn [app] in E, S. rewrite app_nil_r in E, S.
    destruct l as [|x l]; [congruence|].
    rewrite S, E. auto.
Qed.

(** A record whose address is a dotted quad. *)
Definition dotted (e : entry) : Prop :=
  IPOrder.octet (ip1 e) /\ IPOrder.octet (ip2 e)
  /\ IPOrder.octet (ip3 e) /\ IPOrder.octet (ip4 e).

(** Ascending by the 32-bit value of the address. *)
Definition by_address (l : list entry) : Prop :=
  StronglySorted (fun a b => ipVal a <= ipVal b) l.

Lemma ordered_by_address (l : list entry) :
  (forall e, In e l -> dotted e) -> ordered l -> by_address l.
Proof.
  unfold ordered, by_address. intros Hd H.
  induction H as [|a r Sr IH Fa]; constructor.
  - apply IH. intros e He. apply Hd. right. exact He.
  - apply Forall_forall. intros b Hb. rewrite Forall_forall in Fa.
    specialize (Fa b Hb). apply lessEntry_false in Fa.
    destruct (Z_le_gt_dec (ipVal a) (ipVal b)) as [Le|Gt]; auto.
    exfalso. apply Fa.
    destruct (Hd a (or_introl eq_refl)) as (A1 & A2 & A3 & A4).
    destruct (Hd b (or_intror Hb)) as (B1 & B2 & B3 & B4).
    assert (L : IPOrder.octetwise_lt (ip1 b) (ip2 b) (ip3 b) (ip4 b)
                                     (ip1 a) (ip2 a) (ip3 a) (ip4 a)).
    { apply IPOrder.octetwise_composite; auto. unfold ipVal in Gt. lia. }
    left. unfold num_lt. unfold IPOrder.octetwise_lt in L. lia.
Qed.

(** The three parts of a list with respect to a range. *)
Definition below (lo : Z) (l : list entry) : list entry :=
  filter (fun e => ipVal e <? lo) l.
Definition inside (lo hi : Z) (l : list entry) : list entry :=
  filter (fun e => (lo <=? ipVal e) && (ipVal e <=? hi))%bool l.
Definition above (hi : Z) (l : list entry) : list entry :=
  filter (fun e => hi <? ipVal e) l.

Lemma by_address_parts (l : list entry) (lo hi : Z) :
  lo <= hi -> by_address l -> l = below lo l ++ inside lo hi l ++ above hi l.
Proof.
  unfold by_address, below, inside, above. intros Hlh H.
  induction H as [|x r Sr IH Fx]; [reflexivity|].
  rewrite Forall_forall in Fx. cbn [filter].
  destruct (Z.ltb_spec (ipVal x) lo) as [B|NB].
  - destruct (Z.leb_spec lo (ipVal x)); [lia|].
    destruct (Z.ltb_spec hi (ipVal x)); [lia|].
    cbn [andb app]. f_equal. exact IH.
  - assert (NoBelow : filter (fun e => ipVal e <? lo) r = []).
    { apply filter_none. intros z Hz. specialize (Fx z Hz).
      apply Z.ltb_ge. lia. }
    rewrite NoBelow in *. cbn [app] in *.
    destruct (Z.leb_spec lo (ipVal x)); [|lia].
    destruct (Z.leb_spec (ipVal x) hi) as [I|NI].
    + destruct (Z.ltb_spec hi (ipVal x)); [lia|].
      cbn [andb app]. f_equal. exact IH.
    + destruct (Z.ltb_spec hi (ipVal x)); [|lia].
      assert (NoInside : filter (fun e => (lo <=? ipVal e) && (ipVal e <=? hi))%bool r = []).
      { apply filter_none. intros z Hz. specialize (Fx z Hz).
        apply andb_false_iff. right. apply Z.leb_gt. lia. }
      rewrite NoInside in *. cbn [andb app] in *. f_equal. exact IH.
Qed.

(** The output of the range search on the sorted log, for dotted-quad
    addresses and any two keys. *)
Lemma range_of_sorted_log (log : list entry) (lo hi : Z) :
  (forall e, In e log -> dotted e) -> lo <= hi ->
  let l := mergeSortList log in
  range_records l lo hi
  = match inside lo hi l, above hi l with
    | [], [] => []
    | [], _ :: _ => rev (below lo l)
    | _ :: _, _ => rev (inside lo hi l)
    end
  /\ range_records l hi lo = range_records l lo hi.
Proof.
  intros Hd Hlh l.
  assert (Srt : by_address l).
  { unfold l, mergeSortList.
    destruct (sort_depth_spec (List.length log) log (le_n _)) as (P & O & _).
    apply ordered_by_address; auto.
    intros e He. apply Hd. apply (Permutation_in _ (Permutation_sym P)). exact He. }
  pose proof (by_address_parts l lo hi Hlh Srt) as E.
  assert (HA : forall a, In a (below lo l) -> ipVal a < lo).
  { intros a Ha. apply filter_In in Ha. destruct Ha as [_ Ha].
    apply Z.ltb_lt in Ha. exact Ha. }
  assert (HB : forall b, In b (inside lo hi l) -> lo <= ipVal b <= hi).
  { intros b Hb. apply filter_In in Hb. destruct Hb as [_ Hb].
    apply andb_true_iff in Hb. destruct Hb as [H1 H2].
    apply Z.leb_le in H1. apply Z.leb_le in H2. lia. }
  assert (HD : forall d, In d (above hi l) -> hi < ipVal d).
  { intros d Hdd. apply filter_In in Hdd. destruct Hdd as [_ Hdd].
    apply Z.ltb_lt in Hdd. exact Hdd. }
  remember (below lo l) as A eqn:EA.
  remember (inside lo hi l) as B eqn:EB.
  remember (above hi l) as D eqn:ED.
  rewrite E. apply range_records_parts; auto.
Qed.

(** Two records, and a range between their addresses. *)
Definition gap_log : list entry :=
  [ mkEntry 7 19 8 0 0 (total_time 7 19 8 0 0) 10 0 0 5 80 "ok"
            "Jul 19 08:00:00 10.0.0.5:80 ok";
    mkEntry 7 18 7 53 22 (total_time 7 18 7 53 22) 10 0 0 1 6526 "timeout"
            "Jul 18 07:53:22 10.0.0.1:6526 timeout" ].

(** C7 at a range that lies between two stored addresses.  The first
    record at or above 10.0.0.2 and the first above 10.0.0.3 are the same
    node, so no record is in the range; the program prints the record of
    10.0.0.1, which lies below it. *)
Theorem range_in_gap_prints_record_below :
  let l := mergeSortList gap_log in
  map originLine l
  = [ "Jul 18 07:53:22 10.0.0.1:6526 timeout"; "Jul 19 08:00:00 10.0.0.5:80 ok" ]%string
  /\ lowerBoundIP l (Some O) (ip_value 10 0 0 2) = Some 1%nat
  /\ upperBoundIP l (Some 1%nat) (ip_value 10 0 0 3) = Some 1%nat
  /\ filter (fun e => (ip_value 10 0 0 2 <=? ipVal e) && (ipVal e <=? ip_value 10 0 0 3))%bool l
     = []
  /\ main (Some gap_log) (Some ((10, 0, 0, 2), (10, 0, 0, 3)))
     = mkRun 0 ("Jul 18 07:53:22 10.0.0.1:6526 timeout" ++ endl) EmptyString
             (Some ("Jul 18 07:53:22 10.0.0.1:6526 timeout" ++ endl
                    ++ "Jul 19 08:00:00 10.0.0.5:80 ok"))%string.
Proof.
  cbv zeta. repeat split; vm_compute; reflexivity.
Qed.

End Act23Facts.

(** ** Searching and cutting strings *)

Module StringFacts.

(** Number of occurrences of a character. *)
Fixpoint occurs (c : ascii) (s : string) : nat :=
  match s with
  | EmptyString => O
  | String b r => ((if Ascii.eqb b c then 1 else 0) + occurs c r)%nat
  end.

(** Every character satisfies [p]. *)
Fixpoint all_chars (p : ascii -> bool) (s : string) : bool :=
  match s with
  | EmptyString => true
  | String b r => (p b && all_chars p r)%bool
  end.

(** A word as formatted extraction reads it: not empty, no white space. *)
Definition word (s : string) : bool :=
  (negb (String.eqb s EmptyString) && all_chars (fun c => negb (isspace c)) s)%bool.

(** A dotted quad in decimal. *)
Definition quad (a b c d : Z) : string :=
  (show_int a ++ "." ++ show_int b ++ "." ++ show_int c ++ "." ++ show_int d)%string.

Lemma length_app (a b : string) :
  String.length (a ++ b) = (String.length a + String.length b)%nat.
Proof. induction a as [|c a IH]; simpl; auto. Qed.

Lemma app_assoc (a b c : string) : ((a ++ b) ++ c = a ++ (b ++ c))%string.
Proof. induction a as [|x a IH]; simpl; auto. rewrite IH. reflexivity. Qed.

Lemma app_nil_r (a : string) : (a ++ "" = a)%string.
Proof. induction a as [|x a IH]; simpl; auto. rewrite IH. reflexivity. Qed.

Lemma occurs_app (c : ascii) (a b : string) :
  occurs c (a ++ b) = (occurs c a + occurs c b)%nat.
Proof. induction a as [|x a IH]; simpl; auto. rewrite IH. lia. Qed.

Lemma find_char_nil (c : ascii) (n : nat) : find_char c n EmptyString = None.
Proof. destruct n; reflexivity. Qed.

Lemma find_char_here (c b : ascii) (r : string) :
  find_char c 0 (String b r)
  = if Ascii.eqb b c then Some O else option_map S (find_char c 0 r).
Proof.
  unfold find_char. cbn [index prefix].
  destruct (ascii_dec c b) as [->|Hne].
  - rewrite Ascii.eqb_refl. destruct r; reflexivity.
  - destruct (Ascii.eqb_spec b c) as [->|_]; [congruence|].
    destruct (index 0 (String c "") r); reflexivity.
Qed.

Lemma find_char_next (c b : ascii) (n : nat) (r : string) :
  find_char c (S n) (String b r) = option_map S (find_char c n r).
Proof.
  unfold find_char. cbn [index]. destruct (index n (String c "") r); reflexivity.
Qed.

(** Searching from inside a string that follows [p]. *)
Lemma find_char_skip (c : ascii) (p s : string) (n : nat) :
  find_char c (String.length p + n) (p ++ s)
  = option_map (Nat.add (String.length p)) (find_char c n s).
Proof.
  induction p as [|b p IH]; simpl.
  - destruct (find_char c n s); reflexivity.
  - rewrite find_char_next, IH. destruct (find_char c n s); reflexivity.
Qed.

Lemma find_char_absent (c : ascii) (s : string) (n : nat) :
  occurs c s = O -> find_char c n s = None.
Proof.
  revert n. induction s as [|b s IH]; intros n H.
  - apply find_char_nil.
  - simpl in H. destruct (Ascii.eqb b c) eqn:E; [discriminate|].
    destruct n as [|n].
    + rewrite find_char_here, E, IH by exact H. reflexivity.
    + rewrite find_char_next, IH by exact H. reflexivity.
Qed.

(** The first occurrence. *)
Lemma find_char_first (c : ascii) (a r : string) :
  occurs c a = O -> find_char c 0 (a ++ String c r) = Some (String.length a).
Proof.
  induction a as [|b a IH]; intros H; simpl.
  - rewrite find_char_here, Ascii.eqb_refl. reflexivity.
  - simpl in H. destruct (Ascii.eqb b c) eqn:E; [discriminate|].
    rewrite find_char_here, E, IH by exact H. reflexivity.
Qed.

(** What a successful search says about the string. *)
Lemma find_char_found (c : ascii) (s : string) (i : nat) :
  find_char c 0 s = Some i ->
  exists a r, s = (a ++ String c r)%string /\ String.length a = i /\ occurs c a = O.
Proof.
  revert i. induction s as [|b s IH]; intros i H.
  - rewrite find_char_nil in H. discriminate.
  - rewrite find_char_here in H. destruct (Ascii.eqb_spec b c) as [->|Hne].
    + inversion H; subst. exists EmptyString, s. auto.
    + destruct (find_char c 0 s) as [j|] eqn:E; [|discriminate].
      inversion H; subst.
      destruct (IH j eq_refl) as (a & r & -> & L & O).
      exists (String b a), r. simpl. rewrite L, O.
      destruct (Ascii.eqb_spec b c); [congruence|]. auto.
Qed.

Lemma find_char_none (c : ascii) (s : string) :
  find_char c 0 s = None -> occurs c s = O.
Proof.
  induction s as [|b s IH]; intros H; auto.
  rewrite find_char_here in H. simpl.
  destruct (Ascii.eqb b c); [discriminate|].
  destruct (find_char c 0 s); [discriminate|]. auto.
Qed.

Lemma substring_head (a r : string) :
  substring 0 (String.length a) (a ++ r) = a.
Proof.
  induction a as [|b a IH]; simpl.
  - destruct r; reflexivity.
  - rewrite IH. reflexivity.
Qed.

Lemma substring_skip (p s : string) (n m : nat) :
  substring (String.length p + n) m (p ++ s) = substring n m s.
Proof. induction p as [|b p IH]; simpl; auto. Qed.

Lemma substring_all (s : string) (m : nat) :
  (String.length s <= m)%nat -> substring 0 m s = s.
Proof.
  revert m. induction s as [|b s IH]; intros m H.
  - destruct m; reflexivity.
  - destruct m as [|m]; simpl in *; [lia|]. rewrite IH by lia. reflexivity.
Qed.

Lemma substring_tail (p s : string) (m : nat) :
  (String.length s <= m)%nat -> substring (String.length p) m (p ++ s) = s.
Proof.
  intros H. rewrite <- (Nat.add_0_r (String.length p)), substring_skip.
  apply substring_all. exact H.
Qed.

(** Formatted extraction of a word that is followed by white space or by
    the end of the line. *)
Lemma skip_ws_word (w r : string) :
  word w = true -> skip_ws (w ++ r) = (w ++ r)%string.
Proof.
  unfold word. destruct w as [|c w]; [discriminate|].
  cbn [String.eqb negb andb all_chars append skip_ws].
  intros H. apply andb_true_iff in H. destruct H as [H _].
  destruct (isspace c); [discriminate|]. reflexivity.
Qed.

Lemma take_word_stop (w r : string) :
  all_chars (fun c => negb (isspace c)) w = true ->
  match r with String c _ => isspace c = true | EmptyString => True end ->
  take_word (w ++ r) = (w, r).
Proof.
  intros Hw Hr. induction w as [|c w IH]; cbn [append take_word].
  - destruct r as [|c r]; auto. cbn [take_word]. rewrite Hr. reflexivity.
  - cbn [all_chars] in Hw. apply andb_true_iff in Hw. destruct Hw as [Hc Hw].
    destruct (isspace c); [discriminate|]. rewrite IH by exact Hw. reflexivity.
Qed.

Lemma extract_word_next (w r : string) :
  word w = true ->
  match r with String c _ => isspace c = true | EmptyString => True end ->
  extract_word (w ++ r) = Some (w, r).
Proof.
  intros Hw Hr. unfold extract_word. rewrite skip_ws_word by exact Hw.
  unfold word in Hw. apply andb_true_iff in Hw. destruct Hw as [Hn Hw].
  rewrite take_word_stop by assumption.
  destruct w; [discriminate|]. reflexivity.
Qed.

Lemma extract_word_after_space (w r : string) :
  word w = true ->
  match r with String c _ => isspace c = true | EmptyString => True end ->
  extract_word (" " ++ w ++ r) = Some (w, r).
Proof.
  intros Hw Hr. unfold extract_word. cbn [append skip_ws].
  change (isspace " ") with true. cbv iota.
  apply (extract_word_next w r Hw Hr).
Qed.

Lemma all_chars_app (p : ascii -> bool) (a b : string) :
  all_chars p (a ++ b) = (all_chars p a && all_chars p b)%bool.
Proof.
  induction a as [|c a IH]; simpl; auto. rewrite IH. apply andb_assoc.
Qed.

(** The four words that start a line, and what follows them. *)
Lemma four_words (w1 w2 w3 w4 tail : string) :
  word w1 = true -> word w2 = true -> word w3 = true -> word w4 = true ->
  match tail with String c _ => isspace c = true | EmptyString => True end ->
  let line := (w1 ++ " " ++ w2 ++ " " ++ w3 ++ " " ++ w4 ++ tail)%string in
  extract_word line = Some (w1, (" " ++ w2 ++ " " ++ w3 ++ " " ++ w4 ++ tail)%string)
  /\ extract_word (" " ++ w2 ++ " " ++ w3 ++ " " ++ w4 ++ tail)
     = Some (w2, (" " ++ w3 ++ " " ++ w4 ++ tail)%string)
  /\ extract_word (" " ++ w3 ++ " " ++ w4 ++ tail)
     = Some (w3, (" " ++ w4 ++ tail)%string)
  /\ extract_word (" " ++ w4 ++ tail) = Some (w4, tail)
  /\ line <> EmptyString.
Proof.
  intros H1 H2 H3 H4 Ht line. unfold line.
  split; [|split; [|split; [|split]]].
  - apply extract_word_next; [exact H1 | reflexivity].
  - apply extract_word_after_space; [exact H2 | reflexivity].
  - apply extract_word_after_space; [exact H3 | reflexivity].
  - apply extract_word_after_space; [exact H4 | exact Ht].
  - destruct w1; [discriminate H1 | discriminate].
Qed.

(** Cutting ["IP:PORT"] at its colon. *)
Lemma cut_at_colon (ip port : string) :
  occurs ":" ip = O ->
  find_char ":" 0 (ip ++ ":" ++ port) = Some (String.length ip)
  /\ substring 0 (String.length ip) (ip ++ ":" ++ port) = ip
  /\ substring (String.length ip + 1) (String.length (ip ++ ":" ++ port))
               (ip ++ ":" ++ port) = port.
Proof.
  intros H. split; [|split].
  - apply find_char_first. exact H.
  - apply substring_head.
  - replace (ip ++ ":" ++ port)%string with ((ip ++ ":") ++ port)%string
      by (rewrite app_assoc; reflexivity).
    replace (String.length ip + 1)%nat with (String.length (ip ++ ":"))
      by (rewrite length_app; reflexivity).
    apply substring_tail. rewrite length_app. lia.
Qed.

End StringFacts.

(** ** The network of an address (both hash-table programs) *)

Module NetworkKey.

Import StringFacts.

(** The text before the second dot, when there are two dots. *)
Lemma two_dots (a b rest : string) :
  occurs "." a = O -> occurs "." b = O ->
  let ip := (a ++ "." ++ b ++ "." ++ rest)%string in
  find_char "." 0 ip = Some (String.length a)
  /\ find_char "." (String.length a + 1) ip
     = Some (String.length a + 1 + String.length b)%nat
  /\ substring 0 (String.length a + 1 + String.length b) ip = (a ++ "." ++ b)%string.
Proof.
  intros Ha Hb ip. unfold ip. split; [|split].
  - apply find_char_first. exact Ha.
  - replace (a ++ "." ++ b ++ "." ++ rest)%string
      with ((a ++ ".") ++ (b ++ String "." rest))%string
      by (rewrite StringFacts.app_assoc; reflexivity).
    replace (String.length a + 1)%nat with (String.length (a ++ ".") + 0)%nat
      by (rewrite length_app; simpl; lia).
    rewrite find_char_skip, find_char_first by exact Hb.
    cbn [option_map]. rewrite length_app. cbn [String.length]. f_equal. lia.
  - replace (a ++ "." ++ b ++ "." ++ rest)%string
      with ((a ++ "." ++ b) ++ (String "." rest))%string
      by (rewrite !StringFacts.app_assoc; reflexivity).
    replace (String.length a + 1 + String.length b)%nat
      with (String.length (a ++ "." ++ b)).
    + apply substring_head.
    + rewrite length_app. cbn [append String.length]. lia.
Qed.

(** A string with a dot, cut at its first dot. *)
Lemma first_dot (s : string) :
  (1 <= occurs "." s)%nat ->
  exists a r, s = (a ++ "." ++ r)%string /\ occurs "." a = O.
Proof.
  intros H. destruct (find_char "." 0 s) as [i|] eqn:E.
  - destruct (find_char_found _ _ _ E) as (a & r & -> & _ & Ha).
    exists a, r. auto.
  - apply find_char_none in E. lia.
Qed.

Lemma occurs_dot_cut (a r : string) :
  occurs "." (a ++ String "." r) = (occurs "." a + 1 + occurs "." r)%nat.
Proof. rewrite occurs_app. simpl. lia. Qed.

(** A string with two dots, cut at its first two dots. *)
Lemma second_dot (s : string) :
  (2 <= occurs "." s)%nat ->
  exists a b rest,
    s = (a ++ "." ++ b ++ "." ++ rest)%string /\ occurs "." a = O /\ occurs "." b = O.
Proof.
  intros H. destruct (first_dot s ltac:(lia)) as (a & r & -> & Ha).
  cbn [append] in H. rewrite occurs_dot_cut in H.
  destruct (first_dot r ltac:(lia)) as (b & rest & -> & Hb).
  exists a, b, rest. auto.
Qed.

(** With fewer than two dots one of the two searches fails. *)
Lemma few_dots (s : string) :
  (occurs "." s < 2)%nat ->
  find_char "." 0 s = None
  \/ exists p1, find_char "." 0 s = Some p1 /\ find_char "." (p1 + 1) s = None.
Proof.
  intros H. destruct (find_char "." 0 s) as [i|] eqn:E; [|left; reflexivity].
  right. exists i. split; [reflexivity|].
  destruct (find_char_found _ _ _ E) as (a & r & -> & L & Ha).
  rewrite occurs_dot_cut in H.
  replace (a ++ String "." r)%string with ((a ++ ".") ++ r)%string
    by (rewrite StringFacts.app_assoc; reflexivity).
  replace (i + 1)%nat with (String.length (a ++ ".") + 0)%nat
    by (rewrite length_app; simpl; lia).
  rewrite find_char_skip, find_char_absent by lia. reflexivity.
Qed.

Lemma extractNetwork_of_two (a b rest : string) :
  occurs "." a = O -> occurs "." b = O ->
  Act52.extractNetwork (a ++ "." ++ b ++ "." ++ rest) = (a ++ "." ++ b)%string.
Proof.
  intros Ha Hb. destruct (two_dots a b rest Ha Hb) as (F1 & F2 & Sub).
  unfold Act52.extractNetwork. rewrite F1, F2. exact Sub.
Qed.

Lemma extractNetwork_of_few (ip : string) :
  (occurs "." ip < 2)%nat -> Act52.extractNetwork ip = EmptyString.
Proof.
  intros H. unfold Act52.extractNetwork.
  destruct (few_dots ip H) as [E|(p1 & E1 & E2)].
  - rewrite E. reflexivity.
  - rewrite E1, E2. reflexivity.
Qed.

Lemma extractNetwork_cut (ip : string) :
  (2 <= occurs "." ip)%nat ->
  Act52.extractNetwork ip <> EmptyString
  /\ occurs "." (Act52.extractNetwork ip) = 1%nat
  /\ exists rest, ip = (Act52.extractNetwork ip ++ "." ++ rest)%string.
Proof.
  intros H. destruct (second_dot ip H) as (a & b & rest & -> & Ha & Hb).
  rewrite extractNetwork_of_two by assumption. split; [|split].
  - destruct a; discriminate.
  - cbn [append]. rewrite occurs_dot_cut. lia.
  - exists rest. rewrite !StringFacts.app_assoc. reflexivity.
Qed.

(** A network that [extractNetwork] returns has exactly one dot. *)
Lemma extractNetwork_one_dot (ip : string) :
  Act52.extractNetwork ip <> EmptyString ->
  occurs "." (Act52.extractNetwork ip) = 1%nat.
Proof.
  intros N. destruct (Nat.lt_ge_cases (occurs "." ip) 2) as [L|G].
  - rewrite (extractNetwork_of_few ip L) in N. contradiction.
  - apply (extractNetwork_cut ip G).
Qed.

(** X1. The network key of [extractNetwork].  It returns the text before the
    second dot of an address; it returns the empty string exactly for the
    addresses with fewer than two dots (and not the address itself); a
    result that is not empty has one dot and is followed in the address
    by a dot. *)
Theorem extractNetwork_two_octets :
  (forall a b rest,
      occurs "." a = O -> occurs "." b = O ->
      Act52.extractNetwork (a ++ "." ++ b ++ "." ++ rest) = (a ++ "." ++ b)%string)
  /\ (forall ip, Act52.extractNetwork ip = EmptyString <-> (occurs "." ip < 2)%nat)
  /\ (forall ip, Act52.extractNetwork ip <> EmptyString ->
        occurs "." (Act52.extractNetwork ip) = 1%nat
        /\ exists rest, ip = (Act52.extractNetwork ip ++ "." ++ rest)%string).
Proof.
  split; [exact extractNetwork_of_two|]. split.
  - intros ip. split; [|apply extractNetwork_of_few].
    intros E. destruct (Nat.lt_ge_cases (occurs "." ip) 2) as [L|G]; auto.
    destruct (extractNetwork_cut ip G) as [N _]. contradiction.
  - intros ip N. destruct (Nat.lt_ge_cases (occurs "." ip) 2) as [L|G].
    + rewrite (extractNetwork_of_few ip L) in N. contradiction.
    + destruct (extractNetwork_cut ip G) as (_ & O1 & R). auto.
Qed.

Lemma extractNetwork_two_octets_witness :
  Act52.extractNetwork "145.25.32.15" = "145.25"%string
  /\ Act52.extractNetwork "localhost" = EmptyString.
Proof.
  destruct extractNetwork_two_octets as (Two & Few & _). split.
  - exact (Two "145"%string "25"%string "32.15"%string eq_refl eq_refl).
  - apply Few. cbn. lia.
Defined.

(** X2. The network key of [prefixFromIP].  It returns the text before the second dot of
    an address and the whole address when it has fewer than two dots; the
    result is always the beginning of the address, applying the function
    twice changes nothing, and it agrees with [extractNetwork] of the
    network-summary program on every address that one does not drop. *)
Theorem prefixFromIP_is_leading_part :
  (forall a b rest,
      occurs "." a = O -> occurs "." b = O ->
      Act43.prefixFromIP (a ++ "." ++ b ++ "." ++ rest) = (a ++ "." ++ b)%string)
  /\ (forall ip, (occurs "." ip < 2)%nat -> Act43.prefixFromIP ip = ip)
  /\ (forall ip, exists rest, ip = (Act43.prefixFromIP ip ++ rest)%string)
  /\ (forall ip, Act43.prefixFromIP (Act43.prefixFromIP ip) = Act43.prefixFromIP ip)
  /\ (forall ip, Act52.extractNetwork ip <> EmptyString ->
                 Act43.prefixFromIP ip = Act52.extractNetwork ip).
Proof.
  assert (Two : forall a b rest,
             occurs "." a = O -> occurs "." b = O ->
             Act43.prefixFromIP (a ++ "." ++ b ++ "." ++ rest) = (a ++ "." ++ b)%string).
  { intros a b rest Ha Hb.
    destruct (two_dots a b rest Ha Hb) as (F1 & F2 & Sub).
    unfold Act43.prefixFromIP. rewrite F1, F2. exact Sub. }
  assert (Few : forall ip, (occurs "." ip < 2)%nat -> Act43.prefixFromIP ip = ip).
  { intros ip H. unfold Act43.prefixFromIP.
    destruct (few_dots ip H) as [E|(p1 & E1 & E2)].
    - rewrite E. reflexivity.
    - rewrite E1, E2. reflexivity. }
  split; [exact Two|]. split; [exact Few|]. split; [|split].
  - intros ip. destruct (Nat.lt_ge_cases (occurs "." ip) 2) as [L|G].
    + exists EmptyString. rewrite (Few ip L), StringFacts.app_nil_r. reflexivity.
    + destruct (second_dot ip G) as (a & b & rest & -> & Ha & Hb).
      rewrite Two by assumption. exists ("." ++ rest)%string.
      rewrite !StringFacts.app_assoc. reflexivity.
  - intros ip. destruct (Nat.lt_ge_cases (occurs "." ip) 2) as [L|G].
    + rewrite (Few ip L). apply Few. exact L.
    + destruct (second_dot ip G) as (a & b & rest & -> & Ha & Hb).
      rewrite Two by assumption. apply Few. cbn [append].
      rewrite occurs_dot_cut. lia.
  - intros ip N. destruct (Nat.lt_ge_cases (occurs "." ip) 2) as [L|G].
    + exfalso. apply N. unfold Act52.extractNetwork.
      destruct (few_dots ip L) as [E|(p1 & E1 & E2)].
      * rewrite E. reflexivity.
      * rewrite E1, E2. reflexivity.
    + destruct (second_dot ip G) as (a & b & rest & -> & Ha & Hb).
      rewrite Two by assumption.
      destruct (two_dots a b rest Ha Hb) as (F1 & F2 & Sub).
      unfold Act52.extractNetwork. rewrite F1, F2. symmetry. exact Sub.
Qed.

Lemma prefixFromIP_is_leading_part_witness :
  Act43.prefixFromIP "119.232.101.246" = "119.232"%string
  /\ Act43.prefixFromIP "localhost" = "localhost"%string.
Proof.
  destruct prefixFromIP_is_leading_part as (Two & Few & _). split.
  - exact (Two "119"%string "232"%string "101.246"%string eq_refl eq_refl).
  - apply Few. cbn. lia.
Defined.

End NetworkKey.

(** ** The hash and the address order of the network summary *)

Module Act52Order.

Import Act52 StringFacts.

(** *** [hashFunction] *)

(** One round of the loop on integers that never wrap. *)
Definition plain_step (C : Z) (hash : Z) (c : ascii) : Z :=
  ((hash * 31 + uchar c) mod C + 37) mod C.

Lemma uchar_range (c : ascii) : 0 <= uchar c < 256.
Proof.
  unfold uchar. pose proof (nat_ascii_bounded c) as H. lia.
Qed.

Lemma wrap64_small (x : Z) : 0 <= x < 2 ^ 64 -> wrap64 x = x.
Proof. intros H. unfold wrap64. apply Z.mod_small. exact H. Qed.

Lemma hash_step_plain (C h : Z) (c : ascii) :
  0 < C <= 2 ^ 58 -> 0 <= h < C ->
  hash_step C h c = plain_step C h c /\ 0 <= hash_step C h c < C.
Proof.
  intros HC Hh. unfold hash_step, plain_step.
  pose proof (uchar_range c) as Hc.
  assert (B : 2 ^ 58 * 31 + 256 < 2 ^ 64) by (vm_compute; reflexivity).
  assert (B2 : 2 ^ 58 + 37 < 2 ^ 64) by (vm_compute; reflexivity).
  rewrite (wrap64_small (h * 31 + uchar c)) by nia.
  pose proof (Z.mod_pos_bound (h * 31 + uchar c) C ltac:(lia)) as M.
  rewrite wrap64_small by lia.
  split; [reflexivity|]. apply Z.mod_pos_bound. lia.
Qed.

Lemma hash_chars_plain (C : Z) (key : string) (h : Z) :
  0 < C <= 2 ^ 58 -> 0 <= h < C ->
  hash_chars C h key = fold_left (plain_step C) (list_ascii_of_string key) h
  /\ 0 <= hash_chars C h key < C.
Proof.
  intros HC. revert h. induction key as [|c key IH]; intros h Hh; simpl.
  - auto.
  - destruct (hash_step_plain C h c HC Hh) as [E R]. rewrite <- E.
    apply IH. exact R.
Qed.

(** X3. [hashFunction] returns an index of the table, whatever the
    key; and for a table of at most 2^58 cells (65521 in the source) the
    [unsigned long] arithmetic never wraps, so that the index is the
    value of the two-prime recurrence on unbounded integers. *)
Theorem hash_is_an_index_and_never_wraps (C : Z) (key : string) :
  0 < C ->
  0 <= hashFunction C key < C
  /\ (C <= 2 ^ 58 ->
      hashFunction C key = fold_left (plain_step C) (list_ascii_of_string key) 0).
Proof.
  intros HC. split.
  - unfold hashFunction. apply Z.mod_pos_bound. exact HC.
  - intros Hle. unfold hashFunction.
    destruct (hash_chars_plain C key 0 ltac:(lia) ltac:(lia)) as [E R].
    rewrite Z.mod_small by exact R. exact E.
Qed.

Lemma hash_is_an_index_and_never_wraps_witness :
  0 <= hashFunction TABLE_SIZE "145.25" < TABLE_SIZE
  /\ hashFunction TABLE_SIZE "145.25"
     = fold_left (plain_step TABLE_SIZE) (list_ascii_of_string "145.25") 0.
Proof.
  destruct (hash_is_an_index_and_never_wraps TABLE_SIZE "145.25" eq_refl) as [R E].
  split; [exact R|]. apply E. unfold TABLE_SIZE. lia.
Defined.

(** *** [compareIPs] *)

(** The order of octet lists that [compareIPs] decides: the first octet
    that differs decides, and a list that ends first comes first. *)
Fixpoint lex_lt (o1 o2 : list Z) : Prop :=
  match o1, o2 with
  | [], [] => False
  | [], _ :: _ => True
  | _ :: _, [] => False
  | x :: r1, y :: r2 => x < y \/ (x = y /\ lex_lt r1 r2)
  end.

Lemma compare_octets_lex (o1 o2 : list Z) :
  match compare_octets o1 o2 with
  | Some b => b = true <-> lex_lt o1 o2
  | None => (Z.of_nat (List.length o1) <? Z.of_nat (List.length o2)) = true
            <-> lex_lt o1 o2
  end.
Proof.
  revert o2. induction o1 as [|x r1 IH]; intros [|y r2];
    cbn [compare_octets lex_lt List.length].
  - split; [discriminate | tauto].
  - split; auto.
  - split; [|tauto]. intros H. apply Z.ltb_lt in H. lia.
  - destruct (Z.eqb_spec x y) as [->|Hne].
    + specialize (IH r2). destruct (compare_octets r1 r2) as [b|].
      * rewrite IH. split; [auto | intros [H|[_ H]]; [lia | exact H]].
      * rewrite <- IH. rewrite !Z.ltb_lt. split.
        -- intros H. right. split; [reflexivity | lia].
        -- intros [H|[_ H]]; lia.
    + rewrite Z.ltb_lt. split; [auto | intros [H|[H _]]; [exact H | contradiction]].
Qed.

Lemma compareIPs_lex (ip1 ip2 : string) :
  compareIPs ip1 ip2 = true <-> lex_lt (parseIPOctets ip1) (parseIPOctets ip2).
Proof.
  unfold compareIPs. cbv zeta.
  pose proof (compare_octets_lex (parseIPOctets ip1) (parseIPOctets ip2)) as H.
  destruct (compare_octets (parseIPOctets ip1) (parseIPOctets ip2)); exact H.
Qed.

Lemma lex_irrefl (o : list Z) : ~ lex_lt o o.
Proof. induction o as [|x r IH]; simpl; [tauto|]. intros [H|[_ H]]; [lia | auto]. Qed.

Lemma lex_trans (a b c : list Z) : lex_lt a b -> lex_lt b c -> lex_lt a c.
Proof.
  revert b c. induction a as [|x ra IH]; intros [|y rb] [|z rc]; simpl; try tauto.
  intros [H1|[E1 H1]] [H2|[E2 H2]]; try (left; lia).
  right. split; [lia|]. eapply IH; eauto.
Qed.

Lemma lex_total (a b : list Z) : lex_lt a b \/ a = b \/ lex_lt b a.
Proof.
  revert b. induction a as [|x ra IH]; intros [|y rb]; simpl; auto.
  destruct (Z.lt_trichotomy x y) as [L|[->|G]]; auto.
  destruct (IH rb) as [L|[->|G]]; auto.
Qed.

Lemma compareIPs_asym (a b : string) :
  compareIPs a b = true -> compareIPs b a = false.
Proof.
  intros H. apply not_true_is_false. rewrite compareIPs_lex in *.
  intros G. apply (lex_irrefl (parseIPOctets a)). eapply lex_trans; eauto.
Qed.

(** X4. [compareIPs] is a strict total order of the octets that
    [parseIPOctets] reads: never true of an address and itself, never
    true both ways, transitive, and two addresses that it does not
    separate have the same (at most four) octets. *)
Theorem compareIPs_is_a_strict_order :
  (forall a, compareIPs a a = false)
  /\ (forall a b, compareIPs a b = true -> compareIPs b a = false)
  /\ (forall a b c, compareIPs a b = true -> compareIPs b c = true ->
                    compareIPs a c = true)
  /\ (forall a b, compareIPs a b = false -> compareIPs b a = false ->
                  parseIPOctets a = parseIPOctets b)
  /\ (forall a, (List.length (parseIPOctets a) <= 4)%nat).
Proof.
  split; [|split; [|split; [|split]]].
  - intros a. apply not_true_is_false. rewrite compareIPs_lex. apply lex_irrefl.
  - intros a b H. apply compareIPs_asym. exact H.
  - intros a b c H G. rewrite compareIPs_lex in *. eapply lex_trans; eauto.
  - intros a b H G.
    destruct (lex_total (parseIPOctets a) (parseIPOctets b)) as [L|[E|L]]; auto;
      apply compareIPs_lex in L; congruence.
  - intros a. unfold parseIPOctets. rewrite length_map. apply firstn_le_length.
Qed.

Lemma compareIPs_is_a_strict_order_witness :
  compareIPs "10.0.0.9" "10.0.0.10" = true /\ compareIPs "10.0.0.10" "10.0.0.9" = false.
Proof.
  destruct compareIPs_is_a_strict_order as (_ & Asym & _).
  assert (H : compareIPs "10.0.0.9" "10.0.0.10" = true) by reflexivity.
  split; [exact H | exact (Asym _ _ H)].
Defined.

(** *** [parseIPOctets] *)










(** *** [sortIPList] *)

(** [a] may stand before [b]: [b] is not below [a]. *)
Definition le (a b : string) : Prop := compareIPs b a = false.

Lemma lt_le (a b : string) : compareIPs a b = true -> le a b.
Proof.
  intros H. unfold le. apply not_true_is_false. rewrite compareIPs_lex in *.
  intros G. apply (lex_irrefl (parseIPOctets a)). eapply lex_trans; eauto.
Qed.

Lemma le_trans (a b c : string) : le a b -> le b c -> le a c.
Proof.
  unfold le. intros H G. apply not_true_is_false. intros K.
  rewrite compareIPs_lex in K.
  destruct (lex_total (parseIPOctets a) (parseIPOctets b)) as [L|[E|L]].
  - assert (X : compareIPs c b = true).
    { apply compareIPs_lex. eapply lex_trans; eauto. }
    congruence.
  - assert (X : compareIPs c b = true).
    { apply compareIPs_lex. rewrite <- E. exact K. }
    congruence.
  - apply compareIPs_lex in L. congruence.
Qed.

Lemma insert_after_perm (current : string) (after : list string) :
  Permutation (current :: after) (insert_after current after).
Proof.
  induction after as [|nxt rest IH]; simpl; auto.
  destruct (compareIPs nxt current); auto.
  apply perm_trans with (nxt :: current :: rest); [apply perm_swap|].
  apply perm_skip. exact IH.
Qed.

Lemma insert_after_sorted (current : string) (after : list string) :
  StronglySorted le after -> StronglySorted le (insert_after current after).
Proof.
  induction after as [|nxt rest IH]; intros H; simpl.
  - repeat constructor.
  - inversion H as [|? ? Hr Hn]; subst.
    destruct (compareIPs nxt current) eqn:E.
    + constructor; auto. apply Forall_forall. intros z Hz.
      apply (Permutation_in _ (Permutation_sym (insert_after_perm current rest))) in Hz.
      destruct Hz as [<-|Hz]; [apply lt_le; exact E|].
      rewrite Forall_forall in Hn. auto.
    + constructor; auto. constructor; [exact E|].
      rewrite Forall_forall in *. intros z Hz.
      apply (le_trans current nxt z); [exact E | auto].
Qed.

Lemma insert_sorted_perm (sorted : list string) (current : string) :
  Permutation (current :: sorted) (insert_sorted sorted current).
Proof.
  destruct sorted as [|first rest]; simpl; auto.
  destruct (compareIPs current first); auto.
  apply perm_trans with (first :: current :: rest); [apply perm_swap|].
  apply perm_skip. apply insert_after_perm.
Qed.

Lemma insert_sorted_sorted (sorted : list string) (current : string) :
  StronglySorted le sorted -> StronglySorted le (insert_sorted sorted current).
Proof.
  intros H. destruct sorted as [|first rest]; simpl.
  - repeat constructor.
  - inversion H as [|? ? Hr Hf]; subst.
    destruct (compareIPs current first) eqn:E.
    + constructor; auto. constructor; [apply lt_le; exact E|].
      rewrite Forall_forall in *. intros z Hz.
      apply (le_trans current first z); [apply lt_le; exact E | auto].
    + constructor; [apply insert_after_sorted; exact Hr|].
      apply Forall_forall. intros z Hz.
      apply (Permutation_in _ (Permutation_sym (insert_after_perm current rest))) in Hz.
      destruct Hz as [<-|Hz]; [exact E|].
      rewrite Forall_forall in Hf. auto.
Qed.

Lemma fold_insert_spec (l acc : list string) :
  StronglySorted le acc ->
  Permutation (acc ++ l) (fold_left insert_sorted l acc)
  /\ StronglySorted le (fold_left insert_sorted l acc).
Proof.
  revert acc. induction l as [|x l IH]; intros acc H; simpl.
  - rewrite List.app_nil_r. auto.
  - destruct (IH (insert_sorted acc x) (insert_sorted_sorted acc x H)) as [P S].
    split; [|exact S].
    apply perm_trans with (insert_sorted acc x ++ l); [|exact P].
    apply perm_trans with ((x :: acc) ++ l).
    + simpl. apply Permutation_sym. apply Permutation_middle.
    + apply Permutation_app_tail. apply insert_sorted_perm.
Qed.

Lemma sortIPList_fold (head : list string) :
  sortIPList head = fold_left insert_sorted head [].
Proof. destruct head as [|a [|b r]]; reflexivity. Qed.

Lemma sortIPList_perm (head : list string) : Permutation head (sortIPList head).
Proof.
  rewrite sortIPList_fold.
  apply (fold_insert_spec head [] (SSorted_nil le)).
Qed.

Lemma sortIPList_sorted (head : list string) : StronglySorted le (sortIPList head).
Proof.
  rewrite sortIPList_fold.
  apply (fold_insert_spec head [] (SSorted_nil le)).
Qed.

(** X6. [sortIPList] returns the addresses it was given, each as
    often as before, so arranged that no address is followed, anywhere
    later in the list, by one that [compareIPs] puts before it. *)
Theorem sortIPList_sorts (head : list string) :
  Permutation head (sortIPList head)
  /\ StronglySorted (fun a b => compareIPs b a = false) (sortIPList head).
Proof.
  split.
  - apply sortIPList_perm.
  - exact (sortIPList_sorted head).
Qed.

(** No two addresses of the list tie under [compareIPs]. *)
Fixpoint apart (l : list string) : bool :=
  match l with
  | [] => true
  | a :: r => (forallb (fun b => compareIPs a b || compareIPs b a) r && apart r)%bool
  end.

Lemma insert_after_last (current : string) (after : list string) :
  Forall (fun z => compareIPs z current = true) after ->
  insert_after current after = after ++ [current].
Proof.
  induction 1 as [|z r Hz Hr IH]; simpl; auto.
  rewrite Hz, IH. reflexivity.
Qed.

Lemma insert_sorted_last (sorted : list string) (current : string) :
  Forall (fun z => compareIPs z current = true) sorted ->
  insert_sorted sorted current = sorted ++ [current].
Proof.
  intros H. destruct sorted as [|first rest]; simpl; auto.
  inversion H as [|? ? Hf Hr]; subst.
  rewrite (compareIPs_asym _ _ Hf), insert_after_last by exact Hr. reflexivity.
Qed.

Lemma fold_insert_ascending (l acc : list string) :
  StronglySorted (fun a b => compareIPs a b = true) (acc ++ l) ->
  fold_left insert_sorted l acc = acc ++ l.
Proof.
  revert acc. induction l as [|x l IH]; intros acc H; simpl.
  - rewrite List.app_nil_r. reflexivity.
  - assert (Hx : Forall (fun z => compareIPs z x = true) acc).
    { clear IH. induction acc as [|z acc IHa]; constructor.
      - simpl in H. inversion H as [|? ? _ Hz]; subst.
        rewrite Forall_forall in Hz. apply Hz. apply in_or_app. right. left. reflexivity.
      - apply IHa. simpl in H. inversion H; auto. }
    rewrite insert_sorted_last by exact Hx.
    rewrite IH; rewrite <- List.app_assoc; [reflexivity | exact H].
Qed.

Lemma ascending_fixed (l : list string) :
  StronglySorted (fun a b => compareIPs a b = true) l -> sortIPList l = l.
Proof.
  intros H. destruct l as [|a [|b r]]; auto.
  unfold sortIPList. apply (fold_insert_ascending (a :: b :: r) []). exact H.
Qed.

Lemma tie_same_octets (a b : string) :
  (compareIPs a b || compareIPs b a)%bool = true
  <-> parseIPOctets a <> parseIPOctets b.
Proof.
  rewrite orb_true_iff, !compareIPs_lex. split.
  - intros [H|H] E; rewrite E in H; exact (lex_irrefl _ H).
  - intros N. destruct (lex_total (parseIPOctets a) (parseIPOctets b)) as [L|[E|L]];
      auto. contradiction.
Qed.

Lemma apart_NoDup (l : list string) :
  apart l = true <-> NoDup (map parseIPOctets l).
Proof.
  induction l as [|a r IH]; simpl.
  - split; [constructor | reflexivity].
  - rewrite andb_true_iff, forallb_forall, IH. split.
    + intros [H1 H2]. constructor; auto. intros Hin.
      apply in_map_iff in Hin. destruct Hin as (b & E & Hb).
      apply (proj1 (tie_same_octets a b) (H1 b Hb)). auto.
    + intros H. inversion H as [|? ? Ha Hr]; subst. split; auto.
      intros b Hb. apply tie_same_octets. intros E. apply Ha.
      rewrite E. apply in_map. exact Hb.
Qed.

Lemma apart_perm (l l' : list string) :
  Permutation l l' -> apart l = true -> apart l' = true.
Proof.
  intros P H. apply apart_NoDup. apply apart_NoDup in H.
  apply (Permutation_NoDup (Permutation_map parseIPOctets P)). exact H.
Qed.

Lemma apart_sorted_ascending (l : list string) :
  apart l = true -> StronglySorted le l ->
  StronglySorted (fun a b => compareIPs a b = true) l.
Proof.
  induction l as [|a r IH]; intros A S; [constructor|].
  simpl in A. apply andb_true_iff in A. destruct A as [A1 A2].
  inversion S as [|? ? Sr Fa]; subst. constructor; auto.
  rewrite Forall_forall in *. rewrite forallb_forall in A1.
  intros b Hb. specialize (A1 b Hb). specialize (Fa b Hb). unfold le in Fa.
  apply orb_true_iff in A1. destruct A1 as [H|H]; [exact H | congruence].
Qed.

Lemma sortIPList_ascending (head : list string) :
  apart head = true ->
  StronglySorted (fun a b => compareIPs a b = true) (sortIPList head).
Proof.
  intros A. apply apart_sorted_ascending; [|apply sortIPList_sorted].
  apply (apart_perm head); [apply sortIPList_perm | exact A].
Qed.

Lemma sortIPList_fixed (head : list string) :
  apart head = true -> sortIPList (sortIPList head) = sortIPList head.
Proof. intros A. apply ascending_fixed. apply sortIPList_ascending. exact A. Qed.

(** X7. When no two addresses of the list tie under [compareIPs]
    (dotted quads that differ never do), the sorted list is strictly
    ascending, and sorting it again leaves it as it is: the list that a
    repeated query sorts once more does not change. *)
Theorem sortIPList_again_changes_nothing (head : list string) :
  apart head = true ->
  StronglySorted (fun a b => compareIPs a b = true) (sortIPList head)
  /\ sortIPList (sortIPList head) = sortIPList head.
Proof.
  intros A. split.
  - apply sortIPList_ascending. exact A.
  - apply sortIPList_fixed. exact A.
Qed.

Lemma sortIPList_again_changes_nothing_witness :
  sortIPList (sortIPList ["10.0.0.10"; "10.0.0.9"; "10.0.0.200"]%string)
  = sortIPList ["10.0.0.10"; "10.0.0.9"; "10.0.0.200"]%string.
Proof.
  apply (sortIPList_again_changes_nothing
           ["10.0.0.10"; "10.0.0.9"; "10.0.0.200"]%string).
  reflexivity.
Defined.

End Act52Order.

(** ** The queries of the network summary *)

Module Act52Queries.

Import Act52 Probe Act52Facts StringFacts Act52Order.

Section Table.

Variable C : Z.
Hypothesis Cpos : 0 < C.

(** The state in which [main] starts to answer queries. *)
Lemma after_reading (lines : list string) (st : state) :
  ingest_lines C (init C) lines = (true, st) ->
  probing_ok C st /\ holds C st (records_of lines).
Proof.
  intros H. rewrite ingest_lines_records in H.
  apply (ingest_invariant C Cpos (records_of lines) [] (init C) st
                          (probing_ok_init C) (holds_init C) H).
Qed.

(** Every network of the records of a file has exactly one dot. *)
Lemma keys_one_dot (lines : list string) (k : string) :
  In k (keys (records_of lines)) -> occurs "." k = 1%nat.
Proof.
  induction lines as [|line rest IH]; simpl; [intros []|].
  destruct (record_of_line line) as [[k0 ip0]|] eqn:E; auto.
  simpl. intros [<-|H]; auto.
  unfold record_of_line in E. destruct line as [|c line]; [discriminate|].
  destruct (read_fields (String c line)) as [ipPort|]; [|discriminate].
  destruct (extractNetwork (ip_of ipPort)) as [|c0 s0] eqn:N; [discriminate|].
  inversion E; subst. rewrite <- N. apply NetworkKey.extractNetwork_one_dot.
  rewrite N. discriminate.
Qed.

(** X8. What is written for a network of the file.  After a file that was
    read whole, the answer to a query for a network of the file is the
    network, the number of its records, the number of its different
    addresses and then these addresses, each once, in the order of
    [sortIPList]. *)
Theorem found_network_answer (lines : list string) (st : state) (k : string) :
  ingest_lines C (init C) lines = (true, st) ->
  In k (keys (records_of lines)) ->
  let recs := records_of lines in
  let ips := sortIPList (children recs k) in
  fst (answer_query C st k)
  = (k ++ endl ++ show_int (accesses recs k) ++ endl
       ++ show_int (distinct_ips recs k) ++ endl
       ++ String.concat EmptyString (map (fun ip => ip ++ endl) ips))%string
  /\ Permutation ips (nodup string_dec (map snd (of_key k recs)))
  /\ StronglySorted (fun a b => compareIPs b a = false) ips.
Proof.
  intros H Hk recs ips.
  destruct (after_reading lines st H) as [OK Hh].
  destruct (holds_key C st recs Hh k Hk) as (i & Hi & Ho & Hn).
  pose proof (walk_stored C Cpos st k i OK Hi Ho Hn) as W.
  assert (S : searchNetwork C st k = i).
  { rewrite (searchNetwork_walk C Cpos), W. reflexivity. }
  destruct (holds_slot C st recs Hh i Hi Ho) as [_ Agg]. rewrite Hn in Agg.
  pose proof (sortIPList_perm (children recs k)) as P.
  pose proof (sortIPList_sorted (children recs k)) as Srt.
  split; [|split].
  - unfold answer_query. rewrite S.
    destruct (Z.eqb_spec i (-1)) as [E|_]; [lia|].
    cbn [fst]. rewrite Agg. unfold show_found, aggregate.
    cbn [network accessCount connectionCount uniqueIPs].
    rewrite children_count. reflexivity.
  - apply perm_trans with (children recs k); [apply Permutation_sym; exact P|].
    destruct (children_distinct recs k) as [ND EQ].
    apply NoDup_Permutation; auto.
    + apply NoDup_nodup.
    + intros ip. rewrite nodup_In. apply EQ.
  - exact Srt.
Qed.

(** Cells that agree on [0, C) give the same walk. *)
Lemma probe_ext (f1 h1 f2 h2 : Z -> bool) (n : nat) (i : Z) :
  (forall j, 0 <= j < C -> f1 j = f2 j /\ h1 j = h2 j) ->
  0 <= i < C ->
  probe C f1 h1 n i = probe C f2 h2 n i.
Proof.
  intros Same. revert i. induction n as [|n IH]; intros i Hi; simpl; auto.
  destruct (Same i Hi) as [-> ->].
  destruct (f2 i); auto. destruct (h2 i); auto.
  apply IH. apply Z.mod_pos_bound. lia.
Qed.

(** Rewriting a cell without touching its key or its mark leaves every
    search as it was. *)
Lemma search_after_rewrite (st : state) (i : Z) (s : NetworkInfo) (k : string) :
  List.length (hashTable st) = Z.to_nat C -> 0 <= i < C ->
  network s = network (slot st i) -> occupied s = occupied (slot st i) ->
  searchNetwork C (set_slot st i s) k = searchNetwork C st k.
Proof.
  intros L Hi Hn Ho. rewrite !(searchNetwork_walk C Cpos). unfold walk.
  rewrite (probe_ext (free_of (set_slot st i s)) (hit_of (set_slot st i s) k)
                     (free_of st) (hit_of st k)); auto.
  - intros j Hj. unfold free_of, hit_of.
    destruct (Z.eq_dec j i) as [->|Hne].
    + rewrite (slot_set_eq C Cpos) by auto. rewrite Hn, Ho. auto.
    + rewrite slot_set_neq by lia. auto.
  - apply hash_range. exact Cpos.
Qed.

(** X9. Answers do not depend on earlier queries.  After a file that was
    read whole and in which no two addresses of one network tie under
    [compareIPs], the text written for a query is the same whether or not
    another query (which sorts the address list of its network in place)
    was answered before it. *)
Theorem earlier_query_changes_no_answer
        (lines : list string) (st : state) (q k : string) :
  ingest_lines C (init C) lines = (true, st) ->
  forallb (fun s => apart (uniqueIPs s)) (hashTable st) = true ->
  fst (answer_query C (snd (answer_query C st q)) k) = fst (answer_query C st k).
Proof.
  intros H A.
  destruct (after_reading lines st H) as [OK _].
  pose proof (ok_length C st OK) as L.
  unfold answer_query at 2.
  destruct (Z.eqb_spec (searchNetwork C st q) (-1)) as [E|N]; [reflexivity|].
  cbn [snd]. set (i := searchNetwork C st q) in *.
  assert (Hi : 0 <= i < C).
  { unfold i in *. rewrite (searchNetwork_walk C Cpos) in *.
    destruct (walk C st q) as [j|j|] eqn:W; try lia.
    apply (walk_index_range C Cpos st q). auto. }
  set (s' := mkNetworkInfo (network (slot st i)) (accessCount (slot st i))
                           (sortIPList (uniqueIPs (slot st i)))
                           (connectionCount (slot st i)) (occupied (slot st i))).
  unfold answer_query.
  rewrite (search_after_rewrite st i s' k L Hi eq_refl eq_refl).
  destruct (Z.eqb_spec (searchNetwork C st k) (-1)) as [E|Nk]; [reflexivity|].
  cbn [fst]. set (j := searchNetwork C st k) in *.
  destruct (Z.eq_dec j i) as [->|Hne].
  - rewrite (slot_set_eq C Cpos) by auto. unfold s'.
    cbn [network accessCount connectionCount uniqueIPs occupied].
    assert (Ap : apart (uniqueIPs (slot st i)) = true).
    { rewrite forallb_forall in A. apply A. unfold slot. apply nth_In. lia. }
    rewrite (sortIPList_fixed (uniqueIPs (slot st i)) Ap).
    reflexivity.
  - assert (Hj : 0 <= j).
    { unfold j in *. rewrite (searchNetwork_walk C Cpos) in *.
      destruct (walk C st k) as [x|x|] eqn:W; try lia.
      apply (walk_index_range C Cpos st k). auto. }
    rewrite slot_set_neq by lia. reflexivity.
Qed.

(** X10. Queries that can have no answer.  The networks that are stored have
    exactly one dot, so a query with another number of dots, among them
    the empty name that a query read past the end of the input leaves,
    is answered with its name and the not-found line, and the table stays
    as it is. *)
Theorem names_without_one_dot_are_not_found
        (lines : list string) (st : state) (q : string) :
  ingest_lines C (init C) lines = (true, st) ->
  occurs "." q <> 1%nat ->
  answer_query C st q = ((q ++ endl ++ not_found_message ++ endl)%string, st).
Proof.
  intros H Hq. destruct (after_reading lines st H) as [OK Hh].
  assert (S : searchNetwork C st q = -1).
  { apply (search_absent C Cpos). intros i Hi Ho E.
    destruct (holds_slot C st _ Hh i Hi Ho) as [Hin _].
    apply keys_one_dot in Hin. rewrite E in Hin. contradiction. }
  unfold answer_query. rewrite S. reflexivity.
Qed.

(** What a search finds in a table that holds the records [recs]. *)
Lemma found_of_log (st : state) (recs : list record) (k : string) :
  probing_ok C st -> holds C st recs ->
  found C st k
  = if in_dec string_dec k (keys recs) then Some (aggregate recs k) else None.
Proof.
  intros OK Hh. unfold found.
  destruct (in_dec string_dec k (keys recs)) as [Hin|Hn].
  - destruct (holds_key C st recs Hh k Hin) as (i & Hi & Ho & Hn).
    pose proof (walk_stored C Cpos st k i OK Hi Ho Hn) as W.
    rewrite (searchNetwork_walk C Cpos), W.
    destruct (Z.eqb_spec i (-1)) as [E|_]; [lia|].
    destruct (holds_slot C st recs Hh i Hi Ho) as [_ Agg].
    rewrite Agg, Hn. reflexivity.
  - rewrite (search_absent C Cpos).
    + reflexivity.
    + intros i Hi Ho E. apply Hn. rewrite <- E.
      apply (holds_slot C st recs Hh i Hi Ho).
Qed.

(** X11. A record touches one network only.  After a file that was read
    whole, a record that [insertOrUpdate] accepts leaves what a search
    finds for every other network as it was (found or not, with the same
    counters and addresses); and a record that it refuses leaves the
    whole table as it was. *)
Theorem insert_leaves_other_networks
        (lines : list string) (st st' : state) (k ip : string) (ok : bool) :
  ingest_lines C (init C) lines = (true, st) ->
  insertOrUpdate C st k ip = (ok, st') ->
  (ok = true -> forall k', k' <> k -> found C st' k' = found C st k')
  /\ (ok = false -> st' = st).
Proof.
  intros H Ins. destruct (after_reading lines st H) as [OK Hh]. split.
  - intros -> k' Hne.
    pose proof (probing_ok_insert C Cpos st st' k ip OK Ins) as OK'.
    pose proof (holds_insert C Cpos st st' _ k ip OK Hh Ins) as Hh'.
    rewrite (found_of_log st' _ k' OK' Hh'), (found_of_log st _ k' OK Hh).
    rewrite aggregate_snoc_other by congruence.
    unfold keys. rewrite map_app. cbn [map fst].
    repeat match goal with
           | |- context [in_dec ?d ?x ?l] => destruct (in_dec d x l)
           end; try reflexivity; exfalso.
    + match goal with
      | I : In _ (_ ++ _) |- _ =>
          apply in_app_or in I; destruct I as [I|[E|[]]]; [auto | congruence]
      end.
    + match goal with
      | N : ~ In _ (_ ++ _) |- _ => apply N; apply in_or_app; left; assumption
      end.
  - intros ->. rewrite (insertOrUpdate_walk C Cpos) in Ins.
    destruct (itemCount st >=? C); [inversion Ins; reflexivity|].
    destruct (walk C st k); inversion Ins; reflexivity.
Qed.

End Table.

(** *** The query loop *)

(** The names that [count] rounds of the loop read from the words of the
    input: a round that finds the input at its end has the empty name. *)
Fixpoint names (count : nat) (input : list string) : list string :=
  match count with
  | O => []
  | S count' => hd EmptyString input :: names count' (tl input)
  end.

(** The answers to consecutive queries, each from the table that the
    queries before it left. *)
Fixpoint answers (C : Z) (st : state) (qs : list string) : list string :=
  match qs with
  | [] => []
  | q :: rest =>
      let '(text, st') := answer_query C st q in text :: answers C st' rest
  end.

Lemma query_loop_concat (C : Z) (count : nat) (i n : Z) (st : state)
      (input : list string) :
  i + Z.of_nat count = n ->
  query_loop C count i n st input
  = String.concat endl (answers C st (names count input)).
Proof.
  revert i st input. induction count as [|count IH]; intros i st input E.
  - reflexivity.
  - cbn [query_loop names answers].
    destruct (answer_query C st (hd EmptyString input)) as [text st'].
    rewrite (IH (i + 1) st' (tl input)) by lia.
    destruct count as [|count].
    + destruct (Z.ltb_spec i (n - 1)); [lia|].
      cbn [names answers String.concat]. rewrite StringFacts.app_nil_r.
      reflexivity.
    + destruct (Z.ltb_spec i (n - 1)); [|lia].
      cbn [names answers].
      destruct (answer_query C st' (hd EmptyString (tl input))) as [t2 st2].
      reflexivity.
Qed.

(** X12. The blank line between answers.  What [main] writes for [n] queries
    is the answers joined by one line terminator, that is, with a blank
    line between two answers and none after the last; for [n] of zero or
    less it writes nothing; and it returns 0. *)
Theorem query_loop_separates_answers
        (C : Z) (lines : list string) (st : state) (n : Z) (input : list string) :
  ingest_lines C (init C) lines = (true, st) ->
  main C (Some lines) n input
  = mkRun 0 (String.concat endl (answers C st (names (Z.to_nat n) input)))
          EmptyString
  /\ (n <= 0 -> main C (Some lines) n input = mkRun 0 EmptyString EmptyString).
Proof.
  intros H. unfold main. rewrite H.
  destruct (Z_le_gt_dec n 0) as [Le|Gt].
  - replace (Z.to_nat n) with O by lia. split; reflexivity.
  - rewrite (query_loop_concat C (Z.to_nat n) 0 n) by lia.
    split; [reflexivity | lia].
Qed.

Lemma insert_leaves_other_networks_witness :
  exists st st',
    ingest_lines 7 (init 7) sample_lines = (true, st)
    /\ insertOrUpdate 7 st "12.1" "12.1.0.1" = (true, st')
    /\ found 7 st' "10.0" = found 7 st "10.0".
Proof.
  destruct (ingest_lines 7 (init 7) sample_lines) as [[|] st] eqn:H;
    [|vm_compute in H; discriminate].
  destruct (insertOrUpdate 7 st "12.1" "12.1.0.1") as [[|] st'] eqn:I.
  - exists st, st'. split; [reflexivity|]. split; [exact I|].
    destruct (insert_leaves_other_networks 7 eq_refl sample_lines st st'
                "12.1"%string "12.1.0.1"%string true H I) as [Keep _].
    apply Keep; [reflexivity | discriminate].
  - exfalso. vm_compute in H. inversion H; subst. vm_compute in I. discriminate.
Defined.

Lemma found_network_answer_witness :
  exists st,
    ingest_lines 7 (init 7) sample_lines = (true, st)
    /\ fst (answer_query 7 st "10.0")
       = ("10.0" ++ endl ++ "3" ++ endl ++ "2" ++ endl
          ++ "10.0.0.5" ++ endl ++ "10.0.0.9" ++ endl)%string.
Proof.
  destruct (ingest_lines 7 (init 7) sample_lines) as [[|] st] eqn:H;
    [|vm_compute in H; discriminate].
  exists st. split; [reflexivity|].
  destruct (found_network_answer 7 eq_refl sample_lines st "10.0"%string H)
    as (T & _ & _).
  - vm_compute. tauto.
  - rewrite T. reflexivity.
Defined.

Lemma earlier_query_changes_no_answer_witness :
  exists st,
    ingest_lines 7 (init 7) sample_lines = (true, st)
    /\ fst (answer_query 7 (snd (answer_query 7 st "10.0")) "10.0")
       = fst (answer_query 7 st "10.0").
Proof.
  destruct (ingest_lines 7 (init 7) sample_lines) as [[|] st] eqn:H;
    [|vm_compute in H; discriminate].
  exists st. split; [reflexivity|].
  apply (earlier_query_changes_no_answer 7 eq_refl sample_lines st _ _ H).
  vm_compute in H. inversion H; subst. vm_compute. reflexivity.
Defined.

Lemma names_without_one_dot_are_not_found_witness :
  exists st,
    ingest_lines 7 (init 7) sample_lines = (true, st)
    /\ answer_query 7 st EmptyString
       = ((endl ++ "Red no encontrada" ++ endl)%string, st)
    /\ answer_query 7 st "10.0.0.5"
       = (("10.0.0.5" ++ endl ++ "Red no encontrada" ++ endl)%string, st).
Proof.
  destruct (ingest_lines 7 (init 7) sample_lines) as [[|] st] eqn:H;
    [|vm_compute in H; discriminate].
  exists st. split; [reflexivity|]. split.
  - refine (names_without_one_dot_are_not_found
              7 eq_refl sample_lines st EmptyString H _).
    cbn. lia.
  - refine (names_without_one_dot_are_not_found
              7 eq_refl sample_lines st "10.0.0.5"%string H _).
    cbn. lia.
Defined.

Lemma query_loop_separates_answers_witness :
  main 7 (Some sample_lines) 3 ["99.9"; "11.7"]%string
  = mkRun 0 ("99.9" ++ endl ++ "Red no encontrada" ++ endl
             ++ endl
             ++ "11.7" ++ endl ++ "1" ++ endl ++ "1" ++ endl ++ "11.7.0.1" ++ endl
             ++ endl
             ++ endl ++ "Red no encontrada" ++ endl)%string
          EmptyString.
Proof.
  destruct (query_loop_separates_answers
              7 sample_lines (snd (ingest_lines 7 (init 7) sample_lines)) 3
              ["99.9"; "11.7"]%string eq_refl) as [Run _].
  rewrite Run. reflexivity.
Defined.

End Act52Queries.

(** ** Lines as the two hash-table programs read them *)

Module Reading.

Import StringFacts.

(** X13. A line of the log format is one record of its network.  For a line
    made of three words, an address with a colon and a port, and then
    nothing or white space and a message, the reading loop of the
    network summary passes to [insertOrUpdate] the text before the second
    dot of the address as the network, and the address without the port. *)
Theorem line_is_a_record_of_its_network
        (C : Z) (st : Act52.state) (m d t a b r port tail : string) :
  let ip := (a ++ "." ++ b ++ "." ++ r)%string in
  word m = true -> word d = true -> word t = true ->
  word (ip ++ ":" ++ port) = true ->
  occurs "." a = O -> occurs "." b = O -> occurs ":" ip = O ->
  match tail with String c _ => isspace c = true | EmptyString => True end ->
  Act52.ingest_line C st (m ++ " " ++ d ++ " " ++ t ++ " " ++ (ip ++ ":" ++ port) ++ tail)
  = Act52.insertOrUpdate C st (a ++ "." ++ b) ip.
Proof.
  intros ip Hm Hd Ht Hw Ha Hb Hc Htail.
  pose proof (four_words m d t (ip ++ ":" ++ port) tail Hm Hd Ht Hw Htail) as W.
  cbv zeta in W. destruct W as (E1 & E2 & E3 & E4 & Ne).
  assert (Body : forall line,
             line <> EmptyString ->
             Act52.ingest_line C st line
             = match Act52.read_fields line with
               | None => (true, st)
               | Some ipPort =>
                   match Act52.extractNetwork (Act52.ip_of ipPort) with
                   | EmptyString => (true, st)
                   | _ => Act52.insertOrUpdate C st
                            (Act52.extractNetwork (Act52.ip_of ipPort))
                            (Act52.ip_of ipPort)
                   end
               end).
  { intros line N. destruct line; [contradiction | reflexivity]. }
  rewrite (Body _ Ne).
  unfold Act52.read_fields. rewrite E1, E2, E3, E4.
  destruct (cut_at_colon ip port Hc) as (F & S & _).
  unfold Act52.ip_of. rewrite F, S.
  assert (EN : Act52.extractNetwork ip = (a ++ "." ++ b)%string)
    by (apply NetworkKey.extractNetwork_of_two; assumption).
  rewrite EN.
  remember (a ++ "." ++ b)%string as net eqn:En.
  destruct net; [destruct a; discriminate En | reflexivity].
Qed.


Lemma line_is_a_record_of_its_network_witness :
  Act52.ingest_line 7 (Act52.init 7) "Jul 18 07:53:22 10.0.0.5:6526 timeout"
  = Act52.insertOrUpdate 7 (Act52.init 7) "10.0" "10.0.0.5".
Proof.
  apply (line_is_a_record_of_its_network 7 (Act52.init 7)
           "Jul" "18" "07:53:22" "10" "0" "0.5" "6526" " timeout");
    reflexivity.
Defined.

(** The body of the reading loop of the hierarchy program up to the
    table calls, for a line that is not empty. *)
Lemma parse_line_fields (line : string) :
  line <> EmptyString ->
  Act43.parse_line line
  = match Act43.read_fields line with
    | None => None
    | Some (month, day, timeStr, ipPort, rest) =>
        let message :=
          match rest with
          | String c r => if Ascii.eqb c " "%char then r else rest
          | EmptyString => rest
          end in
        let '(ip, port) := Act43.split_port ipPort in
        Some (ip, Act43.mkEntry (month ++ " " ++ day) timeStr port message)
    end.
Proof. intros N. destruct line; [contradiction | reflexivity]. Qed.

(** X14. A line of the log format is one entry of its host.  For a line made
    of three words, an address with a colon and a port, and a message
    after one blank, the reading loop of the hierarchy program files
    under the address (the text before the colon) an entry with the first
    two words joined by a blank as date, the third word as time, the text
    after the colon as port and the message without the blank before it;
    a line that ends after the port has the empty message, and a fourth
    word without a colon is the address, with the empty port. *)
Theorem line_is_an_entry_of_its_host (m d t ip port msg : string) :
  word m = true -> word d = true -> word t = true ->
  word (ip ++ ":" ++ port) = true -> occurs ":" ip = O ->
  Act43.parse_line (m ++ " " ++ d ++ " " ++ t ++ " " ++ (ip ++ ":" ++ port) ++ " " ++ msg)
  = Some (ip, Act43.mkEntry (m ++ " " ++ d) t port msg)
  /\ Act43.parse_line (m ++ " " ++ d ++ " " ++ t ++ " " ++ ip ++ ":" ++ port)
     = Some (ip, Act43.mkEntry (m ++ " " ++ d) t port EmptyString)
  /\ (word ip = true ->
      Act43.parse_line (m ++ " " ++ d ++ " " ++ t ++ " " ++ ip ++ " " ++ msg)
      = Some (ip, Act43.mkEntry (m ++ " " ++ d) t EmptyString msg)).
Proof.
  intros Hm Hd Ht Hw Hc.
  destruct (cut_at_colon ip port Hc) as (F & S & P).
  assert (Split : Act43.split_port (ip ++ ":" ++ port) = (ip, port)).
  { unfold Act43.split_port. rewrite F, S, P. reflexivity. }
  split; [|split].
  - pose proof (four_words m d t (ip ++ ":" ++ port) (" " ++ msg) Hm Hd Ht Hw eq_refl) as W.
    cbv zeta in W. destruct W as (E1 & E2 & E3 & E4 & Ne).
    rewrite (parse_line_fields _ Ne). unfold Act43.read_fields.
    rewrite E1, E2, E3, E4. cbv zeta. rewrite Split. reflexivity.
  - pose proof (four_words m d t (ip ++ ":" ++ port) "" Hm Hd Ht Hw I) as W.
    cbv zeta in W. rewrite app_nil_r in W. destruct W as (E1 & E2 & E3 & E4 & Ne).
    rewrite (parse_line_fields _ Ne). unfold Act43.read_fields.
    rewrite E1, E2, E3, E4. cbv zeta. rewrite Split. reflexivity.
  - intros Hip.
    pose proof (four_words m d t ip (" " ++ msg) Hm Hd Ht Hip eq_refl) as W.
    cbv zeta in W. destruct W as (E1 & E2 & E3 & E4 & Ne).
    rewrite (parse_line_fields _ Ne). unfold Act43.read_fields.
    rewrite E1, E2, E3, E4. cbv zeta.
    unfold Act43.split_port. rewrite (find_char_absent ":" ip 0 Hc). reflexivity.
Qed.

Lemma line_is_an_entry_of_its_host_witness :
  Act43.parse_line "Apr 29 10:09:17 119.232.101.246:3946 Failed password for root"
  = Some ("119.232.101.246"%string,
          Act43.mkEntry "Apr 29" "10:09:17" "3946" "Failed password for root").
Proof.
  apply (line_is_an_entry_of_its_host
           "Apr" "29" "10:09:17" "119.232.101.246" "3946"
           "Failed password for root"); reflexivity.
Defined.

End Reading.

(** ** The hierarchy as a whole *)

Module Act43Totals.

Import Act43 Probe Act43Facts.

(** *** The entry arrays *)

(** What step 4.3.5 keeps true of a cell of [hostTable]: the entries are
    as many as [entryCount] says, they fit the allocated array, a cell in
    use has 10 cells doubled some number of times, and the array is never
    more than twice as long as the entries before the last one need. *)
Definition within_capacity (h : Host) : Prop :=
  entryCount h = Z.of_nat (List.length (entries h))
  /\ entryCount h <= entryCap h
  /\ (if hused h then exists k : nat, entryCap h = 10 * 2 ^ Z.of_nat k
      else entryCap h = 0)
  /\ entryCap h <= Z.max 10 (2 * (entryCount h - 1)).

Lemma Forall_upd {A : Type} (P : A -> Prop) (l : list A) (i : nat) (x : A) :
  Forall P l -> P x -> Forall P (upd l i x).
Proof.
  intros H Hx. revert i. induction H as [|y l Hy Hl IH]; intros [|i]; simpl;
    constructor; auto.
Qed.

Lemma upd_overflow {A : Type} (l : list A) (i : nat) (x : A) :
  (List.length l <= i)%nat -> upd l i x = l.
Proof.
  revert i. induction l as [|y l IH]; intros [|i] H; simpl in *; auto; try lia.
  rewrite IH by lia. reflexivity.
Qed.

Lemma Forall_nth_default {A : Type} (P : A -> Prop) (l : list A) (i : nat) (d : A) :
  Forall P l -> P d -> P (nth i l d).
Proof.
  intros H Hd. revert i. induction H as [|y l Hy Hl IH]; intros [|i]; simpl; auto.
Qed.

Lemma within_capacity_push (h : Host) (e : Entry) :
  within_capacity h -> hused h = true -> within_capacity (push_entry h e).
Proof.
  unfold within_capacity, push_entry. intros (L & B & K & W) U. rewrite U in K.
  destruct K as [k K]. cbn [entryCount entries entryCap hused]. rewrite U.
  assert (P : 0 < 2 ^ Z.of_nat k) by (apply Z.pow_pos_nonneg; lia).
  rewrite length_app, Nat2Z.inj_add. cbn [List.length].
  destruct (Z.eqb_spec (entryCount h) (entryCap h)) as [E|N].
  - destruct (Z.eqb_spec (entryCap h) 0) as [Z0|_]; [lia|].
    split; [lia|]. split; [lia|]. split; [|lia].
    exists (S k). rewrite K, Nat2Z.inj_succ, Z.pow_succ_r by lia. lia.
  - split; [lia|]. split; [lia|]. split; [|lia]. exists k. exact K.
Qed.

Lemma host_loop_shape (C : Z) (n : nat) (t : list Host) (a : string) (h : Z)
      (i : Z) (isNew : bool) (t' : list Host) :
  host_loop C n t a h = Some (i, isNew, t') ->
  (isNew = true /\ t' = upd t (Z.to_nat i) (mkHost a [] 0 10 true))
  \/ (isNew = false /\ t' = t /\ hused (host t i) = true).
Proof.
  revert h. induction n as [|n IH]; intros h; simpl; [discriminate|].
  destruct (hused (host t h)) eqn:U; simpl.
  - destruct (String.eqb (ip (host t h)) a).
    + intros E. inversion E; subst. right. auto.
    + apply IH.
  - intros E. inversion E; subst. left. auto.
Qed.

Lemma within_capacity_record (C : Z) (st st' : state) (a : string) (e : Entry) :
  Forall within_capacity (hostTable st) ->
  ingest_record C st a e = Ok st' ->
  Forall within_capacity (hostTable st').
Proof.
  intros F. unfold ingest_record, getHostIndex.
  destruct (host_loop C (Z.to_nat C) (hostTable st) a (hashString a mod C))
    as [[[i isNew] hosts]|] eqn:E; [|discriminate].
  assert (Blank : within_capacity emptyHost).
  { unfold within_capacity, emptyHost; simpl. lia. }
  assert (Fresh : within_capacity (mkHost a [] 0 10 true)).
  { unfold within_capacity; simpl. split; [lia|]. split; [lia|].
    split; [exists O; reflexivity | lia]. }
  assert (Pushed : within_capacity (push_entry (mkHost a [] 0 10 true) e)).
  { apply within_capacity_push; auto. }
  assert (Done : Forall within_capacity
                   (upd hosts (Z.to_nat i) (push_entry (host hosts i) e))).
  { destruct (host_loop_shape C _ _ _ _ _ _ _ E) as [[-> ->]|(-> & -> & U)].
    - destruct (Nat.lt_ge_cases (Z.to_nat i) (List.length (hostTable st))) as [L|G].
      + apply Forall_upd; [apply Forall_upd; auto|].
        unfold host. rewrite nth_upd_eq by exact L. exact Pushed.
      + rewrite !upd_overflow; auto. rewrite upd_overflow; auto.
    - apply Forall_upd; auto. apply within_capacity_push; auto.
      unfold host. apply Forall_nth_default; auto. }
  destruct isNew.
  - destruct (getNetworkIndex C (networkTable st) (prefixFromIP a)) as [[j nets]|];
      [|discriminate].
    intros R. inversion R; subst. exact Done.
  - intros R. inversion R; subst. exact Done.
Qed.

(** X15. The entry arrays never overflow.  After every file that did not end
    the run, in every cell of [hostTable] the entries are as many as
    [entryCount] says and no more than [entryCap]; the capacity of a cell
    in use is 10 doubled some number of times, and it is at most 10 or
    twice the number of entries before the last. *)
Theorem entries_fit_their_array (C : Z) (lines : list string) (st : state) :
  ingest_lines C (init C) lines = Ok st ->
  Forall within_capacity (hostTable st).
Proof.
  assert (G : forall lines st0 st1,
             Forall within_capacity (hostTable st0) ->
             ingest_lines C st0 lines = Ok st1 ->
             Forall within_capacity (hostTable st1)).
  { induction lines0 as [|line rest IH]; intros st0 st1 F H; simpl in H.
    - inversion H; subst. exact F.
    - destruct (ingest_line C st0 line) as [st2|] eqn:E; [|discriminate].
      apply (IH st2 st1); auto.
      unfold ingest_line in E. destruct (parse_line line) as [[a e]|].
      + apply (within_capacity_record C st0 st2 a e F E).
      + inversion E; subst. exact F. }
  apply G. unfold init; simpl. apply Forall_forall.
  intros h Hh. apply repeat_spec in Hh. subst h.
  unfold within_capacity, emptyHost; simpl. lia.
Qed.

(** *** Totals *)

Definition sum_of {A : Type} (f : A -> Z) (l : list A) : Z :=
  fold_right (fun x acc => f x + acc) 0 l.

Lemma sum_upd {A : Type} (f : A -> Z) (l : list A) (i : nat) (x d : A) :
  (i < List.length l)%nat ->
  sum_of f (upd l i x) = sum_of f l - f (nth i l d) + f x.
Proof.
  revert i. induction l as [|y l IH]; intros [|i] H; simpl in *; try lia.
  rewrite IH by lia. lia.
Qed.

Lemma sum_repeat {A : Type} (f : A -> Z) (x : A) (n : nat) :
  f x = 0 -> sum_of f (repeat x n) = 0.
Proof. intros H. induction n as [|n IH]; simpl; lia. Qed.

Section Table.

Variable C : Z.
Hypothesis Cpos : 0 < C.
Hypothesis Cint : C < 2 ^ 31.

(** What one record that does not end the run does to the two tables. *)
Lemma ingest_record_cases (st st' : state) (recs : list record) (a : string) (e : Entry) :
  hosts_hold C (hostTable st) recs -> nets_hold C (networkTable st) recs ->
  ingest_record C st a e = Ok st' ->
  (~ In a (ips recs)
   /\ exists i j,
       0 <= i < C /\ hused (host (hostTable st) i) = false
       /\ hostTable st' = upd (hostTable st) (Z.to_nat i) (mkHost a [e] 1 10 true)
       /\ 0 <= j < C
       /\ networkTable st'
          = upd (networkTable st) (Z.to_nat j)
                (mkNetwork (prefixFromIP a)
                           (if used (net (networkTable st) j)
                            then uniqueHostCount (net (networkTable st) j) + 1
                            else 1)
                           true))
  \/ (In a (ips recs)
      /\ exists i,
          0 <= i < C /\ hused (host (hostTable st) i) = true
          /\ ip (host (hostTable st) i) = a
          /\ hostTable st'
             = upd (hostTable st) (Z.to_nat i) (push_entry (host (hostTable st) i) e)
          /\ networkTable st' = networkTable st).
Proof.
  intros HH NH. unfold ingest_record.
  pose proof (OpenTable.wf_length _ _ _ _ _ _ (hh_ok _ _ _ HH)) as LH.
  pose proof (OpenTable.wf_length _ _ _ _ _ _ (nh_ok _ _ _ NH)) as LN.
  rewrite (getHostIndex_walk C Cpos Cint).
  pose proof (hosts_step C Cpos (hostTable st) recs a e HH) as HS.
  pose proof (host_walk_inv C Cpos (hostTable st) a) as HW.
  destruct (host_walk C (hostTable st) a) as [i|i|] eqn:EH; [| |discriminate].
  - destruct HS as [Hnew _]. destruct HW as [Hi Hfree].
    rewrite (getNetworkIndex_walk C Cpos Cint).
    pose proof (net_walk_inv C Cpos (networkTable st) (prefixFromIP a)) as NW.
    destruct (net_walk C (networkTable st) (prefixFromIP a)) as [j|j|] eqn:EN;
      [| |discriminate].
    + destruct NW as [Hj Hu]. intros E. inversion E; subst; clear E. simpl.
      rewrite (host_upd_eq C Cpos) by auto. rewrite OpenTable.upd_upd.
      rewrite (net_upd_eq C Cpos) by auto. rewrite OpenTable.upd_upd.
      left. split; [exact Hnew|]. exists i, j. rewrite Hu. auto 10.
    + destruct NW as (Hj & Hu & Hp). intros E. inversion E; subst; clear E. simpl.
      rewrite (host_upd_eq C Cpos) by auto. rewrite OpenTable.upd_upd.
      left. split; [exact Hnew|]. exists i, j. rewrite Hu, Hp. auto 10.
  - destruct HS as [Hin _]. destruct HW as (Hi & Hu & Hk).
    intros E. inversion E; subst; clear E. simpl.
    right. split; [exact Hin|]. exists i. auto 10.
Qed.

(** The totals that the two tables keep. *)
Record totals (st : state) (recs : list record) : Prop := mkTotals {
  tot_hosts :
    sum_of uniqueHostCount (networkTable st)
    = Z.of_nat (List.length (filter hused (hostTable st)));
  tot_distinct :
    List.length (filter hused (hostTable st))
    = List.length (nodup string_dec (ips recs));
  tot_entries :
    sum_of entryCount (hostTable st) = Z.of_nat (List.length recs);
  tot_unused_nets :
    forall j, 0 <= j < C -> used (net (networkTable st) j) = false ->
              uniqueHostCount (net (networkTable st) j) = 0;
  tot_unused_hosts :
    forall i, 0 <= i < C -> hused (host (hostTable st) i) = false ->
              entryCount (host (hostTable st) i) = 0
}.

Lemma totals_init : totals (init C) [].
Proof.
  assert (F : filter hused (repeat emptyHost (Z.to_nat C)) = []).
  { apply filter_none. intros z Hz. apply repeat_spec in Hz. subst. reflexivity. }
  constructor; unfold init; cbn [hostTable networkTable].
  - rewrite F, sum_repeat by reflexivity. reflexivity.
  - rewrite F. reflexivity.
  - rewrite sum_repeat by reflexivity. reflexivity.
  - intros j _ _. unfold net. rewrite nth_repeat_default. reflexivity.
  - intros i _ _. unfold host. rewrite nth_repeat_default. reflexivity.
Qed.

Lemma totals_record (st st' : state) (recs : list record) (a : string) (e : Entry) :
  hosts_hold C (hostTable st) recs -> nets_hold C (networkTable st) recs ->
  totals st recs ->
  ingest_record C st a e = Ok st' ->
  totals st' (recs ++ [(a, e)]).
Proof.
  intros HH NH T H.
  pose proof (OpenTable.wf_length _ _ _ _ _ _ (hh_ok _ _ _ HH)) as LH.
  pose proof (OpenTable.wf_length _ _ _ _ _ _ (nh_ok _ _ _ NH)) as LN.
  destruct T as [T1 T2 T3 T4 T5].
  assert (Len : List.length (recs ++ [(a, e)]) = S (List.length recs))
    by (rewrite length_app; simpl; lia).
  assert (Ips : ips (recs ++ [(a, e)]) = ips recs ++ [a])
    by (unfold ips; rewrite map_app; reflexivity).
  destruct (ingest_record_cases st st' recs a e HH NH H)
    as [(Hnew & i & j & Hi & Hfree & EH & Hj & EN)|(Hin & i & Hi & Hu & Hk & EH & EN)].
  - pose proof (count_upd hused (hostTable st) (Z.to_nat i)
                          (mkHost a [e] 1 10 true) emptyHost ltac:(lia)) as CU.
    fold (host (hostTable st) i) in CU. rewrite Hfree in CU. cbn [hused] in CU.
    assert (SN : sum_of uniqueHostCount (networkTable st')
                 = sum_of uniqueHostCount (networkTable st) + 1).
    { rewrite EN, (sum_upd _ _ _ _ emptyNetwork) by lia.
      fold (net (networkTable st) j). cbn [uniqueHostCount].
      destruct (used (net (networkTable st) j)) eqn:U; [lia|].
      rewrite (T4 j Hj U). lia. }
    assert (SE : sum_of entryCount (hostTable st')
                 = sum_of entryCount (hostTable st) + 1).
    { rewrite EH, (sum_upd _ _ _ _ emptyHost) by lia.
      fold (host (hostTable st) i). rewrite (T5 i Hi Hfree). cbn [entryCount]. lia. }
    constructor.
    + rewrite SN, EH, T1. lia.
    + rewrite EH, Ips, nodup_snoc_length.
      destruct (in_dec string_dec a (ips recs)); [contradiction|]. lia.
    + rewrite SE, T3, Len. lia.
    + intros j' Hj' U. rewrite EN in U |- *.
      destruct (Z.eq_dec j j') as [<-|Hne].
      * rewrite (net_upd_eq C Cpos) in U by auto. discriminate U.
      * rewrite net_upd_neq in U |- * by lia. auto.
    + intros i' Hi' U. rewrite EH in U |- *.
      destruct (Z.eq_dec i i') as [<-|Hne].
      * rewrite (host_upd_eq C Cpos) in U by auto. discriminate U.
      * rewrite host_upd_neq in U |- * by lia. auto.
  - assert (PU : hused (push_entry (host (hostTable st) i) e) = true)
      by (unfold push_entry; cbn [hused]; exact Hu).
    pose proof (count_upd hused (hostTable st) (Z.to_nat i)
                          (push_entry (host (hostTable st) i) e) emptyHost
                          ltac:(lia)) as CU.
    fold (host (hostTable st) i) in CU. rewrite Hu, PU in CU.
    assert (SE : sum_of entryCount (hostTable st')
                 = sum_of entryCount (hostTable st) + 1).
    { rewrite EH, (sum_upd _ _ _ _ emptyHost) by lia.
      fold (host (hostTable st) i). unfold push_entry. cbn [entryCount]. lia. }
    constructor.
    + rewrite EN, EH, T1. lia.
    + rewrite EH, Ips, nodup_snoc_length.
      destruct (in_dec string_dec a (ips recs)); [|contradiction]. lia.
    + rewrite SE, T3, Len. lia.
    + rewrite EN. exact T4.
    + intros i' Hi' U. rewrite EH in U |- *.
      destruct (Z.eq_dec i i') as [<-|Hne].
      * rewrite (host_upd_eq C Cpos) in U by auto. congruence.
      * rewrite host_upd_neq in U |- * by lia. auto.
Qed.

Lemma totals_ingest (todo done : list record) (st st' : state) :
  hosts_hold C (hostTable st) done -> nets_hold C (networkTable st) done ->
  totals st done ->
  ingest C st todo = Ok st' ->
  totals st' (done ++ todo).
Proof.
  revert done st. induction todo as [|[a e] todo IH]; intros done st HH NH T H.
  - simpl in H. inversion H; subst. rewrite List.app_nil_r. exact T.
  - simpl in H. destruct (ingest_record C st a e) as [st1|] eqn:E; [|discriminate].
    destruct (ingest_record_holds C Cpos Cint st st1 done a e HH NH E) as (HH1 & NH1 & _).
    pose proof (totals_record st st1 done a e HH NH T E) as T1.
    pose proof (IH (done ++ [(a, e)]) st1 HH1 NH1 T1 H) as R.
    rewrite <- List.app_assoc in R. exact R.
Qed.

(** X16. Every host is counted in one network and every record in one host.
    After every file that did not end the run, the [uniqueHostCount] of
    all cells of [networkTable] add up to the number of cells in use in
    [hostTable], which is the number of different addresses of the file;
    and the [entryCount] of all cells of [hostTable] add up to the number
    of lines of the file that the loop did not skip. *)
Theorem hierarchy_totals (lines : list string) (st : state) :
  ingest_lines C (init C) lines = Ok st ->
  sum_of uniqueHostCount (networkTable st)
  = Z.of_nat (List.length (filter hused (hostTable st)))
  /\ List.length (filter hused (hostTable st))
     = List.length (nodup string_dec (ips (parsed lines)))
  /\ sum_of entryCount (hostTable st) = Z.of_nat (List.length (parsed lines)).
Proof.
  intros H. rewrite ingest_lines_parsed in H.
  destruct (totals_ingest (parsed lines) [] (init C) st
                          (hosts_hold_init C) (nets_hold_init C) totals_init H)
    as [T1 T2 T3 _ _].
  auto.
Qed.

(** X17. The entries of a host are its lines, in the order of the file.
    After every file that did not end the run, each address of the file
    has exactly one cell of [hostTable], and the entries of that cell are
    the entries of the lines with this address, first line first. *)
Theorem host_entries_in_file_order (lines : list string) (st : state) (a : string) :
  ingest_lines C (init C) lines = Ok st ->
  In a (ips (parsed lines)) ->
  exists i,
    0 <= i < C
    /\ hused (host (hostTable st) i) = true
    /\ ip (host (hostTable st) i) = a
    /\ entries (host (hostTable st) i) = entries_of (parsed lines) a
    /\ forall j, 0 <= j < C -> hused (host (hostTable st) j) = true ->
                 ip (host (hostTable st) j) = a -> j = i.
Proof.
  intros H Hin. rewrite ingest_lines_parsed in H.
  destruct (ingest_holds C Cpos Cint (parsed lines) [] (init C) st
                         (hosts_hold_init C) (nets_hold_init C) H) as [HH _].
  cbn [app] in HH.
  destruct (hh_key C _ _ HH a Hin) as (i & Hi & Hu & Hk).
  destruct (hh_slot C _ _ HH i Hi Hu) as (_ & He & _).
  exists i. split; [exact Hi|]. split; [exact Hu|]. split; [exact Hk|].
  split; [rewrite He, Hk; reflexivity|].
  intros j Hj Huj Hkj.
  apply (OpenTable.wf_unique _ _ _ _ _ _ (hh_ok C _ _ HH) j i Hj Hi); auto.
  unfold OpenTable.cell. fold (host (hostTable st) j) (host (hostTable st) i).
  congruence.
Qed.

(** X18. Asking twice gives the same cell.  In the tables after a file that
    did not end the run, a call of [getHostIndex] or [getNetworkIndex]
    that returns leaves a table in which the same call returns the same
    index without creating or changing anything; the cell at that index
    is in use and holds the key, and a call that did not create a cell
    left the table as it was. *)
Theorem get_or_create_is_idempotent (lines : list string) (st : state) :
  ingest_lines C (init C) lines = Ok st ->
  (forall a i isNew t',
      getHostIndex C (hostTable st) a = Ok (i, isNew, t') ->
      getHostIndex C t' a = Ok (i, false, t')
      /\ 0 <= i < C /\ hused (host t' i) = true /\ ip (host t' i) = a
      /\ (isNew = false -> t' = hostTable st))
  /\ (forall p j t',
        getNetworkIndex C (networkTable st) p = Ok (j, t') ->
        getNetworkIndex C t' p = Ok (j, t')
        /\ 0 <= j < C /\ used (net t' j) = true /\ prefix (net t' j) = p).
Proof.
  intros H. rewrite ingest_lines_parsed in H.
  destruct (ingest_holds C Cpos Cint (parsed lines) [] (init C) st
                         (hosts_hold_init C) (nets_hold_init C) H) as [HH NH].
  pose proof (hh_ok C _ _ HH) as HO. pose proof (nh_ok C _ _ NH) as NO.
  pose proof (OpenTable.wf_length _ _ _ _ _ _ HO) as LH.
  pose proof (OpenTable.wf_length _ _ _ _ _ _ NO) as LN.
  split.
  - intros a i isNew t' G. rewrite (getHostIndex_walk C Cpos Cint) in G.
    pose proof (host_walk_inv C Cpos (hostTable st) a) as W.
    destruct (host_walk C (hostTable st) a) as [x|x|] eqn:E;
      inversion G; subst; clear G.
    + destruct W as [Hi _].
      assert (OK' : hosts_ok C (upd (hostTable st) (Z.to_nat i) (mkHost a [] 0 10 true))).
      { apply (OpenTable.well_formed_create hused ip emptyHost C (home C) Cpos
                 (home_range C Cpos) (hostTable st) a i); auto. }
      assert (U : host (upd (hostTable st) (Z.to_nat i) (mkHost a [] 0 10 true)) i
                  = mkHost a [] 0 10 true)
        by (apply (host_upd_eq C Cpos); auto).
      rewrite (getHostIndex_walk C Cpos Cint).
      rewrite (host_walk_stored C Cpos _ a i OK' Hi) by (rewrite U; reflexivity).
      rewrite U. repeat split; auto; try lia; discriminate.
    + destruct W as (Hi & Hu & Hk).
      rewrite (getHostIndex_walk C Cpos Cint), E. repeat split; auto; lia.
  - intros p j t' G. rewrite (getNetworkIndex_walk C Cpos Cint) in G.
    pose proof (net_walk_inv C Cpos (networkTable st) p) as W.
    destruct (net_walk C (networkTable st) p) as [x|x|] eqn:E;
      inversion G; subst; clear G.
    + destruct W as [Hj _].
      assert (OK' : nets_ok C (upd (networkTable st) (Z.to_nat j) (mkNetwork p 0 true))).
      { apply (OpenTable.well_formed_create used prefix emptyNetwork C (home C) Cpos
                 (home_range C Cpos) (networkTable st) p j); auto. }
      assert (U : net (upd (networkTable st) (Z.to_nat j) (mkNetwork p 0 true)) j
                  = mkNetwork p 0 true)
        by (apply (net_upd_eq C Cpos); auto).
      rewrite (getNetworkIndex_walk C Cpos Cint).
      rewrite (net_walk_stored C Cpos _ p j OK' Hj) by (rewrite U; reflexivity).
      rewrite U. repeat split; auto; lia.
    + destruct W as (Hj & Hu & Hk).
      rewrite (getNetworkIndex_walk C Cpos Cint), E. repeat split; auto; lia.
Qed.

End Table.

(** X19. A file without a record.  When the loop skips every line of the
    file (the file is empty, or every line is empty or has fewer than
    four words), no cell is in use at the end: the program writes the one
    blank line that separates the two lists, and returns 0. *)
Theorem no_record_gives_one_blank_line (C : Z) (lines : list string) :
  parsed lines = [] ->
  main C (Some lines) = mkRun 0 endl EmptyString.
Proof.
  intros H. unfold main. rewrite ingest_lines_parsed, H. cbn [ingest].
  unfold report, top_networks, top_hosts, scan_equal, init.
  cbn [networkTable hostTable].
  rewrite (filter_none _ (repeat emptyNetwork (Z.to_nat C))).
  - rewrite (filter_none _ (repeat emptyHost (Z.to_nat C))).
    + reflexivity.
    + intros z Hz. apply repeat_spec in Hz. subst. reflexivity.
  - intros z Hz. apply repeat_spec in Hz. subst. reflexivity.
Qed.

Lemma entries_fit_their_array_witness :
  exists st,
    ingest_lines 11 (init 11) three_networks = Ok st
    /\ Forall within_capacity (hostTable st).
Proof.
  destruct (ingest_lines 11 (init 11) three_networks) as [st|n d] eqn:H;
    [|vm_compute in H; discriminate].
  exists st. split; [reflexivity|].
  apply (entries_fit_their_array 11 three_networks st H).
Defined.

Lemma hierarchy_totals_witness :
  exists st,
    ingest_lines 11 (init 11) three_networks = Ok st
    /\ sum_of uniqueHostCount (networkTable st) = 7
    /\ List.length (filter hused (hostTable st)) = 7%nat
    /\ sum_of entryCount (hostTable st) = 8.
Proof.
  destruct (ingest_lines 11 (init 11) three_networks) as [st|n d] eqn:H;
    [|vm_compute in H; discriminate].
  exists st. split; [reflexivity|].
  destruct (hierarchy_totals 11 eq_refl eq_refl three_networks st H) as (T1 & T2 & T3).
  rewrite T1, T2, T3. repeat split; reflexivity.
Defined.

Lemma host_entries_in_file_order_witness :
  exists st i,
    ingest_lines 11 (init 11) three_networks = Ok st
    /\ ip (host (hostTable st) i) = "12.1.0.1"%string
    /\ entries (host (hostTable st) i)
       = [ mkEntry "Jul 19" "08:00:03" "80" "ok";
           mkEntry "Jul 19" "08:00:04" "80" "ok" ].
Proof.
  destruct (ingest_lines 11 (init 11) three_networks) as [st|n d] eqn:H;
    [|vm_compute in H; discriminate].
  destruct (host_entries_in_file_order 11 eq_refl eq_refl three_networks st
              "12.1.0.1"%string H)
    as (i & _ & _ & Hk & He & _).
  - vm_compute. tauto.
  - exists st, i. split; [reflexivity|]. split; [exact Hk|].
    rewrite He. reflexivity.
Defined.

Lemma get_or_create_is_idempotent_witness :
  exists st i t',
    ingest_lines 11 (init 11) two_hosts = Ok st
    /\ getHostIndex 11 (hostTable st) "12.0.0.1" = Ok (i, true, t')
    /\ getHostIndex 11 t' "12.0.0.1" = Ok (i, false, t').
Proof.
  destruct (ingest_lines 11 (init 11) two_hosts) as [st|n d] eqn:H;
    [|vm_compute in H; discriminate].
  destruct (getHostIndex 11 (hostTable st) "12.0.0.1") as [[[i isNew] t']|n d] eqn:G.
  - destruct isNew.
    + exists st, i, t'. split; [reflexivity|]. split; [exact G|].
      destruct (get_or_create_is_idempotent 11 eq_refl eq_refl two_hosts st H)
        as [Hosts _].
      apply (Hosts _ _ _ _ G).
    + exfalso. vm_compute in H. inversion H; subst. vm_compute in G. discriminate.
  - exfalso. vm_compute in H. inversion H; subst. vm_compute in G. discriminate.
Defined.

Lemma no_record_gives_one_blank_line_witness :
  main TABLE_SIZE (Some [ EmptyString; "Jul 18 07:53:22"%string ])
  = mkRun 0 endl EmptyString.
Proof.
  apply (no_record_gives_one_blank_line TABLE_SIZE). reflexivity.
Defined.

End Act43Totals.

(** ** The line reader of the top-five and the range-search programs *)

Module LogLineFacts.

Import LogLine StringFacts.

(** *** [months_int] *)

Lemma months_scan_absent (l : list string) (i : Z) (month : string) :
  ~ In month l -> months_scan i l month = -1.
Proof.
  revert i. induction l as [|m l IH]; intros i H; simpl; auto.
  destruct (String.eqb_spec m month) as [->|_].
  - exfalso. apply H. left. reflexivity.
  - apply IH. intros Hin. apply H. right. exact Hin.
Qed.

(** X20. The months are numbered from 1.  [months_int] returns the position,
    counted from 1, of a month abbreviation in Jan .. Dec, so it returns
    different numbers for different months; for every other text, also
    one that differs only in case or has a blank, it returns -1. *)
Theorem months_int_numbers_the_months :
  (forall i, (i < 12)%nat ->
             months_int (nth i months EmptyString) = Z.of_nat i + 1)
  /\ (forall month, In month months ->
        1 <= months_int month <= 12
        /\ nth (Z.to_nat (months_int month - 1)) months EmptyString = month)
  /\ (forall month, ~ In month months -> months_int month = -1).
Proof.
  split; [|split].
  - intros i H.
    do 12 (destruct i as [|i]; [reflexivity|]). lia.
  - intros month H. unfold months in H. simpl in H.
    repeat (destruct H as [<-|H]; [split; [split; discriminate | reflexivity]|]).
    destruct H.
  - intros month H. apply months_scan_absent. exact H.
Qed.

Lemma months_int_numbers_the_months_witness :
  months_int "Jul" = 7 /\ months_int "jul" = -1.
Proof.
  destruct months_int_numbers_the_months as (Pos & _ & Neg). split.
  - exact (Pos 6%nat ltac:(lia)).
  - apply Neg. unfold months. simpl. intuition discriminate.
Defined.

(** *** [tokenizer] *)

Lemma find_char_at_end (c : ascii) (s : string) :
  find_char c (String.length s) s = None.
Proof.
  rewrite <- (StringFacts.app_nil_r s) at 2.
  rewrite <- (Nat.add_0_r (String.length s)).
  rewrite find_char_skip, find_char_nil. reflexivity.
Qed.

Lemma find_char_after (c : ascii) (pre w rest : string) :
  occurs c w = O ->
  find_char c (String.length pre) (pre ++ w ++ String c rest)
  = Some (String.length pre + String.length w)%nat.
Proof.
  intros H. rewrite <- (Nat.add_0_r (String.length pre)) at 1.
  rewrite find_char_skip, find_char_first by exact H. reflexivity.
Qed.

Lemma find_char_after_none (c : ascii) (pre w : string) :
  occurs c w = O -> find_char c (String.length pre) (pre ++ w) = None.
Proof.
  intros H. rewrite <- (Nat.add_0_r (String.length pre)) at 1.
  rewrite find_char_skip, find_char_absent by exact H. reflexivity.
Qed.

Lemma substring_middle (pre w rest : string) :
  substring (String.length pre) (String.length w) (pre ++ w ++ rest) = w.
Proof.
  rewrite <- (Nat.add_0_r (String.length pre)) at 1.
  rewrite substring_skip. apply substring_head.
Qed.

Lemma tokenizer_token (pre w rest : string) :
  occurs " " w = O ->
  tokenizer (pre ++ w ++ " " ++ rest) (String.length pre)
  = (w, (String.length pre + String.length w + 1)%nat).
Proof.
  intros H. unfold tokenizer.
  destruct (Nat.leb_spec (String.length (pre ++ w ++ " " ++ rest)) (String.length pre))
    as [L|_].
  - rewrite !length_app in L. simpl in L. lia.
  - cbn [append]. rewrite find_char_after by exact H.
    replace (String.length pre + String.length w - String.length pre)%nat
      with (String.length w) by lia.
    rewrite substring_middle. f_equal. lia.
Qed.

Lemma tokenizer_last (pre w : string) :
  occurs " " w = O -> w <> EmptyString ->
  tokenizer (pre ++ w) (String.length pre) = (w, String.length (pre ++ w)).
Proof.
  intros H N. unfold tokenizer.
  destruct (Nat.leb_spec (String.length (pre ++ w)) (String.length pre)) as [L|_].
  - rewrite length_app in L. destruct w; [contradiction | simpl in L; lia].
  - rewrite find_char_after_none by exact H.
    rewrite substring_tail; [reflexivity|]. rewrite length_app. lia.
Qed.

Lemma tokenizer_at_end (s : string) (pos : nat) :
  (String.length s <= pos)%nat -> tokenizer s pos = (EmptyString, pos).
Proof.
  intros H. unfold tokenizer.
  destruct (Nat.leb_spec (String.length s) pos); [reflexivity | lia].
Qed.

(** X21. Tokens end at single blanks.  From the position after a prefix of
    the line, [tokenizer] returns the text up to the next blank and the
    position after that blank; two blanks in a row therefore give the
    empty token.  Without a further blank it returns the rest of the line
    and the position at its end, and from the end on it returns the empty
    token and leaves the position where it is. *)
Theorem tokenizer_cuts_at_single_blanks :
  (forall pre w rest,
      occurs " " w = O ->
      tokenizer (pre ++ w ++ " " ++ rest) (String.length pre)
      = (w, (String.length pre + String.length w + 1)%nat))
  /\ (forall pre rest,
        tokenizer (pre ++ " " ++ rest) (String.length pre)
        = (EmptyString, (String.length pre + 1)%nat))
  /\ (forall pre w,
        occurs " " w = O -> w <> EmptyString ->
        tokenizer (pre ++ w) (String.length pre) = (w, String.length (pre ++ w)))
  /\ (forall s pos, (String.length s <= pos)%nat -> tokenizer s pos = (EmptyString, pos)).
Proof.
  split; [exact tokenizer_token|]. split; [|split; [exact tokenizer_last|]].
  - intros pre rest.
    pose proof (tokenizer_token pre EmptyString rest eq_refl) as H.
    cbn [append String.length] in H. rewrite Nat.add_0_r in H. exact H.
  - exact tokenizer_at_end.
Qed.

Lemma tokenizer_cuts_at_single_blanks_witness :
  tokenizer "Jul 18 07:53:22" 4 = ("18"%string, 7%nat)
  /\ tokenizer "Jul  18" 4 = (EmptyString, 5%nat)
  /\ tokenizer "Jul 18" 4 = ("18"%string, 6%nat).
Proof.
  destruct tokenizer_cuts_at_single_blanks as (Tok & Two & Last & _).
  split; [|split].
  - exact (Tok "Jul "%string "18"%string "07:53:22"%string eq_refl).
  - exact (Two "Jul "%string "18"%string).
  - exact (Last "Jul "%string "18"%string eq_refl ltac:(discriminate)).
Defined.

(** *** Numbers in decimal *)

(** [f] holds of the [fuel] integers from [k] on. *)
Fixpoint upto (fuel : nat) (k : Z) (f : Z -> bool) : bool :=
  match fuel with
  | O => true
  | S m => (f k && upto m (k + 1) f)%bool
  end.

Lemma upto_spec (fuel : nat) (k : Z) (f : Z -> bool) (z : Z) :
  upto fuel k f = true -> k <= z < k + Z.of_nat fuel -> f z = true.
Proof.
  revert k. induction fuel as [|m IH]; intros k H R; [lia|].
  cbn [upto] in H. apply andb_true_iff in H. destruct H as [H0 H1].
  destruct (Z.eq_dec z k) as [->|N]; [exact H0|].
  apply (IH (k + 1)); [exact H1 | lia].
Qed.

(** The decimal text of a number is made of digits. *)
Lemma uint_text_digits (d : Decimal.uint) :
  all_chars is_digit (NilEmpty.string_of_uint d) = true.
Proof. induction d; simpl; auto. Qed.

Lemma digits_of_uint_acc (d : Decimal.uint) (acc : positive) :
  digits (Z.pos acc) (NilEmpty.string_of_uint d) = Z.pos (Pos.of_uint_acc d acc).
Proof.
  revert acc. induction d; intros acc; cbn [NilEmpty.string_of_uint digits Pos.of_uint_acc];
    [reflexivity | ..];
    match goal with
    | |- context [is_digit ?c] => change (is_digit c) with true; cbv iota
    end;
    match goal with
    | |- context [uchar ?c] =>
        let v := eval vm_compute in (uchar c) in change (uchar c) with v
    end;
    match goal with
    | |- digits ?x _ = Z.pos (Pos.of_uint_acc _ ?q) =>
        replace x with (Z.pos q) by lia
    end; apply IHd.
Qed.

Lemma digits_of_uint (d : Decimal.uint) :
  digits 0 (NilEmpty.string_of_uint d) = Z.of_N (Pos.of_uint d).
Proof.
  induction d; cbn [NilEmpty.string_of_uint digits Pos.of_uint];
    [reflexivity | ..];
    match goal with
    | |- context [is_digit ?c] => change (is_digit c) with true; cbv iota
    end;
    match goal with
    | |- context [uchar ?c] =>
        let v := eval vm_compute in (uchar c) in change (uchar c) with v
    end;
    try exact IHd;
    match goal with
    | |- digits ?x _ = Z.of_N (N.pos (Pos.of_uint_acc _ ?q)) =>
        change x with (Z.pos q); apply digits_of_uint_acc
    end.
Qed.

Lemma digit_is_no_separator (c : ascii) :
  is_digit c = true ->
  isspace c = false /\ Ascii.eqb c "-" = false /\ Ascii.eqb c "+" = false
  /\ Ascii.eqb c " " = false /\ Ascii.eqb c "." = false /\ Ascii.eqb c ":" = false.
Proof.
  unfold is_digit, isspace. cbv zeta. intros H.
  apply andb_true_iff in H. destruct H as [L U].
  apply Nat.leb_le in L. apply Nat.leb_le in U.
  assert (N : forall k, (k < 48)%nat \/ (57 < k < 256)%nat ->
                        Ascii.eqb c (ascii_of_nat k) = false).
  { intros k Hk. apply Ascii.eqb_neq. intros E. rewrite E in L, U.
    rewrite nat_ascii_embedding in L, U by lia. lia. }
  repeat split.
  - destruct (Nat.eqb_spec (nat_of_ascii c) 32) as [E|_]; [lia|].
    destruct (Nat.leb_spec 9 (nat_of_ascii c)); destruct (Nat.leb_spec (nat_of_ascii c) 13);
      simpl; auto; lia.
  - apply (N 45%nat). lia.
  - apply (N 43%nat). lia.
  - apply (N 32%nat). lia.
  - apply (N 46%nat). lia.
  - apply (N 58%nat). lia.
Qed.

Lemma digits_have_no (c : ascii) (s : string) :
  (forall x, is_digit x = true -> Ascii.eqb x c = false) ->
  all_chars is_digit s = true -> occurs c s = O.
Proof.
  intros N. induction s as [|x s IH]; simpl; auto.
  intros H. apply andb_true_iff in H. destruct H as [Hx Hs].
  rewrite (N x Hx), IH by exact Hs. reflexivity.
Qed.

(** [stoi] of a text of digits. *)
Lemma stoi_digits (s : string) :
  s <> EmptyString -> all_chars is_digit s = true ->
  - 2 ^ 31 <= digits 0 s <= 2 ^ 31 - 1 ->
  stoi s = Some (digits 0 s).
Proof.
  intros N A R. destruct s as [|c r]; [contradiction|].
  cbn [all_chars] in A. apply andb_true_iff in A. destruct A as [Hc _].
  destruct (digit_is_no_separator c Hc) as (W & M & P & _).
  unfold stoi. cbn [skip_ws]. rewrite W, M, P, Hc. cbv zeta.
  destruct (Z.leb_spec (- 2 ^ 31) (digits 0 (String c r))); [|lia].
  destruct (Z.leb_spec (digits 0 (String c r)) (2 ^ 31 - 1)); [|lia].
  reflexivity.
Qed.

(** The decimal text of a number that is an [int] and not negative is
    read back by [stoi], and has none of the separators of a line. *)
Lemma decimal_text (n : Z) :
  0 <= n <= 2 ^ 31 - 1 ->
  stoi (show_int n) = Some n
  /\ occurs " " (show_int n) = O /\ occurs "." (show_int n) = O
  /\ occurs ":" (show_int n) = O /\ show_int n <> EmptyString.
Proof.
  intros H. destruct n as [|p|p]; [vm_compute; repeat split; discriminate | | lia].
  assert (E : show_int (Z.pos p) = NilEmpty.string_of_uint (Pos.to_uint p)).
  { unfold show_int. cbn [Z.to_int NilZero.string_of_int NilZero.string_of_uint].
    pose proof (DecimalPos.Unsigned.to_uint_nonnil p) as NN.
    destruct (Pos.to_uint p); [contradiction | reflexivity ..]. }
  pose proof (uint_text_digits (Pos.to_uint p)) as A.
  pose proof (digits_of_uint (Pos.to_uint p)) as V.
  rewrite DecimalPos.Unsigned.of_to in V. cbn [Z.of_N] in V.
  assert (NE : show_int (Z.pos p) <> EmptyString).
  { rewrite E. pose proof (DecimalPos.Unsigned.to_uint_nonnil p) as NN.
    destruct (Pos.to_uint p); [contradiction | discriminate ..]. }
  rewrite <- E in A, V.
  split; [|split; [|split; [|split]]].
  - rewrite stoi_digits; auto; rewrite V; [reflexivity | lia].
  - apply digits_have_no; auto. intros x Hx. apply (digit_is_no_separator x Hx).
  - apply digits_have_no; auto. intros x Hx. apply (digit_is_no_separator x Hx).
  - apply digits_have_no; auto. intros x Hx. apply (digit_is_no_separator x Hx).
  - exact NE.
Qed.

(** Two decimal digits, as the time of a line has them. *)
Definition digit (d : Z) : ascii := ascii_of_nat (48 + Z.to_nat d).

Definition two_digits (n : Z) : string :=
  String (digit (n / 10)) (String (digit (n mod 10)) EmptyString).

Definition two_digits_ok (n : Z) : bool :=
  let s := two_digits n in
  (match stoi s with Some v => v =? n | None => false end
   && Nat.eqb (occurs " " s) 0)%bool.

Lemma all_two_digits_ok : upto 100 0 two_digits_ok = true.
Proof. vm_compute. reflexivity. Qed.

Lemma two_digits_text (n : Z) :
  0 <= n <= 99 -> stoi (two_digits n) = Some n /\ occurs " " (two_digits n) = O.
Proof.
  intros H. pose proof (upto_spec _ _ _ n all_two_digits_ok ltac:(lia)) as A.
  unfold two_digits_ok in A. cbv zeta in A.
  apply andb_true_iff in A. destruct A as [A B]. apply Nat.eqb_eq in B.
  destruct (stoi (two_digits n)) as [v|]; [|discriminate].
  apply Z.eqb_eq in A. subst v. auto.
Qed.

(** *** [splitIp] *)

Lemma octet_at_piece (s pre w rest : string) :
  s = (pre ++ w ++ String "." rest)%string -> occurs "." w = O ->
  octet_at s (String.length pre) = (stoi w, String.length (pre ++ w ++ ".")).
Proof.
  intros -> H. unfold octet_at.
  rewrite find_char_after by exact H.
  replace (String.length pre + String.length w - String.length pre)%nat
    with (String.length w) by lia.
  rewrite substring_middle. f_equal.
  rewrite !length_app. simpl. lia.
Qed.

Lemma substring_at_end (s : string) (m : nat) :
  substring (String.length s) m s = EmptyString.
Proof. induction s as [|c s IH]; simpl; auto. destruct m; reflexivity. Qed.

Lemma octet_at_end (s : string) :
  octet_at s (String.length s) = (None, String.length s).
Proof.
  unfold octet_at. rewrite find_char_at_end, substring_at_end. reflexivity.
Qed.

Lemma octet_at_last (pre w : string) :
  occurs "." w = O ->
  octet_at (pre ++ w) (String.length pre) = (stoi w, String.length (pre ++ w)).
Proof.
  intros H. unfold octet_at. rewrite find_char_after_none by exact H.
  rewrite substring_tail; [reflexivity|]. rewrite length_app. lia.
Qed.

(** The four octets of an address text. *)
Definition split_octets (ipStr : string) : option (Z * Z * Z * Z) :=
  let '(a, pos) := octet_at ipStr 0 in
  do! a <- a;
  let '(b, pos) := octet_at ipStr pos in
  do! b <- b;
  let '(c, pos) := octet_at ipStr pos in
  do! c <- c;
  do! d <- stoi (substring pos (String.length ipStr) ipStr);
  Some (a, b, c, d).

Lemma splitIp_parts (ipPort : string) :
  splitIp ipPort
  = let colon := find_char ":"%char 0 ipPort in
    do! p <- match colon with
             | None => Some 0
             | Some c =>
                 match substring (c + 1) (String.length ipPort) ipPort with
                 | EmptyString => Some 0
                 | portStr => stoi portStr
                 end
             end;
    do! o <- split_octets (match colon with
                           | None => ipPort
                           | Some c => substring 0 c ipPort
                           end);
    let '(a, b, c, d) := o in Some (a, b, c, d, p).
Proof.
  unfold splitIp, split_octets. cbv zeta.
  destruct (find_char ":" 0 ipPort) as [c|].
  - destruct (match substring (c + 1) (String.length ipPort) ipPort with
              | EmptyString => Some 0
              | String a s => stoi (String a s)
              end) as [p|]; [|reflexivity].
    destruct (octet_at (substring 0 c ipPort) 0) as [[a|] p1]; [|reflexivity].
    destruct (octet_at (substring 0 c ipPort) p1) as [[b|] p2]; [|reflexivity].
    destruct (octet_at (substring 0 c ipPort) p2) as [[c0|] p3]; [|reflexivity].
    destruct (stoi (substring p3 (String.length (substring 0 c ipPort))
                              (substring 0 c ipPort))); reflexivity.
  - destruct (octet_at ipPort 0) as [[a|] p1]; [|reflexivity].
    destruct (octet_at ipPort p1) as [[b|] p2]; [|reflexivity].
    destruct (octet_at ipPort p2) as [[c0|] p3]; [|reflexivity].
    destruct (stoi (substring p3 (String.length ipPort) ipPort)); reflexivity.
Qed.

Lemma split_octets_quad (sa sb sc sd : string) :
  occurs "." sa = O -> occurs "." sb = O -> occurs "." sc = O ->
  split_octets (sa ++ "." ++ sb ++ "." ++ sc ++ "." ++ sd)
  = do! a <- stoi sa; do! b <- stoi sb; do! c <- stoi sc; do! d <- stoi sd;
    Some (a, b, c, d).
Proof.
  intros Ha Hb Hc. unfold split_octets.
  set (s := (sa ++ "." ++ sb ++ "." ++ sc ++ "." ++ sd)%string).
  set (p1 := (sa ++ ".")%string).
  set (p2 := (p1 ++ sb ++ ".")%string).
  set (p3 := (p2 ++ sc ++ ".")%string).
  assert (E1 : octet_at s 0 = (stoi sa, String.length p1)).
  { apply (octet_at_piece s EmptyString sa (sb ++ "." ++ sc ++ "." ++ sd));
      [reflexivity | exact Ha]. }
  assert (E2 : octet_at s (String.length p1) = (stoi sb, String.length p2)).
  { apply (octet_at_piece s p1 sb (sc ++ "." ++ sd)); [|exact Hb].
    unfold s, p1. rewrite !StringFacts.app_assoc. reflexivity. }
  assert (E3 : octet_at s (String.length p2) = (stoi sc, String.length p3)).
  { apply (octet_at_piece s p2 sc sd); [|exact Hc].
    unfold s, p2, p1. rewrite !StringFacts.app_assoc. reflexivity. }
  assert (E4 : substring (String.length p3) (String.length s) s = sd).
  { assert (Es : s = (p3 ++ sd)%string).
    { unfold s, p3, p2, p1. rewrite !StringFacts.app_assoc. reflexivity. }
    rewrite Es at 2. apply substring_tail. rewrite Es, length_app. lia. }
  rewrite E1. destruct (stoi sa) as [a|]; [|reflexivity].
  rewrite E2. destruct (stoi sb) as [b|]; [|reflexivity].
  rewrite E3. destruct (stoi sc) as [c|]; [|reflexivity].
  rewrite E4. reflexivity.
Qed.

(** Fewer than three dots leave an octet without text. *)
Lemma split_octets_short (s : string) :
  (occurs "." s < 3)%nat -> split_octets s = None.
Proof.
  intros H. unfold split_octets.
  destruct (octet_at s 0) as [oa p1] eqn:E1.
  destruct oa as [a|]; [|reflexivity].
  destruct (octet_at s p1) as [ob p2] eqn:E2.
  destruct ob as [b|]; [|reflexivity].
  destruct (octet_at s p2) as [oc p3] eqn:E3.
  destruct oc as [c|]; [|reflexivity].
  assert (Last : p3 = String.length s ->
                 stoi (substring p3 (String.length s) s) = None).
  { intros ->. rewrite substring_at_end. reflexivity. }
  unfold octet_at in E1.
  destruct (find_char "." 0 s) as [n1|] eqn:F1.
  2:{ inversion E1; subst. rewrite octet_at_end in E2. discriminate E2. }
  destruct (find_char_found _ _ _ F1) as (sa & r1 & Es & L1 & Da).
  inversion E1; subst p1; clear E1.
  assert (F2 : find_char "." (S n1) s = option_map (Nat.add (S n1)) (find_char "." 0 r1)).
  { assert (Len : String.length (sa ++ ".") = S n1)
      by (rewrite length_app; simpl; lia).
    pose proof (find_char_skip "." (sa ++ ".") r1 0) as K.
    rewrite Nat.add_0_r, Len, StringFacts.app_assoc in K. cbn [append] in K.
    rewrite <- Es in K. exact K. }
  unfold octet_at in E2. rewrite F2 in E2.
  destruct (find_char "." 0 r1) as [n2|] eqn:G2; cbn [option_map] in E2.
  2:{ inversion E2; subst. rewrite octet_at_end in E3. discriminate E3. }
  destruct (find_char_found _ _ _ G2) as (sb & r2 & Er & L2 & Db).
  inversion E2; subst p2; clear E2.
  assert (F3 : find_char "." (S (S n1 + n2)) s = None).
  { assert (Len : String.length (sa ++ "." ++ sb ++ ".") = S (S n1 + n2))
      by (rewrite length_app; simpl; rewrite length_app; simpl; lia).
    assert (Dr : occurs "." r2 = O).
    { rewrite Es, Er in H. rewrite occurs_app in H. simpl in H.
      rewrite occurs_app in H. simpl in H. lia. }
    pose proof (find_char_skip "." (sa ++ "." ++ sb ++ ".") r2 0) as K.
    rewrite (find_char_absent "." r2 0 Dr) in K.
    rewrite Nat.add_0_r, Len, !StringFacts.app_assoc in K.
    cbn [append option_map] in K. rewrite <- Er, <- Es in K. exact K. }
  match type of E3 with
  | octet_at s ?p = _ => replace p with (S (S n1 + n2)) in E3 by lia
  end.
  unfold octet_at in E3. rewrite F3 in E3. inversion E3; subst p3.
  rewrite Last by reflexivity. reflexivity.
Qed.

Lemma quad_colon_free (a b c d : Z) :
  0 <= a <= 2 ^ 31 - 1 -> 0 <= b <= 2 ^ 31 - 1 ->
  0 <= c <= 2 ^ 31 - 1 -> 0 <= d <= 2 ^ 31 - 1 ->
  occurs ":" (quad a b c d) = O /\ occurs " " (quad a b c d) = O.
Proof.
  intros Ha Hb Hc Hd.
  destruct (decimal_text a Ha) as (_ & Sa & _ & Ca & _).
  destruct (decimal_text b Hb) as (_ & Sb & _ & Cb & _).
  destruct (decimal_text c Hc) as (_ & Sc & _ & Cc & _).
  destruct (decimal_text d Hd) as (_ & Sd & _ & Cd & _).
  unfold quad. rewrite !occurs_app. cbn [occurs Ascii.eqb Bool.eqb].
  rewrite Ca, Cb, Cc, Cd, Sa, Sb, Sc, Sd. auto.
Qed.

Lemma split_octets_of_quad (a b c d : Z) :
  0 <= a <= 2 ^ 31 - 1 -> 0 <= b <= 2 ^ 31 - 1 ->
  0 <= c <= 2 ^ 31 - 1 -> 0 <= d <= 2 ^ 31 - 1 ->
  split_octets (quad a b c d) = Some (a, b, c, d).
Proof.
  intros Ha Hb Hc Hd.
  destruct (decimal_text a Ha) as (Va & _ & Da & _).
  destruct (decimal_text b Hb) as (Vb & _ & Db & _).
  destruct (decimal_text c Hc) as (Vc & _ & Dc & _).
  destruct (decimal_text d Hd) as (Vd & _).
  unfold quad. rewrite split_octets_quad by assumption.
  rewrite Va, Vb, Vc, Vd. reflexivity.
Qed.

Lemma splitIp_with_port (a b c d p : Z) :
  0 <= a <= 2 ^ 31 - 1 -> 0 <= b <= 2 ^ 31 - 1 ->
  0 <= c <= 2 ^ 31 - 1 -> 0 <= d <= 2 ^ 31 - 1 -> 0 <= p <= 2 ^ 31 - 1 ->
  splitIp (quad a b c d ++ ":" ++ show_int p) = Some (a, b, c, d, p).
Proof.
  intros Ha Hb Hc Hd Hp.
  destruct (quad_colon_free a b c d Ha Hb Hc Hd) as [Cq _].
  pose proof (split_octets_of_quad a b c d Ha Hb Hc Hd) as Oq.
  destruct (decimal_text p Hp) as (Vp & _ & _ & _ & Np).
  destruct (cut_at_colon (quad a b c d) (show_int p) Cq) as (F & S & P).
  rewrite splitIp_parts. cbv zeta. rewrite F, S, P, Oq.
  destruct (show_int p) as [|c0 r0] eqn:E; [contradiction|].
  rewrite Vp. reflexivity.
Qed.

(** X22. An address and its port are read back.  For four numbers and a port
    that are [int]s and not negative, [splitIp] returns them from their
    decimal texts joined by dots and a colon; without a colon, or with
    nothing after it, the port returned is 0. *)
Theorem splitIp_reads_address_and_port (a b c d p : Z) :
  0 <= a <= 2 ^ 31 - 1 -> 0 <= b <= 2 ^ 31 - 1 ->
  0 <= c <= 2 ^ 31 - 1 -> 0 <= d <= 2 ^ 31 - 1 -> 0 <= p <= 2 ^ 31 - 1 ->
  splitIp (quad a b c d ++ ":" ++ show_int p) = Some (a, b, c, d, p)
  /\ splitIp (quad a b c d) = Some (a, b, c, d, 0)
  /\ splitIp (quad a b c d ++ ":") = Some (a, b, c, d, 0).
Proof.
  intros Ha Hb Hc Hd Hp.
  destruct (quad_colon_free a b c d Ha Hb Hc Hd) as [Cq _].
  pose proof (split_octets_of_quad a b c d Ha Hb Hc Hd) as Oq.
  split; [|split].
  - apply splitIp_with_port; assumption.
  - rewrite splitIp_parts. cbv zeta.
    rewrite (find_char_absent ":" _ 0 Cq), Oq. reflexivity.
  - destruct (cut_at_colon (quad a b c d) EmptyString Cq) as (F & S & P).
    cbn [append] in F, S, P.
    rewrite splitIp_parts. cbv zeta. rewrite F, S, P, Oq. reflexivity.
Qed.

Lemma splitIp_reads_address_and_port_witness :
  splitIp "235.99.27.158:6526" = Some (235, 99, 27, 158, 6526)
  /\ splitIp "235.99.27.158" = Some (235, 99, 27, 158, 0).
Proof.
  destruct (splitIp_reads_address_and_port 235 99 27 158 6526) as (P & Q & _);
    try lia.
  split; [exact P | exact Q].
Defined.

(** X23. An address needs four octets.  When the text before the colon (the
    whole text when there is no colon) has fewer than three dots,
    [splitIp] ends in the exception that [stoi] throws for the empty text
    of the missing octet. *)
Theorem splitIp_needs_four_octets (ip port : string) :
  occurs ":" ip = O -> (occurs "." ip < 3)%nat ->
  splitIp ip = None /\ splitIp (ip ++ ":" ++ port) = None.
Proof.
  intros Hc Hd. pose proof (split_octets_short ip Hd) as Short. split.
  - rewrite splitIp_parts. cbv zeta.
    rewrite (find_char_absent ":" _ 0 Hc), Short. reflexivity.
  - destruct (cut_at_colon ip port Hc) as (F & S & P).
    rewrite splitIp_parts. cbv zeta. rewrite F, S, Short.
    destruct (match substring (String.length ip + 1)
                              (String.length (ip ++ ":" ++ port)) (ip ++ ":" ++ port) with
              | EmptyString => Some 0
              | String x y => stoi (String x y)
              end); reflexivity.
Qed.

Lemma splitIp_needs_four_octets_witness :
  splitIp "10.0.5" = None /\ splitIp "10.0.5:80" = None.
Proof.
  exact (splitIp_needs_four_octets "10.0.5"%string "80"%string eq_refl
                                   ltac:(cbn; lia)).
Defined.

(** *** The body of the reading loop *)

Lemma read_entry_tokens {E : Type}
      (mk : Z -> Z -> Z -> Z -> Z -> Z -> Z -> Z -> Z -> Z -> Z -> string -> string -> E)
      (line w1 w2 w3 w4 : string) (p1 p2 p3 p4 : nat) :
  tokenizer line 0 = (w1, p1) -> tokenizer line p1 = (w2, p2) ->
  tokenizer line p2 = (w3, p3) -> tokenizer line p3 = (w4, p4) ->
  read_entry mk line
  = do! reason <- substr line p4 (String.length line);
    do! day <- stoi w2;
    do! hour <- (do! s <- substr w3 0 2; stoi s);
    do! min <- (do! s <- substr w3 3 2; stoi s);
    do! sec <- (do! s <- substr w3 6 2; stoi s);
    do! (ip1, ip2, ip3, ip4, port) <- splitIp w4;
    Some (mk (months_int w1) day hour min sec
             (total_time (months_int w1) day hour min sec)
             ip1 ip2 ip3 ip4 port reason line).
Proof.
  intros T1 T2 T3 T4. unfold read_entry. rewrite T1, T2, T3, T4. reflexivity.
Qed.

(** The four tokens of a line and the text after them. *)
Lemma four_tokens (w1 w2 w3 w4 rest : string) :
  occurs " " w1 = O -> occurs " " w2 = O -> occurs " " w3 = O -> occurs " " w4 = O ->
  let line := (w1 ++ " " ++ w2 ++ " " ++ w3 ++ " " ++ w4 ++ " " ++ rest)%string in
  exists p1 p2 p3 p4,
    tokenizer line 0 = (w1, p1) /\ tokenizer line p1 = (w2, p2)
    /\ tokenizer line p2 = (w3, p3) /\ tokenizer line p3 = (w4, p4)
    /\ substr line p4 (String.length line) = Some rest.
Proof.
  intros H1 H2 H3 H4 line.
  set (q1 := (w1 ++ " ")%string).
  set (q2 := (q1 ++ w2 ++ " ")%string).
  set (q3 := (q2 ++ w3 ++ " ")%string).
  set (q4 := (q3 ++ w4 ++ " ")%string).
  assert (Len : forall pre w, (String.length pre + String.length w + 1)%nat
                              = String.length (pre ++ w ++ " ")).
  { intros pre w. rewrite !length_app. simpl. lia. }
  exists (String.length q1), (String.length q2), (String.length q3), (String.length q4).
  split; [|split; [|split; [|split]]].
  - pose proof (tokenizer_token EmptyString w1
                  (w2 ++ " " ++ w3 ++ " " ++ w4 ++ " " ++ rest) H1) as T.
    rewrite Len in T. exact T.
  - pose proof (tokenizer_token q1 w2 (w3 ++ " " ++ w4 ++ " " ++ rest) H2) as T.
    rewrite Len in T. unfold q1 in T at 1. rewrite !StringFacts.app_assoc in T.
    exact T.
  - pose proof (tokenizer_token q2 w3 (w4 ++ " " ++ rest) H3) as T.
    rewrite Len in T. unfold q2 in T at 1. unfold q1 in T at 1.
    rewrite !StringFacts.app_assoc in T. exact T.
  - pose proof (tokenizer_token q3 w4 rest H4) as T.
    rewrite Len in T. unfold q3 in T at 1. unfold q2 in T at 1. unfold q1 in T at 1.
    rewrite !StringFacts.app_assoc in T. exact T.
  - assert (El : line = (q4 ++ rest)%string).
    { unfold line, q4, q3, q2, q1. rewrite !StringFacts.app_assoc. reflexivity. }
    unfold substr. rewrite El.
    destruct (Nat.leb_spec (String.length q4) (String.length (q4 ++ rest))) as [_|G].
    + rewrite substring_tail; [reflexivity|]. rewrite length_app. lia.
    + rewrite length_app in G. lia.
Qed.

(** The time of day as the log writes it. *)
Definition clock (h mi s : Z) : string :=
  (two_digits h ++ ":" ++ two_digits mi ++ ":" ++ two_digits s)%string.

(** X24. A line of the log format is read back.  For a first word without a
    blank, a day, an address of four numbers and a port that are [int]s
    and not negative, a time of three numbers of two digits, and any
    text as reason, the body of the reading loop fills the record with the
    number of the month (-1 for a word that is no month), these numbers,
    [total_time] of the date, the reason and the line itself. *)
Theorem read_entry_reads_a_line {E : Type}
        (mk : Z -> Z -> Z -> Z -> Z -> Z -> Z -> Z -> Z -> Z -> Z -> string -> string -> E)
        (mon reason : string) (day h mi s a b c d p : Z) :
  occurs " " mon = O ->
  0 <= day <= 2 ^ 31 - 1 ->
  0 <= h <= 99 -> 0 <= mi <= 99 -> 0 <= s <= 99 ->
  0 <= a <= 2 ^ 31 - 1 -> 0 <= b <= 2 ^ 31 - 1 ->
  0 <= c <= 2 ^ 31 - 1 -> 0 <= d <= 2 ^ 31 - 1 -> 0 <= p <= 2 ^ 31 - 1 ->
  let line := (mon ++ " " ++ show_int day ++ " " ++ clock h mi s ++ " "
                   ++ (quad a b c d ++ ":" ++ show_int p) ++ " " ++ reason)%string in
  read_entry mk line
  = Some (mk (months_int mon) day h mi s (total_time (months_int mon) day h mi s)
             a b c d p reason line).
Proof.
  intros Hmon Hday Hh Hmi Hs Ha Hb Hc Hd Hp line.
  destruct (decimal_text day Hday) as (Vday & Sday & _).
  destruct (two_digits_text h Hh) as [Vh Sh].
  destruct (two_digits_text mi Hmi) as [Vmi Smi].
  destruct (two_digits_text s Hs) as [Vs Ss].
  destruct (quad_colon_free a b c d Ha Hb Hc Hd) as [_ Sq].
  destruct (decimal_text p Hp) as (_ & Sp & _).
  pose proof (splitIp_with_port a b c d p Ha Hb Hc Hd Hp) as Split.
  assert (Sclock : occurs " " (clock h mi s) = O).
  { unfold clock. rewrite !occurs_app. cbn [occurs Ascii.eqb Bool.eqb].
    rewrite Sh, Smi, Ss. reflexivity. }
  assert (Sip : occurs " " (quad a b c d ++ ":" ++ show_int p) = O).
  { rewrite !occurs_app. cbn [occurs Ascii.eqb Bool.eqb]. rewrite Sq, Sp. reflexivity. }
  destruct (four_tokens mon (show_int day) (clock h mi s)
                        (quad a b c d ++ ":" ++ show_int p) reason
                        Hmon Sday Sclock Sip)
    as (p1 & p2 & p3 & p4 & T1 & T2 & T3 & T4 & R).
  fold line in T1, T2, T3, T4, R.
  rewrite (read_entry_tokens mk line _ _ _ _ _ _ _ _ T1 T2 T3 T4).
  rewrite R, Vday.
  change (substr (clock h mi s) 0 2) with (Some (two_digits h)).
  change (substr (clock h mi s) 3 2) with (Some (two_digits mi)).
  change (substr (clock h mi s) 6 2) with (Some (two_digits s)).
  cbv beta iota. rewrite Vh, Vmi, Vs, Split. reflexivity.
Qed.

Lemma read_entry_reads_a_line_witness :
  Act23Text.read_line "Jul 18 07:53:22 235.99.27.158:6526 Illegal user"
  = Some (Act23.mkEntry 7 18 7 53 22 (total_time 7 18 7 53 22) 235 99 27 158 6526
                        "Illegal user"
                        "Jul 18 07:53:22 235.99.27.158:6526 Illegal user").
Proof.
  refine (read_entry_reads_a_line Act23.mkEntry "Jul" "Illegal user"
            18 7 53 22 235 99 27 158 6526 eq_refl _ _ _ _ _ _ _ _ _); lia.
Defined.

(** *** Lines that end the program *)

Lemma read_entry_no_day {E : Type}
      (mk : Z -> Z -> Z -> Z -> Z -> Z -> Z -> Z -> Z -> Z -> Z -> string -> string -> E)
      (line w1 : string) (p1 p2 : nat) :
  tokenizer line 0 = (w1, p1) -> tokenizer line p1 = (EmptyString, p2) ->
  read_entry mk line = None.
Proof.
  intros T1 T2.
  destruct (tokenizer line p2) as [w3 p3] eqn:T3.
  destruct (tokenizer line p3) as [w4 p4] eqn:T4.
  rewrite (read_entry_tokens mk line _ _ _ _ _ _ _ _ T1 T2 T3 T4).
  destruct (substr line p4 (String.length line)); reflexivity.
Qed.

Lemma read_entry_no_blank {E : Type}
      (mk : Z -> Z -> Z -> Z -> Z -> Z -> Z -> Z -> Z -> Z -> Z -> string -> string -> E)
      (line : string) :
  occurs " " line = O -> read_entry mk line = None.
Proof.
  intros H. destruct line as [|c r] eqn:El.
  - apply (read_entry_no_day mk EmptyString EmptyString 0 0); reflexivity.
  - rewrite <- El in *.
    apply (read_entry_no_day mk line line (String.length line) (String.length line)).
    + apply (tokenizer_last EmptyString line H). rewrite El. discriminate.
    + apply tokenizer_at_end. lia.
Qed.

Lemma read_entry_two_blanks {E : Type}
      (mk : Z -> Z -> Z -> Z -> Z -> Z -> Z -> Z -> Z -> Z -> Z -> string -> string -> E)
      (mon rest : string) :
  occurs " " mon = O -> read_entry mk (mon ++ "  " ++ rest) = None.
Proof.
  intros H.
  apply (read_entry_no_day mk _ mon (String.length (mon ++ " "))
                           (String.length (mon ++ " ") + 1)).
  - pose proof (tokenizer_token EmptyString mon (" " ++ rest) H) as T.
    cbn [append String.length] in T |- *. rewrite T. f_equal.
    rewrite length_app. simpl. lia.
  - pose proof (tokenizer_token (mon ++ " ") EmptyString rest eq_refl) as T.
    rewrite StringFacts.app_assoc in T. cbn [append String.length] in T |- *.
    rewrite T. f_equal. lia.
Qed.

Lemma read_log_throws {E : Type} (read : string -> option E) (lines : list string)
      (line : string) :
  In line lines -> read line = None -> read_log read lines = None.
Proof.
  intros Hin Hn. induction lines as [|l rest IH]; [destruct Hin|].
  cbn [read_log]. destruct Hin as [->|Hin].
  - rewrite Hn. reflexivity.
  - destruct (read l); [|reflexivity]. rewrite (IH Hin). reflexivity.
Qed.

(** X25. A line without a day ends the program.  The body of the reading
    loop (the same in the top-five and in the range-search program) ends
    in the exception of [stoi] on every line without a blank, the empty
    line among them, and on every line with two blanks after its first
    word; nothing catches it, so a file with such a line ends either
    program before it has written anything, whatever the other lines and
    the input are. *)
Theorem line_without_a_day_ends_the_program :
  (forall line, occurs " " line = O ->
                Act34Text.read_line line = None /\ Act23Text.read_line line = None)
  /\ (forall mon rest, occurs " " mon = O ->
        Act34Text.read_line (mon ++ "  " ++ rest) = None
        /\ Act23Text.read_line (mon ++ "  " ++ rest) = None)
  /\ (forall lines line input,
        In line lines ->
        occurs " " line = O
        \/ (exists mon rest, occurs " " mon = O /\ line = (mon ++ "  " ++ rest)%string) ->
        Act34Text.main (Some lines) = None
        /\ Act23Text.main (Some lines) input = Act23Text.Terminated None).
Proof.
  split; [|split].
  - intros line H. split; apply read_entry_no_blank; exact H.
  - intros mon rest H. split; apply read_entry_two_blanks; exact H.
  - intros lines line input Hin H.
    assert (T : forall (E : Type) mk, @read_entry E mk line = None).
    { intros E mk. destruct H as [H|(mon & rest & H & ->)].
      - apply read_entry_no_blank. exact H.
      - apply read_entry_two_blanks. exact H. }
    split.
    + unfold Act34Text.main.
      rewrite (read_log_throws Act34Text.read_line lines line Hin); [reflexivity|].
      apply T.
    + unfold Act23Text.main.
      rewrite (read_log_throws Act23Text.read_line lines line Hin); [reflexivity|].
      apply T.
Qed.

Lemma line_without_a_day_ends_the_program_witness :
  Act34Text.main (Some [ "Jul 18 07:53:22 235.99.27.158:6526 Illegal user";
                         EmptyString ]%string) = None
  /\ Act23Text.read_line "Jun  4 07:53:22 10.0.0.1:6526 timeout" = None.
Proof.
  destruct line_without_a_day_ends_the_program as (_ & Two & Run). split.
  - apply (Run _ EmptyString []); [right; left; reflexivity | left; reflexivity].
  - apply (Two "Jun"%string "4 07:53:22 10.0.0.1:6526 timeout"%string eq_refl).
Defined.

(** *** [total_time] *)

(** X26. The time key is the date.  For two dates with day 1 to 31, hour 0 to
    23 and minute and second 0 to 59, [total_time] of the first is below
    [total_time] of the second exactly when the first date is earlier
    (month, day, hour, minute and second compared in this order), and the
    two are equal only for the same date; and for arguments that are
    [int]s the value is within [long long], so the C++ arithmetic does not
    overflow. *)
Theorem total_time_is_the_date (m d h mi s m' d' h' mi' s' : Z) :
  1 <= d <= 31 -> 0 <= h <= 23 -> 0 <= mi <= 59 -> 0 <= s <= 59 ->
  1 <= d' <= 31 -> 0 <= h' <= 23 -> 0 <= mi' <= 59 -> 0 <= s' <= 59 ->
  (total_time m d h mi s < total_time m' d' h' mi' s'
   <-> m < m'
       \/ (m = m' /\ (d < d'
            \/ (d = d' /\ (h < h'
                 \/ (h = h' /\ (mi < mi' \/ (mi = mi' /\ s < s'))))))))
  /\ (total_time m d h mi s = total_time m' d' h' mi' s'
      <-> m = m' /\ d = d' /\ h = h' /\ mi = mi' /\ s = s')
  /\ (- 2 ^ 31 <= m <= 2 ^ 31 - 1 ->
      - 2 ^ 63 <= total_time m d h mi s <= 2 ^ 63 - 1)
  /\ Act34.total_time m d h mi s = total_time m d h mi s
  /\ Act23.total_time m d h mi s = total_time m d h mi s.
Proof.
  intros Hd Hh Hmi Hs Hd' Hh' Hmi' Hs'. unfold total_time.
  split; [|split; [|split; [|split]]]; try reflexivity; try lia.
Qed.

Lemma total_time_is_the_date_witness :
  total_time 7 31 23 59 59 < total_time 8 1 0 0 0.
Proof.
  refine (proj2 (proj1 (total_time_is_the_date 7 31 23 59 59 8 1 0 0 0
                                               _ _ _ _ _ _ _ _)) _); lia.
Defined.

End LogLineFacts.

(** ** The records of one address in the top-five program *)

Module Act34Groups.

Import Act34 Act34Facts.

(** [a] is earlier than [b], or as early and with the smaller reason. *)
Definition earlier (a b : entry) : Prop :=
  totalTime a < totalTime b
  \/ (totalTime a = totalTime b /\ Act23Facts.string_lt (reason a) (reason b)).

Lemma lessEntry_earlier (a b : entry) : lessEntry a b = true <-> earlier a b.
Proof.
  unfold lessEntry, earlier.
  destruct (Z.eqb_spec (totalTime a) (totalTime b)) as [E|N]; simpl.
  - rewrite Act23Facts.ltb_spec. split; [auto | intros [H|[_ H]]; [lia | exact H]].
  - rewrite Z.ltb_lt. split; [auto | intros [H|[H _]]; [exact H | contradiction]].
Qed.

Lemma earlier_asym (a b : entry) : earlier a b -> earlier b a -> False.
Proof.
  unfold earlier. intros [H|[E H]] [G|[F G]]; try lia.
  apply (Act23Facts.string_lt_irrefl (reason a)).
  apply (Act23Facts.string_lt_trans _ _ _ H G).
Qed.

Lemma earlier_neg_trans (a b c : entry) :
  ~ earlier b a -> ~ earlier c b -> ~ earlier c a.
Proof.
  unfold earlier. intros H G K.
  destruct (Z.lt_trichotomy (totalTime a) (totalTime b)) as [L|[E|L]];
    [| |apply H; left; exact L].
  - destruct (Z.lt_trichotomy (totalTime b) (totalTime c)) as [L2|[E2|L2]];
      [| |apply G; left; exact L2]; destruct K as [K|[K _]]; lia.
  - destruct (Z.lt_trichotomy (totalTime b) (totalTime c)) as [L2|[E2|L2]];
      [| |apply G; left; exact L2].
    + destruct K as [K|[K _]]; lia.
    + destruct K as [K|[_ K]]; [lia|].
      destruct (Act23Facts.string_trichotomy (reason a) (reason b)) as [S|[S|S]];
        [| |apply H; right; split; [lia | exact S]].
      * apply G. right. split; [lia|].
        apply (Act23Facts.string_lt_trans _ _ _ K S).
      * apply G. right. split; [lia|]. rewrite <- S. exact K.
Qed.

Lemma lessEntry_not_earlier (a b : entry) : lessEntry a b = false <-> ~ earlier a b.
Proof.
  rewrite <- lessEntry_earlier. destruct (lessEntry a b); split; congruence.
Qed.

(** X27. The lines of an address come out by time.  In every group of
    [ipDataList], and so in each of the groups that are printed, no
    record is followed by one that is earlier, or as early with a smaller
    reason; the lines of a group are written in this order. *)
Theorem group_entries_are_in_time_order (log : list entry) (d : IPData) :
  In d (ipDataList log) ->
  StronglySorted
    (fun a b =>
       totalTime a < totalTime b
       \/ (totalTime a = totalTime b
           /\ ~ Act23Facts.string_lt (reason b) (reason a)))
    (entries d)
  /\ print_group d
     = String.concat EmptyString (map (fun e => originLine e ++ endl)%string (entries d)).
Proof.
  intros Hd. split; [|reflexivity].
  unfold ipDataList in Hd.
  apply (Permutation_in _ (Permutation_sym (std_sort_perm by_count_then_ip _))) in Hd.
  apply in_map_iff in Hd. destruct Hd as ([k v] & <- & _).
  unfold make_data. cbn [entries snd].
  assert (O : ordered lessEntry (std_sort lessEntry v)).
  { apply std_sort_ordered.
    - intros a b H. apply lessEntry_not_earlier. apply lessEntry_earlier in H.
      intros G. exact (earlier_asym a b H G).
    - intros a b c H G. apply lessEntry_not_earlier. apply lessEntry_not_earlier in H, G.
      exact (earlier_neg_trans a b c H G). }
  unfold ordered in O. induction O as [|a r Sr IH Fa]; constructor; auto.
  rewrite Forall_forall in *. intros b Hb. specialize (Fa b Hb).
  apply lessEntry_not_earlier in Fa. unfold earlier in Fa.
  destruct (Z.lt_trichotomy (totalTime a) (totalTime b)) as [L|[E|L]].
  - left. exact L.
  - right. split; [exact E|]. intros S. apply Fa. right. split; [lia | exact S].
  - exfalso. apply Fa. left. exact L.
Qed.

Lemma group_entries_are_in_time_order_witness :
  Forall (fun d =>
            StronglySorted
              (fun a b =>
                 totalTime a < totalTime b
                 \/ (totalTime a = totalTime b
                     /\ ~ Act23Facts.string_lt (reason b) (reason a)))
              (entries d))
         (ipDataList six_addresses).
Proof.
  apply Forall_forall. intros d Hd.
  apply (group_entries_are_in_time_order six_addresses d Hd).
Defined.

End Act34Groups.

(** ** The halves, the bounds and the range of the range-search program *)

Module Act23Search.

Import Act23 Act23Facts.

(** *** The split of [mergeSortList] *)

Lemma slow_moves_half (n : nat) (l : list entry) :
  (List.length l <= n)%nat -> l <> [] ->
  S (slow_moves l) = ((List.length l + 1) / 2)%nat.
Proof.
  revert l. induction n as [|n IH]; intros l Hn Hl.
  - destruct l; [congruence | simpl in Hn; lia].
  - destruct l as [|a [|b [|c r]]]; [congruence | reflexivity | reflexivity |].
    assert (H : S (slow_moves (c :: r)) = ((List.length (c :: r) + 1) / 2)%nat).
    { apply IH; [simpl in *; lia | discriminate]. }
    change (slow_moves (a :: b :: c :: r)) with (S (slow_moves (c :: r))).
    rewrite H. cbn [List.length].
    replace (S (S (S (List.length r))) + 1)%nat
      with (S (List.length r) + 1 + 1 * 2)%nat by lia.
    rewrite Nat.div_add by lia. lia.
Qed.

Lemma sort_depth_more_fuel (fuel : nat) (l : list entry) :
  (List.length l <= fuel)%nat -> sort_depth (S fuel) l = sort_depth fuel l.
Proof.
  revert l. induction fuel as [|fuel IH]; intros l H.
  - destruct l; [reflexivity | simpl in H; lia].
  - destruct l as [|a [|b r]]; [reflexivity | reflexivity |].
    set (l := a :: b :: r) in *.
    assert (B : (2 * slow_moves l + 1 <= List.length l)%nat)
      by (apply (slow_moves_bound (List.length l)); [lia | discriminate]).
    assert (L2 : (2 <= List.length l)%nat) by (simpl; lia).
    set (cut := S (slow_moves l)).
    change (sort_depth (S (S fuel)) l)
      with (mergeSortedLists (sort_depth (S fuel) (firstn cut l))
                             (sort_depth (S fuel) (skipn cut l))).
    change (sort_depth (S fuel) l)
      with (mergeSortedLists (sort_depth fuel (firstn cut l))
                             (sort_depth fuel (skipn cut l))).
    rewrite !IH; [reflexivity | |].
    + rewrite length_skipn. unfold cut. lia.
    + rewrite length_firstn. unfold cut. lia.
Qed.

Lemma sort_depth_enough (fuel : nat) (l : list entry) :
  (List.length l <= fuel)%nat -> sort_depth fuel l = mergeSortList l.
Proof.
  unfold mergeSortList. intros H.
  replace fuel with ((fuel - List.length l) + List.length l)%nat by lia.
  induction (fuel - List.length l)%nat as [|k IH]; [reflexivity|].
  cbn [Nat.add]. rewrite sort_depth_more_fuel by lia. exact IH.
Qed.

(** X28. The list is cut in the middle.  For a list of two or more records,
    [mergeSortList] cuts after the first half of the nodes, rounded up,
    so that both parts are shorter than the list and not empty, and it
    returns the merge of the two parts, each sorted by [mergeSortList]. *)
Theorem merge_sort_cuts_in_the_middle (l : list entry) :
  (2 <= List.length l)%nat ->
  let cut := S (slow_moves l) in
  cut = ((List.length l + 1) / 2)%nat
  /\ List.length (firstn cut l) = ((List.length l + 1) / 2)%nat
  /\ List.length (skipn cut l) = (List.length l / 2)%nat
  /\ (0 < List.length (skipn cut l) < List.length l)%nat
  /\ (0 < List.length (firstn cut l) < List.length l)%nat
  /\ mergeSortList l
     = mergeSortedLists (mergeSortList (firstn cut l)) (mergeSortList (skipn cut l)).
Proof.
  intros H cut.
  assert (Hl : l <> []) by (destruct l; [simpl in H; lia | discriminate]).
  pose proof (slow_moves_half (List.length l) l (le_n _) Hl) as C.
  fold cut in C.
  pose proof (Nat.div_mod_eq (List.length l + 1) 2) as D1.
  pose proof (Nat.mod_upper_bound (List.length l + 1) 2 ltac:(lia)) as M1.
  pose proof (Nat.div_mod_eq (List.length l) 2) as D2.
  pose proof (Nat.mod_upper_bound (List.length l) 2 ltac:(lia)) as M2.
  assert (L1 : List.length (firstn cut l) = cut) by (rewrite length_firstn; lia).
  assert (L2 : List.length (skipn cut l) = (List.length l - cut)%nat)
    by apply length_skipn.
  split; [exact C|]. split; [lia|]. split; [lia|]. split; [lia|]. split; [lia|].
  unfold mergeSortList at 1.
  destruct l as [|a [|b r]]; [simpl in H; lia | simpl in H; lia |].
  set (l := a :: b :: r) in *.
  change (sort_depth (List.length l) l)
    with (mergeSortedLists (sort_depth (S (List.length r)) (firstn cut l))
                           (sort_depth (S (List.length r)) (skipn cut l))).
  rewrite !sort_depth_enough; [reflexivity | |].
  - rewrite L2. unfold l. simpl List.length. lia.
  - rewrite L1. unfold l in *. simpl List.length in *. lia.
Qed.

Lemma merge_sort_cuts_in_the_middle_witness :
  S (slow_moves gap_log) = 1%nat
  /\ mergeSortList gap_log
     = mergeSortedLists (mergeSortList (firstn 1 gap_log))
                        (mergeSortList (skipn 1 gap_log)).
Proof.
  destruct (merge_sort_cuts_in_the_middle gap_log) as (C & _ & _ & _ & _ & M).
  - simpl. lia.
  - split; [exact C | exact M].
Defined.

(** *** [lowerBoundIP] and [upperBoundIP] *)

Lemma lower_scan_first (rest : list entry) (pos : nat) (key : Z) :
  match lower_scan rest pos key with
  | Some q =>
      (pos <= q < pos + List.length rest)%nat
      /\ key <= ipVal (nth (q - pos) rest dummy)
      /\ forall j, (j < q - pos)%nat -> ipVal (nth j rest dummy) < key
  | None => forall j, (j < List.length rest)%nat -> ipVal (nth j rest dummy) < key
  end.
Proof.
  revert pos. induction rest as [|e rest IH]; intros pos; cbn [lower_scan].
  - intros j Hj. simpl in Hj. lia.
  - destruct (Z.geb_spec (ipVal e) key) as [G|L].
    + rewrite Nat.sub_diag. cbn [List.length nth]. split; [lia|]. split; [lia|].
      intros j Hj. lia.
    + specialize (IH (S pos)). destruct (lower_scan rest (S pos) key) as [q|].
      * destruct IH as (R & V & B). cbn [List.length].
        replace (q - pos)%nat with (S (q - S pos)) by lia. cbn [nth].
        split; [lia|]. split; [exact V|].
        intros [|j] Hj; [exact L | apply B; lia].
      * intros [|j] Hj; [exact L | apply IH; simpl in Hj; lia].
Qed.

Lemma upper_scan_first (rest : list entry) (pos : nat) (key : Z) :
  match upper_scan rest pos key with
  | Some q =>
      (pos <= q < pos + List.length rest)%nat
      /\ key < ipVal (nth (q - pos) rest dummy)
      /\ forall j, (j < q - pos)%nat -> ipVal (nth j rest dummy) <= key
  | None => forall j, (j < List.length rest)%nat -> ipVal (nth j rest dummy) <= key
  end.
Proof.
  revert pos. induction rest as [|e rest IH]; intros pos; cbn [upper_scan].
  - intros j Hj. simpl in Hj. lia.
  - destruct (Z.gtb_spec (ipVal e) key) as [G|L].
    + rewrite Nat.sub_diag. cbn [List.length nth]. split; [lia|]. split; [lia|].
      intros j Hj. lia.
    + specialize (IH (S pos)). destruct (upper_scan rest (S pos) key) as [q|].
      * destruct IH as (R & V & B). cbn [List.length].
        replace (q - pos)%nat with (S (q - S pos)) by lia. cbn [nth].
        split; [lia|]. split; [exact V|].
        intros [|j] Hj; [exact L | apply B; lia].
      * intros [|j] Hj; [exact L | apply IH; simpl in Hj; lia].
Qed.

(** X29. The bounds are the first nodes that qualify.  From the node at
    position [p] on, [lowerBoundIP] returns the first node whose address
    value is at least the key and [upperBoundIP] the first whose value is
    above it: all nodes between [p] and the result fail the test; the
    result is the null pointer exactly when all nodes from [p] on fail
    it, and always when the start is the null pointer. *)
Theorem bounds_are_the_first_nodes (l : list entry) (p : nat) (key : Z) :
  match lowerBoundIP l (Some p) key with
  | Some q =>
      (p <= q < List.length l)%nat
      /\ key <= ipVal (nth q l dummy)
      /\ forall j, (p <= j < q)%nat -> ipVal (nth j l dummy) < key
  | None => forall j, (p <= j < List.length l)%nat -> ipVal (nth j l dummy) < key
  end
  /\ match upperBoundIP l (Some p) key with
     | Some q =>
         (p <= q < List.length l)%nat
         /\ key < ipVal (nth q l dummy)
         /\ forall j, (p <= j < q)%nat -> ipVal (nth j l dummy) <= key
     | None => forall j, (p <= j < List.length l)%nat -> ipVal (nth j l dummy) <= key
     end
  /\ lowerBoundIP l None key = None
  /\ upperBoundIP l None key = None.
Proof.
  assert (Nth : forall j, (p <= j)%nat -> nth (j - p) (skipn p l) dummy = nth j l dummy).
  { intros j Hj. rewrite nth_skipn. f_equal. lia. }
  pose proof (length_skipn p l) as Len.
  split; [|split; [|split; reflexivity]].
  - unfold lowerBoundIP. pose proof (lower_scan_first (skipn p l) p key) as H.
    destruct (lower_scan (skipn p l) p key) as [q|].
    + destruct H as (R & V & B). rewrite Nth in V by lia.
      split; [lia|]. split; [exact V|].
      intros j Hj. rewrite <- Nth by lia. apply B. lia.
    + intros j Hj. rewrite <- Nth by lia. apply H. lia.
  - unfold upperBoundIP. pose proof (upper_scan_first (skipn p l) p key) as H.
    destruct (upper_scan (skipn p l) p key) as [q|].
    + destruct H as (R & V & B). rewrite Nth in V by lia.
      split; [lia|]. split; [exact V|].
      intros j Hj. rewrite <- Nth by lia. apply B. lia.
    + intros j Hj. rewrite <- Nth by lia. apply H. lia.
Qed.

(** *** The range that is printed *)

Lemma inside_perm (lo hi : Z) (l l' : list entry) :
  Permutation l l' -> Permutation (inside lo hi l) (inside lo hi l').
Proof.
  unfold inside. induction 1 as [|x l l' P IH|x y l|l l' l'' P1 IH1 P2 IH2]; simpl.
  - constructor.
  - destruct ((lo <=? ipVal x) && (ipVal x <=? hi))%bool; auto.
  - destruct ((lo <=? ipVal x) && (ipVal x <=? hi))%bool;
      destruct ((lo <=? ipVal y) && (ipVal y <=? hi))%bool; auto using perm_swap.
  - eapply perm_trans; eauto.
Qed.

Lemma filter_sorted {A : Type} (R : A -> A -> Prop) (f : A -> bool) (l : list A) :
  StronglySorted R l -> StronglySorted R (filter f l).
Proof.
  induction 1 as [|x l Sl IH Fx]; simpl; [constructor|].
  destruct (f x); auto. constructor; auto.
  rewrite Forall_forall in *. intros y Hy. apply filter_In in Hy. apply Fx. tauto.
Qed.

Lemma rev_sorted {A : Type} (R : A -> A -> Prop) (l : list A) :
  StronglySorted R l -> StronglySorted (fun a b => R b a) (rev l).
Proof.
  induction 1 as [|x l Sl IH Fx]; simpl; [constructor|].
  assert (G : forall l1 : list A,
             StronglySorted (fun a b => R b a) l1 ->
             Forall (fun y => R x y) l1 ->
             StronglySorted (fun a b => R b a) (l1 ++ [x])).
  { induction 1 as [|y l1 S1 IH1 Fy]; intros F; simpl.
    - repeat constructor.
    - inversion F; subst. constructor; auto.
      apply Forall_app. split; auto. }
  apply G; auto. apply Forall_forall. intros y Hy.
  rewrite Forall_forall in Fx. apply Fx. apply in_rev. exact Hy.
Qed.

(** X30. The range search where it is right.  For a log of dotted-quad
    addresses and a range given in either order, whenever some record
    lies in the range, or no record lies below it, or none lies above it,
    the program prints exactly the records of the log in the range, from
    the highest address down. *)
Theorem range_prints_what_lies_in_it (log : list entry) (lo hi : Z) :
  (forall e, In e log -> dotted e) -> lo <= hi ->
  let l := mergeSortList log in
  inside lo hi l <> [] \/ below lo l = [] \/ above hi l = [] ->
  range_records l lo hi = rev (inside lo hi l)
  /\ range_records l hi lo = rev (inside lo hi l)
  /\ Permutation (rev (inside lo hi l)) (inside lo hi log)
  /\ StronglySorted (fun a b => ipVal b <= ipVal a) (rev (inside lo hi l)).
Proof.
  intros Hd Hlh l Case.
  destruct (range_of_sorted_log log lo hi Hd Hlh) as [R Swap]. fold l in R, Swap.
  assert (P : Permutation log l).
  { unfold l, mergeSortList.
    apply (sort_depth_spec (List.length log) log (le_n _)). }
  assert (Srt : by_address l).
  { unfold l, mergeSortList.
    destruct (sort_depth_spec (List.length log) log (le_n _)) as (P' & O & _).
    apply ordered_by_address; auto.
    intros e He. apply Hd. apply (Permutation_in _ (Permutation_sym P')). exact He. }
  assert (E : range_records l lo hi = rev (inside lo hi l)).
  { rewrite R. destruct (inside lo hi l) as [|x r] eqn:I; [|reflexivity].
    destruct (above hi l) as [|y r'] eqn:A; [reflexivity|].
    destruct Case as [C|[C|C]]; [congruence | rewrite C; reflexivity | discriminate]. }
  split; [exact E|]. split; [rewrite Swap; exact E|]. split.
  - apply perm_trans with (inside lo hi l); [apply Permutation_sym, Permutation_rev|].
    apply inside_perm. apply Permutation_sym. exact P.
  - apply (rev_sorted (fun a b => ipVal a <= ipVal b)).
    unfold inside. apply filter_sorted. exact Srt.
Qed.

Lemma range_prints_what_lies_in_it_witness :
  let l := mergeSortList gap_log in
  range_records l (ip_value 10 0 0 1) (ip_value 10 0 0 3)
  = rev (inside (ip_value 10 0 0 1) (ip_value 10 0 0 3) l).
Proof.
  intros l.
  destruct (range_prints_what_lies_in_it gap_log (ip_value 10 0 0 1) (ip_value 10 0 0 3))
    as (E & _).
  - intros e He. simpl in He.
    destruct He as [<-|[<-|[]]]; unfold dotted, IPOrder.octet; simpl; lia.
  - vm_compute. discriminate.
  - left. vm_compute. discriminate.
  - exact E.
Defined.

End Act23Search.
